(** * SnowflakeCreator: the geometry, replication and baking core

    A shallow embedding of the TypeScript sources

    - [drawing.ts]  (two revisions: the earlier one without line mode, and the
      later one with the radius limit, [clipLineToWedge] and [simplifyPath]),
    - [snapping.ts],
    - [symmetry.ts] ([SymmetryManager]: replication and transform baking),
    - [ui.ts] (the callbacks of [setupDrawingSymmetry] between the two
      managers, and the undo and clear handlers),

    together with the properties stated about them.

    Numbers.  A JavaScript [number] is modelled as a real number ([R]):
    rounding error, NaN and the infinities are not modelled.  The one IEEE
    feature that decides a branch of this code, the sign of a zero given to
    [Math.atan2], is kept (see [Math_atan2]).  A division by zero has the
    value 0 here where JavaScript has NaN or an infinity; the source guards
    its divisions, or tests the quotient with [t > 0], which fails both for
    0 and for NaN.  Inside the baker, where [parseFloat] can fail, a number
    is an [option R] and [None] stands for NaN.  [parseFloat] reads a sign,
    digits and a fraction (no exponent), and [toFixed] writes digits (not
    the exponent form JavaScript uses from 1e21 on).

    Strings.  A JavaScript string is modelled as a [list ascii] of code units
    below 256.

    Recursion.  [simplifyPath] takes fuel: the source recurses without end
    on some inputs (see [simplifyPath_negative_epsilon_diverges]). *)

From Stdlib Require Import ZArith QArith Reals Lra Lia Psatz.
From Stdlib Require Import List Bool Ascii String.
From stdpp Require Import gmap.
Import ListNotations.

#[local] Open Scope R_scope.

(** ** Numbers *)

(** The comparisons [a < b] and [a <= b] of two numbers, as booleans. *)
Definition Rltb (a b : R) : bool := if Rlt_dec a b then true else false.
Definition Rleb (a b : R) : bool := if Rle_dec a b then true else false.
Definition Reqb (a b : R) : bool := if Req_dec_T a b then true else false.

(** The sign of an IEEE zero. *)
Inductive zero_sign : Set := PosZero | NegZero.

(** [Math.atan2(y, x)] for a [y] whose zero is [+0].  [xz] is the sign of [x]
    when [x] is a zero: [atan2(+0, -0)] is [PI] while [atan2(+0, +0)] is [0].
    For [x < 0] and [y = +0] the result is [PI]. *)
Definition Math_atan2 (y x : R) (xz : zero_sign) : R :=
  if Rltb 0 x then atan (y / x)
  else if Rltb x 0 then
    if Rleb 0 y then atan (y / x) + PI else atan (y / x) - PI
  else if Rltb 0 y then PI / 2
  else if Rltb y 0 then - (PI / 2)
  else match xz with PosZero => 0 | NegZero => PI end.

(** ** drawing.ts: points *)

Record Point : Set := mkPoint { x : R; y : R }.

(** The default [center] argument, [{ x: 500, y: 500 }]. *)
Definition defaultCenter : Point := mkPoint 500 500.

(** The angle of [point] seen from [center] in degrees, as both revisions of
    [isPointInWedge] compute it: [Math.atan2(dx, -dy) * (180 / Math.PI)], plus
    360 when negative.  [dx] is a difference, so a zero [dx] is [+0]; [-dy]
    negates a difference, so a zero [-dy] is [-0]. *)
Definition wedgeAngle (point center : Point) : R :=
  let dx := x point - x center in
  let dy := y point - y center in
  let angle := Math_atan2 dx (- dy) NegZero * (180 / PI) in
  if Rltb angle 0 then angle + 360 else angle.

(** [distance] of [isPointInWedge]: [Math.sqrt(dx * dx + dy * dy)]. *)
Definition centerDistance (point center : Point) : R :=
  let dx := x point - x center in
  let dy := y point - y center in
  sqrt (dx * dx + dy * dy).

(** *** The earlier revision (src/drawing.ts, no line mode) *)
Module DrawingV1.

(** [isPointInWedge(point, center)]: the angle test alone. *)
Definition isPointInWedge (point center : Point) : bool :=
  let dx := x point - x center in
  let dy := y point - y center in
  let angle := Math_atan2 dx (- dy) NegZero * (180 / PI) in
  let angle := if Rltb angle 0 then angle + 360 else angle in
  Rleb 0 angle && Rleb angle 30.

End DrawingV1.

(** *** The later revision (line mode, clipping, simplification) *)
Module Drawing.

(** [isPointInWedge(point, center)]: radius limit, then the angle test. *)
Definition isPointInWedge (point center : Point) : bool :=
  let dx := x point - x center in
  let dy := y point - y center in
  let distance := sqrt (dx * dx + dy * dy) in
  if Rltb 400 distance then false
  else
    let angle := Math_atan2 dx (- dy) NegZero * (180 / PI) in
    let angle := if Rltb angle 0 then angle + 360 else angle in
    Rleb 0 angle && Rleb angle 30.

(** [t < minT], where [minT] starts as [Infinity] ([None]). *)
Definition belowMinT (t : R) (minT : option R) : bool :=
  match minT with
  | None => true
  | Some m => Rltb t m
  end.

(** [clipLineToWedge(start, end, center)].  The two variables the source
    assigns, [closestIntersection] and [minT], are rebound after each of the
    three blocks. *)
Definition clipLineToWedge (start end_ center : Point) : Point :=
  if isPointInWedge end_ center then end_
  else
    let dx := x end_ - x start in
    let dy := y end_ - y start in
    let closestIntersection := end_ in
    let minT : option R := None in
    (* radius boundary *)
    let a := dx * dx + dy * dy in
    let b := 2 * ((x start - x center) * dx + (y start - y center) * dy) in
    let c := (x start - x center) ^ 2 + (y start - y center) ^ 2 - 400 * 400 in
    let discriminant := b * b - 4 * a * c in
    let '(closestIntersection, minT) :=
      if Rleb 0 discriminant then
        let t := (- b + sqrt discriminant) / (2 * a) in
        if Rltb 0 t && Rltb t 1 && belowMinT t minT
        then (mkPoint (x start + t * dx) (y start + t * dy), Some t)
        else (closestIntersection, minT)
      else (closestIntersection, minT) in
    (* 0 degree line *)
    let '(closestIntersection, minT) :=
      if negb (Reqb dx 0) then
        let t := (x center - x start) / dx in
        if Rltb 0 t && Rltb t 1 && belowMinT t minT then
          let intersectY := y start + t * dy in
          if Rleb intersectY (y center)
          then (mkPoint (x center) intersectY, Some t)
          else (closestIntersection, minT)
        else (closestIntersection, minT)
      else (closestIntersection, minT) in
    (* 30 degree line *)
    let angle30 := 30 * PI / 180 in
    let lineDir := mkPoint (sin angle30) (- cos angle30) in
    let det := dx * y lineDir - dy * x lineDir in
    let '(closestIntersection, minT) :=
      if Rltb (1 / 10000) (Rabs det) then
        let t := ((x center - x start) * y lineDir
                  - (y center - y start) * x lineDir) / det in
        let s := ((x center - x start) * dy - (y center - y start) * dx) / det in
        if Rltb 0 t && Rltb t 1 && Rltb 0 s && belowMinT t minT
        then (mkPoint (x start + t * dx) (y start + t * dy), Some t)
        else (closestIntersection, minT)
      else (closestIntersection, minT) in
    closestIntersection.

(** [perpendicularDistance(point, lineStart, lineEnd)]. *)
Definition perpendicularDistance (point lineStart lineEnd : Point) : R :=
  let dx := x lineEnd - x lineStart in
  let dy := y lineEnd - y lineStart in
  if Reqb dx 0 && Reqb dy 0 then
    let distX := x point - x lineStart in
    let distY := y point - y lineStart in
    sqrt (distX * distX + distY * distY)
  else
    let numerator :=
      Rabs (dy * x point - dx * y point
            + x lineEnd * y lineStart - y lineEnd * x lineStart) in
    let denominator := sqrt (dx * dx + dy * dy) in
    numerator / denominator.

(** The loop of [simplifyPath] over [i = 1 .. end - 1], on the pair
    [(maxDistance, maxIndex)], started at [(0, 0)]. *)
Definition maxStep (points : list Point) (first last : Point)
  (st : R * nat) (i : nat) : R * nat :=
  let distance := perpendicularDistance (nth i points first) first last in
  if Rltb (fst st) distance then (distance, i) else st.

Definition findMax (points : list Point) (first last : Point) : R * nat :=
  fold_left (maxStep points first last)
            (seq 1 (length points - 2)) (0, 0%nat).

(** [simplifyPath(points, epsilon)].  The recursion of the source is not
    bounded by its arguments (see [simplifyPath_negative_epsilon_diverges]),
    so the model takes [fuel] for the depth of the recursion and answers
    [None] when it runs out. *)
Fixpoint simplifyPath (fuel : nat) (points : list Point) (epsilon : R)
  : option (list Point) :=
  match points with
  | [] | [_] | [_; _] => Some points
  | first :: _ =>
    match fuel with
    | O => None
    | S fuel' =>
      let last := nth (length points - 1) points first in
      let '(maxDistance, maxIndex) := findMax points first last in
      if Rltb epsilon maxDistance then
        match simplifyPath fuel' (firstn (maxIndex + 1) points) epsilon,
              simplifyPath fuel' (skipn maxIndex points) epsilon with
        | Some leftSegment, Some rightSegment =>
            Some (removelast leftSegment ++ rightSegment)
        | _, _ => None
        end
      else Some [first; last]
    end
  end.

End Drawing.

(** ** snapping.ts *)
Module Snapping.

Definition SNAP_THRESHOLD : R := 20.

(** [distance(p1, p2)]. *)
Definition distance (p1 p2 : Point) : R :=
  let dx := x p2 - x p1 in
  let dy := y p2 - y p1 in
  sqrt (dx * dx + dy * dy).

(** The body of the loop of [snapToNearestSnowflakeEndpoint] on [nearest],
    a [{ point, distance }] or [null]. *)
Definition snapStep (point : Point) (nearest : option (Point * R))
  (endpoint : Point) : option (Point * R) :=
  let dist := distance point endpoint in
  if Rltb dist SNAP_THRESHOLD then
    match nearest with
    | None => Some (endpoint, dist)
    | Some (_, d) => if Rltb dist d then Some (endpoint, dist) else nearest
    end
  else nearest.

(** [snapToNearestSnowflakeEndpoint(point, symmetryManager)].  The manager is
    used only through [getAllBakedEndpoints()], whose result is the argument
    [allEndpoints]. *)
Definition snapToNearestSnowflakeEndpoint (point : Point)
  (allEndpoints : list Point) : Point :=
  match fold_left (snapStep point) allEndpoints None with
  | Some (p, _) => p
  | None => point
  end.

End Snapping.

(** ** Strings and the JavaScript library functions the baker uses *)

Definition str : Set := list ascii.

(** A string literal. *)
Definition lit (s : string) : str := list_ascii_of_string s.

Definition code (c : ascii) : N := N_of_ascii c.

(** [\d] *)
Definition isDigit (c : ascii) : bool :=
  ((48 <=? code c) && (code c <=? 57))%N.

(** [\s], and the characters [trim()] strips: tab, line feed, vertical tab,
    form feed, carriage return, space and no-break space. *)
Definition isSpace (c : ascii) : bool :=
  (((9 <=? code c) && (code c <=? 13)) || (code c =? 32) || (code c =? 160))%N.

(** [[-\d.]] *)
Definition isNumChar (c : ascii) : bool :=
  Ascii.eqb c "-" || isDigit c || Ascii.eqb c ".".

(** [[-\d.,\s]] *)
Definition isCoordChar (c : ascii) : bool :=
  isNumChar c || Ascii.eqb c "," || isSpace c.

(** [[\s,]] *)
Definition isSeparator (c : ascii) : bool :=
  isSpace c || Ascii.eqb c ",".

(** [[MLQC]] under the [i] flag. *)
Definition isCommandLetter (c : ascii) : bool :=
  existsb (Ascii.eqb c) (lit "MLQCmlqc").

(** [toUpperCase()] of one character, on the letters a to z. *)
Definition toUpperCase (c : ascii) : ascii :=
  if ((97 <=? code c) && (code c <=? 122))%N
  then ascii_of_N (code c - 32) else c.

(** The longest prefix of [s] in the class [p], and what follows it. *)
Fixpoint span (p : ascii -> bool) (s : str) : str * str :=
  match s with
  | c :: r =>
      if p c then let '(run, rest) := span p r in (c :: run, rest)
      else ([], s)
  | [] => ([], [])
  end.

Definition dropSpaces (s : str) : str := snd (span isSpace s).

(** [s.trim()] *)
Definition trim (s : str) : str := rev (dropSpaces (rev (dropSpaces s))).

(** [s.split(/[\s,]+/)]: the pieces between the runs of separators, the empty
    pieces at either end included.  [cur] is the piece being read, reversed;
    [inSep] says that the last character read was a separator. *)
Fixpoint splitLoop (s : str) (cur : str) (inSep : bool) : list str :=
  match s with
  | [] => [rev cur]
  | c :: r =>
      if isSeparator c then
        if inSep then splitLoop r cur true
        else rev cur :: splitLoop r [] true
      else splitLoop r (c :: cur) false
  end.

Definition splitSeparators (s : str) : list str := splitLoop s [] false.

(** The value of a run of decimal digits, most significant first. *)
Definition digitValue (c : ascii) : N := (code c - 48)%N.

Definition digitsValue (ds : str) : N :=
  fold_left (fun acc c => (acc * 10 + digitValue c)%N) ds 0%N.

(** The decimal prefix [parseFloat] reads, as [(mantissa, decimals)] for the
    number [mantissa / 10 ^ decimals]: leading white space, a sign, digits, a
    point, digits; at least one digit.  [None] is [NaN].  An exponent part and
    [Infinity] are not modelled: every string this module gives to
    [parseFloat] was matched by [[-\d.]+]. *)
Definition readSign (s : str) : bool * str :=
  match s with
  | c :: r => if Ascii.eqb c "-" then (true, r)
              else if Ascii.eqb c "+" then (false, r) else (false, s)
  | [] => (false, s)
  end.

Definition readDigits (s : str) : option (N * nat) :=
  let '(intDigits, s) := span isDigit s in
  let fracDigits :=
    match s with
    | c :: r => if Ascii.eqb c "." then fst (span isDigit r) else []
    | [] => []
    end in
  match intDigits ++ fracDigits with
  | [] => None
  | ds => Some (digitsValue ds, length fracDigits)
  end.

Definition parseDecimal (s : str) : option (Z * nat) :=
  let '(negative, s) := readSign (dropSpaces s) in
  match readDigits s with
  | Some (m, k) => Some (if negative then (- Z.of_N m)%Z else Z.of_N m, k)
  | None => None
  end.

Definition decimalValue (md : Z * nat) : R := IZR (fst md) / 10 ^ snd md.

(** [parseFloat(s)]; [None] is [NaN]. *)
Definition parseFloat (s : str) : option R :=
  option_map decimalValue (parseDecimal s).

(** The decimal digits of [n], most significant first; [fuel] bounds the
    number of digits. *)
Definition digitChar (n : N) : ascii := ascii_of_N (48 + n).

Fixpoint decimalDigits (fuel : nat) (n : N) (acc : str) : str :=
  match fuel with
  | O => acc
  | S fuel' =>
      let acc := digitChar (n mod 10) :: acc in
      if (n / 10 =? 0)%N then acc else decimalDigits fuel' (n / 10) acc
  end.

Definition numberDigits (n : N) : str :=
  decimalDigits (S (N.to_nat (N.size n))) n [].

(** [`${n}`] for an integer [n]. *)
Definition numberToString (n : Z) : str :=
  match n with
  | Z0 => lit "0"
  | Zpos p => numberDigits (Npos p)
  | Zneg p => lit "-" ++ numberDigits (Npos p)
  end.

(** The text of [toFixed(f)] for the sign and the integer [n] nearest to
    [|x| * 10 ^ f]: the digits of [n], padded with zeros on the left to
    [f + 1] characters, with a point before the last [f]. *)
Definition fixedText (negative : bool) (n : N) (f : nat) : str :=
  let m := numberDigits n in
  let m := repeat "0"%char (S f - length m) ++ m in
  let k := length m in
  (if negative then lit "-" else [])
  ++ firstn (k - f) m
  ++ (match f with O => [] | _ => lit "." ++ skipn (k - f) m end).

(** The integer nearest to [|x| * 10 ^ f], the larger one of two. *)
Definition nearestScaled (x : R) (f : nat) : N :=
  Z.to_N (Int_part (Rabs x * 10 ^ f + / 2)).

(** [x.toFixed(f)], where [None] is [NaN].  For [|x| >= 1e21] JavaScript
    switches to exponent notation, which is not modelled. *)
Definition toFixed (x : option R) (f : nat) : str :=
  match x with
  | None => lit "NaN"
  | Some r => fixedText (Rltb r 0) (nearestScaled r f) f
  end.

(** Arithmetic on numbers that may be [NaN]. *)
Definition num2 (op : R -> R -> R) (a b : option R) : option R :=
  match a, b with
  | Some u, Some v => Some (op u v)
  | _, _ => None
  end.

(** ** symmetry.ts *)
Module Symmetry.

(** [CENTER] and [ROTATION_ANGLES]; integer literals in the source. *)
Definition CENTER_x : Z := 500.
Definition CENTER_y : Z := 500.
Definition ROTATION_ANGLES : list Z := [0; 60; 120; 180; 240; 300]%Z.

(** The attributes of an [SVGPathElement] this module reads or writes;
    [None] is an absent attribute. *)
Record PathElement : Set := mkPath {
  attr_d : option str;
  attr_transform : option str
}.

(** A DOM node: an identity and its attributes. *)
Definition Node : Set := (nat * PathElement)%type.

(** [Stroke] of drawing.ts. *)
Record Stroke : Set := mkStroke {
  points : list Point;
  pathElement : Node
}.

(** The manager: the children of [snowflakeLayer] in document order, the map
    [strokePaths] keyed by the identity of the stroke's path element, and the
    next unused node identity. *)
Record SymmetryManager := mkManager {
  snowflakeLayer : list Node;
  strokePaths : gmap nat (list Node);
  nextNode : nat
}.

(** [new SymmetryManager(snowflakeLayer)] on an empty layer. *)
Definition newManager : SymmetryManager := mkManager [] ∅ 0.

(** [original.cloneNode(true)]: a new node with the same attributes. *)
Definition cloneNode (m : SymmetryManager) (original : PathElement)
  : Node * SymmetryManager :=
  ((nextNode m, original),
   mkManager (snowflakeLayer m) (strokePaths m) (S (nextNode m))).

Definition appendChild (m : SymmetryManager) (child : Node) : SymmetryManager :=
  mkManager (snowflakeLayer m ++ [child]) (strokePaths m) (nextNode m).

(** [mirrorPath]: the transform the mirrored clone is given. *)
Definition mirrorTransform : str :=
  lit "scale(-1, 1) translate(" ++ numberToString (-2 * CENTER_x) ++ lit ", 0)".

Definition mirrorPath (m : SymmetryManager) (original : PathElement)
  : Node * SymmetryManager :=
  let '((n, mirror), m) := cloneNode m original in
  ((n, mkPath (attr_d mirror) (Some mirrorTransform)), m).

(** [cloneAndRotate]: the transform the rotated clone is given. *)
Definition rotateTransform (angle : Z) : str :=
  lit "rotate(" ++ numberToString angle ++ lit " " ++ numberToString CENTER_x
  ++ lit " " ++ numberToString CENTER_y ++ lit ")".

Definition cloneAndRotate (m : SymmetryManager) (original : PathElement)
  (angle : Z) : Node * SymmetryManager :=
  let '((n, clone), m) := cloneNode m original in
  let existingTransform :=
    match attr_transform original with Some t => t | None => [] end in
  let finalTransform :=
    match existingTransform with
    | [] => rotateTransform angle
    | _ => rotateTransform angle ++ lit " " ++ existingTransform
    end in
  ((n, mkPath (attr_d clone) (Some finalTransform)), m).

(** The body of the loop of [addStroke] on the manager and [allPaths]. *)
Definition addStrokeStep (stroke : Stroke)
  (st : SymmetryManager * list Node) (angle : Z)
  : SymmetryManager * list Node :=
  let '(m, allPaths) := st in
  let '(rotatedOriginal, m) := cloneAndRotate m (snd (pathElement stroke)) angle in
  let m := appendChild m rotatedOriginal in
  let allPaths := allPaths ++ [rotatedOriginal] in
  let '(mirrored, m) := mirrorPath m (snd (pathElement stroke)) in
  let '(rotatedMirror, m) := cloneAndRotate m (snd mirrored) angle in
  let m := appendChild m rotatedMirror in
  let allPaths := allPaths ++ [rotatedMirror] in
  (m, allPaths).

(** [addStroke(stroke)] *)
Definition addStroke (stroke : Stroke) (m : SymmetryManager) : SymmetryManager :=
  let '(m, allPaths) := fold_left (addStrokeStep stroke) ROTATION_ANGLES (m, []) in
  mkManager (snowflakeLayer m)
            (<[fst (pathElement stroke) := allPaths]> (strokePaths m))
            (nextNode m).

(** [if (path.parentNode === this.snowflakeLayer) this.snowflakeLayer.removeChild(path)] *)
Definition isChild (layer : list Node) (path : Node) : bool :=
  existsb (fun c => Nat.eqb (fst c) (fst path)) layer.

Definition removeChild (layer : list Node) (path : Node) : list Node :=
  List.filter (fun c => negb (Nat.eqb (fst c) (fst path))) layer.

Definition removePaths (paths : list Node) (m : SymmetryManager) : SymmetryManager :=
  mkManager
    (fold_left (fun layer path =>
                  if isChild layer path then removeChild layer path else layer)
               paths (snowflakeLayer m))
    (strokePaths m) (nextNode m).

(** [updateStroke(stroke)] *)
Definition updateStroke (stroke : Stroke) (m : SymmetryManager) : SymmetryManager :=
  let m :=
    match strokePaths m !! fst (pathElement stroke) with
    | Some existingPaths => removePaths existingPaths m
    | None => m
    end in
  addStroke stroke m.

(** [removeStroke(stroke)] *)
Definition removeStroke (stroke : Stroke) (m : SymmetryManager) : SymmetryManager :=
  match strokePaths m !! fst (pathElement stroke) with
  | None => m
  | Some paths =>
      let m := removePaths paths m in
      mkManager (snowflakeLayer m)
                (delete (fst (pathElement stroke)) (strokePaths m))
                (nextNode m)
  end.

(** [clearAll()] *)
Definition clearAll (m : SymmetryManager) : SymmetryManager :=
  mkManager [] ∅ (nextNode m).

(** [getAllPaths()]: every child of the layer is a path element. *)
Definition getAllPaths (m : SymmetryManager) : list Node := snowflakeLayer m.

(** *** The transform baker *)

Fixpoint stripPrefix (prefix s : str) : option str :=
  match prefix, s with
  | [], _ => Some s
  | p :: ps, c :: r => if Ascii.eqb p c then stripPrefix ps r else None
  | _ :: _, [] => None
  end.

(** A non-empty longest run of the class [p], as [+] matches it. *)
Definition run1 (p : ascii -> bool) (s : str) : option (str * str) :=
  match span p s with
  | ([], _) => None
  | (run, rest) => Some (run, rest)
  end.

(** [/rotate\(([-\d.]+)\s+([-\d.]+)\s+([-\d.]+)\)/] at the start of [s].
    The classes that follow one another are disjoint, so the longest runs are
    the only way to match. *)
Definition rotateAt (s : str) : option (str * str * str) :=
  s ← stripPrefix (lit "rotate(") s;
  '(g1, s) ← run1 isNumChar s;
  '(_, s) ← run1 isSpace s;
  '(g2, s) ← run1 isNumChar s;
  '(_, s) ← run1 isSpace s;
  '(g3, s) ← run1 isNumChar s;
  _ ← stripPrefix (lit ")") s;
  Some (g1, g2, g3).

(** [/name\(([-\d.]+),\s*([-\d.]+)\)/] at the start of [s], for the names
    [scale] and [translate]. *)
Definition pairAt (name : str) (s : str) : option (str * str) :=
  s ← stripPrefix (name ++ lit "(") s;
  '(g1, s) ← run1 isNumChar s;
  s ← stripPrefix (lit ",") s;
  '(g2, s) ← run1 isNumChar (dropSpaces s);
  _ ← stripPrefix (lit ")") s;
  Some (g1, g2).

(** [s.match(re)] without the [g] flag: the match at the leftmost position. *)
Fixpoint firstMatch {A : Type} (at_ : str -> option A) (s : str) : option A :=
  match at_ s with
  | Some r => Some r
  | None =>
      match s with
      | [] => None
      | _ :: r => firstMatch at_ r
      end
  end.

(** Group 2 of [/([MLQC])\s*([-\d.,\s]+)/] for the run of class characters
    after the letter: [\s*] takes the leading white space, and gives one
    character back when the run is white space only. *)
Definition coordGroup (run : str) : str :=
  match dropSpaces run with
  | [] => match run with [] => [] | _ => [List.last run " "%char] end
  | g => g
  end.

(** The loop [while ((match = commandRegex.exec(pathData)) !== null)]: the
    matches [(match[1], match[2])] from the left, each search starting where
    the last match ended.  A match is a command letter and the non-empty run
    of class characters after it.  [fuel] bounds the positions tried. *)
Fixpoint execLoop (fuel : nat) (s : str) : list (ascii * str) :=
  match fuel with
  | O => []
  | S fuel' =>
      match s with
      | [] => []
      | c :: r =>
          if isCommandLetter c then
            match span isCoordChar r with
            | ([], _) => execLoop fuel' r
            | (run, rest) => (c, coordGroup run) :: execLoop fuel' rest
            end
          else execLoop fuel' r
      end
  end.

Definition commandMatches (pathData : str) : list (ascii * str) :=
  execLoop (length pathData) pathData.

(** [coordsStr.trim().split(/[\s,]+/).map(parseFloat).filter(n => !isNaN(n))],
    before the conversion of [(mantissa, decimals)] to a number. *)
Definition coordDecimals (coordsStr : str) : list (Z * nat) :=
  omap parseDecimal (splitSeparators (trim coordsStr)).

Definition parseCoords (coordsStr : str) : list R :=
  map decimalValue (coordDecimals coordsStr).

(** The three matches on the transform string. *)
Record TransformMatches : Set := mkMatches {
  rotateMatch : option (str * str * str);
  scaleMatch : option (str * str);
  translateMatch : option (str * str)
}.

Definition matchTransform (transform : str) : TransformMatches :=
  mkMatches (firstMatch rotateAt transform)
            (firstMatch (pairAt (lit "scale")) transform)
            (firstMatch (pairAt (lit "translate")) transform).

(** The body of the inner loop: translate, then scale, then rotate. *)
Definition transformPair (tm : TransformMatches) (x0 y0 : R)
  : option R * option R :=
  let x := Some x0 in
  let y := Some y0 in
  let '(x, y) :=
    match translateMatch tm with
    | Some (g1, g2) =>
        (num2 Rplus x (parseFloat g1), num2 Rplus y (parseFloat g2))
    | None => (x, y)
    end in
  let '(x, y) :=
    match scaleMatch tm with
    | Some (g1, g2) =>
        let scaleX := parseFloat g1 in
        let scaleY := parseFloat g2 in
        (num2 Rmult x scaleX, num2 Rmult y scaleY)
    | None => (x, y)
    end in
  match rotateMatch tm with
  | Some (g1, g2, g3) =>
      let angle := num2 Rmult (parseFloat g1) (Some (PI / 180)) in
      let cx := parseFloat g2 in
      let cy := parseFloat g3 in
      let dx := num2 Rminus x cx in
      let dy := num2 Rminus y cy in
      (num2 Rminus (num2 Rplus cx (num2 Rmult dx (option_map cos angle)))
                   (num2 Rmult dy (option_map sin angle)),
       num2 Rplus (num2 Rplus cy (num2 Rmult dx (option_map sin angle)))
                  (num2 Rmult dy (option_map cos angle)))
  | None => (x, y)
  end.

(** The inner loop over [i = 0, 2, 4, ...]: what it appends for the
    coordinates from index [i] on; [first] is [i = 0].  It stops ([break]) at
    a last coordinate without a partner. *)
Fixpoint emitPairs (tm : TransformMatches) (first : bool) (coords : list R) : str :=
  match coords with
  | x0 :: y0 :: rest =>
      let '(x, y) := transformPair tm x0 y0 in
      (if first then [] else lit ",")
      ++ lit " " ++ toFixed x 2 ++ lit " " ++ toFixed y 2
      ++ emitPairs tm false rest
  | _ => []
  end.

(** What one iteration of the outer loop appends to [transformedData]. *)
Definition emitCommand (tm : TransformMatches) (m : ascii * str) : str :=
  let command := toUpperCase (fst m) in
  let coords := parseCoords (snd m) in
  command :: emitPairs tm true coords ++ lit " ".

(** [transformPathData(pathData, transform)] *)
Definition transformPathData (pathData transform : str) : str :=
  let tm := matchTransform transform in
  trim (concat (map (emitCommand tm) (commandMatches pathData))).

(** [bakeTransform(path)]: the attributes of the new path.  An empty string is
    falsy, so an empty [transform] counts as none and an empty [d] is kept. *)
Definition bakeTransform (path : PathElement) : PathElement :=
  match attr_transform path with
  | None | Some [] => mkPath (attr_d path) None
  | Some transform =>
      match attr_d path with
      | None | Some [] => mkPath (attr_d path) None
      | Some pathData => mkPath (Some (transformPathData pathData transform)) None
      end
  end.

(** [generateBakedPaths()] *)
Definition generateBakedPaths (m : SymmetryManager) : list PathElement :=
  map (fun path => bakeTransform (snd path)) (getAllPaths m).

(** The calls a client can make on the manager. *)
Inductive Call : Set :=
| AddStroke (stroke : Stroke)
| UpdateStroke (stroke : Stroke)
| RemoveStroke (stroke : Stroke)
| ClearAll.

Definition call (m : SymmetryManager) (c : Call) : SymmetryManager :=
  match c with
  | AddStroke s => addStroke s m
  | UpdateStroke s => updateStroke s m
  | RemoveStroke s => removeStroke s m
  | ClearAll => clearAll m
  end.

Definition run (calls : list Call) : SymmetryManager :=
  fold_left call calls newManager.

End Symmetry.

(** ** snapping.ts: the snapper over the strokes of the wedge *)
Module StrokeSnapping.

Import Snapping.

(** A stroke object as [===] sees it: the identity of the object, and its
    fields. *)
Definition StrokeObject : Set := (nat * Symmetry.Stroke)%type.

(** [stroke === excludeStroke] *)
Definition sameObject (a b : StrokeObject) : bool := Nat.eqb (fst a) (fst b).

(** [getStrokeEndpoints(stroke)]; [None] is [null]. *)
Definition getStrokeEndpoints (stroke : StrokeObject) : option (Point * Point) :=
  match Symmetry.points (snd stroke) with
  | [] => None
  | p :: _ =>
      Some (p, nth (length (Symmetry.points (snd stroke)) - 1)
                   (Symmetry.points (snd stroke)) p)
  end.

(** The body of the loop of [findNearestEndpoint] on [nearest]. *)
Definition findStep (point : Point) (excludeStroke : option StrokeObject)
  (nearest : option (Point * R)) (stroke : StrokeObject) : option (Point * R) :=
  if match excludeStroke with
     | Some e => sameObject stroke e
     | None => false
     end
  then nearest
  else
    match getStrokeEndpoints stroke with
    | None => nearest
    | Some (start, end_) =>
        let distToStart := distance point start in
        let distToEnd := distance point end_ in
        let nearest :=
          if Rltb distToStart SNAP_THRESHOLD then
            match nearest with
            | None => Some (start, distToStart)
            | Some (_, d) =>
                if Rltb distToStart d then Some (start, distToStart) else nearest
            end
          else nearest in
        if Rltb distToEnd SNAP_THRESHOLD then
          match nearest with
          | None => Some (end_, distToEnd)
          | Some (_, d) =>
              if Rltb distToEnd d then Some (end_, distToEnd) else nearest
          end
        else nearest
    end.

(** [findNearestEndpoint(point, existingStrokes, excludeStroke)] *)
Definition findNearestEndpoint (point : Point)
  (existingStrokes : list StrokeObject) (excludeStroke : option StrokeObject)
  : option (Point * R) :=
  fold_left (findStep point excludeStroke) existingStrokes None.

(** [snapToNearestEndpoint(point, existingStrokes, excludeStroke)] *)
Definition snapToNearestEndpoint (point : Point)
  (existingStrokes : list StrokeObject) (excludeStroke : option StrokeObject)
  : Point :=
  match findNearestEndpoint point existingStrokes excludeStroke with
  | Some (p, d) => if Rltb d SNAP_THRESHOLD then p else point
  | None => point
  end.

(** [isNearEndpoint(point, existingStrokes, excludeStroke)] *)
Definition isNearEndpoint (point : Point)
  (existingStrokes : list StrokeObject) (excludeStroke : option StrokeObject)
  : bool :=
  match findNearestEndpoint point existingStrokes excludeStroke with
  | Some _ => true
  | None => false
  end.

(** [getSnapThreshold()] *)
Definition getSnapThreshold : R := SNAP_THRESHOLD.

End StrokeSnapping.

(** ** drawing.ts: the path data of a stroke *)
Module PathData.

Section Show.

(** The text a template literal gives a number, [`${n}`].  JavaScript
    chooses the shortest decimal that reads back as the same double; for the
    real numbers of this model the function is left open. *)
Variable show : R -> str.

(** *** The later revision: Catmull-Rom splines as cubic curves *)

(** The body of the loop over [i = 0 .. points.length - 2], appending one
    [C] command to [pathData]. *)
Definition curveStep (points : list Point) (pathData : str) (i : nat) : str :=
  let d := mkPoint 0 0 in
  let p0 := if (0 <? i)%nat then nth (i - 1) points d else nth i points d in
  let p1 := nth i points d in
  let p2 := nth (i + 1) points d in
  let p3 := if (i <? length points - 2)%nat
            then nth (i + 2) points d else nth (i + 1) points d in
  let cp1x := x p1 + (x p2 - x p0) / 6 in
  let cp1y := y p1 + (y p2 - y p0) / 6 in
  let cp2x := x p2 - (x p3 - x p1) / 6 in
  let cp2y := y p2 - (y p3 - y p1) / 6 in
  pathData ++ lit " C " ++ show cp1x ++ lit " " ++ show cp1y
           ++ lit " " ++ show cp2x ++ lit " " ++ show cp2y
           ++ lit " " ++ show (x p2) ++ lit " " ++ show (y p2).

(** [pointsToPathData(points)] *)
Definition pointsToPathData (points : list Point) : str :=
  match points with
  | [] => []
  | [p] =>
      lit "M " ++ show (x p) ++ lit " " ++ show (y p)
      ++ lit " L " ++ show (x p + 1 / 10) ++ lit " " ++ show (y p)
  | p0 :: p1 :: rest =>
      let pathData := lit "M " ++ show (x p0) ++ lit " " ++ show (y p0) in
      match rest with
      | [] => pathData ++ lit " L " ++ show (x p1) ++ lit " " ++ show (y p1)
      | _ => fold_left (curveStep points) (seq 0 (length points - 1)) pathData
      end
  end.

(** *** The earlier revision: quadratic curves *)

(** The body of the loop over [i = 1 .. points.length - 2], appending one
    [Q] command to [pathData]. *)
Definition quadStep (points : list Point) (pathData : str) (i : nat) : str :=
  let d := mkPoint 0 0 in
  let p1 := nth i points d in
  let p2 := nth (i + 1) points d in
  let controlX := x p1 in
  let controlY := y p1 in
  let endX := (x p1 + x p2) / 2 in
  let endY := (y p1 + y p2) / 2 in
  pathData ++ lit " Q " ++ show controlX ++ lit " " ++ show controlY
           ++ lit " " ++ show endX ++ lit " " ++ show endY.

Definition pointsToPathDataV1 (points : list Point) : str :=
  match points with
  | [] => []
  | [p] =>
      lit "M " ++ show (x p) ++ lit " " ++ show (y p)
      ++ lit " L " ++ show (x p + 1 / 10) ++ lit " " ++ show (y p)
  | p0 :: p1 :: rest =>
      let pathData := lit "M " ++ show (x p0) ++ lit " " ++ show (y p0) in
      match rest with
      | [] => pathData ++ lit " L " ++ show (x p1) ++ lit " " ++ show (y p1)
      | _ =>
          let pathData :=
            pathData ++ lit " L " ++ show (x p1) ++ lit " " ++ show (y p1) in
          let pathData :=
            fold_left (quadStep points) (seq 1 (length points - 2)) pathData in
          let lastPoint := nth (length points - 1) points (mkPoint 0 0) in
          pathData ++ lit " L " ++ show (x lastPoint) ++ lit " " ++ show (y lastPoint)
      end
  end.

End Show.

End PathData.

(** ** drawing.ts and ui.ts: the drawing manager and its callbacks *)
Module App.

Import Symmetry.

Inductive DrawMode : Set := freehand | line.

(** The state of [DrawingManager] (later revision): the children of the wedge
    layer, the stroke and the path in progress, the finished strokes.  Of a
    path element the attributes [d] and [transform] are kept; the snap
    indicator and the preview line are not modelled. *)
Record DrawingManager : Set := mkDrawing {
  wedgeLayer : list Node;
  currentStroke : list Point;
  currentPath : option Node;
  strokes : list Stroke;
  isDrawing : bool;
  mode : DrawMode;
  nextPath : nat
}.

(** The application after [setupDrawingSymmetry()]: the two managers and the
    variable [currentPathElement] of the callbacks (the identity of an
    element, or [null]). *)
Record App := mkApp {
  drawing : DrawingManager;
  symmetry : SymmetryManager;
  currentPathElement : option nat
}.

(** The events the handlers are attached to.  A pointer event carries the
    point [screenToSVG] gives for it; [pointerleave] is a [PointerUp];
    [Clear] carries the answer of [confirm]. *)
Inductive Event : Set :=
| PointerDown (button : Z) (point : Point)
| PointerMove (point : Point)
| PointerUp (point : Point)
| SetMode (m : DrawMode)
| Undo
| Clear (confirmed : bool).

Section Handlers.

(** [symmetryManager.getAllBakedEndpoints()], which is not among the sources,
    and the text of a number. *)
Variable getAllBakedEndpoints : SymmetryManager -> list Point.
Variable show : R -> str.

(** A new manager on an empty wedge layer, in the mode [enableDrawMode]
    sets. *)
Definition newDrawing : DrawingManager :=
  mkDrawing [] [] None [] false freehand 0.

Definition newApp : App := mkApp newDrawing newManager None.

(** [snapToNearestSnowflakeEndpoint(point, this.symmetryManager)], and the
    point the handlers go on with: the snapped one when it differs. *)
Definition snap (sm : SymmetryManager) (point : Point) : Point :=
  Snapping.snapToNearestSnowflakeEndpoint point (getAllBakedEndpoints sm).

Definition differs (a b : Point) : bool :=
  negb (Reqb (x a) (x b)) || negb (Reqb (y a) (y b)).

Definition snapped (sm : SymmetryManager) (point : Point) : Point :=
  let snappedPoint := snap sm point in
  if differs snappedPoint point then snappedPoint else point.

(** Starting a path at [point]: [this.currentStroke = [point]], a new path
    element with [d = `M ${point.x} ${point.y}`], appended to the wedge
    layer. *)
Definition startPath (dm : DrawingManager) (point : Point) : DrawingManager :=
  let path :=
    (nextPath dm,
     mkPath (Some (lit "M " ++ show (x point) ++ lit " " ++ show (y point))) None) in
  mkDrawing (wedgeLayer dm ++ [path]) [point] (Some path) (strokes dm)
            (isDrawing dm) (mode dm) (S (nextPath dm)).

(** [path.setAttribute('d', pathData)] on an element and on its place among
    the children of the layer. *)
Definition withData (path : Node) (pathData : str) : Node :=
  (fst path, mkPath (Some pathData) (attr_transform (snd path))).

Definition setData (layer : list Node) (path : Node) (pathData : str)
  : list Node :=
  map (fun c => if Nat.eqb (fst c) (fst path) then withData path pathData else c)
      layer.

(** The callback of [onStrokeUpdated]. *)
Definition strokeUpdated (sm : SymmetryManager) (cpe : option nat)
  (stroke : Stroke) : SymmetryManager * option nat :=
  if match cpe with
     | Some k => Nat.eqb k (fst (pathElement stroke))
     | None => false
     end
  then (updateStroke stroke sm, cpe)
  else (addStroke stroke sm, Some (fst (pathElement stroke))).

(** The callback of [onStrokeCompleted]. *)
Definition strokeCompleted (sm : SymmetryManager) (cpe : option nat)
  (stroke : Stroke) : SymmetryManager * option nat :=
  (match cpe with
   | None => addStroke stroke sm
   | Some _ => updateStroke stroke sm
   end,
   None).

(** [handlePointerDown] *)
Definition handlePointerDown (app : App) (button : Z) (point : Point) : App :=
  if (button =? 1)%Z then app
  else
    let dm := drawing app in
    let dm := mkDrawing (wedgeLayer dm) (currentStroke dm) (currentPath dm)
                        (strokes dm) true (mode dm) (nextPath dm) in
    if Drawing.isPointInWedge point defaultCenter then
      let point := snapped (symmetry app) point in
      mkApp (startPath dm point) (symmetry app) (currentPathElement app)
    else mkApp dm (symmetry app) (currentPathElement app).

(** [handlePointerMove]; the second component says that the handler threw
    (line mode reads [this.currentStroke[0]]). *)
Definition handlePointerMove (app : App) (point : Point) : App * bool :=
  let dm := drawing app in
  if negb (isDrawing dm) then (app, false)
  else
    match mode dm, currentPath dm with
    | line, Some _ =>
        match currentStroke dm with
        | [] => (app, true)
        | _ :: _ => (app, false)
        end
    | _, _ =>
        if negb (Drawing.isPointInWedge point defaultCenter) then (app, false)
        else
          match currentPath dm with
          | None =>
              (mkApp (startPath dm (snapped (symmetry app) point))
                     (symmetry app) (currentPathElement app), false)
          | Some path =>
              let stroke := currentStroke dm ++ [point] in
              let pathData := PathData.pointsToPathData show stroke in
              let path := withData path pathData in
              let dm := mkDrawing (setData (wedgeLayer dm) path pathData) stroke
                                  (Some path) (strokes dm) (isDrawing dm)
                                  (mode dm) (nextPath dm) in
              let tempStroke := mkStroke stroke path in
              let '(sm, cpe) :=
                strokeUpdated (symmetry app) (currentPathElement app) tempStroke in
              (mkApp dm sm cpe, false)
          end
    end.

(** [simplifyPath(this.currentStroke, 2.0)]: the recursion ends within as
    many calls as there are points. *)
Definition simplified (points : list Point) : list Point :=
  match Drawing.simplifyPath (length points) points 2 with
  | Some s => s
  | None => points
  end.

(** [handlePointerUp]; the second component says that the handler threw
    (freehand mode reads the last of the simplified points). *)
Definition handlePointerUp (app : App) (point : Point) : App * bool :=
  let dm := drawing app in
  if negb (isDrawing dm) then (app, false)
  else
    match currentPath dm with
    | None =>
        (mkApp (mkDrawing (wedgeLayer dm) [] None (strokes dm) false (mode dm)
                          (nextPath dm))
               (symmetry app) (currentPathElement app), false)
    | Some path =>
        match currentStroke dm with
        | [] =>
            (mkApp (mkDrawing (wedgeLayer dm) [] None (strokes dm) false
                              (mode dm) (nextPath dm))
                   (symmetry app) (currentPathElement app), false)
        | startPoint :: _ =>
            let finish (points : list Point) (pathData : str) :=
              let path := withData path pathData in
              let stroke := mkStroke points path in
              let '(sm, cpe) :=
                strokeCompleted (symmetry app) (currentPathElement app) stroke in
              (mkApp (mkDrawing (setData (wedgeLayer dm) path pathData) [] None
                                (strokes dm ++ [stroke]) false (mode dm)
                                (nextPath dm))
                     sm cpe, false) in
            match mode dm with
            | line =>
                let clippedEnd :=
                  Drawing.clipLineToWedge startPoint point defaultCenter in
                let snappedEnd := snap (symmetry app) clippedEnd in
                finish (currentStroke dm ++ [snappedEnd])
                       (lit "M " ++ show (x startPoint) ++ lit " "
                        ++ show (y startPoint) ++ lit " L "
                        ++ show (x snappedEnd) ++ lit " " ++ show (y snappedEnd))
            | freehand =>
                let simplifiedPoints := simplified (currentStroke dm) in
                match simplifiedPoints with
                | [] =>
                    (mkApp (mkDrawing (wedgeLayer dm) [] (Some path) (strokes dm)
                                      false (mode dm) (nextPath dm))
                           (symmetry app) (currentPathElement app), true)
                | first :: _ =>
                    let lastPoint :=
                      nth (length simplifiedPoints - 1) simplifiedPoints first in
                    let points :=
                      removelast simplifiedPoints
                      ++ [snapped (symmetry app) lastPoint] in
                    finish points (PathData.pointsToPathData show points)
                end
            end
        end
    end.

(** [handleUndo]: [removeStroke] of the last stroke, then [undoLastStroke],
    whose [removeChild] throws when the path is not a child of the wedge
    layer; the stroke is popped before that. *)
Definition handleUndo (app : App) : App * bool :=
  let dm := drawing app in
  match strokes dm with
  | [] => (app, false)
  | first :: _ =>
      let lastStroke := nth (length (strokes dm) - 1) (strokes dm) first in
      let sm := removeStroke lastStroke (symmetry app) in
      let popped := removelast (strokes dm) in
      if isChild (wedgeLayer dm) (pathElement lastStroke) then
        (mkApp (mkDrawing (removeChild (wedgeLayer dm) (pathElement lastStroke))
                          (currentStroke dm) (currentPath dm) popped
                          (isDrawing dm) (mode dm) (nextPath dm))
               sm (currentPathElement app), false)
      else
        (mkApp (mkDrawing (wedgeLayer dm) (currentStroke dm) (currentPath dm)
                          popped (isDrawing dm) (mode dm) (nextPath dm))
               sm (currentPathElement app), true)
  end.

(** [handleClear] *)
Definition handleClear (app : App) (confirmed : bool) : App :=
  let dm := drawing app in
  match strokes dm with
  | [] => app
  | _ :: _ =>
      if confirmed then
        mkApp (mkDrawing [] (currentStroke dm) (currentPath dm) []
                         (isDrawing dm) (mode dm) (nextPath dm))
              (clearAll (symmetry app)) (currentPathElement app)
      else app
  end.

(** [setMode(mode)], as [enableDrawMode] and [enableLineMode] call it. *)
Definition setMode (app : App) (m : DrawMode) : App :=
  let dm := drawing app in
  mkApp (mkDrawing (wedgeLayer dm) (currentStroke dm) (currentPath dm)
                   (strokes dm) (isDrawing dm) m (nextPath dm))
        (symmetry app) (currentPathElement app).

(** One event: the state after its handler, and whether the handler threw. *)
Definition step (app : App) (e : Event) : App * bool :=
  match e with
  | PointerDown button point => (handlePointerDown app button point, false)
  | PointerMove point => handlePointerMove app point
  | PointerUp point => handlePointerUp app point
  | SetMode m => (setMode app m, false)
  | Undo => handleUndo app
  | Clear confirmed => (handleClear app confirmed, false)
  end.

Definition run (events : list Event) : App :=
  fold_left (fun app e => fst (step app e)) events newApp.

End Handlers.

End App.

(** * Properties *)

(** ** Comparisons *)

Lemma Rltb_true_iff (a b : R) : Rltb a b = true <-> a < b.
Proof. unfold Rltb. destruct (Rlt_dec a b); split; intros; try easy. Qed.

Lemma Rltb_false_iff (a b : R) : Rltb a b = false <-> b <= a.
Proof.
  unfold Rltb. destruct (Rlt_dec a b); split; intros; try easy; lra.
Qed.

Lemma Rleb_true_iff (a b : R) : Rleb a b = true <-> a <= b.
Proof. unfold Rleb. destruct (Rle_dec a b); split; intros; try easy. Qed.

Lemma Rleb_false_iff (a b : R) : Rleb a b = false <-> b < a.
Proof.
  unfold Rleb. destruct (Rle_dec a b); split; intros; try easy; lra.
Qed.

Lemma Reqb_true_iff (a b : R) : Reqb a b = true <-> a = b.
Proof. unfold Reqb. destruct (Req_dec_T a b); split; intros; try easy. Qed.

Lemma Reqb_false_iff (a b : R) : Reqb a b = false <-> a <> b.
Proof. unfold Reqb. destruct (Req_dec_T a b); split; intros; try easy. Qed.

(** Case analysis on every comparison of the goal. *)
Ltac rcases :=
  repeat match goal with
  | |- context [Rltb ?a ?b] =>
      let H := fresh "C" in
      destruct (Rltb a b) eqn:H;
      [apply Rltb_true_iff in H | apply Rltb_false_iff in H]
  | |- context [Rleb ?a ?b] =>
      let H := fresh "C" in
      destruct (Rleb a b) eqn:H;
      [apply Rleb_true_iff in H | apply Rleb_false_iff in H]
  | |- context [Reqb ?a ?b] =>
      let H := fresh "C" in
      destruct (Reqb a b) eqn:H;
      [apply Reqb_true_iff in H | apply Reqb_false_iff in H]
  end.

(** ** The angle of [Math.atan2] *)

Lemma sqrt_one_plus_sq_pos (u : R) : 0 < sqrt (1 + u²).
Proof. apply sqrt_lt_R0. unfold Rsqr. nra. Qed.

(** The radius seen through the slope [y / x]. *)
Lemma radius_by_slope (y x : R) :
  x <> 0 -> sqrt (y * y + x * x) = Rabs x * sqrt (1 + (y / x)²).
Proof.
  intros Hx.
  rewrite <- (sqrt_Rsqr_abs x), <- sqrt_mult.
  - f_equal. unfold Rsqr. field. exact Hx.
  - apply Rle_0_sqr.
  - unfold Rsqr. nra.
Qed.

(** [Math_atan2 y x] is the polar angle of the point [(x, y)]. *)
Lemma Math_atan2_polar (y x : R) (xz : zero_sign) :
  let r := sqrt (y * y + x * x) in
  r * cos (Math_atan2 y x xz) = x /\ r * sin (Math_atan2 y x xz) = y.
Proof.
  intros r. unfold Math_atan2. rcases.
  - (* 0 < x *)
    subst r. rewrite radius_by_slope by lra.
    rewrite cos_atan, sin_atan, Rabs_right by lra.
    pose proof (sqrt_one_plus_sq_pos (y / x)).
    split; field; lra.
  - (* x < 0, 0 <= y *)
    subst r. rewrite radius_by_slope by lra.
    rewrite neg_cos, neg_sin, cos_atan, sin_atan, Rabs_left by lra.
    pose proof (sqrt_one_plus_sq_pos (y / x)).
    split; field; lra.
  - (* x < 0, y < 0 *)
    subst r. rewrite radius_by_slope by lra.
    unfold Rminus. rewrite cos_plus, sin_plus, cos_neg, sin_neg, cos_PI, sin_PI.
    rewrite cos_atan, sin_atan, Rabs_left by lra.
    pose proof (sqrt_one_plus_sq_pos (y / x)).
    split; field; lra.
  - (* x = 0, 0 < y *)
    assert (x = 0) by lra. subst x.
    subst r. rewrite cos_PI2, sin_PI2.
    replace (y * y + 0 * 0) with (y²) by (unfold Rsqr; ring).
    rewrite sqrt_Rsqr by lra. split; ring.
  - (* x = 0, y < 0 *)
    assert (x = 0) by lra. subst x.
    subst r. rewrite cos_neg, sin_neg, cos_PI2, sin_PI2.
    replace (y * y + 0 * 0) with ((- y)²) by (unfold Rsqr; ring).
    rewrite sqrt_Rsqr by lra. split; ring.
  - (* the two zeros *)
    assert (x = 0) by lra. assert (y = 0) by lra. subst x y r.
    replace (0 * 0 + 0 * 0) with 0 by ring. rewrite sqrt_0.
    split; ring.
Qed.

(** [Math.atan2] answers in the interval from [-PI] (excluded) to [PI]. *)
Lemma Math_atan2_range (y x : R) (xz : zero_sign) :
  - PI < Math_atan2 y x xz <= PI.
Proof.
  pose proof PI_RGT_0 as Hpi.
  unfold Math_atan2. rcases.
  - pose proof (atan_bound (y / x)). lra.
  - pose proof (atan_bound (y / x)).
    assert (atan (y / x) <= 0).
    { rewrite <- atan_0.
      destruct (Rle_lt_or_eq_dec 0 y C1) as [Hy | Hy].
      - left. apply atan_increasing. apply Rmult_pos_neg; [lra|].
        apply Rinv_lt_0_compat. lra.
      - subst y. unfold Rdiv. rewrite Rmult_0_l. lra. }
    lra.
  - pose proof (atan_bound (y / x)).
    assert (0 < atan (y / x)).
    { rewrite <- atan_0. apply atan_increasing.
      apply Rmult_neg_neg; [lra|]. apply Rinv_lt_0_compat. lra. }
    lra.
  - lra.
  - lra.
  - destruct xz; lra.
Qed.

(** ** C1: the wedge containment test *)

Lemma degrees_bounds (a : R) :
  - PI < a <= PI -> -180 < a * (180 / PI) <= 180.
Proof.
  intros [Hlo Hhi]. pose proof PI_RGT_0 as Hpi.
  assert (Hk : 0 < 180 / PI) by (apply Rdiv_lt_0_compat; lra).
  assert (Hk' : 180 / PI * PI = 180) by (field; lra).
  split; nra.
Qed.

(** The normalised angle lies in the interval from 0 to 360 (excluded). *)
Lemma wedgeAngle_range (p center : Point) : 0 <= wedgeAngle p center < 360.
Proof.
  unfold wedgeAngle. cbv zeta.
  pose proof (degrees_bounds _
    (Math_atan2_range (x p - x center) (- (y p - y center)) NegZero)).
  rcases; lra.
Qed.

(** The normalised angle is the clockwise angle from straight up: the point
    lies at distance [r] from the center in the direction
    [(sin angle, - cos angle)]. *)
Lemma wedgeAngle_polar (p center : Point) :
  let r := centerDistance p center in
  let theta := wedgeAngle p center * (PI / 180) in
  x p - x center = r * sin theta /\ y p - y center = - (r * cos theta).
Proof.
  intros r theta. pose proof PI_RGT_0 as Hpi.
  destruct (Math_atan2_polar (x p - x center) (- (y p - y center)) NegZero)
    as [Hc Hs].
  assert (Hr : sqrt ((x p - x center) * (x p - x center)
                     + - (y p - y center) * - (y p - y center)) = r).
  { unfold r, centerDistance. cbv zeta. f_equal. ring. }
  rewrite Hr in Hc, Hs.
  assert (Ht : theta = Math_atan2 (x p - x center) (- (y p - y center)) NegZero
               \/ theta = Math_atan2 (x p - x center) (- (y p - y center)) NegZero
                          + 2 * PI).
  { unfold theta, wedgeAngle. cbv zeta. rcases; [right | left]; field; lra. }
  destruct Ht as [-> | ->].
  - split; lra.
  - rewrite sin_plus, cos_plus, sin_2PI, cos_2PI. split; lra.
Qed.

(** What a [true] answer of either revision implies. *)
Lemma isPointInWedge_iff_aux (p center : Point) :
  (Drawing.isPointInWedge p center = true ->
     centerDistance p center <= 400 /\ 0 <= wedgeAngle p center <= 30)
  /\ (DrawingV1.isPointInWedge p center = true ->
     0 <= wedgeAngle p center <= 30).
Proof.
  unfold Drawing.isPointInWedge, DrawingV1.isPointInWedge,
    centerDistance, wedgeAngle. cbv zeta.
  set (dist := sqrt _). set (a := Math_atan2 _ _ _ * _).
  split.
  - destruct (Rltb 400 dist) eqn:Hd; [discriminate|].
    apply Rltb_false_iff in Hd.
    rewrite andb_true_iff, !Rleb_true_iff. tauto.
  - rewrite andb_true_iff, !Rleb_true_iff. tauto.
Qed.

(** C1 (as amended).  The later revision of [isPointInWedge] answers [true]
    exactly for the points at distance at most 400 from the center whose
    angle (0 is up, clockwise, normalised to the interval from 0 to 360) lies
    between 0 and 30, both bounds included; the earlier revision has no
    radius test and answers [true] exactly when the angle lies between 0
    and 30. *)
Theorem isPointInWedge_iff (p center : Point) :
  (Drawing.isPointInWedge p center = true <->
     centerDistance p center <= 400 /\ 0 <= wedgeAngle p center <= 30)
  /\ (DrawingV1.isPointInWedge p center = true <->
     0 <= wedgeAngle p center <= 30).
Proof.
  unfold Drawing.isPointInWedge, DrawingV1.isPointInWedge,
    centerDistance, wedgeAngle. cbv zeta.
  set (dist := sqrt _). set (a := Math_atan2 _ _ _ * _).
  split.
  - destruct (Rltb 400 dist) eqn:Hd.
    + apply Rltb_true_iff in Hd. split; [discriminate | lra].
    + apply Rltb_false_iff in Hd.
      rewrite andb_true_iff, !Rleb_true_iff. tauto.
  - rewrite andb_true_iff, !Rleb_true_iff. tauto.
Qed.

(** C1 as stated fails for the earlier revision: the point 450 units straight
    above the center is accepted. *)
Lemma isPointInWedge_v1_ignores_radius :
  DrawingV1.isPointInWedge (mkPoint 500 50) defaultCenter = true
  /\ 400 < centerDistance (mkPoint 500 50) defaultCenter.
Proof.
  split.
  - unfold DrawingV1.isPointInWedge, defaultCenter. cbn [x y].
    replace (500 - 500) with 0 by ring.
    replace (- (50 - 500)) with 450 by ring.
    unfold Math_atan2.
    assert (H1 : Rltb 0 450 = true) by (apply Rltb_true_iff; lra).
    rewrite H1. replace (0 / 450) with 0 by (unfold Rdiv; ring).
    rewrite atan_0, Rmult_0_l.
    assert (H2 : Rltb 0 0 = false) by (apply Rltb_false_iff; lra).
    rewrite H2, andb_true_iff, !Rleb_true_iff. lra.
  - unfold centerDistance, defaultCenter. cbn [x y].
    replace ((500 - 500) * (500 - 500) + (50 - 500) * (50 - 500))
      with (450²) by (unfold Rsqr; ring).
    rewrite sqrt_Rsqr; lra.
Qed.

(** ** C6: the endpoint snapper *)

Section Snap.

Import Snapping.

Variable point : Point.

(** What the loop knows about [nearest]: its distance is the distance of its
    point, and it is below the threshold. *)
Definition nearestOk (nearest : option (Point * R)) : Prop :=
  match nearest with
  | None => True
  | Some (q, d) => d = distance point q /\ d < SNAP_THRESHOLD
  end.

Lemma snapStep_ok (nearest : option (Point * R)) (e : Point) :
  nearestOk nearest -> nearestOk (snapStep point nearest e).
Proof.
  unfold snapStep. cbv zeta. intros Hok.
  destruct (Rltb (distance point e) SNAP_THRESHOLD) eqn:Hlt; [|exact Hok].
  apply Rltb_true_iff in Hlt.
  destruct nearest as [[q d]|]; [|simpl; auto].
  destruct (Rltb (distance point e) d); [simpl; auto | exact Hok].
Qed.

(** The loop from [nearest] over [endpoints]: nothing found means nothing was
    near; otherwise the result is nearest among the old [nearest] and the
    endpoints below the threshold, and comes from one of them. *)
Lemma snap_loop (endpoints : list Point) :
  forall nearest : option (Point * R),
  nearestOk nearest ->
  match fold_left (snapStep point) endpoints nearest with
  | None =>
      nearest = None
      /\ forall e, In e endpoints -> SNAP_THRESHOLD <= distance point e
  | Some (q, d) =>
      d = distance point q /\ d < SNAP_THRESHOLD
      /\ (nearest = Some (q, d) \/ In q endpoints)
      /\ (forall q0 d0, nearest = Some (q0, d0) -> d <= d0)
      /\ (forall e, In e endpoints ->
            distance point e < SNAP_THRESHOLD -> d <= distance point e)
  end.
Proof.
  induction endpoints as [|e es IH]; intros nearest Hok.
  - simpl. destruct nearest as [[q d]|].
    + destruct Hok as [Hd Hlt]. repeat split; auto.
      * intros q0 d0 [= <- <-]. lra.
      * intros e [].
    + split; [reflexivity | intros e []].
  - simpl fold_left.
    specialize (IH (snapStep point nearest e) (snapStep_ok nearest e Hok)).
    destruct (fold_left (snapStep point) es (snapStep point nearest e))
      as [[q d]|].
    + destruct IH as (Hd & Hlt & Hfrom & Hold & Hmin).
      unfold snapStep in Hfrom, Hold. cbv zeta in Hfrom, Hold.
      destruct (Rltb (distance point e) SNAP_THRESHOLD) eqn:Hnear.
      * apply Rltb_true_iff in Hnear.
        destruct nearest as [[q1 d1]|].
        -- destruct (Rltb (distance point e) d1) eqn:Hcl.
           ++ apply Rltb_true_iff in Hcl.
              specialize (Hold _ _ eq_refl).
              repeat split; auto.
              ** destruct Hfrom as [[= <- <-] | Hin];
                   [right; left; reflexivity | right; right; exact Hin].
              ** intros q0 d0 [= <- <-]. lra.
              ** intros e' [<- | Hin] Hlt'; [lra | auto].
           ++ apply Rltb_false_iff in Hcl.
              specialize (Hold _ _ eq_refl).
              repeat split; auto.
              ** destruct Hfrom as [Heq | Hin]; [left; exact Heq | right; right; exact Hin].
              ** intros q0 d0 [= <- <-]. lra.
              ** intros e' [<- | Hin] Hlt'; [lra | auto].
        -- specialize (Hold _ _ eq_refl).
           repeat split; auto.
           ++ destruct Hfrom as [[= <- <-] | Hin];
                [right; left; reflexivity | right; right; exact Hin].
           ++ intros q0 d0 [=].
           ++ intros e' [<- | Hin] Hlt'; [lra | auto].
      * apply Rltb_false_iff in Hnear.
        repeat split; auto.
        -- destruct Hfrom as [Heq | Hin]; [left; exact Heq | right; right; exact Hin].
        -- intros e' [<- | Hin] Hlt'; [lra | auto].
    + destruct IH as (Hnone & Hfar).
      unfold snapStep in Hnone. cbv zeta in Hnone.
      destruct (Rltb (distance point e) SNAP_THRESHOLD) eqn:Hnear.
      * destruct nearest as [[q1 d1]|]; [|discriminate].
        destruct (Rltb (distance point e) d1); discriminate.
      * apply Rltb_false_iff in Hnear. split; [exact Hnone|].
        intros e' [<- | Hin]; auto.
Qed.

End Snap.

Lemma distance_551_451 :
  Snapping.distance (mkPoint 551 451) (mkPoint 550 450) = sqrt 2.
Proof. unfold Snapping.distance. cbn [x y]. f_equal. ring. Qed.

Lemma distance_580_450 :
  Snapping.distance (mkPoint 580 450) (mkPoint 550 450) = 30.
Proof.
  unfold Snapping.distance. cbn [x y].
  replace ((550 - 580) * (550 - 580) + (450 - 450) * (450 - 450))
    with (30²) by (unfold Rsqr; ring).
  apply sqrt_Rsqr. lra.
Qed.

Lemma sqrt_2_lt_20 : sqrt 2 < 20.
Proof.
  replace 20 with (sqrt (20²)) by (apply sqrt_Rsqr; lra).
  apply sqrt_lt_1; unfold Rsqr; lra.
Qed.

(** C6.  When some endpoint is closer than 20 units, the snapper returns an
    endpoint of least distance to the candidate, and that distance is below
    20; when none is, it returns the candidate.  The candidate (551,451)
    snaps to the endpoint (550,450); the candidate (580,450), 30 units from
    it, does not. *)
Theorem snapToNearestSnowflakeEndpoint_nearest :
  (forall (point : Point) (allEndpoints : list Point),
     let r := Snapping.snapToNearestSnowflakeEndpoint point allEndpoints in
     ((exists e, In e allEndpoints /\ Snapping.distance point e < 20) ->
        In r allEndpoints
        /\ Snapping.distance point r < 20
        /\ forall e, In e allEndpoints ->
             Snapping.distance point r <= Snapping.distance point e)
     /\ ((forall e, In e allEndpoints -> 20 <= Snapping.distance point e) ->
        r = point))
  /\ Snapping.snapToNearestSnowflakeEndpoint
       (mkPoint 551 451) [mkPoint 550 450] = mkPoint 550 450
  /\ Snapping.snapToNearestSnowflakeEndpoint
       (mkPoint 580 450) [mkPoint 550 450] = mkPoint 580 450.
Proof.
  split; [|split].
  - intros point allEndpoints r. subst r.
    unfold Snapping.snapToNearestSnowflakeEndpoint.
    pose proof (snap_loop point allEndpoints None I) as H.
    destruct (fold_left (Snapping.snapStep point) allEndpoints None)
      as [[q d]|].
    + destruct H as (Hd & Hlt & Hfrom & _ & Hmin).
      unfold Snapping.SNAP_THRESHOLD in *. subst d. split.
      * intros _. destruct Hfrom as [[=] | Hin].
        split; [exact Hin|]. split; [exact Hlt|].
        intros e He.
        destruct (Rlt_le_dec (Snapping.distance point e) 20) as [Hn | Hf];
          [apply Hmin; assumption | lra].
      * intros Hfar. destruct Hfrom as [[=] | Hin].
        specialize (Hfar q Hin). lra.
    + destruct H as (_ & Hfar). unfold Snapping.SNAP_THRESHOLD in *. split.
      * intros (e & He & Hlt). specialize (Hfar e He). lra.
      * reflexivity.
  - unfold Snapping.snapToNearestSnowflakeEndpoint. simpl fold_left.
    unfold Snapping.snapStep. cbv zeta. rewrite distance_551_451.
    unfold Snapping.SNAP_THRESHOLD.
    destruct (Rltb (sqrt 2) 20) eqn:H; [reflexivity|].
    apply Rltb_false_iff in H. pose proof sqrt_2_lt_20. lra.
  - unfold Snapping.snapToNearestSnowflakeEndpoint. simpl fold_left.
    unfold Snapping.snapStep. cbv zeta. rewrite distance_580_450.
    unfold Snapping.SNAP_THRESHOLD.
    destruct (Rltb 30 20) eqn:H; [|reflexivity].
    apply Rltb_true_iff in H. lra.
Qed.

(** The theorem at the candidate (551,451) and the endpoint (550,450). *)
Lemma snapToNearestSnowflakeEndpoint_nearest_witness :
  In (Snapping.snapToNearestSnowflakeEndpoint (mkPoint 551 451) [mkPoint 550 450])
     [mkPoint 550 450].
Proof.
  destruct snapToNearestSnowflakeEndpoint_nearest as [H _].
  apply (H (mkPoint 551 451) [mkPoint 550 450]).
  exists (mkPoint 550 450). split; [left; reflexivity|].
  rewrite distance_551_451. exact sqrt_2_lt_20.
Defined.

(** ** The symmetry replicator: what [addStroke] registers *)

Section Replicas.

Import Symmetry.

(** The transform [cloneAndRotate] gives to a clone of an element whose own
    transform attribute is [existing]. *)
Definition rotatedTransform (existing : option str) (angle : Z) : str :=
  match existing with
  | None | Some [] => rotateTransform angle
  | Some t => rotateTransform angle ++ lit " " ++ t
  end.

(** The two replicas one rotation angle contributes, the first node of the
    iteration being [n]: the rotated original and the rotated mirror. *)
Definition replicaPair (stroke : Stroke) (n : nat) (angle : Z) : list Node :=
  let original := snd (pathElement stroke) in
  [ (n, mkPath (attr_d original)
               (Some (rotatedTransform (attr_transform original) angle)));
    (S (S n), mkPath (attr_d original)
               (Some (rotatedTransform (Some mirrorTransform) angle))) ].

Fixpoint replicasFrom (stroke : Stroke) (n : nat) (angles : list Z) : list Node :=
  match angles with
  | [] => []
  | angle :: rest => replicaPair stroke n angle ++ replicasFrom stroke (3 + n) rest
  end.

(** The twelve replicas of [addStroke] on a manager whose next node is [n]. *)
Definition replicas (stroke : Stroke) (n : nat) : list Node :=
  replicasFrom stroke n ROTATION_ANGLES.

(** The twelve transforms of the replicas of a stroke without a transform of
    its own: for each angle the rotation, then the rotation of the mirror. *)
Definition replicaTransforms : list str :=
  flat_map (fun angle => [rotatedTransform None angle;
                          rotatedTransform (Some mirrorTransform) angle])
           ROTATION_ANGLES.

(** The number of replicas registered in [strokePaths]. *)
Definition replicaCount (m : SymmetryManager) : nat :=
  map_fold (fun _ (paths : list Node) (n : nat) => (length paths + n)%nat)
           0%nat (strokePaths m).

Lemma addStrokeStep_eq (stroke : Stroke) (m : SymmetryManager)
  (allPaths : list Node) (angle : Z) :
  addStrokeStep stroke (m, allPaths) angle
  = (mkManager (snowflakeLayer m ++ replicaPair stroke (nextNode m) angle)
               (strokePaths m) (3 + nextNode m),
     allPaths ++ replicaPair stroke (nextNode m) angle).
Proof.
  destruct m as [layer paths n]. destruct stroke as [pts [k [d t]]].
  unfold addStrokeStep, cloneAndRotate, mirrorPath, cloneNode, appendChild,
    replicaPair, rotatedTransform.
  cbn [pathElement snd fst attr_d attr_transform snowflakeLayer strokePaths
       nextNode].
  rewrite <- !app_assoc. cbn [app].
  destruct t as [[|c t]|]; reflexivity.
Qed.

Lemma addStroke_fold (stroke : Stroke) (angles : list Z) :
  forall (m : SymmetryManager) (allPaths : list Node),
  fold_left (addStrokeStep stroke) angles (m, allPaths)
  = (mkManager (snowflakeLayer m ++ replicasFrom stroke (nextNode m) angles)
               (strokePaths m) (3 * length angles + nextNode m),
     allPaths ++ replicasFrom stroke (nextNode m) angles).
Proof.
  induction angles as [|a rest IH]; intros m allPaths.
  - simpl. rewrite !app_nil_r. destruct m; reflexivity.
  - cbn [fold_left]. rewrite addStrokeStep_eq, IH.
    cbn [snowflakeLayer strokePaths nextNode replicasFrom length].
    rewrite <- !app_assoc. f_equal. f_equal. lia.
Qed.

(** [addStroke] in one step: twelve new children after the old ones, and the
    same twelve nodes as the entry of the stroke. *)
Lemma addStroke_eq (stroke : Stroke) (m : SymmetryManager) :
  addStroke stroke m
  = mkManager (snowflakeLayer m ++ replicas stroke (nextNode m))
              (<[fst (pathElement stroke) := replicas stroke (nextNode m)]>
                 (strokePaths m))
              (18 + nextNode m).
Proof.
  unfold addStroke. rewrite addStroke_fold. reflexivity.
Qed.

Lemma replicas_length (stroke : Stroke) (n : nat) :
  length (replicas stroke n) = 12%nat.
Proof. reflexivity. Qed.

Lemma replicas_d (stroke : Stroke) (n : nat) :
  Forall (fun p : Node => attr_d (snd p) = attr_d (snd (pathElement stroke)))
         (replicas stroke n).
Proof. repeat constructor. Qed.

Lemma replicas_transforms (stroke : Stroke) (n : nat) :
  attr_transform (snd (pathElement stroke)) = None ->
  map (fun p : Node => attr_transform (snd p)) (replicas stroke n)
  = map Some replicaTransforms.
Proof.
  intros Hnone. unfold replicas, replicaTransforms, ROTATION_ANGLES.
  cbn [replicasFrom replicaPair map app flat_map]. rewrite Hnone. reflexivity.
Qed.


End Replicas.

(** ** C2 and C10: twelve replicas per registered stroke *)

Section Replicator.

Import Symmetry.

(** Every entry of [strokePaths] holds twelve replicas. *)
Definition twelvePerStroke (m : SymmetryManager) : Prop :=
  map_Forall (fun _ (paths : list Node) => length paths = 12%nat) (strokePaths m).



Lemma removePaths_strokePaths (paths : list Node) (m : SymmetryManager) :
  strokePaths (removePaths paths m) = strokePaths m.
Proof. reflexivity. Qed.

Lemma removePaths_nextNode (paths : list Node) (m : SymmetryManager) :
  nextNode (removePaths paths m) = nextNode m.
Proof. reflexivity. Qed.

Lemma updateStroke_strokePaths (stroke : Stroke) (m : SymmetryManager) :
  strokePaths (updateStroke stroke m)
  = <[fst (pathElement stroke) := replicas stroke (nextNode m)]> (strokePaths m).
Proof.
  unfold updateStroke. rewrite addStroke_eq. cbn [strokePaths].
  destruct (strokePaths m !! fst (pathElement stroke)); reflexivity.
Qed.

Lemma removeStroke_strokePaths (stroke : Stroke) (m : SymmetryManager) :
  strokePaths (removeStroke stroke m)
  = delete (fst (pathElement stroke)) (strokePaths m).
Proof.
  unfold removeStroke.
  destruct (strokePaths m !! fst (pathElement stroke)) eqn:H.
  - reflexivity.
  - symmetry. apply delete_id. exact H.
Qed.

(** A property of the entries that the replicas of every call have holds in
    every state the calls lead to. *)
Lemma call_entries (P : list Node -> Prop) (m : SymmetryManager) (c : Call) :
  (forall s n, c = AddStroke s \/ c = UpdateStroke s -> P (replicas s n)) ->
  map_Forall (fun _ paths => P paths) (strokePaths m) ->
  map_Forall (fun _ paths => P paths) (strokePaths (call m c)).
Proof.
  intros Hnew Hm. destruct c as [s | s | s |]; cbn [call].
  - rewrite addStroke_eq. cbn [strokePaths].
    apply map_Forall_insert_2; [apply Hnew; auto | exact Hm].
  - rewrite updateStroke_strokePaths.
    apply map_Forall_insert_2; [apply Hnew; auto | exact Hm].
  - rewrite removeStroke_strokePaths. apply map_Forall_delete. exact Hm.
  - cbn [clearAll strokePaths]. apply map_Forall_empty.
Qed.

Lemma call_twelvePerStroke (m : SymmetryManager) (c : Call) :
  twelvePerStroke m -> twelvePerStroke (call m c).
Proof.
  apply (call_entries (fun paths => length paths = 12%nat)).
  intros s n _. apply replicas_length.
Qed.


(** Folding the calls from a state that has the invariant. *)
Lemma calls_invariant (I : SymmetryManager -> Prop) (ok : Call -> Prop) :
  (forall m c, ok c -> I m -> I (call m c)) ->
  forall calls m, Forall ok calls -> I m -> I (fold_left call calls m).
Proof.
  intros Hstep. induction calls as [|c calls IH]; intros m Hok Hm.
  - exact Hm.
  - inversion Hok; subst. cbn [fold_left]. apply IH; auto.
Qed.

(** With twelve replicas in every entry, the registered replicas number
    twelve times the registered strokes. *)
Lemma twelvePerStroke_count (m : SymmetryManager) :
  twelvePerStroke m -> replicaCount m = (12 * size (strokePaths m))%nat.
Proof.
  unfold twelvePerStroke, replicaCount. generalize (strokePaths m).
  intros sp. induction sp as [|k paths sp Hk IH] using map_ind; intros Hall.
  - rewrite map_fold_empty, map_size_empty. reflexivity.
  - apply map_Forall_insert in Hall as [Hlen Hall]; [|exact Hk].
    rewrite map_fold_insert_L; [|intros; lia | exact Hk].
    rewrite map_size_insert_None by exact Hk.
    rewrite IH by exact Hall. lia.
Qed.

End Replicator.

(** The stroke of the scenario: a straight line from (550,450) to (600,480)
    as line mode writes it, [M x y L x y]. *)
Definition lineStroke : Symmetry.Stroke :=
  Symmetry.mkStroke [mkPoint 550 450; mkPoint 600 480]
    (0%nat, Symmetry.mkPath (Some (lit "M 550 450 L 600 480")) None).



(** C10.  [updateStroke] on a stroke that has no entry in [strokePaths] does
    what [addStroke] does: the stroke gets twelve replicas, appended to the
    layer after the children already there, and the entries of the other
    strokes stay as they are. *)
Theorem updateStroke_unregistered
  (stroke : Symmetry.Stroke) (m : Symmetry.SymmetryManager) :
  Symmetry.strokePaths m !! fst (Symmetry.pathElement stroke) = None ->
  Symmetry.updateStroke stroke m = Symmetry.addStroke stroke m
  /\ (exists paths,
        Symmetry.strokePaths (Symmetry.updateStroke stroke m)
          !! fst (Symmetry.pathElement stroke) = Some paths
        /\ length paths = 12%nat
        /\ Symmetry.snowflakeLayer (Symmetry.updateStroke stroke m)
           = Symmetry.snowflakeLayer m ++ paths)
  /\ (forall k : nat,
        k <> fst (Symmetry.pathElement stroke) ->
        Symmetry.strokePaths (Symmetry.updateStroke stroke m) !! k
        = Symmetry.strokePaths m !! k).
Proof.
  intros Hnone.
  assert (Heq : Symmetry.updateStroke stroke m = Symmetry.addStroke stroke m).
  { unfold Symmetry.updateStroke. rewrite Hnone. reflexivity. }
  split; [exact Heq|]. rewrite Heq, addStroke_eq.
  cbn [Symmetry.strokePaths Symmetry.snowflakeLayer]. split.
  - exists (replicas stroke (Symmetry.nextNode m)).
    rewrite lookup_insert_eq. auto using replicas_length.
  - intros k Hk. apply lookup_insert_ne. congruence.
Qed.

(** The theorem at the scenario's stroke and a new manager. *)
Lemma updateStroke_unregistered_witness :
  Symmetry.updateStroke lineStroke Symmetry.newManager
  = Symmetry.addStroke lineStroke Symmetry.newManager.
Proof.
  apply (updateStroke_unregistered lineStroke Symmetry.newManager).
  reflexivity.
Defined.

(** ** C8: baking a path that has no transform *)

Lemma bakeTransform_transform_none (path : Symmetry.PathElement) :
  Symmetry.attr_transform (Symmetry.bakeTransform path) = None.
Proof.
  unfold Symmetry.bakeTransform.
  destruct (Symmetry.attr_transform path) as [[|c t]|]; try reflexivity.
  destruct (Symmetry.attr_d path) as [[|c' d]|]; reflexivity.
Qed.

(** C8.  A path without a transform attribute bakes to a path with the same
    [d] and no transform; so baking a baked path changes nothing. *)
Theorem bakeTransform_without_transform (path : Symmetry.PathElement) :
  (Symmetry.attr_transform path = None ->
     Symmetry.attr_d (Symmetry.bakeTransform path) = Symmetry.attr_d path
     /\ Symmetry.bakeTransform path = path)
  /\ Symmetry.attr_transform (Symmetry.bakeTransform path) = None
  /\ Symmetry.bakeTransform (Symmetry.bakeTransform path)
     = Symmetry.bakeTransform path.
Proof.
  assert (Hnone : forall q, Symmetry.attr_transform q = None ->
                            Symmetry.bakeTransform q = q).
  { intros [d t] Ht. simpl in Ht. subst t. reflexivity. }
  pose proof (bakeTransform_transform_none path) as Hbaked.
  split; [|split].
  - intros Ht. rewrite (Hnone path Ht). split; reflexivity.
  - exact Hbaked.
  - apply Hnone. exact Hbaked.
Qed.

(** The theorem at the path of the scenario's stroke. *)
Lemma bakeTransform_without_transform_witness :
  Symmetry.attr_d (Symmetry.bakeTransform (snd (Symmetry.pathElement lineStroke)))
  = Some (lit "M 550 450 L 600 480").
Proof.
  apply (proj1 (bakeTransform_without_transform
                  (snd (Symmetry.pathElement lineStroke)))).
  reflexivity.
Defined.

(** ** Numbers as text *)

Lemma pow10_pos (k : nat) : 0 < 10 ^ k.
Proof. apply pow_lt. lra. Qed.

(** The integer nearest to [|z / 10^k| * 10^k] is [|z|]. *)
Lemma nearestScaled_decimal (z : Z) (k : nat) :
  nearestScaled (IZR z / 10 ^ k) k = Z.abs_N z.
Proof.
  unfold nearestScaled. pose proof (pow10_pos k) as Hk.
  assert (Hr : Rabs (IZR z / 10 ^ k) * 10 ^ k = IZR (Z.abs z)).
  { unfold Rdiv. rewrite Rabs_mult, (Rabs_right (/ 10 ^ k)), Rabs_Zabs.
    - field. lra.
    - apply Rle_ge. left. apply Rinv_0_lt_compat. exact Hk. }
  rewrite Hr.
  rewrite <- (Int_part_spec (IZR (Z.abs z) + / 2) (Z.abs z)) by lra.
  destruct z; reflexivity.
Qed.

Lemma Rltb_decimal_0 (z : Z) (k : nat) :
  Rltb (IZR z / 10 ^ k) 0 = (z <? 0)%Z.
Proof.
  pose proof (pow10_pos k) as Hk.
  assert (Hinv : 0 < / 10 ^ k) by (apply Rinv_0_lt_compat; exact Hk).
  destruct (Z.ltb_spec z 0) as [Hz | Hz].
  - apply Rltb_true_iff. apply IZR_lt in Hz. unfold Rdiv. nra.
  - apply Rltb_false_iff. apply IZR_le in Hz. unfold Rdiv. nra.
Qed.

(** [toFixed(k)] of a number with [k] decimals writes that number. *)
Lemma toFixed_decimal (z : Z) (k : nat) :
  toFixed (Some (IZR z / 10 ^ k)) k = fixedText (z <? 0)%Z (Z.abs_N z) k.
Proof.
  unfold toFixed. rewrite nearestScaled_decimal, Rltb_decimal_0. reflexivity.
Qed.

(** [toFixed(2)] of a real given as a number of hundredths. *)
Lemma toFixed_hundredths (r : R) (z : Z) :
  r = IZR z / 100 ->
  toFixed (Some r) 2 = fixedText (z <? 0)%Z (Z.abs_N z) 2.
Proof.
  intros ->. replace 100 with (10 ^ 2) by (simpl; ring). apply toFixed_decimal.
Qed.

(** ** Evaluating the baker on given text *)

Lemma decimalValue_int (z : Z) : decimalValue (z, 0%nat) = IZR z.
Proof. unfold decimalValue. cbn [fst snd pow]. field. Qed.

(** Replace every [parseFloat] of a given text by its value. *)
Ltac eval_parseFloat :=
  repeat match goal with
  | |- context [parseFloat ?g] =>
      let v := eval vm_compute in (parseDecimal g) in
      change (parseFloat g) with (option_map decimalValue v)
  end;
  cbn [option_map num2]; rewrite ?decimalValue_int.

Lemma transformPathData_eval (pathData transform : str)
  (tm : Symmetry.TransformMatches) (ms : list (ascii * str)) :
  Symmetry.matchTransform transform = tm ->
  Symmetry.commandMatches pathData = ms ->
  Symmetry.transformPathData pathData transform
  = trim (concat (map (Symmetry.emitCommand tm) ms)).
Proof. intros <- <-. reflexivity. Qed.

Lemma emitCommand_eval (tm : Symmetry.TransformMatches) (c : ascii) (g : str)
  (ds : list (Z * nat)) :
  Symmetry.coordDecimals g = ds ->
  Symmetry.emitCommand tm (c, g)
  = toUpperCase c :: Symmetry.emitPairs tm true (map decimalValue ds) ++ lit " ".
Proof. intros <-. reflexivity. Qed.

(** One pair of the inner loop whose transformed coordinates are numbers of
    hundredths. *)
Lemma emitPairs_hundredths (tm : Symmetry.TransformMatches) (first : bool)
  (x0 y0 : R) (rest : list R) (zx zy : Z) :
  Symmetry.transformPair tm x0 y0 = (Some (IZR zx / 100), Some (IZR zy / 100)) ->
  Symmetry.emitPairs tm first (x0 :: y0 :: rest)
  = (if first then [] else lit ",")
    ++ lit " " ++ fixedText (zx <? 0)%Z (Z.abs_N zx) 2
    ++ lit " " ++ fixedText (zy <? 0)%Z (Z.abs_N zy) 2
    ++ Symmetry.emitPairs tm false rest.
Proof.
  intros H. cbn [Symmetry.emitPairs]. rewrite H.
  rewrite !(toFixed_hundredths _ _ eq_refl). reflexivity.
Qed.

(** The matches on the two transforms of the replicas at rotation 0. *)
Definition rotate0Matches : Symmetry.TransformMatches :=
  Symmetry.mkMatches (Some (lit "0", lit "500", lit "500")) None None.

Definition rotate0MirrorMatches : Symmetry.TransformMatches :=
  Symmetry.mkMatches (Some (lit "0", lit "500", lit "500"))
                     (Some (lit "-1", lit "1")) (Some (lit "-1000", lit "0")).

Definition mirrorMatches : Symmetry.TransformMatches :=
  Symmetry.mkMatches None (Some (lit "-1", lit "1")) (Some (lit "-1000", lit "0")).

Lemma zero_degrees : 0 * (PI / 180) = 0.
Proof. ring. Qed.

(** Rotation by 0 degrees leaves a point where it is. *)
Lemma transformPair_rotate0 (zx zy : Z) :
  Symmetry.transformPair rotate0Matches (IZR zx) (IZR zy)
  = (Some (IZR (zx * 100) / 100), Some (IZR (zy * 100) / 100)).
Proof.
  unfold Symmetry.transformPair, rotate0Matches.
  cbn [Symmetry.rotateMatch Symmetry.scaleMatch Symmetry.translateMatch].
  eval_parseFloat. rewrite zero_degrees, cos_0, sin_0, !mult_IZR.
  f_equal; f_equal; field.
Qed.

(** The mirror sends [x] to [1000 - x] and keeps [y]. *)
Lemma transformPair_mirror (x0 y0 : R) :
  Symmetry.transformPair mirrorMatches x0 y0 = (Some (1000 - x0), Some y0).
Proof.
  unfold Symmetry.transformPair, mirrorMatches.
  cbn [Symmetry.rotateMatch Symmetry.scaleMatch Symmetry.translateMatch].
  eval_parseFloat. f_equal; f_equal; ring.
Qed.

Lemma transformPair_rotate0_mirror (zx zy : Z) :
  Symmetry.transformPair rotate0MirrorMatches (IZR zx) (IZR zy)
  = (Some (IZR ((1000 - zx) * 100) / 100), Some (IZR (zy * 100) / 100)).
Proof.
  unfold Symmetry.transformPair, rotate0MirrorMatches.
  cbn [Symmetry.rotateMatch Symmetry.scaleMatch Symmetry.translateMatch].
  eval_parseFloat.
  rewrite zero_degrees, cos_0, sin_0, !mult_IZR, minus_IZR.
  f_equal; f_equal; field.
Qed.

(** The path of the scenario baked under the two transforms at rotation 0. *)
Lemma bake_line_rotate0 :
  Symmetry.transformPathData (lit "M 550 450 L 600 480") (lit "rotate(0 500 500)")
  = lit "M 550.00 450.00 L 600.00 480.00".
Proof.
  rewrite (transformPathData_eval _ _ rotate0Matches
             [("M"%char, lit "550 450 "); ("L"%char, lit "600 480")])
    by (vm_compute; reflexivity).
  cbn [map concat].
  rewrite (emitCommand_eval _ _ _ [(550%Z, 0%nat); (450%Z, 0%nat)])
    by (vm_compute; reflexivity).
  rewrite (emitCommand_eval _ _ _ [(600%Z, 0%nat); (480%Z, 0%nat)])
    by (vm_compute; reflexivity).
  cbn [map]. rewrite !decimalValue_int.
  rewrite !(emitPairs_hundredths _ _ _ _ _ _ _ (transformPair_rotate0 _ _)).
  vm_compute. reflexivity.
Qed.

Lemma bake_line_rotate0_mirror :
  Symmetry.transformPathData (lit "M 550 450 L 600 480")
    (lit "rotate(0 500 500) scale(-1, 1) translate(-1000, 0)")
  = lit "M 450.00 450.00 L 400.00 480.00".
Proof.
  rewrite (transformPathData_eval _ _ rotate0MirrorMatches
             [("M"%char, lit "550 450 "); ("L"%char, lit "600 480")])
    by (vm_compute; reflexivity).
  cbn [map concat].
  rewrite (emitCommand_eval _ _ _ [(550%Z, 0%nat); (450%Z, 0%nat)])
    by (vm_compute; reflexivity).
  rewrite (emitCommand_eval _ _ _ [(600%Z, 0%nat); (480%Z, 0%nat)])
    by (vm_compute; reflexivity).
  cbn [map]. rewrite !decimalValue_int.
  rewrite !(emitPairs_hundredths _ _ _ _ _ _ _ (transformPair_rotate0_mirror _ _)).
  vm_compute. reflexivity.
Qed.

(** ** C3: the scenario of one straight stroke *)

(** The coordinates of path data, command by command, as the baker reads
    them. *)
Definition pathCoordinates (pathData : str) : list (list R) :=
  map (fun m => Symmetry.parseCoords (snd m)) (Symmetry.commandMatches pathData).

Lemma pathCoordinates_eval (pathData : str) (ds : list (list (Z * nat))) :
  map (fun m => Symmetry.coordDecimals (snd m)) (Symmetry.commandMatches pathData)
  = ds ->
  pathCoordinates pathData = map (map decimalValue) ds.
Proof.
  intros <-. unfold pathCoordinates, Symmetry.parseCoords.
  rewrite map_map. reflexivity.
Qed.

Lemma hundredths (z : Z) : decimalValue ((z * 100)%Z, 2%nat) = IZR z.
Proof. unfold decimalValue. cbn [fst snd pow]. rewrite mult_IZR. field. Qed.

(** C3 (as amended).  For the stroke with path data [M 550 450 L 600 480]
    added to a new manager, baking the layer gives twelve paths, none with a
    transform.  The first replica, rotated by 0 degrees, bakes to the original
    coordinates; the second, the mirror rotated by 0 degrees, bakes to the
    endpoints (450,450) and (400,480). *)
Theorem line_stroke_baked :
  let m := Symmetry.addStroke lineStroke Symmetry.newManager in
  let baked := Symmetry.generateBakedPaths m in
  length baked = 12%nat
  /\ Forall (fun p => Symmetry.attr_transform p = None) baked
  /\ map (fun p : Symmetry.Node => Symmetry.attr_transform (snd p))
         (Symmetry.getAllPaths m)
     = map Some replicaTransforms
  /\ nth_error replicaTransforms 0 = Some (lit "rotate(0 500 500)")
  /\ nth_error replicaTransforms 1
     = Some (lit "rotate(0 500 500) scale(-1, 1) translate(-1000, 0)")
  /\ nth_error baked 0
     = Some (Symmetry.mkPath (Some (lit "M 550.00 450.00 L 600.00 480.00")) None)
  /\ nth_error baked 1
     = Some (Symmetry.mkPath (Some (lit "M 450.00 450.00 L 400.00 480.00")) None)
  /\ pathCoordinates (lit "M 550 450 L 600 480") = [[550; 450]; [600; 480]]
  /\ pathCoordinates (lit "M 550.00 450.00 L 600.00 480.00")
     = [[550; 450]; [600; 480]]
  /\ pathCoordinates (lit "M 450.00 450.00 L 400.00 480.00")
     = [[450; 450]; [400; 480]].
Proof.
  cbv zeta. rewrite addStroke_eq. unfold Symmetry.generateBakedPaths.
  cbn [Symmetry.getAllPaths Symmetry.snowflakeLayer Symmetry.nextNode
       Symmetry.newManager app].
  split; [rewrite length_map; apply replicas_length|].
  split.
  { apply Forall_map, Forall_forall. intros p _.
    apply bakeTransform_transform_none. }
  split; [apply replicas_transforms; reflexivity|].
  split; [reflexivity|]. split; [reflexivity|].
  split.
  { cbn [replicas replicasFrom Symmetry.ROTATION_ANGLES replicaPair map
         nth_error app].
    unfold Symmetry.bakeTransform, lineStroke.
    cbn [Symmetry.pathElement snd Symmetry.attr_d Symmetry.attr_transform].
    change (rotatedTransform None 0) with (lit "rotate(0 500 500)").
    cbn [lit list_ascii_of_string].
    change (Symmetry.transformPathData _ _)
      with (Symmetry.transformPathData (lit "M 550 450 L 600 480")
                                       (lit "rotate(0 500 500)")).
    rewrite bake_line_rotate0. reflexivity. }
  split.
  { cbn [replicas replicasFrom Symmetry.ROTATION_ANGLES replicaPair map
         nth_error app].
    unfold Symmetry.bakeTransform, lineStroke.
    cbn [Symmetry.pathElement snd Symmetry.attr_d Symmetry.attr_transform].
    change (rotatedTransform (Some Symmetry.mirrorTransform) 0)
      with (lit "rotate(0 500 500) scale(-1, 1) translate(-1000, 0)").
    cbn [lit list_ascii_of_string].
    change (Symmetry.transformPathData _ _)
      with (Symmetry.transformPathData (lit "M 550 450 L 600 480")
              (lit "rotate(0 500 500) scale(-1, 1) translate(-1000, 0)")).
    rewrite bake_line_rotate0_mirror. reflexivity. }
  split.
  { rewrite (pathCoordinates_eval _
      [[(550%Z, 0%nat); (450%Z, 0%nat)]; [(600%Z, 0%nat); (480%Z, 0%nat)]])
      by (vm_compute; reflexivity).
    cbn [map]. rewrite !decimalValue_int. reflexivity. }
  split.
  { rewrite (pathCoordinates_eval _
      [[((550 * 100)%Z, 2%nat); ((450 * 100)%Z, 2%nat)];
       [((600 * 100)%Z, 2%nat); ((480 * 100)%Z, 2%nat)]])
      by (vm_compute; reflexivity).
    cbn [map]. rewrite !hundredths. reflexivity. }
  rewrite (pathCoordinates_eval _
    [[((450 * 100)%Z, 2%nat); ((450 * 100)%Z, 2%nat)];
     [((400 * 100)%Z, 2%nat); ((480 * 100)%Z, 2%nat)]])
    by (vm_compute; reflexivity).
  cbn [map]. rewrite !hundredths. reflexivity.
Qed.

(** C3 as stated fails where it places the two points of the stroke inside
    the wedge: (550,450) lies at 45 degrees and (600,480) beyond that, so both
    revisions of [isPointInWedge] reject them. *)
Lemma scenario_points_outside_wedge :
  Drawing.isPointInWedge (mkPoint 550 450) defaultCenter = false
  /\ Drawing.isPointInWedge (mkPoint 600 480) defaultCenter = false
  /\ DrawingV1.isPointInWedge (mkPoint 550 450) defaultCenter = false
  /\ DrawingV1.isPointInWedge (mkPoint 600 480) defaultCenter = false.
Proof.
  pose proof PI_RGT_0 as Hpi.
  assert (Hk : 180 / PI * PI = 180) by (field; lra).
  assert (Hk0 : 0 < 180 / PI) by (apply Rdiv_lt_0_compat; lra).
  assert (H1 : wedgeAngle (mkPoint 550 450) defaultCenter = 45).
  { unfold wedgeAngle, defaultCenter. cbn [x y].
    replace (550 - 500) with 50 by ring.
    replace (- (450 - 500)) with 50 by ring.
    unfold Math_atan2.
    replace (Rltb 0 50) with true by (symmetry; apply Rltb_true_iff; lra).
    replace (50 / 50) with 1 by field. rewrite atan_1.
    replace (PI / 4 * (180 / PI)) with 45 by (field; lra).
    replace (Rltb 45 0) with false by (symmetry; apply Rltb_false_iff; lra).
    reflexivity. }
  assert (H2 : 45 < wedgeAngle (mkPoint 600 480) defaultCenter).
  { unfold wedgeAngle, defaultCenter. cbn [x y].
    replace (600 - 500) with 100 by ring.
    replace (- (480 - 500)) with 20 by ring.
    unfold Math_atan2.
    replace (Rltb 0 20) with true by (symmetry; apply Rltb_true_iff; lra).
    replace (100 / 20) with 5 by field.
    assert (Ha : PI / 4 < atan 5)
      by (rewrite <- atan_1; apply atan_increasing; lra).
    assert (Hd : 45 < atan 5 * (180 / PI)) by nra.
    replace (Rltb (atan 5 * (180 / PI)) 0) with false
      by (symmetry; apply Rltb_false_iff; lra).
    exact Hd. }
  assert (Hv1 : forall p, 30 < wedgeAngle p defaultCenter ->
                          DrawingV1.isPointInWedge p defaultCenter = false).
  { intros p Hp. destruct (DrawingV1.isPointInWedge p defaultCenter) eqn:E;
      [|reflexivity].
    apply (proj2 (isPointInWedge_iff_aux p defaultCenter)) in E. lra. }
  assert (Hv2 : forall p, 30 < wedgeAngle p defaultCenter ->
                          Drawing.isPointInWedge p defaultCenter = false).
  { intros p Hp. destruct (Drawing.isPointInWedge p defaultCenter) eqn:E;
      [|reflexivity].
    apply (proj1 (isPointInWedge_iff_aux p defaultCenter)) in E. lra. }
  repeat split; [apply Hv2 | apply Hv2 | apply Hv1 | apply Hv1]; lra.
Qed.

(** ** The text of numbers and its reading back *)

(** Facts about the character classes, by enumeration of the characters. *)
Ltac by_chars c :=
  destruct c as [[|] [|] [|] [|] [|] [|] [|] [|]];
  vm_compute; intros; solve [reflexivity | discriminate | congruence].

Lemma digit_numchar (c : ascii) : isDigit c = true -> isNumChar c = true.
Proof. by_chars c. Qed.

Lemma numchar_coordchar (c : ascii) : isNumChar c = true -> isCoordChar c = true.
Proof. by_chars c. Qed.

Lemma numchar_not_separator (c : ascii) :
  isNumChar c = true -> isSeparator c = false.
Proof. by_chars c. Qed.

Lemma separator_coordchar (c : ascii) :
  isSeparator c = true -> isCoordChar c = true.
Proof. by_chars c. Qed.

Lemma space_separator (c : ascii) : isSpace c = true -> isSeparator c = true.
Proof. by_chars c. Qed.

Lemma letter_not_coordchar (c : ascii) :
  isCommandLetter c = true -> isCoordChar c = false.
Proof. by_chars c. Qed.

Lemma letter_upper (c : ascii) :
  isCommandLetter c = true -> isCommandLetter (toUpperCase c) = true.
Proof. by_chars c. Qed.

Lemma numchar_not_space (c : ascii) : isNumChar c = true -> isSpace c = false.
Proof. by_chars c. Qed.

Lemma letter_not_space (c : ascii) : isCommandLetter c = true -> isSpace c = false.
Proof. by_chars c. Qed.

Lemma digit_not_sign (c : ascii) :
  isDigit c = true ->
  Ascii.eqb c "-" = false /\ Ascii.eqb c "+" = false /\ Ascii.eqb c "." = false.
Proof.
  destruct c as [[|] [|] [|] [|] [|] [|] [|] [|]];
    vm_compute; intros; solve [auto | discriminate].
Qed.

(** [span] on a run of the class followed by something outside of it. *)
Definition startsOutside (p : ascii -> bool) (s : str) : Prop :=
  match s with
  | [] => True
  | c :: _ => p c = false
  end.

Lemma span_run (p : ascii -> bool) (run rest : str) :
  Forall (fun c => p c = true) run -> startsOutside p rest ->
  span p (run ++ rest) = (run, rest).
Proof.
  intros Hrun Hrest. induction Hrun as [|c run Hc _ IH].
  - destruct rest as [|c r]; [reflexivity|]. simpl in *. rewrite Hrest.
    reflexivity.
  - simpl. rewrite Hc, IH. reflexivity.
Qed.

Lemma span_all (p : ascii -> bool) (run : str) :
  Forall (fun c => p c = true) run -> span p run = (run, []).
Proof.
  intros H. rewrite <- (app_nil_r run) at 1. apply span_run; [exact H | exact I].
Qed.

(** A digit character and its value. *)
Lemma digitChar_spec (d : N) :
  (d < 10)%N -> isDigit (digitChar d) = true /\ digitValue (digitChar d) = d.
Proof.
  intros Hd.
  assert (H : (d = 0 \/ d = 1 \/ d = 2 \/ d = 3 \/ d = 4 \/ d = 5 \/ d = 6
               \/ d = 7 \/ d = 8 \/ d = 9)%N) by lia.
  repeat (destruct H as [-> | H]; [split; reflexivity|]).
  subst d. split; reflexivity.
Qed.

Lemma digitsValue_snoc (ds : str) (c : ascii) :
  digitsValue (ds ++ [c]) = (digitsValue ds * 10 + digitValue c)%N.
Proof. unfold digitsValue. rewrite fold_left_app. reflexivity. Qed.

Lemma digitsValue_zeros (j : nat) (ds : str) :
  digitsValue (repeat "0"%char j ++ ds) = digitsValue ds.
Proof.
  unfold digitsValue. rewrite fold_left_app. f_equal.
  induction j as [|j IH]; [reflexivity|].
  cbn [repeat fold_left].
  change (0 * 10 + digitValue "0")%N with 0%N. exact IH.
Qed.

(** [decimalDigits] with enough fuel puts the digits of [n] before [acc]. *)
Lemma decimalDigits_spec (fuel : nat) :
  forall (n : N) (acc : str),
  (n < 2 ^ N.of_nat fuel)%N ->
  exists ds, decimalDigits (S fuel) n acc = ds ++ acc
             /\ Forall (fun c => isDigit c = true) ds
             /\ ds <> []
             /\ digitsValue ds = n.
Proof.
  induction fuel as [|fuel IH]; intros n acc Hn.
  - assert (n = 0%N) by (simpl in Hn; lia). subst n.
    exists [digitChar 0]. repeat split; try reflexivity.
    + repeat constructor.
    + discriminate.
  - assert (Hmod : (n mod 10 < 10)%N) by (apply N.mod_lt; lia).
    destruct (digitChar_spec _ Hmod) as [Hdig Hval].
    pose proof (N.div_mod n 10 ltac:(lia)) as Hdm.
    cbn [decimalDigits]. destruct (N.eqb_spec (n / 10) 0) as [Hz | Hnz].
    + exists [digitChar (n mod 10)]. repeat split.
      * repeat constructor. exact Hdig.
      * discriminate.
      * unfold digitsValue. simpl. rewrite Hval. lia.
    + destruct (IH (n / 10)%N (digitChar (n mod 10) :: acc)) as (ds & Heq & Hds & _ & Hv).
      { rewrite Nat2N.inj_succ, N.pow_succ_r' in Hn.
        apply N.Div0.div_lt_upper_bound. lia. }
      exists (ds ++ [digitChar (n mod 10)]).
      rewrite <- app_assoc. split; [exact Heq|]. split; [|split].
      * apply Forall_app. split; [exact Hds | repeat constructor; exact Hdig].
      * destruct ds; discriminate.
      * rewrite digitsValue_snoc, Hv, Hval. lia.
Qed.

Lemma numberDigits_spec (n : N) :
  Forall (fun c => isDigit c = true) (numberDigits n)
  /\ numberDigits n <> []
  /\ digitsValue (numberDigits n) = n.
Proof.
  unfold numberDigits.
  destruct (decimalDigits_spec (N.to_nat (N.size n)) n []) as (ds & Heq & H).
  - rewrite N2Nat.id. apply N.size_gt.
  - rewrite Heq, app_nil_r. exact H.
Qed.

(** A decimal numeral: sign, digits read as a natural number, and how many
    of the digits follow the point. *)
Record Numeral : Set := mkNumeral {
  negative : bool;
  magnitude : N;
  decimals : nat
}.

Definition numeralText (q : Numeral) : str :=
  fixedText (negative q) (magnitude q) (decimals q).

Definition numeralDecimal (q : Numeral) : Z * nat :=
  (if negative q then (- Z.of_N (magnitude q))%Z else Z.of_N (magnitude q),
   decimals q).

Definition numeralValue (q : Numeral) : R := decimalValue (numeralDecimal q).

(** The numeral [toFixed(f)] writes for [r]. *)
Definition fixedNumeral (r : R) (f : nat) : Numeral :=
  mkNumeral (Rltb r 0) (nearestScaled r f) f.

Lemma toFixed_numeral (r : R) (f : nat) :
  toFixed (Some r) f = numeralText (fixedNumeral r f).
Proof. reflexivity. Qed.

(** The shape of the text of a numeral: a sign, digits, and after a point as
    many digits as there are decimals. *)
Lemma fixedText_shape (neg : bool) (n : N) (f : nat) :
  exists ip fp,
    fixedText neg n f
    = (if neg then ["-"%char] else [])
      ++ ip ++ (match f with O => [] | _ => "."%char :: fp end)
    /\ Forall (fun c => isDigit c = true) ip /\ ip <> []
    /\ Forall (fun c => isDigit c = true) fp /\ length fp = f
    /\ digitsValue (ip ++ fp) = n.
Proof.
  destruct (numberDigits_spec n) as (Hdig & Hne & Hval).
  unfold fixedText.
  set (m := repeat "0"%char (S f - length (numberDigits n)) ++ numberDigits n).
  assert (Hm : Forall (fun c => isDigit c = true) m).
  { apply Forall_app. split; [|exact Hdig].
    apply List.Forall_forall. intros c Hc. apply repeat_spec in Hc. subst c.
    reflexivity. }
  assert (Hlen : (S f <= length m)%nat).
  { unfold m. rewrite length_app, repeat_length. lia. }
  exists (firstn (length m - f) m), (skipn (length m - f) m).
  split; [|split; [|split; [|split; [|split]]]].
  - destruct neg, f; reflexivity.
  - apply Forall_take. exact Hm.
  - intros Hnil. apply (f_equal (@length ascii)) in Hnil.
    rewrite length_firstn in Hnil. simpl in Hnil. lia.
  - apply Forall_drop. exact Hm.
  - rewrite length_skipn. lia.
  - rewrite firstn_skipn. unfold m. rewrite digitsValue_zeros. exact Hval.
Qed.

Lemma numeralText_numchars (q : Numeral) :
  Forall (fun c => isNumChar c = true) (numeralText q) /\ numeralText q <> [].
Proof.
  unfold numeralText.
  destruct (fixedText_shape (negative q) (magnitude q) (decimals q))
    as (ip & fp & -> & Hip & Hne & Hfp & _ & _).
  split.
  - apply Forall_app. split; [destruct (negative q); repeat constructor|].
    apply Forall_app. split.
    + eapply List.Forall_impl; [|exact Hip]. apply digit_numchar.
    + destruct (decimals q); [constructor|]. constructor; [reflexivity|].
      eapply List.Forall_impl; [|exact Hfp]. apply digit_numchar.
  - destruct (negative q); [discriminate|]. destruct ip; [contradiction|].
    discriminate.
Qed.

Lemma readDigits_shape (ip fp : str) (f : nat) :
  Forall (fun c => isDigit c = true) ip -> ip <> [] ->
  Forall (fun c => isDigit c = true) fp -> length fp = f ->
  readDigits (ip ++ (match f with O => [] | _ => "."%char :: fp end))
  = Some (digitsValue (ip ++ fp), f).
Proof.
  intros Hip Hne Hfp Hlen. unfold readDigits.
  rewrite span_run; [|exact Hip | destruct f; [exact I | reflexivity]].
  assert (Hfrac : match (match f with O => [] | _ => "."%char :: fp end) with
                  | c :: r => if Ascii.eqb c "." then fst (span isDigit r) else []
                  | [] => []
                  end = fp).
  { destruct f.
    - destruct fp; [reflexivity | discriminate].
    - cbn [Ascii.eqb]. change (Ascii.eqb "." ".") with true. cbv iota.
      rewrite span_all by exact Hfp. reflexivity. }
  rewrite Hfrac, Hlen. destruct ip as [|c ip]; [contradiction | reflexivity].
Qed.

(** Reading the text of a numeral gives the numeral back. *)
Lemma parseDecimal_numeral (q : Numeral) :
  parseDecimal (numeralText q) = Some (numeralDecimal q).
Proof.
  unfold numeralText, numeralDecimal.
  destruct (fixedText_shape (negative q) (magnitude q) (decimals q))
    as (ip & fp & -> & Hip & Hne & Hfp & Hlen & Hval).
  unfold parseDecimal. destruct (negative q).
  - cbn [app]. unfold dropSpaces. cbn [span].
    change (isSpace "-") with false. cbv iota. cbn [snd readSign].
    change (Ascii.eqb "-" "-") with true. cbv iota.
    rewrite (readDigits_shape ip fp (decimals q)), Hval by assumption.
    reflexivity.
  - cbn [app]. destruct ip as [|c ip]; [contradiction|].
    inversion Hip as [|? ? Hc Hip']; subst.
    destruct (digit_not_sign c Hc) as (Hm & Hp & _).
    unfold dropSpaces. cbn [app span].
    rewrite (numchar_not_space c (digit_numchar c Hc)). cbn [snd readSign].
    rewrite Hm, Hp.
    change (c :: ip ++ _) with ((c :: ip) ++ (match decimals q with
                                              | O => []
                                              | _ => "."%char :: fp end)).
    rewrite (readDigits_shape (c :: ip) fp (decimals q)), Hval by assumption.
    reflexivity.
Qed.

(** ** Splitting a run of coordinates into numbers *)

Definition startsInside (p : ascii -> bool) (s : str) : Prop :=
  match s with
  | [] => True
  | c :: _ => p c = true
  end.

(** The numbers read from the pieces of [s], the split started after a
    separator. *)
Definition readSplit (s : str) : list (Z * nat) :=
  omap parseDecimal (splitLoop s [] true).

Lemma span_decompose (p : ascii -> bool) (s : str) :
  s = fst (span p s) ++ snd (span p s)
  /\ Forall (fun c => p c = true) (fst (span p s)).
Proof.
  induction s as [|c s [IH1 IH2]]; [split; [reflexivity | constructor]|].
  simpl. destruct (p c) eqn:Hc; [|split; [reflexivity | constructor]].
  destruct (span p s) as [run rest]. simpl in *. split.
  - f_equal. exact IH1.
  - constructor; assumption.
Qed.

Lemma dropSpaces_decompose (s : str) :
  exists pre, s = pre ++ dropSpaces s /\ Forall (fun c => isSpace c = true) pre.
Proof.
  exists (fst (span isSpace s)). apply span_decompose.
Qed.

Lemma trim_decompose (s : str) :
  exists pre post,
    s = pre ++ trim s ++ post
    /\ Forall (fun c => isSpace c = true) pre
    /\ Forall (fun c => isSpace c = true) post.
Proof.
  destruct (dropSpaces_decompose s) as (pre & Hs & Hpre).
  destruct (dropSpaces_decompose (rev (dropSpaces s))) as (post & Hr & Hpost).
  exists pre, (rev post). split; [|split].
  - rewrite Hs at 1. f_equal. unfold trim.
    rewrite <- rev_app_distr, <- Hr, rev_involutive. reflexivity.
  - exact Hpre.
  - apply Forall_rev. exact Hpost.
Qed.

Lemma spaces_separators (s : str) :
  Forall (fun c => isSpace c = true) s -> Forall (fun c => isSeparator c = true) s.
Proof. intros H. eapply List.Forall_impl; [|exact H]. apply space_separator. Qed.

Lemma splitLoop_cons (c : ascii) (r cur : str) (b : bool) :
  splitLoop (c :: r) cur b
  = if isSeparator c then
      if b then splitLoop r cur true else rev cur :: splitLoop r [] true
    else splitLoop r (c :: cur) false.
Proof. reflexivity. Qed.

Lemma splitLoop_separators (seps rest : str) :
  Forall (fun c => isSeparator c = true) seps ->
  splitLoop (seps ++ rest) [] true = splitLoop rest [] true.
Proof.
  induction 1 as [|c seps Hc _ IH]; [reflexivity|].
  rewrite <- app_comm_cons, splitLoop_cons, Hc. exact IH.
Qed.

Lemma splitLoop_token (t rest : str) :
  forall (c : ascii) (cur : str) (b : bool),
  Forall (fun c => isSeparator c = false) (c :: t) ->
  splitLoop ((c :: t) ++ rest) cur b = splitLoop rest (rev (c :: t) ++ cur) false.
Proof.
  induction t as [|c' t IH]; intros c cur b Htok;
    inversion Htok as [|? ? Hc Ht]; subst.
  - rewrite <- app_comm_cons, splitLoop_cons, Hc. reflexivity.
  - rewrite <- app_comm_cons, splitLoop_cons, Hc.
    rewrite (IH c' (c :: cur) false Ht).
    cbn [rev]. rewrite <- !app_assoc. reflexivity.
Qed.

Lemma parseDecimal_empty : parseDecimal [] = None.
Proof. reflexivity. Qed.

(** After a piece [tok], at the end of the text or before a separator. *)
Lemma readSplit_after_token (tok rest : str) :
  startsInside isSeparator rest ->
  omap parseDecimal (splitLoop rest (rev tok) false)
  = omap parseDecimal [tok] ++ readSplit rest.
Proof.
  intros Hrest. unfold readSplit. destruct rest as [|c rest].
  - cbn [splitLoop]. rewrite rev_involutive. cbn.
    destruct (parseDecimal tok); reflexivity.
  - simpl in Hrest. rewrite !splitLoop_cons, Hrest, rev_involutive. cbn.
    destruct (parseDecimal tok); reflexivity.
Qed.

Lemma splitLoop_only_separators (post cur : str) :
  Forall (fun c => isSeparator c = true) post ->
  splitLoop post cur true = [rev cur].
Proof.
  induction 1 as [|c post Hc _ IH]; [reflexivity|].
  rewrite splitLoop_cons, Hc. exact IH.
Qed.

(** Separators at the end of the text add no number. *)
Lemma readSplit_trailing (post : str) :
  Forall (fun c => isSeparator c = true) post ->
  forall (s cur : str) (b : bool),
  omap parseDecimal (splitLoop (s ++ post) cur b)
  = omap parseDecimal (splitLoop s cur b).
Proof.
  intros Hpost. induction s as [|c s IH]; intros cur b.
  - cbn [app]. destruct post as [|c post]; [reflexivity|].
    inversion Hpost as [|? ? Hc Hpost']; subst.
    rewrite splitLoop_cons, Hc. cbn [splitLoop]. destruct b.
    + rewrite splitLoop_only_separators by exact Hpost'. reflexivity.
    + rewrite splitLoop_only_separators by exact Hpost'. cbn.
      destruct (parseDecimal (rev cur)); reflexivity.
  - rewrite <- app_comm_cons, !splitLoop_cons.
    destruct (isSeparator c); [destruct b|].
    + apply IH.
    + cbn. rewrite IH. reflexivity.
    + apply IH.
Qed.

(** The split started at the beginning of the text reads the same numbers. *)
Lemma readSplit_start (s : str) :
  omap parseDecimal (splitSeparators s) = readSplit s.
Proof.
  unfold splitSeparators, readSplit. destruct s as [|c s]; [reflexivity|].
  rewrite !splitLoop_cons. destruct (isSeparator c); [|reflexivity].
  reflexivity.
Qed.

(** [trim] and the choice of group 2 do not change the numbers read. *)
Lemma coordDecimals_readSplit (g : str) : Symmetry.coordDecimals g = readSplit g.
Proof.
  unfold Symmetry.coordDecimals. rewrite readSplit_start.
  destruct (trim_decompose g) as (pre & post & Hg & Hpre & Hpost).
  rewrite Hg at 2. unfold readSplit.
  rewrite splitLoop_separators by (apply spaces_separators; exact Hpre).
  rewrite readSplit_trailing by (apply spaces_separators; exact Hpost).
  reflexivity.
Qed.

Lemma readSplit_spaces (s : str) :
  Forall (fun c => isSpace c = true) s -> readSplit s = [].
Proof.
  intros H. unfold readSplit.
  rewrite splitLoop_only_separators by (apply spaces_separators; exact H).
  reflexivity.
Qed.

Lemma readSplit_coordGroup (run : str) :
  readSplit (Symmetry.coordGroup run) = readSplit run.
Proof.
  destruct (dropSpaces_decompose run) as (pre & Hrun & Hpre).
  unfold Symmetry.coordGroup. destruct (dropSpaces run) as [|c g] eqn:Hdrop.
  - rewrite app_nil_r in Hrun. subst pre.
    rewrite (readSplit_spaces run Hpre).
    destruct run as [|c run]; [reflexivity|].
    apply readSplit_spaces. constructor; [|constructor].
    destruct (exists_last (l := c :: run)) as (l' & a & Hl); [discriminate|].
    rewrite Hl, last_last. rewrite Hl in Hpre.
    apply Forall_app in Hpre as [_ Ha]. inversion Ha; assumption.
  - rewrite Hrun. unfold readSplit.
    rewrite splitLoop_separators by (apply spaces_separators; exact Hpre).
    reflexivity.
Qed.

(** ** C9: path data as the baker reads it *)

(** A number of a command with the separators written before it. *)
Definition Item : Set := (str * Numeral)%type.

(** The text after a command letter: the numbers, each after its separators,
    and the separators after the last number. *)
Fixpoint runText (items : list Item) (trailing : str) : str :=
  match items with
  | [] => trailing
  | (sep, q) :: rest => sep ++ numeralText q ++ runText rest trailing
  end.

(** A piece of path data: a command with one of the letters of the baker, or
    text the baker has no command letter for. *)
Inductive Segment : Set :=
| Command (letter : ascii) (items : list Item) (trailing : str)
| Unsupported (text : str).

Definition segmentText (g : Segment) : str :=
  match g with
  | Command letter items trailing => letter :: runText items trailing
  | Unsupported text => text
  end.

Definition pathText (segs : list Segment) : str := concat (map segmentText segs).

(** Separators are white space and commas, at least one before a number. *)
Definition wfItem (it : Item) : Prop :=
  fst it <> [] /\ Forall (fun c => isSeparator c = true) (fst it).

(** The numbers of a command: the first may follow the letter directly
    ([M10,20]) or after separators, every further number follows at least
    one separator. *)
Definition wfItems (items : list Item) : Prop :=
  match items with
  | [] => True
  | first :: rest =>
      Forall (fun c => isSeparator c = true) (fst first) /\ Forall wfItem rest
  end.

(** A command has a letter of the baker and a non-empty text after it.
    Unsupported text starts with a character that can not continue the
    numbers of the command before it (as every other command letter of SVG
    does) and holds none of the letters of the baker. *)
Definition wfSegment (g : Segment) : Prop :=
  match g with
  | Command letter items trailing =>
      isCommandLetter letter = true
      /\ wfItems items
      /\ Forall (fun c => isSeparator c = true) trailing
      /\ runText items trailing <> []
  | Unsupported text =>
      text <> []
      /\ startsOutside isCoordChar text
      /\ Forall (fun c => isCommandLetter c = false) text
  end.

Definition itemValues (items : list Item) : list R :=
  map (fun it : Item => numeralValue (snd it)) items.

(** What the baker writes for a piece. *)
Definition emitSegment (tm : Symmetry.TransformMatches) (g : Segment) : str :=
  match g with
  | Command letter items _ =>
      toUpperCase letter :: Symmetry.emitPairs tm true (itemValues items) ++ lit " "
  | Unsupported _ => []
  end.

Definition segmentMatches (g : Segment) : list (ascii * str) :=
  match g with
  | Command letter items trailing =>
      [(letter, Symmetry.coordGroup (runText items trailing))]
  | Unsupported _ => []
  end.

Lemma runText_startsInside (items : list Item) (trailing : str) :
  Forall wfItem items -> Forall (fun c => isSeparator c = true) trailing ->
  startsInside isSeparator (runText items trailing).
Proof.
  intros Hitems Htr. destruct items as [|[sep q] items].
  - destruct Htr; [exact I | assumption].
  - inversion Hitems as [|? ? [Hne Hsep] _]; subst. simpl in *.
    destruct Hsep; [contradiction | assumption].
Qed.

Lemma wfItems_Forall (items : list Item) : Forall wfItem items -> wfItems items.
Proof.
  intros H. destruct H as [|it items [_ Hsep] Hrest]; [exact I|].
  split; assumption.
Qed.

Lemma runText_coordchars_rest (items : list Item) (trailing : str) :
  Forall wfItem items -> Forall (fun c => isSeparator c = true) trailing ->
  Forall (fun c => isCoordChar c = true) (runText items trailing).
Proof.
  intros Hitems Htr. induction Hitems as [|[sep q] items [_ Hsep] _ IH].
  - eapply List.Forall_impl; [|exact Htr]. apply separator_coordchar.
  - cbn [runText]. simpl in Hsep. apply Forall_app. split.
    + eapply List.Forall_impl; [|exact Hsep]. apply separator_coordchar.
    + apply Forall_app. split; [|exact IH].
      eapply List.Forall_impl; [|apply numeralText_numchars].
      apply numchar_coordchar.
Qed.

Lemma runText_coordchars (items : list Item) (trailing : str) :
  wfItems items -> Forall (fun c => isSeparator c = true) trailing ->
  Forall (fun c => isCoordChar c = true) (runText items trailing).
Proof.
  intros Hitems Htr. destruct items as [|[sep q] items].
  - apply (runText_coordchars_rest [] trailing); [constructor | exact Htr].
  - destruct Hitems as [Hsep Hrest]. cbn [fst] in Hsep. cbn [runText].
    apply Forall_app. split.
    + eapply List.Forall_impl; [|exact Hsep]. apply separator_coordchar.
    + apply Forall_app. split;
        [|apply runText_coordchars_rest; assumption].
      eapply List.Forall_impl; [|apply numeralText_numchars].
      apply numchar_coordchar.
Qed.

(** The numbers read from the text after a command letter are its numbers. *)
Lemma readSplit_runText_rest (items : list Item) (trailing : str) :
  Forall wfItem items -> Forall (fun c => isSeparator c = true) trailing ->
  readSplit (runText items trailing)
  = map (fun it : Item => numeralDecimal (snd it)) items.
Proof.
  intros Hitems Htr. induction Hitems as [|[sep q] items [_ Hsep] Hrest IH].
  - cbn [runText map]. unfold readSplit.
    rewrite splitLoop_only_separators by exact Htr. reflexivity.
  - cbn [runText map snd]. simpl in Hsep. unfold readSplit.
    rewrite splitLoop_separators by exact Hsep.
    destruct (numeralText_numchars q) as [Hnum Hne].
    destruct (numeralText q) as [|c t] eqn:Htext; [contradiction|].
    rewrite splitLoop_token.
    + rewrite app_nil_r.
      rewrite readSplit_after_token
        by (apply runText_startsInside; assumption).
      rewrite <- Htext. cbn. rewrite parseDecimal_numeral. cbn.
      f_equal. exact IH.
    + eapply List.Forall_impl; [|exact Hnum]. apply numchar_not_separator.
Qed.

(** The same when the first number follows the letter directly. *)
Lemma readSplit_runText (items : list Item) (trailing : str) :
  wfItems items -> Forall (fun c => isSeparator c = true) trailing ->
  readSplit (runText items trailing)
  = map (fun it : Item => numeralDecimal (snd it)) items.
Proof.
  intros Hitems Htr. destruct items as [|[sep q] items].
  - apply (readSplit_runText_rest [] trailing); [constructor | exact Htr].
  - destruct Hitems as [Hsep Hrest]. cbn [fst] in Hsep.
    cbn [runText map snd]. unfold readSplit.
    rewrite splitLoop_separators by exact Hsep.
    destruct (numeralText_numchars q) as [Hnum Hne].
    destruct (numeralText q) as [|c t] eqn:Htext; [contradiction|].
    rewrite splitLoop_token.
    + rewrite app_nil_r.
      rewrite readSplit_after_token
        by (apply runText_startsInside; assumption).
      rewrite <- Htext. cbn. rewrite parseDecimal_numeral. cbn.
      f_equal. apply readSplit_runText_rest; assumption.
    + eapply List.Forall_impl; [|exact Hnum]. apply numchar_not_separator.
Qed.

Lemma execLoop_cons (fuel : nat) (c : ascii) (r : str) :
  Symmetry.execLoop (S fuel) (c :: r)
  = if isCommandLetter c then
      match span isCoordChar r with
      | ([], _) => Symmetry.execLoop fuel r
      | (run, rest) => (c, Symmetry.coordGroup run) :: Symmetry.execLoop fuel rest
      end
    else Symmetry.execLoop fuel r.
Proof. reflexivity. Qed.

(** Text without a letter of the baker gives no match. *)
Lemma execLoop_skip (text rest : str) (fuel : nat) :
  Forall (fun c => isCommandLetter c = false) text ->
  Symmetry.execLoop (length text + fuel) (text ++ rest)
  = Symmetry.execLoop fuel rest.
Proof.
  induction 1 as [|c text Hc _ IH]; [reflexivity|].
  cbn [length Nat.add]. rewrite <- app_comm_cons, execLoop_cons, Hc. exact IH.
Qed.

Lemma pathText_startsOutside (segs : list Segment) :
  Forall wfSegment segs -> startsOutside isCoordChar (pathText segs).
Proof.
  intros H. destruct H as [|g segs Hg _]; [exact I|].
  destruct g as [letter items trailing | text]; cbn.
  - apply letter_not_coordchar. apply Hg.
  - destruct Hg as (Hne & Hstart & _). destruct text; [contradiction|].
    exact Hstart.
Qed.

(** The matches of the command regex are the commands, in order. *)
Lemma execLoop_segments (segs : list Segment) :
  Forall wfSegment segs ->
  forall fuel : nat,
  (length (pathText segs) <= fuel)%nat ->
  Symmetry.execLoop fuel (pathText segs) = flat_map segmentMatches segs.
Proof.
  induction 1 as [|g segs Hg Hsegs IH]; intros fuel Hfuel.
  - destruct fuel; reflexivity.
  - unfold pathText in *. cbn [map concat flat_map] in *.
    rewrite length_app in Hfuel.
    destruct g as [letter items trailing | text].
    + destruct Hg as (Hletter & Hitems & Htr & Hne).
      cbn [segmentText length] in *.
      destruct fuel as [|fuel]; [lia|].
      rewrite <- app_comm_cons, execLoop_cons, Hletter.
      rewrite span_run;
        [| apply runText_coordchars; assumption
         | apply (pathText_startsOutside segs Hsegs)].
      destruct (runText items trailing) as [|c run] eqn:Hrun; [contradiction|].
      cbn [segmentMatches app]. rewrite Hrun. f_equal. apply IH. lia.
    + destruct Hg as (_ & _ & Hnone). cbn [segmentText segmentMatches app] in *.
      replace fuel with (length text + (fuel - length text))%nat by lia.
      rewrite execLoop_skip by exact Hnone. apply IH. lia.
Qed.

(** The numbers the baker takes from group 2 of a command. *)
Lemma parseCoords_command (items : list Item) (trailing : str) :
  wfItems items -> Forall (fun c => isSeparator c = true) trailing ->
  Symmetry.parseCoords (Symmetry.coordGroup (runText items trailing))
  = itemValues items.
Proof.
  intros Hitems Htr. unfold Symmetry.parseCoords, itemValues.
  rewrite coordDecimals_readSplit, readSplit_coordGroup,
    readSplit_runText by assumption.
  rewrite map_map. reflexivity.
Qed.

Lemma emitCommand_segment (tm : Symmetry.TransformMatches) (g : Segment) :
  wfSegment g ->
  concat (map (Symmetry.emitCommand tm) (segmentMatches g)) = emitSegment tm g.
Proof.
  destruct g as [letter items trailing | text]; [|reflexivity].
  intros (_ & Hitems & Htr & _).
  cbn [segmentMatches map concat emitSegment]. rewrite app_nil_r.
  unfold Symmetry.emitCommand. cbn [fst snd].
  rewrite parseCoords_command by assumption. reflexivity.
Qed.

(** The baker on well-formed pieces: every command is written in its place,
    unsupported text leaves nothing. *)
Lemma transformPathData_segments (segs : list Segment) (transform : str) :
  Forall wfSegment segs ->
  Symmetry.transformPathData (pathText segs) transform
  = trim (concat (map (emitSegment (Symmetry.matchTransform transform)) segs)).
Proof.
  intros Hsegs. unfold Symmetry.transformPathData, Symmetry.commandMatches.
  rewrite execLoop_segments by (exact Hsegs || lia). f_equal.
  induction Hsegs as [|g segs Hg _ IH]; [reflexivity|].
  cbn [flat_map map concat]. rewrite map_app, concat_app, IH.
  rewrite emitCommand_segment by exact Hg. reflexivity.
Qed.

(** The coordinates of a list of points, as the inner loop walks them. *)
Definition flattenPoints (pts : list (R * R)) : list R :=
  flat_map (fun p : R * R => [fst p; snd p]) pts.

(** What the inner loop writes for one point. *)
Definition pairText (tm : Symmetry.TransformMatches) (first : bool) (p : R * R)
  : str :=
  let '(x, y) := Symmetry.transformPair tm (fst p) (snd p) in
  (if first then [] else lit ",") ++ lit " " ++ toFixed x 2 ++ lit " " ++ toFixed y 2.

Fixpoint pairsText (tm : Symmetry.TransformMatches) (first : bool)
  (pts : list (R * R)) : str :=
  match pts with
  | [] => []
  | p :: rest => pairText tm first p ++ pairsText tm false rest
  end.

(** Every complete pair is transformed and written, in order; a coordinate
    left over at the end is dropped. *)
Lemma emitPairs_points (tm : Symmetry.TransformMatches) (pts : list (R * R)) :
  forall (first : bool) (dangling : list R),
  (length dangling <= 1)%nat ->
  Symmetry.emitPairs tm first (flattenPoints pts ++ dangling)
  = pairsText tm first pts.
Proof.
  induction pts as [|[x0 y0] pts IH]; intros first dangling Hd.
  - destruct dangling as [|z [|z' d]]; [reflexivity | reflexivity |].
    simpl in Hd. lia.
  - cbn [flattenPoints flat_map fst snd app Symmetry.emitPairs pairsText].
    unfold pairText. cbn [fst snd].
    destruct (Symmetry.transformPair tm x0 y0) as [x1 y1].
    rewrite <- !app_assoc. do 5 f_equal. apply (IH false dangling Hd).
Qed.





Definition plainNumeral (n : N) : Numeral := mkNumeral false n 0.




Definition noMatches : Symmetry.TransformMatches :=
  Symmetry.mkMatches None None None.

Lemma transformPair_none (zx zy : Z) :
  Symmetry.transformPair noMatches (IZR zx) (IZR zy)
  = (Some (IZR (zx * 100) / 100), Some (IZR (zy * 100) / 100)).
Proof.
  unfold Symmetry.transformPair, noMatches.
  cbn [Symmetry.rotateMatch Symmetry.scaleMatch Symmetry.translateMatch].
  rewrite !mult_IZR. f_equal; f_equal; field.
Qed.


(** Where the notation ends: two numbers with no separator between them are
    one piece of the split, of which [parseFloat] reads the first number, so
    [M10-20] loses its pair; [M10,20] keeps it. *)
Lemma unseparated_pair_lost :
  Symmetry.transformPathData (lit "M10-20") [] = lit "M"
  /\ Symmetry.transformPathData (lit "M10,20") [] = lit "M 10.00 20.00".
Proof.
  split.
  - rewrite (transformPathData_eval _ _ noMatches [("M"%char, lit "10-20")])
      by (vm_compute; reflexivity).
    cbn [map concat].
    rewrite (emitCommand_eval _ _ _ [(10%Z, 0%nat)]) by (vm_compute; reflexivity).
    cbn [map Symmetry.emitPairs]. vm_compute. reflexivity.
  - rewrite (transformPathData_eval _ _ noMatches [("M"%char, lit "10,20")])
      by (vm_compute; reflexivity).
    cbn [map concat].
    rewrite (emitCommand_eval _ _ _ [(10%Z, 0%nat); (20%Z, 0%nat)])
      by (vm_compute; reflexivity).
    cbn [map]. rewrite !decimalValue_int.
    rewrite !(emitPairs_hundredths _ _ _ _ _ _ _ (transformPair_none _ _)).
    vm_compute. reflexivity.
Qed.

(** ** C7: the mirror applied twice *)

(** The mirror written twice in one transform attribute, as [cloneAndRotate]
    joins transforms. *)
Definition mirrorTwice : str :=
  Symmetry.mirrorTransform ++ lit " " ++ Symmetry.mirrorTransform.

(** Every coordinate of [a] is within 0.01 of the coordinate of [b] in its
    place. *)
Definition withinTolerance (a b : list (list R)) : Prop :=
  Forall2 (Forall2 (fun u v : R => Rabs (u - v) <= 1 / 100)) a b.

Lemma bake_point_mirrorTwice :
  Symmetry.transformPathData (lit "M 550 450") mirrorTwice
  = lit "M 450.00 450.00".
Proof.
  rewrite (transformPathData_eval _ _ mirrorMatches [("M"%char, lit "550 450")])
    by (vm_compute; reflexivity).
  cbn [map concat].
  rewrite (emitCommand_eval _ _ _ [(550%Z, 0%nat); (450%Z, 0%nat)])
    by (vm_compute; reflexivity).
  cbn [map]. rewrite !decimalValue_int.
  rewrite (emitPairs_hundredths _ _ _ _ _ 45000 45000).
  - vm_compute. reflexivity.
  - rewrite transformPair_mirror. f_equal; f_equal; lra.
Qed.

(** C7 as stated fails: the baker reads the first [scale] and the first
    [translate] of a transform only, so the mirror written twice is baked as
    one mirror, and [mirrorPath] replaces the transform of a mirrored path
    instead of composing with it.  The point (550,450) goes to (450,450). *)
Lemma mirror_twice_bakes_as_one_mirror :
  ~ withinTolerance
      (pathCoordinates (Symmetry.transformPathData (lit "M 550 450") mirrorTwice))
      (pathCoordinates (lit "M 550 450"))
  /\ (forall (m m' : Symmetry.SymmetryManager) (p : Symmetry.PathElement),
        Symmetry.attr_transform
          (snd (fst (Symmetry.mirrorPath m'
                       (snd (fst (Symmetry.mirrorPath m p))))))
        = Some Symmetry.mirrorTransform).
Proof.
  split; [|reflexivity].
  rewrite bake_point_mirrorTwice.
  rewrite (pathCoordinates_eval _
    [[((450 * 100)%Z, 2%nat); ((450 * 100)%Z, 2%nat)]])
    by (vm_compute; reflexivity).
  rewrite (pathCoordinates_eval (lit "M 550 450")
    [[(550%Z, 0%nat); (450%Z, 0%nat)]])
    by (vm_compute; reflexivity).
  cbn [map]. rewrite !hundredths, !decimalValue_int.
  unfold withinTolerance. intros H.
  inversion H as [|? ? ? ? Hrow _]; subst.
  inversion Hrow as [|? ? ? ? Hx _]; subst.
  replace (450 - 550) with (- 100) in Hx by ring.
  rewrite Rabs_left in Hx by lra. lra.
Qed.

(** [toFixed(2)] moves a number by at most half a hundredth. *)
Lemma fixedNumeral_error (v : R) :
  Rabs (numeralValue (fixedNumeral v 2) - v) <= / 200.
Proof.
  unfold numeralValue, numeralDecimal, fixedNumeral, decimalValue, nearestScaled.
  cbn [negative magnitude decimals fst snd].
  set (r := Rabs v * 10 ^ 2 + / 2).
  destruct (base_Int_part r) as [Hlo Hhi].
  pose proof (Rabs_pos v) as Hpos.
  assert (Hr : r = Rabs v * 100 + / 2) by (unfold r; simpl; ring).
  assert (Hk : (0 <= Int_part r)%Z).
  { apply Z.lt_succ_r. apply lt_IZR. rewrite succ_IZR. lra. }
  rewrite Z2N.id by exact Hk.
  replace (10 ^ 2) with 100 by (simpl; ring).
  destruct (Rltb v 0) eqn:Hneg.
  - apply Rltb_true_iff in Hneg. rewrite Rabs_left in Hr by exact Hneg.
    rewrite opp_IZR. apply Rabs_le. lra.
  - apply Rltb_false_iff in Hneg. rewrite Rabs_right in Hr by lra.
    apply Rabs_le. lra.
Qed.

(** *** Geometry and its two notations *)

(** A geometry: commands with their points, as decimal numerals. *)
Definition Geometry : Set := list (ascii * list (Numeral * Numeral)).

Definition wfGeometry (g : Geometry) : Prop :=
  Forall (fun c : ascii * list (Numeral * Numeral) =>
            isCommandLetter (fst c) = true /\ snd c <> []) g.

(** Commands with a space between them and none after the last. *)
Fixpoint spaced (cmds : list (ascii * list Item)) : list Segment :=
  match cmds with
  | [] => []
  | (letter, items) :: rest =>
      Command letter items (match rest with [] => [] | _ => lit " " end)
      :: spaced rest
  end.

(** The notation of drawing.ts: every number after one space. *)
Definition sourceItems (pts : list (Numeral * Numeral)) : list Item :=
  flat_map (fun p : Numeral * Numeral => [(lit " ", fst p); (lit " ", snd p)]) pts.

Definition sourceText (g : Geometry) : str :=
  pathText (spaced (map (fun c => (fst c, sourceItems (snd c))) g)).

(** The notation of the baker: two decimals, a comma between the pairs. *)
Fixpoint bakedItems (first : bool) (pts : list (R * R)) : list Item :=
  match pts with
  | [] => []
  | p :: rest =>
      ((if first then [] else lit ",") ++ lit " ", fixedNumeral (fst p) 2)
      :: (lit " ", fixedNumeral (snd p) 2)
      :: bakedItems false rest
  end.

Definition pointValue (p : Numeral * Numeral) : R * R :=
  (numeralValue (fst p), numeralValue (snd p)).

Definition roundPoint (p : R * R) : R * R :=
  (numeralValue (fixedNumeral (fst p) 2), numeralValue (fixedNumeral (snd p) 2)).

Definition mirrorPoint (p : R * R) : R * R := (1000 - fst p, snd p).

(** The commands [cmds] carry the points [vs]. *)
Definition carries (cmds : list (ascii * list Item))
  (vs : list (ascii * list (R * R))) : Prop :=
  Forall2 (fun (c : ascii * list Item) (v : ascii * list (R * R)) =>
             fst c = fst v
             /\ itemValues (snd c) = flattenPoints (snd v)
             /\ Forall wfItem (snd c)
             /\ snd c <> []
             /\ isCommandLetter (fst c) = true)
          cmds vs.

Lemma runText_app (items : list Item) (trailing s : str) :
  runText items (trailing ++ s) = runText items trailing ++ s.
Proof.
  induction items as [|[sep q] items IH]; [reflexivity|].
  cbn [runText]. rewrite IH, <- !app_assoc. reflexivity.
Qed.

Lemma rev_head (P : ascii -> Prop) (l : str) :
  l <> [] -> Forall P l -> exists c t, rev l = c :: t /\ P c.
Proof.
  intros Hne Hl. apply Forall_rev in Hl.
  destruct (rev l) as [|c t] eqn:Hrev.
  - apply (f_equal (@rev ascii)) in Hrev. rewrite rev_involutive in Hrev.
    contradiction.
  - exists c, t. inversion Hl; auto.
Qed.

(** The text after the letter of a command with numbers ends in a digit or
    another character of a number. *)
Lemma runText_end (items : list Item) :
  items <> [] ->
  exists c t, rev (runText items []) = c :: t /\ isSpace c = false.
Proof.
  induction items as [|[sep q] items IH]; [contradiction|]. intros _.
  cbn [runText]. destruct items as [|it items].
  - cbn [runText].
    destruct (numeralText_numchars q) as [Hnum Hne].
    destruct (rev_head _ _ Hne Hnum) as (c & t & Hrev & Hc).
    exists c, (t ++ rev sep).
    rewrite app_nil_r, rev_app_distr, Hrev. split; [reflexivity|].
    apply numchar_not_space. exact Hc.
  - destruct IH as (c & t & Hrev & Hc); [discriminate|].
    exists c, (t ++ rev (sep ++ numeralText q)).
    rewrite app_assoc, rev_app_distr, Hrev. split; [reflexivity | exact Hc].
Qed.

Lemma dropSpaces_outside (s : str) : startsOutside isSpace s -> dropSpaces s = s.
Proof.
  destruct s as [|c s]; [reflexivity|]. simpl. intros Hc.
  unfold dropSpaces. cbn [span]. rewrite Hc. reflexivity.
Qed.

(** [trim] takes the one space after text that starts and ends with other
    characters. *)
Lemma trim_trailing_space (body : str) :
  body <> [] -> startsOutside isSpace body -> startsOutside isSpace (rev body) ->
  trim (body ++ lit " ") = body.
Proof.
  intros Hne Hstart Hend. unfold trim.
  rewrite (dropSpaces_outside (body ++ lit " "))
    by (destruct body; [contradiction | exact Hstart]).
  rewrite rev_app_distr.
  assert (Hsp : forall s, dropSpaces (rev (lit " ") ++ s) = dropSpaces s).
  { intros s. unfold dropSpaces. cbn [lit list_ascii_of_string rev app span].
    change (isSpace " ") with true. cbv iota.
    destruct (span isSpace s); reflexivity. }
  rewrite Hsp, dropSpaces_outside by exact Hend. apply rev_involutive.
Qed.

Definition commandOk {A : Type} (c : ascii * list A) : Prop :=
  isCommandLetter (fst c) = true /\ snd c <> [].

(** What the outer loop writes for commands given by their points. *)
Definition bakeCommands (tm : Symmetry.TransformMatches)
  (vs : list (ascii * list (R * R))) : str :=
  concat (map (fun v : ascii * list (R * R) =>
                 toUpperCase (fst v) :: pairsText tm true (snd v) ++ lit " ") vs).

Definition bakedCmds (vs : list (ascii * list (R * R))) : list (ascii * list Item) :=
  map (fun v : ascii * list (R * R) => (fst v, bakedItems true (snd v))) vs.

Definition mirrored (vs : list (ascii * list (R * R))) : list (ascii * list (R * R)) :=
  map (fun v : ascii * list (R * R) =>
         (toUpperCase (fst v), map mirrorPoint (snd v))) vs.

Definition rounded (vs : list (ascii * list (R * R))) : list (ascii * list (R * R)) :=
  map (fun v : ascii * list (R * R) => (fst v, map roundPoint (snd v))) vs.

Lemma emitSegment_carries (tm : Symmetry.TransformMatches)
  (cmds : list (ascii * list Item)) (vs : list (ascii * list (R * R))) :
  carries cmds vs ->
  concat (map (emitSegment tm) (spaced cmds)) = bakeCommands tm vs.
Proof.
  induction 1 as [|[l items] [l' pts] cmds vs (Hl & Hv & _) _ IH];
    [reflexivity|].
  cbn [fst snd] in *. subst l'.
  unfold bakeCommands in *. cbn [spaced map concat emitSegment fst snd].
  rewrite IH, Hv. rewrite <- (app_nil_r (flattenPoints pts)) at 1.
  rewrite emitPairs_points by (simpl; lia). reflexivity.
Qed.

Lemma pairsText_mirror (pts : list (R * R)) (first : bool) :
  pairsText mirrorMatches first pts
  = runText (bakedItems first (map mirrorPoint pts)) [].
Proof.
  revert first. induction pts as [|[x0 y0] pts IH]; intros first; [reflexivity|].
  cbn [pairsText map bakedItems runText mirrorPoint fst snd].
  unfold pairText. cbn [fst snd]. rewrite transformPair_mirror, IH.
  rewrite !toFixed_numeral, <- !app_assoc. reflexivity.
Qed.

Lemma bakeCommands_mirror (vs : list (ascii * list (R * R))) :
  bakeCommands mirrorMatches vs
  = concat (map (fun c : ascii * list Item =>
                   fst c :: runText (snd c) [] ++ lit " ")
                (bakedCmds (mirrored vs))).
Proof.
  unfold bakeCommands, bakedCmds, mirrored. rewrite !map_map. f_equal.
  apply map_ext. intros [l pts]. cbn [fst snd].
  rewrite pairsText_mirror. reflexivity.
Qed.

Lemma spaced_text (cmds : list (ascii * list Item)) :
  cmds <> [] ->
  concat (map (fun c : ascii * list Item =>
                 fst c :: runText (snd c) [] ++ lit " ") cmds)
  = pathText (spaced cmds) ++ lit " ".
Proof.
  induction cmds as [|[l items] cmds IH]; [contradiction|]. intros _.
  destruct cmds as [|c cmds].
  - unfold pathText. cbn [map concat spaced segmentText fst snd].
    rewrite !app_nil_r. reflexivity.
  - specialize (IH ltac:(discriminate)).
    cbn [map concat] in *. rewrite IH.
    unfold pathText. cbn [spaced map concat segmentText fst snd].
    rewrite <- (app_nil_l (lit " ")) at 3. rewrite runText_app.
    cbn [app]. rewrite <- !app_assoc. reflexivity.
Qed.

Lemma spaced_end (cmds : list (ascii * list Item)) :
  cmds <> [] -> Forall (fun c : ascii * list Item => snd c <> []) cmds ->
  exists c t, rev (pathText (spaced cmds)) = c :: t /\ isSpace c = false.
Proof.
  induction cmds as [|[l items] cmds IH]; [contradiction|]. intros _ Hall.
  inversion Hall as [|? ? Hitems Hrest]; subst. cbn [snd] in Hitems.
  destruct cmds as [|c' cmds].
  - destruct (runText_end items Hitems) as (c & t & Hrev & Hc).
    exists c, (t ++ [l]).
    unfold pathText. cbn [spaced map concat segmentText].
    rewrite app_nil_r. cbn [rev]. rewrite Hrev. split; [reflexivity | exact Hc].
  - destruct (IH ltac:(discriminate) Hrest) as (c & t & Hrev & Hc).
    exists c, (t ++ rev (l :: runText items (lit " "))).
    unfold pathText in *. cbn [spaced map concat segmentText] in *.
    rewrite app_comm_cons, rev_app_distr, Hrev.
    split; [reflexivity | exact Hc].
Qed.

(** [trim] takes the space after the last command and nothing else. *)
Lemma trim_spaced (cmds : list (ascii * list Item)) :
  Forall commandOk cmds ->
  trim (concat (map (fun c : ascii * list Item =>
                       fst c :: runText (snd c) [] ++ lit " ") cmds))
  = pathText (spaced cmds).
Proof.
  intros Hall. destruct cmds as [|[l items] rest]; [reflexivity|].
  assert (Hne : (l, items) :: rest <> []) by discriminate.
  rewrite spaced_text by exact Hne.
  destruct (spaced_end _ Hne) as (c & t & Hrev & Hc).
  { eapply List.Forall_impl; [|exact Hall]. intros a Ha. apply Ha. }
  apply trim_trailing_space.
  - intros Hnil. rewrite Hnil in Hrev. discriminate.
  - inversion Hall as [|? ? [Hl _] _]; subst.
    unfold pathText. cbn. apply letter_not_space. exact Hl.
  - rewrite Hrev. exact Hc.
Qed.

Lemma bakedItems_values (pts : list (R * R)) (first : bool) :
  itemValues (bakedItems first pts) = flattenPoints (map roundPoint pts).
Proof.
  revert first. induction pts as [|p pts IH]; intros first; [reflexivity|].
  cbn [bakedItems itemValues map flattenPoints flat_map app fst snd roundPoint].
  f_equal. f_equal. apply IH.
Qed.

Lemma bakedItems_wf (pts : list (R * R)) (first : bool) :
  Forall wfItem (bakedItems first pts).
Proof.
  revert first. induction pts as [|p pts IH]; intros first; [constructor|].
  cbn [bakedItems]. constructor; [|constructor; [|apply IH]].
  - destruct first; split; cbn; try discriminate; repeat constructor.
  - split; cbn; try discriminate; repeat constructor.
Qed.

Lemma carries_baked (vs : list (ascii * list (R * R))) :
  Forall commandOk vs -> carries (bakedCmds vs) (rounded vs).
Proof.
  induction 1 as [|[l pts] vs [Hl Hne] _ IH]; [constructor|].
  cbn [fst snd] in *. constructor; [|exact IH]. cbn [fst snd].
  split; [reflexivity|]. split; [apply bakedItems_values|].
  split; [apply bakedItems_wf|]. split; [|exact Hl].
  destruct pts; [contradiction | discriminate].
Qed.

Lemma carries_ok (cmds : list (ascii * list Item))
  (vs : list (ascii * list (R * R))) :
  carries cmds vs -> Forall commandOk cmds.
Proof.
  induction 1 as [|c v cmds vs (_ & _ & _ & Hne & Hl) _ IH]; constructor.
  - split; assumption.
  - exact IH.
Qed.

Lemma mirrored_ok (vs : list (ascii * list (R * R))) :
  Forall commandOk vs -> Forall commandOk (mirrored vs).
Proof.
  induction 1 as [|[l pts] vs [Hl Hne] _ IH]; [constructor|].
  constructor; [|exact IH]. split; cbn [fst snd] in *.
  - apply letter_upper. exact Hl.
  - destruct pts; [contradiction | discriminate].
Qed.

Lemma carries_values_ok (cmds : list (ascii * list Item))
  (vs : list (ascii * list (R * R))) :
  carries cmds vs -> Forall commandOk vs.
Proof.
  induction 1 as [|[l items] [l' pts] cmds vs (Hl' & Hv & _ & Hne & Hl) _ IH];
    constructor; [|exact IH].
  cbn [fst snd] in *. subst l'. split; [exact Hl|].
  cbn [snd]. intros ->. destruct items; [contradiction | discriminate].
Qed.

Lemma runText_nonempty (items : list Item) (trailing : str) :
  Forall wfItem items -> items <> [] -> runText items trailing <> [].
Proof.
  intros Hwf Hne. destruct items as [|[sep q] items]; [contradiction|].
  inversion Hwf as [|? ? [Hsep _] _]; subst. cbn [fst] in Hsep.
  cbn [runText]. destruct sep; [contradiction | discriminate].
Qed.

Lemma spaced_wf (cmds : list (ascii * list Item))
  (vs : list (ascii * list (R * R))) :
  carries cmds vs -> Forall wfSegment (spaced cmds).
Proof.
  induction 1 as [|[l items] v cmds vs (_ & _ & Hwf & Hne & Hl) _ IH];
    [constructor|].
  cbn [fst snd spaced] in *. constructor; [|exact IH].
  split; [exact Hl|]. split; [apply wfItems_Forall; exact Hwf|]. split.
  - destruct cmds; repeat constructor.
  - apply runText_nonempty; assumption.
Qed.

Lemma mirrorTransform_matches :
  Symmetry.matchTransform Symmetry.mirrorTransform = mirrorMatches.
Proof. vm_compute. reflexivity. Qed.

(** One bake of the mirror on commands that carry the points [vs]: the text
    of the same commands with the points mirrored, in the notation of the
    baker. *)
Lemma bake_mirror_step (cmds : list (ascii * list Item))
  (vs : list (ascii * list (R * R))) :
  carries cmds vs ->
  Symmetry.transformPathData (pathText (spaced cmds)) Symmetry.mirrorTransform
  = pathText (spaced (bakedCmds (mirrored vs)))
  /\ carries (bakedCmds (mirrored vs)) (rounded (mirrored vs)).
Proof.
  intros Hc.
  assert (Hok : Forall commandOk (mirrored vs))
    by (apply mirrored_ok; eapply carries_values_ok; exact Hc).
  pose proof (carries_baked _ Hok) as Hcarry.
  split; [|exact Hcarry].
  rewrite transformPathData_segments by (eapply spaced_wf; exact Hc).
  rewrite mirrorTransform_matches, (emitSegment_carries _ _ _ Hc).
  rewrite bakeCommands_mirror. apply trim_spaced.
  eapply carries_ok. exact Hcarry.
Qed.

(** The coordinates read from the text of commands are the points. *)
Lemma pathCoordinates_spaced (cmds : list (ascii * list Item))
  (vs : list (ascii * list (R * R))) :
  carries cmds vs ->
  pathCoordinates (pathText (spaced cmds))
  = map (fun v : ascii * list (R * R) => flattenPoints (snd v)) vs.
Proof.
  intros Hc. unfold pathCoordinates, Symmetry.commandMatches.
  rewrite execLoop_segments by (try (eapply spaced_wf; exact Hc); lia).
  induction Hc as [|[l items] [l' pts] cmds vs (_ & Hv & Hwf & _ & _) _ IH];
    [reflexivity|].
  cbn [fst snd] in *. cbn [spaced flat_map segmentMatches app map snd].
  rewrite IH. f_equal. rewrite parseCoords_command.
  - exact Hv.
  - apply wfItems_Forall. exact Hwf.
  - destruct cmds; repeat constructor.
Qed.

Definition sourceCmds (g : Geometry) : list (ascii * list Item) :=
  map (fun c : ascii * list (Numeral * Numeral) => (fst c, sourceItems (snd c))) g.

Definition sourceValues (g : Geometry) : list (ascii * list (R * R)) :=
  map (fun c : ascii * list (Numeral * Numeral) => (fst c, map pointValue (snd c))) g.

Lemma sourceItems_values (pts : list (Numeral * Numeral)) :
  itemValues (sourceItems pts) = flattenPoints (map pointValue pts).
Proof.
  induction pts as [|p pts IH]; [reflexivity|].
  cbn [sourceItems flat_map app itemValues map flattenPoints pointValue fst snd].
  f_equal. f_equal. exact IH.
Qed.

Lemma sourceItems_wf (pts : list (Numeral * Numeral)) :
  Forall wfItem (sourceItems pts).
Proof.
  induction pts as [|p pts IH]; [constructor|].
  cbn [sourceItems flat_map app].
  constructor; [|constructor; [|exact IH]];
    split; cbn; try discriminate; repeat constructor.
Qed.

Lemma carries_source (g : Geometry) :
  wfGeometry g -> carries (sourceCmds g) (sourceValues g).
Proof.
  induction 1 as [|[l pts] g [Hl Hne] _ IH]; [constructor|].
  cbn [fst snd] in *. constructor; [|exact IH]. cbn [fst snd].
  split; [reflexivity|]. split; [apply sourceItems_values|].
  split; [apply sourceItems_wf|]. split; [|exact Hl].
  destruct pts; [contradiction | discriminate].
Qed.

Lemma Rabs_le_bounds (u a : R) : Rabs u <= a -> - a <= u <= a.
Proof. unfold Rabs. destruct (Rcase_abs u); intros; lra. Qed.

(** Mirror, round, mirror, round. *)
Definition mirrorRoundTwice (p : R * R) : R * R :=
  roundPoint (mirrorPoint (roundPoint (mirrorPoint p))).

Lemma mirrorRoundTwice_close (p : R * R) :
  Rabs (fst (mirrorRoundTwice p) - fst p) <= 1 / 100
  /\ Rabs (snd (mirrorRoundTwice p) - snd p) <= 1 / 100.
Proof.
  destruct p as [x0 y0]. unfold mirrorRoundTwice, roundPoint, mirrorPoint.
  cbn [fst snd].
  pose proof (fixedNumeral_error (1000 - x0)) as Hx1.
  pose proof (fixedNumeral_error y0) as Hy1.
  set (x1 := numeralValue (fixedNumeral (1000 - x0) 2)) in *.
  set (y1 := numeralValue (fixedNumeral y0 2)) in *.
  pose proof (fixedNumeral_error (1000 - x1)) as Hx2.
  pose proof (fixedNumeral_error y1) as Hy2.
  apply Rabs_le_bounds in Hx1, Hy1, Hx2, Hy2.
  split; apply Rabs_le; lra.
Qed.

Lemma roundMirror_close (p : R * R) :
  Rabs (fst (roundPoint (mirrorPoint p)) - fst (mirrorPoint p)) <= 1 / 100
  /\ Rabs (snd (roundPoint (mirrorPoint p)) - snd (mirrorPoint p)) <= 1 / 100.
Proof.
  unfold roundPoint. cbn [fst snd].
  pose proof (fixedNumeral_error (fst (mirrorPoint p))) as Hx.
  pose proof (fixedNumeral_error (snd (mirrorPoint p))) as Hy.
  apply Rabs_le_bounds in Hx, Hy. split; apply Rabs_le; lra.
Qed.

Lemma tolerance_points {B : Type} (f g : B -> R * R) (pts : list B) :
  (forall p, Rabs (fst (f p) - fst (g p)) <= 1 / 100
             /\ Rabs (snd (f p) - snd (g p)) <= 1 / 100) ->
  Forall2 (fun u v : R => Rabs (u - v) <= 1 / 100)
          (flattenPoints (map f pts)) (flattenPoints (map g pts)).
Proof.
  intros Hf. induction pts as [|p pts IH]; [constructor|].
  cbn [map flattenPoints flat_map app]. destruct (Hf p) as [Hx Hy].
  constructor; [exact Hx|]. constructor; [exact Hy|]. exact IH.
Qed.

Lemma tolerance_commands {A B : Type} (f g : B -> R * R)
  (vs : list (A * list B)) :
  (forall p, Rabs (fst (f p) - fst (g p)) <= 1 / 100
             /\ Rabs (snd (f p) - snd (g p)) <= 1 / 100) ->
  withinTolerance
    (map (fun v : A * list B => flattenPoints (map f (snd v))) vs)
    (map (fun v : A * list B => flattenPoints (map g (snd v))) vs).
Proof.
  intros Hf. unfold withinTolerance.
  induction vs as [|v vs IH]; [constructor|].
  cbn [map]. constructor; [|exact IH]. apply tolerance_points. exact Hf.
Qed.

Lemma coords_rounded (f : list (R * R) -> list R)
  (vs : list (ascii * list (R * R))) :
  map (fun v : ascii * list (R * R) => f (snd v)) (rounded vs)
  = map (fun v : ascii * list (R * R) => f (map roundPoint (snd v))) vs.
Proof. unfold rounded. rewrite map_map. reflexivity. Qed.

Lemma coords_mirrored (f : list (R * R) -> list R)
  (vs : list (ascii * list (R * R))) :
  map (fun v : ascii * list (R * R) => f (snd v)) (mirrored vs)
  = map (fun v : ascii * list (R * R) => f (map mirrorPoint (snd v))) vs.
Proof. unfold mirrored. rewrite map_map. reflexivity. Qed.

(** C7 (as amended).  Baking the mirror into path data, then giving the
    baked path the mirror again and baking once more, returns every
    coordinate to within 0.01 of the original: the first bake gives the
    mirror image rounded to two decimals, and the second its mirror image
    rounded again. *)
Theorem mirror_baked_twice (g : Geometry) :
  wfGeometry g ->
  let d1 := Symmetry.transformPathData (sourceText g) Symmetry.mirrorTransform in
  let d2 := Symmetry.transformPathData d1 Symmetry.mirrorTransform in
  pathCoordinates (sourceText g)
  = map (fun c : ascii * list (Numeral * Numeral) =>
           flattenPoints (map pointValue (snd c))) g
  /\ withinTolerance
       (pathCoordinates d1)
       (map (fun c : ascii * list (Numeral * Numeral) =>
               flattenPoints (map (fun p => mirrorPoint (pointValue p)) (snd c))) g)
  /\ withinTolerance (pathCoordinates d2) (pathCoordinates (sourceText g)).
Proof.
  intros Hg d1 d2.
  pose proof (carries_source g Hg) as H0.
  destruct (bake_mirror_step _ _ H0) as [E1 H1].
  destruct (bake_mirror_step _ _ H1) as [E2 H2].
  assert (Hsrc : pathCoordinates (sourceText g)
                 = map (fun v : ascii * list (R * R) => flattenPoints (snd v))
                       (sourceValues g))
    by (apply pathCoordinates_spaced; exact H0).
  assert (Hd1 : pathCoordinates d1
                = map (fun v : ascii * list (R * R) => flattenPoints (snd v))
                      (rounded (mirrored (sourceValues g)))).
  { unfold d1, sourceText. fold (sourceCmds g). rewrite E1.
    apply pathCoordinates_spaced. exact H1. }
  assert (Hd2 : pathCoordinates d2
                = map (fun v : ascii * list (R * R) => flattenPoints (snd v))
                      (rounded (mirrored (rounded (mirrored (sourceValues g)))))).
  { unfold d2, d1, sourceText. fold (sourceCmds g). rewrite E1, E2.
    apply pathCoordinates_spaced. exact H2. }
  split; [|split].
  - rewrite Hsrc. unfold sourceValues. rewrite map_map. reflexivity.
  - rewrite Hd1, (coords_rounded flattenPoints),
      (coords_mirrored (fun pts => flattenPoints (map roundPoint pts))).
    unfold sourceValues. rewrite !map_map. cbn [snd].
    assert (Hext : forall c : ascii * list (Numeral * Numeral),
              flattenPoints (map roundPoint (map mirrorPoint (map pointValue (snd c))))
              = flattenPoints (map (fun p => roundPoint (mirrorPoint (pointValue p)))
                                   (snd c)))
      by (intros c; rewrite !map_map; reflexivity).
    rewrite (map_ext _ _ Hext).
    apply (tolerance_commands (fun p => roundPoint (mirrorPoint (pointValue p)))
                              (fun p => mirrorPoint (pointValue p))).
    intros p. apply (roundMirror_close (pointValue p)).
  - rewrite Hd2, Hsrc.
    rewrite (coords_rounded flattenPoints),
      (coords_mirrored (fun pts => flattenPoints (map roundPoint pts))),
      (coords_rounded
         (fun pts => flattenPoints (map roundPoint (map mirrorPoint pts)))),
      (coords_mirrored
         (fun pts => flattenPoints (map roundPoint (map mirrorPoint
                                      (map roundPoint pts))))).
    assert (Hext : forall v : ascii * list (R * R),
              flattenPoints (map roundPoint (map mirrorPoint
                               (map roundPoint (map mirrorPoint (snd v)))))
              = flattenPoints (map mirrorRoundTwice (snd v)))
      by (intros v; rewrite !map_map; reflexivity).
    rewrite (map_ext _ _ Hext).
    assert (Hid : forall v : ascii * list (R * R),
              flattenPoints (snd v) = flattenPoints (map (fun p => p) (snd v)))
      by (intros v; rewrite map_id; reflexivity).
    rewrite (map_ext _ _ Hid).
    apply (tolerance_commands mirrorRoundTwice (fun p => p)).
    apply mirrorRoundTwice_close.
Qed.

(** The geometry of the scenario, [M 550 450 L 600 480]. *)
Definition lineGeometry : Geometry :=
  [ ("M"%char, [(plainNumeral 550, plainNumeral 450)]);
    ("L"%char, [(plainNumeral 600, plainNumeral 480)]) ].

Lemma lineGeometry_text : sourceText lineGeometry = lit "M 550 450 L 600 480".
Proof. vm_compute. reflexivity. Qed.

(** The theorem at [M 550 450 L 600 480]. *)
Lemma mirror_baked_twice_witness :
  withinTolerance
    (pathCoordinates
       (Symmetry.transformPathData
          (Symmetry.transformPathData (sourceText lineGeometry)
                                      Symmetry.mirrorTransform)
          Symmetry.mirrorTransform))
    (pathCoordinates (sourceText lineGeometry)).
Proof.
  apply (mirror_baked_twice lineGeometry).
  repeat constructor; discriminate.
Defined.

(** ** C4: clipping a line to the wedge *)

Section Clip.

Import Drawing.

(** The point of the segment from [start] to [end_] at parameter [t]. *)
Definition segmentPoint (start end_ : Point) (t : R) : Point :=
  mkPoint (x start + t * (x end_ - x start)) (y start + t * (y end_ - y start)).

(** The three boundaries of the wedge. *)
Definition onCircle (p center : Point) : Prop := centerDistance p center = 400.

Definition onZeroRay (p center : Point) : Prop :=
  x p = x center /\ y p <= y center.

Definition onThirtyRay (p center : Point) (s : R) : Prop :=
  x p = x center + s * sin (30 * PI / 180)
  /\ y p = y center - s * cos (30 * PI / 180).

(** The determinant of the segment and the direction of the 30 degree ray. *)
Definition thirtyDet (start end_ : Point) : R :=
  (x end_ - x start) * - cos (30 * PI / 180)
  - (y end_ - y start) * sin (30 * PI / 180).

(** The three candidates, each with the tests the source puts on it: the
    crossing of the circle at the larger root, the crossing of the vertical
    through the center at or above the center, and the crossing of the 30
    degree line beyond the center, for a determinant above 0.0001. *)
Definition circleCandidate (start end_ center : Point) : option (R * Point) :=
  let dx := x end_ - x start in
  let dy := y end_ - y start in
  let a := dx * dx + dy * dy in
  let b := 2 * ((x start - x center) * dx + (y start - y center) * dy) in
  let c := (x start - x center) ^ 2 + (y start - y center) ^ 2 - 400 * 400 in
  let discriminant := b * b - 4 * a * c in
  if Rleb 0 discriminant then
    let t := (- b + sqrt discriminant) / (2 * a) in
    if Rltb 0 t && Rltb t 1 then Some (t, segmentPoint start end_ t) else None
  else None.

Definition zeroLineCandidate (start end_ center : Point) : option (R * Point) :=
  let dx := x end_ - x start in
  let dy := y end_ - y start in
  if negb (Reqb dx 0) then
    let t := (x center - x start) / dx in
    if Rltb 0 t && Rltb t 1 && Rleb (y start + t * dy) (y center)
    then Some (t, mkPoint (x center) (y start + t * dy))
    else None
  else None.

Definition thirtyLineCandidate (start end_ center : Point) : option (R * Point) :=
  let dx := x end_ - x start in
  let dy := y end_ - y start in
  let lx := sin (30 * PI / 180) in
  let ly := - cos (30 * PI / 180) in
  let det := dx * ly - dy * lx in
  if Rltb (1 / 10000) (Rabs det) then
    let t := ((x center - x start) * ly - (y center - y start) * lx) / det in
    let s := ((x center - x start) * dy - (y center - y start) * dx) / det in
    if Rltb 0 t && Rltb t 1 && Rltb 0 s
    then Some (t, segmentPoint start end_ t)
    else None
  else None.

(** Keeping the candidate with the smaller [t]; of two with the same [t] the
    earlier one stays. *)
Definition takeCloser (st : Point * option R) (cand : option (R * Point))
  : Point * option R :=
  match cand with
  | Some (t, p) => if belowMinT t (snd st) then (p, Some t) else st
  | None => st
  end.

Definition closest (end_ : Point) (cands : list (option (R * Point))) : Point :=
  fst (fold_left takeCloser cands (end_, None)).

Definition candidates (start end_ center : Point) : list (option (R * Point)) :=
  [circleCandidate start end_ center;
   zeroLineCandidate start end_ center;
   thirtyLineCandidate start end_ center].

Ltac split_tests :=
  repeat match goal with
  | |- context [Rleb ?a ?b] => destruct (Rleb a b)
  | |- context [Rltb ?a ?b] => destruct (Rltb a b)
  | |- context [Reqb ?a ?b] => destruct (Reqb a b)
  end;
  cbn [andb negb];
  repeat match goal with
  | |- context [belowMinT ?a ?b] => destruct (belowMinT a b)
  end.

(** The source, block by block, is the choice among the three candidates. *)
Lemma clipLineToWedge_closest (start end_ center : Point) :
  isPointInWedge end_ center = false ->
  clipLineToWedge start end_ center
  = closest end_ (candidates start end_ center).
Proof.
  intros Hout. unfold clipLineToWedge. rewrite Hout.
  unfold closest, candidates. cbn [fold_left]. cbv zeta.
  match goal with
  | |- (let '(ci, mt) := ?B in _) = _ =>
      replace B with (takeCloser (end_, None) (circleCandidate start end_ center))
  end.
  2:{ unfold circleCandidate, takeCloser, segmentPoint. cbv zeta.
      cbn [snd belowMinT]. rewrite !andb_true_r. split_tests; reflexivity. }
  destruct (takeCloser (end_, None) (circleCandidate start end_ center))
    as [ci1 mt1].
  match goal with
  | |- (let '(ci, mt) := ?B in _) = _ =>
      replace B with (takeCloser (ci1, mt1) (zeroLineCandidate start end_ center))
  end.
  2:{ unfold zeroLineCandidate, takeCloser. cbv zeta. cbn [snd x y].
      split_tests; reflexivity. }
  destruct (takeCloser (ci1, mt1) (zeroLineCandidate start end_ center))
    as [ci2 mt2].
  match goal with
  | |- (let '(ci, mt) := ?B in _) = _ =>
      replace B with (takeCloser (ci2, mt2) (thirtyLineCandidate start end_ center))
  end.
  2:{ unfold thirtyLineCandidate, takeCloser, segmentPoint. cbv zeta.
      cbn [snd x y]. split_tests; reflexivity. }
  destruct (takeCloser (ci2, mt2) (thirtyLineCandidate start end_ center))
    as [ci3 mt3].
  reflexivity.
Qed.

(** The loop over the candidates from the state [st]. *)
Lemma closest_loop (cands : list (option (R * Point))) :
  forall st : Point * option R,
  match snd (fold_left takeCloser cands st) with
  | None =>
      snd st = None
      /\ fst (fold_left takeCloser cands st) = fst st
      /\ (forall c, In c cands -> c = None)
  | Some t =>
      (fold_left takeCloser cands st = st
       \/ In (Some (t, fst (fold_left takeCloser cands st))) cands)
      /\ (forall t0, snd st = Some t0 -> t <= t0)
      /\ (forall t' p', In (Some (t', p')) cands -> t <= t')
  end.
Proof.
  induction cands as [|c cands IH]; intros st.
  - cbn [fold_left]. destruct (snd st) as [t|] eqn:Hst.
    + split; [left; reflexivity|]. split.
      * intros t0 [= <-]. lra.
      * intros t' p' [].
    + repeat split. intros c [].
  - cbn [fold_left]. specialize (IH (takeCloser st c)).
    destruct (snd (fold_left takeCloser cands (takeCloser st c))) as [t|] eqn:Hr.
    + destruct IH as (Hfrom & Hold & Hmin).
      destruct c as [[tc pc]|]; cbn [takeCloser] in *.
      * destruct (belowMinT tc (snd st)) eqn:Hb.
        -- cbn [snd] in Hold. specialize (Hold tc eq_refl).
           split; [|split].
           ++ right. destruct Hfrom as [Heq | Hin].
              ** rewrite Heq in Hr |- *. cbn [fst snd] in *.
                 injection Hr as <-. left. reflexivity.
              ** right. exact Hin.
           ++ intros t0 Ht0. rewrite Ht0 in Hb. cbn [belowMinT] in Hb.
              apply Rltb_true_iff in Hb. lra.
           ++ intros t' p' [[= <- <-] | Hin]; [exact Hold | eauto].
        -- destruct (snd st) as [m|] eqn:Hm; [|discriminate].
           cbn [belowMinT] in Hb. apply Rltb_false_iff in Hb.
           specialize (Hold m eq_refl).
           split; [|split].
           ++ destruct Hfrom as [Heq | Hin]; [left; exact Heq | right; right; exact Hin].
           ++ intros t0 [= <-]. exact Hold.
           ++ intros t' p' [[= <- <-] | Hin]; [lra | eauto].
      * split; [|split].
        -- destruct Hfrom as [Heq | Hin]; [left; exact Heq | right; right; exact Hin].
        -- exact Hold.
        -- intros t' p' [[=] | Hin]. eauto.
    + destruct IH as (Hnone & Hfst & Hall).
      destruct c as [[tc pc]|]; cbn [takeCloser] in *.
      * destruct (belowMinT tc (snd st)) eqn:Hb; [discriminate|].
        destruct (snd st); [discriminate|]. discriminate.
      * split; [exact Hnone|]. split; [exact Hfst|].
        intros c [<- | Hin]; auto.
Qed.

End Clip.

Lemma sum_squares_nonneg (u v : R) : 0 <= u * u + v * v.
Proof. nra. Qed.

Lemma square_nonneg (u : R) : 0 <= u * u.
Proof. nra. Qed.

Lemma square_pos (u : R) : u <> 0 -> 0 < u * u.
Proof. intros. nra. Qed.

(** [n / d = t] from [n = t * d]. *)
Lemma Rdiv_eq_reg_aux (n d t : R) : n = t * d -> d <> 0 -> n / d = t.
Proof. intros -> Hd. field. exact Hd. Qed.

Section ClipCandidates.

Import Drawing.

Variables start end_ center : Point.

(** The coefficients of the quadratic of the circle block. *)
Definition qa : R :=
  (x end_ - x start) * (x end_ - x start) + (y end_ - y start) * (y end_ - y start).
Definition qb : R :=
  2 * ((x start - x center) * (x end_ - x start)
       + (y start - y center) * (y end_ - y start)).
Definition qc : R :=
  (x start - x center) ^ 2 + (y start - y center) ^ 2 - 400 * 400.

(** The squared distance from the center along the segment. *)
Lemma segment_distance (t : R) :
  (x (segmentPoint start end_ t) - x center)
  * (x (segmentPoint start end_ t) - x center)
  + (y (segmentPoint start end_ t) - y center)
    * (y (segmentPoint start end_ t) - y center)
  = qa * t * t + qb * t + qc + 400 * 400.
Proof. unfold segmentPoint, qa, qb, qc. cbn [x y]. ring. Qed.

Lemma onCircle_quadratic (t : R) :
  onCircle (segmentPoint start end_ t) center <-> qa * t * t + qb * t + qc = 0.
Proof.
  unfold onCircle, centerDistance. cbv zeta. rewrite segment_distance.
  set (q := qa * t * t + qb * t + qc). split.
  - intros H.
    assert (Hq : 0 <= q + 400 * 400).
    { unfold q. rewrite <- segment_distance. apply sum_squares_nonneg. }
    pose proof (sqrt_sqrt _ Hq) as Hs. rewrite H in Hs. lra.
  - intros ->. replace (0 + 400 * 400) with (400²) by (unfold Rsqr; ring).
    apply sqrt_Rsqr. lra.
Qed.

Lemma circleCandidate_sound (t : R) (p : Point) :
  circleCandidate start end_ center = Some (t, p) ->
  0 < t < 1 /\ p = segmentPoint start end_ t /\ onCircle p center.
Proof.
  unfold circleCandidate. cbv zeta. fold qa qb qc.
  set (disc := qb * qb - 4 * qa * qc).
  destruct (Rleb 0 disc) eqn:Hd; [|discriminate].
  apply Rleb_true_iff in Hd.
  destruct (Rltb 0 ((- qb + sqrt disc) / (2 * qa))
            && Rltb ((- qb + sqrt disc) / (2 * qa)) 1) eqn:Hv; [|discriminate].
  apply andb_true_iff in Hv as [H0 H1].
  apply Rltb_true_iff in H0, H1.
  intros [= <- <-]. split; [lra|]. split; [reflexivity|].
  apply onCircle_quadratic.
  set (s := sqrt disc) in *. set (t := (- qb + s) / (2 * qa)) in *.
  assert (Ha : qa <> 0).
  { intros Ha. unfold t in H0. rewrite Ha, Rmult_0_r, Rdiv_0_r in H0. lra. }
  assert (Hs : s * s = disc) by (apply sqrt_sqrt; exact Hd).
  assert (Ht : 2 * qa * t + qb = s) by (unfold t; field; exact Ha).
  assert (H4 : 4 * qa * (qa * t * t + qb * t + qc) = 0).
  { replace (4 * qa * (qa * t * t + qb * t + qc))
      with ((2 * qa * t + qb) * (2 * qa * t + qb) - disc) by (unfold disc; ring).
    rewrite Ht, Hs. ring. }
  apply Rmult_integral in H4 as [H4 | H4]; [lra | exact H4].
Qed.

Lemma zeroLineCandidate_sound (t : R) (p : Point) :
  zeroLineCandidate start end_ center = Some (t, p) ->
  0 < t < 1 /\ p = segmentPoint start end_ t /\ onZeroRay p center.
Proof.
  unfold zeroLineCandidate. cbv zeta.
  destruct (Reqb (x end_ - x start) 0) eqn:He; [discriminate|].
  apply Reqb_false_iff in He. cbn [negb].
  set (t0 := (x center - x start) / (x end_ - x start)).
  destruct (Rltb 0 t0 && Rltb t0 1
            && Rleb (y start + t0 * (y end_ - y start)) (y center)) eqn:Hv;
    [|discriminate].
  apply andb_true_iff in Hv as [Hv Hy]. apply andb_true_iff in Hv as [H0 H1].
  apply Rltb_true_iff in H0, H1. apply Rleb_true_iff in Hy.
  intros [= <- <-]. split; [lra|]. split.
  - unfold segmentPoint. f_equal. unfold t0. field. exact He.
  - split; [reflexivity | exact Hy].
Qed.

Lemma thirtyLineCandidate_sound (t : R) (p : Point) :
  thirtyLineCandidate start end_ center = Some (t, p) ->
  0 < t < 1 /\ p = segmentPoint start end_ t
  /\ exists s, 0 < s /\ onThirtyRay p center s.
Proof.
  unfold thirtyLineCandidate. cbv zeta.
  set (lx := sin (30 * PI / 180)). set (ly := - cos (30 * PI / 180)).
  set (det := (x end_ - x start) * ly - (y end_ - y start) * lx).
  destruct (Rltb (1 / 10000) (Rabs det)) eqn:Hdet; [|discriminate].
  apply Rltb_true_iff in Hdet.
  assert (Hnz : det <> 0).
  { intros Hz. rewrite Hz, Rabs_R0 in Hdet. lra. }
  set (t0 := ((x center - x start) * ly - (y center - y start) * lx) / det).
  set (s0 := ((x center - x start) * (y end_ - y start)
              - (y center - y start) * (x end_ - x start)) / det).
  destruct (Rltb 0 t0 && Rltb t0 1 && Rltb 0 s0) eqn:Hv; [|discriminate].
  apply andb_true_iff in Hv as [Hv Hs]. apply andb_true_iff in Hv as [H0 H1].
  apply Rltb_true_iff in H0, H1, Hs.
  intros [= <- <-]. split; [lra|]. split; [reflexivity|].
  exists s0. split; [exact Hs|].
  unfold onThirtyRay, segmentPoint. cbn [x y]. fold lx.
  replace (cos (30 * PI / 180)) with (- ly) by (unfold ly; ring).
  unfold t0, s0, det. split; field; exact Hnz.
Qed.

(** With [start] in the wedge and [end_] outside of it, the circle candidate
    is the one place where the segment crosses the circle. *)
Lemma circleCandidate_complete (t : R) :
  isPointInWedge start center = true -> isPointInWedge end_ center = false ->
  0 < t < 1 -> onCircle (segmentPoint start end_ t) center ->
  circleCandidate start end_ center = Some (t, segmentPoint start end_ t).
Proof.
  intros Hin Hout Ht Hon. apply onCircle_quadratic in Hon.
  assert (Hc : qc <= 0).
  { apply (proj1 (isPointInWedge_iff_aux start center)) in Hin as [Hdist _].
    unfold centerDistance in Hdist. cbv zeta in Hdist.
    set (v := (x start - x center) * (x start - x center)
              + (y start - y center) * (y start - y center)) in *.
    assert (Hv : 0 <= v) by (unfold v; apply sum_squares_nonneg).
    pose proof (sqrt_sqrt v Hv) as Hs. pose proof (sqrt_pos v) as Hp.
    unfold qc. replace ((x start - x center) ^ 2 + (y start - y center) ^ 2)
      with v by (unfold v; ring).
    nra. }
  assert (Ha : 0 < qa).
  { destruct (Req_dec_T (x end_) (x start)) as [Hx | Hx];
      [destruct (Req_dec_T (y end_) (y start)) as [Hy | Hy]|].
    - exfalso. assert (end_ = start)
        by (destruct end_, start; cbn [x y] in *; subst; reflexivity).
      congruence.
    - unfold qa.
      pose proof (square_pos (y end_ - y start) ltac:(lra)).
      pose proof (square_nonneg (x end_ - x start)). lra.
    - unfold qa.
      pose proof (square_pos (x end_ - x start) ltac:(lra)).
      pose proof (square_nonneg (y end_ - y start)). lra. }
  unfold circleCandidate. cbv zeta. fold qa qb qc.
  set (disc := qb * qb - 4 * qa * qc).
  assert (Hd : qb * qb <= disc) by (unfold disc; nra).
  assert (Hd0 : 0 <= disc) by nra.
  set (s := sqrt disc).
  assert (Hs : s * s = disc) by (apply sqrt_sqrt; exact Hd0).
  assert (Hs0 : 0 <= s) by apply sqrt_pos.
  assert (Hsb : 0 <= qb + s) by nra.
  assert (Hroot : (2 * qa * t + qb - s) * (2 * qa * t + qb + s) = 0).
  { replace ((2 * qa * t + qb - s) * (2 * qa * t + qb + s))
      with (4 * qa * (qa * t * t + qb * t + qc) + (disc - s * s))
      by (unfold disc; ring).
    rewrite Hon, Hs. ring. }
  assert (Hpos : 0 < 2 * qa * t + qb + s) by nra.
  apply Rmult_integral in Hroot as [Hroot | Hroot]; [|lra].
  assert (Et : (- qb + s) / (2 * qa) = t) by (apply Rdiv_eq_reg_aux; lra).
  replace (Rleb 0 disc) with true by (symmetry; apply Rleb_true_iff; exact Hd0).
  rewrite Et.
  replace (Rltb 0 t) with true by (symmetry; apply Rltb_true_iff; lra).
  replace (Rltb t 1) with true by (symmetry; apply Rltb_true_iff; lra).
  reflexivity.
Qed.

Lemma zeroLineCandidate_complete (t : R) :
  x end_ <> x start ->
  0 < t < 1 -> onZeroRay (segmentPoint start end_ t) center ->
  zeroLineCandidate start end_ center = Some (t, segmentPoint start end_ t).
Proof.
  intros Hx Ht [Hon Hy]. unfold segmentPoint in *. cbn [x y] in *.
  unfold zeroLineCandidate. cbv zeta.
  replace (Reqb (x end_ - x start) 0) with false
    by (symmetry; apply Reqb_false_iff; lra).
  cbn [negb].
  assert (Et : (x center - x start) / (x end_ - x start) = t).
  { rewrite <- Hon. field. lra. }
  rewrite Et.
  replace (Rltb 0 t) with true by (symmetry; apply Rltb_true_iff; lra).
  replace (Rltb t 1) with true by (symmetry; apply Rltb_true_iff; lra).
  replace (Rleb (y start + t * (y end_ - y start)) (y center)) with true
    by (symmetry; apply Rleb_true_iff; exact Hy).
  cbn [andb]. rewrite <- Hon. reflexivity.
Qed.

Lemma thirtyLineCandidate_complete (t s : R) :
  1 / 10000 < Rabs (thirtyDet start end_) ->
  0 < t < 1 -> 0 < s -> onThirtyRay (segmentPoint start end_ t) center s ->
  thirtyLineCandidate start end_ center = Some (t, segmentPoint start end_ t).
Proof.
  unfold thirtyDet. intros Hdet Ht Hs [Hx Hy].
  unfold segmentPoint in Hx, Hy. cbn [x y] in *.
  unfold thirtyLineCandidate. cbv zeta.
  set (lx := sin (30 * PI / 180)) in *.
  replace (cos (30 * PI / 180)) with (- - cos (30 * PI / 180)) in Hy by ring.
  set (ly := - cos (30 * PI / 180)) in *.
  set (det := (x end_ - x start) * ly - (y end_ - y start) * lx) in *.
  assert (Hnz : det <> 0).
  { intros Hz. rewrite Hz, Rabs_R0 in Hdet. lra. }
  replace (Rltb (1 / 10000) (Rabs det)) with true
    by (symmetry; apply Rltb_true_iff; exact Hdet).
  assert (Et : ((x center - x start) * ly - (y center - y start) * lx) / det = t).
  { apply Rdiv_eq_reg_aux; [|exact Hnz]. unfold det. nra. }
  assert (Es : ((x center - x start) * (y end_ - y start)
                - (y center - y start) * (x end_ - x start)) / det = s).
  { apply Rdiv_eq_reg_aux; [|exact Hnz]. unfold det. nra. }
  rewrite Et, Es.
  replace (Rltb 0 t) with true by (symmetry; apply Rltb_true_iff; lra).
  replace (Rltb t 1) with true by (symmetry; apply Rltb_true_iff; lra).
  replace (Rltb 0 s) with true by (symmetry; apply Rltb_true_iff; lra).
  reflexivity.
Qed.

End ClipCandidates.

(** A point straight above the center, within the radius, is in the wedge. *)
Lemma isPointInWedge_above_center (h : R) :
  0 < h <= 400 ->
  Drawing.isPointInWedge (mkPoint 500 (500 - h)) defaultCenter = true.
Proof.
  intros Hh. unfold Drawing.isPointInWedge, defaultCenter. cbn [x y].
  replace (500 - 500) with 0 by ring.
  replace (500 - h - 500) with (- h) by ring.
  replace (0 * 0 + - h * - h) with (h²) by (unfold Rsqr; ring).
  rewrite sqrt_Rsqr by lra.
  replace (Rltb 400 h) with false by (symmetry; apply Rltb_false_iff; lra).
  rewrite Ropp_involutive. unfold Math_atan2.
  replace (Rltb 0 h) with true by (symmetry; apply Rltb_true_iff; lra).
  replace (0 / h) with 0 by (field; lra).
  rewrite atan_0, Rmult_0_l.
  replace (Rltb 0 0) with false by (symmetry; apply Rltb_false_iff; lra).
  rewrite andb_true_iff, !Rleb_true_iff. lra.
Qed.

(** C4 (as amended).  [clipLineToWedge] returns [end_] when [end_] is in the
    wedge.  Otherwise it looks at three candidates on the segment, each at
    a parameter [t] strictly between 0 and 1: the crossing of the circle of
    radius 400, the crossing of the 0 degree ray, and the crossing of the 30
    degree ray.  It returns the candidate of least [t], which lies on the
    segment and on its boundary, and [end_] when there is no candidate.  The
    candidates miss no crossing that passes the tests of the source: the
    start in the wedge for the circle, a segment that is not vertical for
    the 0 degree ray, and a determinant above 0.0001 and a crossing beyond
    the center for the 30 degree ray.  A crossing that fails them is not
    looked at, and [end_] can then be returned outside the wedge. *)
Theorem clipLineToWedge_closest_candidate (start end_ center : Point) :
  (Drawing.isPointInWedge end_ center = true ->
     Drawing.clipLineToWedge start end_ center = end_)
  /\ (Drawing.isPointInWedge end_ center = false ->
      ((forall c, In c (candidates start end_ center) -> c = None) ->
         Drawing.clipLineToWedge start end_ center = end_)
      /\ ((exists c, In c (candidates start end_ center) /\ c <> None) ->
          exists t p,
            In (Some (t, p)) (candidates start end_ center)
            /\ Drawing.clipLineToWedge start end_ center = p
            /\ 0 < t < 1
            /\ p = segmentPoint start end_ t
            /\ (onCircle p center \/ onZeroRay p center
                \/ exists s, 0 < s /\ onThirtyRay p center s)
            /\ forall t' p', In (Some (t', p')) (candidates start end_ center) ->
                             t <= t'))
  /\ (Drawing.isPointInWedge start center = true ->
      Drawing.isPointInWedge end_ center = false ->
      forall t, 0 < t < 1 -> onCircle (segmentPoint start end_ t) center ->
                In (Some (t, segmentPoint start end_ t))
                   (candidates start end_ center))
  /\ (x end_ <> x start ->
      forall t, 0 < t < 1 -> onZeroRay (segmentPoint start end_ t) center ->
                In (Some (t, segmentPoint start end_ t))
                   (candidates start end_ center))
  /\ (1 / 10000 < Rabs (thirtyDet start end_) ->
      forall t s, 0 < t < 1 -> 0 < s ->
                  onThirtyRay (segmentPoint start end_ t) center s ->
                  In (Some (t, segmentPoint start end_ t))
                     (candidates start end_ center)).
Proof.
  split; [|split; [|split; [|split]]].
  - intros Hin. unfold Drawing.clipLineToWedge. rewrite Hin. reflexivity.
  - intros Hout. rewrite (clipLineToWedge_closest _ _ _ Hout). unfold closest.
    pose proof (closest_loop (candidates start end_ center) (end_, None)) as H.
    destruct (snd (fold_left takeCloser (candidates start end_ center)
                             (end_, None))) as [t|] eqn:Hr.
    + destruct H as (Hfrom & _ & Hmin).
      assert (Hcand : In (Some (t, fst (fold_left takeCloser
                                 (candidates start end_ center) (end_, None))))
                         (candidates start end_ center)).
      { destruct Hfrom as [Heq | Hin]; [|exact Hin].
        rewrite Heq in Hr. discriminate. }
      set (p := fst (fold_left takeCloser (candidates start end_ center)
                               (end_, None))) in *.
      split.
      * intros Hnone. specialize (Hnone _ Hcand). discriminate.
      * intros _. exists t, p. split; [exact Hcand|]. split; [reflexivity|].
        unfold candidates in Hcand.
        destruct Hcand as [Hc | [Hc | [Hc | []]]].
        -- destruct (circleCandidate_sound _ _ _ _ _ Hc) as (Ht & Hp & Hon).
           repeat split; try tauto; try lra.
        -- destruct (zeroLineCandidate_sound _ _ _ _ _ Hc) as (Ht & Hp & Hon).
           repeat split; try tauto; try lra.
        -- destruct (thirtyLineCandidate_sound _ _ _ _ _ Hc) as (Ht & Hp & Hon).
           repeat split; try tauto; try lra.
    + destruct H as (_ & Hfst & Hall). split.
      * intros _. exact Hfst.
      * intros (c & Hc & Hne). specialize (Hall c Hc). contradiction.
  - intros Hin Hout t Ht Hon. left.
    apply circleCandidate_complete; assumption.
  - intros Hx t Ht Hon. right. left.
    apply zeroLineCandidate_complete; assumption.
  - intros Hdet t s Ht Hs Hon. right. right. left.
    apply (thirtyLineCandidate_complete _ _ _ t s); assumption.
Qed.

(** ** C5: Ramer-Douglas-Peucker simplification *)

Section Simplify.

Import Drawing.

(** [a] and [b] follow one another in [l]. *)
Definition adjacent (a b : Point) (l : list Point) : Prop :=
  exists l1 l2, l = l1 ++ a :: b :: l2.

(** Every point of [points] is within [eps] of a segment of [simplified], in
    the measure of [perpendicularDistance] (the distance to the line through
    the segment); a polyline of one point has only that point. *)
Definition deviationWithin (eps : R) (points simplified : list Point) : Prop :=
  forall p, In p points ->
    simplified = [p]
    \/ exists a b, adjacent a b simplified /\ perpendicularDistance p a b <= eps.

(** [simplified] keeps the two ends of [points], and between two points it
    keeps, every point it drops is within [eps] of the line through the two. *)
Inductive Covers (eps : R) : list Point -> list Point -> Prop :=
| Covers_short (points : list Point) :
    (length points <= 2)%nat -> Covers eps points points
| Covers_chord (first last : Point) (mid : list Point) :
    Forall (fun p => perpendicularDistance p first last <= eps) mid ->
    Covers eps (first :: mid ++ [last]) [first; last]
| Covers_join (l1 l2 s1 s2 : list Point) (m : Point) :
    Covers eps (l1 ++ [m]) (s1 ++ [m]) ->
    Covers eps (m :: l2) (m :: s2) ->
    Covers eps (l1 ++ m :: l2) (s1 ++ m :: s2).

(** A point has distance 0 from a line it is an end of. *)
Lemma perpendicularDistance_start (a b : Point) : perpendicularDistance a a b = 0.
Proof.
  unfold perpendicularDistance. cbv zeta.
  destruct (Reqb (x b - x a) 0 && Reqb (y b - y a) 0).
  - replace ((x a - x a) * (x a - x a) + (y a - y a) * (y a - y a)) with 0 by ring.
    apply sqrt_0.
  - replace ((y b - y a) * x a - (x b - x a) * y a + x b * y a - y b * x a)
      with 0 by ring.
    rewrite Rabs_R0. unfold Rdiv. apply Rmult_0_l.
Qed.

Lemma perpendicularDistance_end (a b : Point) : perpendicularDistance b a b = 0.
Proof.
  unfold perpendicularDistance. cbv zeta.
  destruct (Reqb (x b - x a) 0 && Reqb (y b - y a) 0) eqn:He.
  - apply andb_true_iff in He as [Hx Hy].
    apply Reqb_true_iff in Hx, Hy.
    replace ((x b - x a) * (x b - x a) + (y b - y a) * (y b - y a)) with 0
      by (rewrite Hx, Hy; ring).
    apply sqrt_0.
  - replace ((y b - y a) * x b - (x b - x a) * y b + x b * y a - y b * x a)
      with 0 by ring.
    rewrite Rabs_R0. unfold Rdiv. apply Rmult_0_l.
Qed.

Lemma perpendicularDistance_nonneg (p a b : Point) :
  0 <= perpendicularDistance p a b.
Proof.
  unfold perpendicularDistance. cbv zeta.
  destruct (Reqb (x b - x a) 0 && Reqb (y b - y a) 0) eqn:He.
  - apply sqrt_pos.
  - apply Rmult_le_pos; [apply Rabs_pos|].
    destruct (Rle_lt_or_eq_dec _ _ (sqrt_pos
      ((x b - x a) * (x b - x a) + (y b - y a) * (y b - y a)))) as [Hs | Hs].
    + left. apply Rinv_0_lt_compat. exact Hs.
    + rewrite <- Hs, Rinv_0. lra.
Qed.

Lemma adjacent_app_l (a b : Point) (l l' : list Point) :
  adjacent a b l -> adjacent a b (l ++ l').
Proof.
  intros (l1 & l2 & ->). exists l1, (l2 ++ l'). rewrite <- app_assoc. reflexivity.
Qed.

Lemma adjacent_app_r (a b : Point) (l l' : list Point) :
  adjacent a b l -> adjacent a b (l' ++ l).
Proof.
  intros (l1 & l2 & ->). exists (l' ++ l1), l2. rewrite <- app_assoc. reflexivity.
Qed.

Lemma Covers_deviation (eps : R) (points simplified : list Point) :
  0 <= eps -> Covers eps points simplified ->
  deviationWithin eps points simplified.
Proof.
  intros Heps. induction 1 as [points Hlen | first last mid Hmid
                               | l1 l2 s1 s2 m H1 IH1 H2 IH2].
  - destruct points as [|a [|b [|c points]]]; [| | |simpl in Hlen; lia].
    + intros p [].
    + intros p [<- | []]. left. reflexivity.
    + intros p [<- | [<- | []]]; right; exists a, b;
        (split; [exists [], []; reflexivity|]).
      * rewrite perpendicularDistance_start. exact Heps.
      * rewrite perpendicularDistance_end. exact Heps.
  - intros p Hp. right. exists first, last.
    split; [exists [], []; reflexivity|].
    destruct Hp as [<- | Hp].
    + rewrite perpendicularDistance_start. exact Heps.
    + apply in_app_or in Hp as [Hp | [<- | []]].
      * apply (proj1 (List.Forall_forall _ _) Hmid p Hp).
      * rewrite perpendicularDistance_end. exact Heps.
  - assert (Hm1 : s1 ++ m :: s2 = [m]
                  \/ exists a b, adjacent a b (s1 ++ m :: s2)
                                 /\ perpendicularDistance m a b <= eps).
    { destruct (IH1 m) as [Hone | (a & b & Hadj & Hd)].
      - apply in_or_app. right. left. reflexivity.
      - destruct s1 as [|q [|q' s1]]; [|discriminate|discriminate].
        destruct (IH2 m (or_introl eq_refl)) as [Hone2 | (a & b & Hadj & Hd)].
        + injection Hone2 as ->. left. reflexivity.
        + right. exists a, b. split; [|exact Hd]. exact Hadj.
      - right. exists a, b. split; [|exact Hd].
        change (s1 ++ m :: s2) with (s1 ++ [m] ++ s2). rewrite app_assoc.
        apply adjacent_app_l. exact Hadj. }
    intros p Hp. apply in_app_or in Hp as [Hp | Hp].
    + destruct (IH1 p) as [Hone | (a & b & Hadj & Hd)].
      * apply in_or_app. left. exact Hp.
      * destruct s1 as [|q [|q' s1]]; [|discriminate|discriminate].
        injection Hone as <-. exact Hm1.
      * right. exists a, b. split; [|exact Hd].
        change (s1 ++ m :: s2) with (s1 ++ [m] ++ s2). rewrite app_assoc.
        apply adjacent_app_l. exact Hadj.
    + destruct (IH2 p Hp) as [Hone | (a & b & Hadj & Hd)].
      * injection Hone as <- ->. exact Hm1.
      * right. exists a, b. split; [|exact Hd].
        apply adjacent_app_r. exact Hadj.
Qed.

(** *** The loop that finds the farthest point *)

Lemma findMax_loop (points : list Point) (first last : Point) (idx : list nat) :
  forall st : R * nat,
  0 <= fst st ->
  let r := fold_left (maxStep points first last) idx st in
  fst st <= fst r
  /\ (forall i, In i idx ->
        perpendicularDistance (nth i points first) first last <= fst r)
  /\ (r = st \/ (In (snd r) idx /\ fst st < fst r)).
Proof.
  induction idx as [|i idx IH]; intros st Hst; cbv zeta.
  - cbn [fold_left]. split; [lra|]. split; [intros i []|]. left. reflexivity.
  - cbn [fold_left].
    set (d := perpendicularDistance (nth i points first) first last).
    assert (Hstep : maxStep points first last st i
                    = if Rltb (fst st) d then (d, i) else st) by reflexivity.
    destruct (Rltb (fst st) d) eqn:Hlt.
    + apply Rltb_true_iff in Hlt. rewrite Hstep.
      destruct (IH (d, i) ltac:(cbn [fst]; lra)) as (Hge & Hall & Hfrom).
      cbn [fst snd] in *. split; [lra|]. split.
      * intros j [<- | Hj]; [exact Hge | apply Hall; exact Hj].
      * right. destruct Hfrom as [-> | [Hin Hgt]].
        -- cbn [fst snd]. split; [left; reflexivity | lra].
        -- split; [right; exact Hin | lra].
    + apply Rltb_false_iff in Hlt. rewrite Hstep.
      destruct (IH st Hst) as (Hge & Hall & Hfrom).
      split; [exact Hge|]. split.
      * intros j [<- | Hj]; [fold d; lra | apply Hall; exact Hj].
      * destruct Hfrom as [Heq | [Hin Hgt]];
          [left; exact Heq | right; split; [right; exact Hin | exact Hgt]].
Qed.

(** [findMax]: the largest distance of an inner point, or 0, and where the
    first inner point at that distance is when it is not 0. *)
Lemma findMax_spec (points : list Point) (first last : Point) :
  let r := findMax points first last in
  0 <= fst r
  /\ (forall i, (1 <= i <= length points - 2)%nat ->
        perpendicularDistance (nth i points first) first last <= fst r)
  /\ (0 < fst r -> (1 <= snd r <= length points - 2)%nat).
Proof.
  cbv zeta. unfold findMax.
  destruct (findMax_loop points first last (seq 1 (length points - 2))
              (0, 0%nat) ltac:(cbn [fst]; lra)) as (Hge & Hall & Hfrom).
  cbn [fst snd] in *. split; [exact Hge|]. split.
  - intros i Hi. apply Hall. apply in_seq. lia.
  - intros Hpos. destruct Hfrom as [Heq | [Hin _]].
    + rewrite Heq in Hpos. cbn [fst] in Hpos. lra.
    + apply in_seq in Hin. lia.
Qed.

End Simplify.

Section SimplifyPath.

Import Drawing.

(** The step of [simplifyPath] on more than two points. *)
Lemma simplifyPath_long (fuel : nat) (points : list Point) (eps : R)
  (first : Point) (rest : list Point) :
  points = first :: rest -> (3 <= length points)%nat ->
  simplifyPath (S fuel) points eps
  = let last := nth (length points - 1) points first in
    let '(maxDistance, maxIndex) := findMax points first last in
    if Rltb eps maxDistance then
      match simplifyPath fuel (firstn (maxIndex + 1) points) eps,
            simplifyPath fuel (skipn maxIndex points) eps with
      | Some leftSegment, Some rightSegment =>
          Some (removelast leftSegment ++ rightSegment)
      | _, _ => None
      end
    else Some [first; last].
Proof.
  intros -> Hlen. destruct rest as [|b [|c rest]]; simpl in Hlen; try lia.
  reflexivity.
Qed.

Lemma simplifyPath_short (fuel : nat) (points : list Point) (eps : R) :
  (length points <= 2)%nat -> simplifyPath fuel points eps = Some points.
Proof.
  intros Hlen. destruct points as [|a [|b [|c rest]]]; simpl in Hlen; try lia;
    destruct fuel; reflexivity.
Qed.

(** Cutting a list at an index inside of it. *)
Lemma cut_at (l : list Point) (d : Point) :
  forall k : nat, (k < length l)%nat ->
  firstn (k + 1) l = firstn k l ++ [nth k l d]
  /\ skipn k l = nth k l d :: skipn (k + 1) l.
Proof.
  induction l as [|a l IH]; intros k Hk; [simpl in Hk; lia|].
  destruct k as [|k]; [split; reflexivity|].
  simpl in Hk. destruct (IH k ltac:(lia)) as [H1 H2].
  cbn [Nat.add firstn skipn nth app]. rewrite H1, H2. split; reflexivity.
Qed.

(** With a tolerance that is not negative and fuel for the length of the
    list, [simplifyPath] returns a polyline that covers the points and keeps
    both ends. *)
Lemma simplifyPath_covers (eps : R) :
  0 <= eps ->
  forall (fuel : nat) (points : list Point),
  (length points <= fuel)%nat ->
  exists simplified,
    simplifyPath fuel points eps = Some simplified
    /\ Covers eps points simplified
    /\ (forall p rest, points = p :: rest -> exists rest', simplified = p :: rest')
    /\ (forall init p, points = init ++ [p] ->
                       exists init', simplified = init' ++ [p]).
Proof.
  intros Heps. induction fuel as [|fuel IH]; intros points Hfuel.
  { destruct points; [|simpl in Hfuel; lia]. exists [].
    split; [reflexivity|]. split; [apply Covers_short; simpl; lia|].
    split; [discriminate|]. intros init p Heq. destruct init; discriminate. }
  destruct (le_lt_dec (length points) 2) as [Hshort | Hlong].
  { exists points. split; [apply simplifyPath_short; exact Hshort|].
    split; [apply Covers_short; exact Hshort|]. split; eauto. }
  destruct points as [|first tl]; [simpl in Hlong; lia|].
  destruct (exists_last (l := tl)) as (mid & last & Htl);
    [intros ->; simpl in Hlong; lia|].
  set (points := first :: tl) in *.
  assert (Hlen : length points = S (S (length mid))).
  { unfold points. rewrite Htl. cbn [length]. rewrite length_app. simpl. lia. }
  assert (Hlast : nth (length points - 1) points first = last).
  { rewrite Hlen. unfold points. rewrite Htl.
    replace (S (S (length mid)) - 1)%nat with (S (length mid)) by lia.
    cbn [nth]. apply nth_middle. }
  assert (Hnth : forall j, (j < length mid)%nat ->
                           nth (S j) points first = nth j mid first).
  { intros j Hj. unfold points. rewrite Htl. cbn [nth].
    apply app_nth1. exact Hj. }
  rewrite (simplifyPath_long fuel points eps first tl eq_refl) by lia.
  cbv zeta. rewrite Hlast.
  destruct (findMax_spec points first last) as (Hnn & Hmax & Hidx).
  destruct (findMax points first last) as [maxDistance maxIndex].
  cbn [fst snd] in *.
  destruct (Rltb eps maxDistance) eqn:Hcmp.
  - apply Rltb_true_iff in Hcmp. specialize (Hidx ltac:(lra)).
    destruct (cut_at points first maxIndex ltac:(lia)) as [Hleft Hright].
    set (m := nth maxIndex points first) in *.
    assert (Hsplit : points = firstn maxIndex points ++ m :: skipn (maxIndex + 1) points).
    { rewrite <- Hright. symmetry. apply firstn_skipn. }
    destruct (IH (firstn (maxIndex + 1) points)) as (L & HL & HcL & HhdL & HtlL).
    { rewrite length_firstn. lia. }
    destruct (IH (skipn maxIndex points)) as (Rt & HR & HcR & HhdR & HtlR).
    { rewrite length_skipn. lia. }
    rewrite HL, HR.
    destruct (HtlL _ _ Hleft) as (sl & ->).
    destruct (HhdR _ _ Hright) as (sr & ->).
    rewrite removelast_last.
    exists (sl ++ m :: sr). split; [reflexivity|]. split; [|split].
    + rewrite Hsplit. apply Covers_join.
      * rewrite <- Hleft. exact HcL.
      * rewrite <- Hright. exact HcR.
    + intros p rest Heq. unfold points in Heq. injection Heq as <- <-.
      assert (Hfirst : exists r, firstn (maxIndex + 1) points = first :: r).
      { unfold points. replace (maxIndex + 1)%nat with (S maxIndex) by lia.
        cbn [firstn]. eauto. }
      destruct Hfirst as (r & Hr). destruct (HhdL _ _ Hr) as (r' & Hr').
      destruct sl as [|q sl]; cbn [app] in *.
      * injection Hr' as -> _. eauto.
      * injection Hr' as -> _. eauto.
    + intros init p Heq.
      assert (Hp : exists i, skipn maxIndex points = i ++ [p]).
      { rewrite Heq. exists (skipn maxIndex init).
        rewrite skipn_app.
        assert (Hi : length init = S (length mid)).
        { apply (f_equal (@length Point)) in Heq.
          rewrite Hlen, length_app in Heq. simpl in Heq. lia. }
        rewrite Hlen in Hidx.
        replace (maxIndex - length init)%nat with 0%nat by lia.
        reflexivity. }
      destruct Hp as (i & Hi). destruct (HtlR _ _ Hi) as (i' & Hi').
      exists (sl ++ i'). rewrite <- app_assoc.
      change (m :: sr) with ([m] ++ sr) in *.
      rewrite <- Hi'. reflexivity.
  - apply Rltb_false_iff in Hcmp.
    exists [first; last]. split; [reflexivity|]. split; [|split].
    + unfold points. rewrite Htl. apply Covers_chord.
      apply List.Forall_forall. intros q Hq.
      destruct (In_nth _ _ first Hq) as (j & Hj & <-).
      rewrite <- (Hnth j Hj).
      apply Rle_trans with maxDistance; [|exact Hcmp].
      apply Hmax. lia.
    + intros p rest Heq. unfold points in Heq. injection Heq as <- _. eauto.
    + intros init p Heq. exists [first].
      unfold points in Heq. rewrite Htl in Heq.
      change (first :: mid ++ [last]) with ((first :: mid) ++ [last]) in Heq.
      apply app_inj_tail in Heq as [_ <-]. reflexivity.
Qed.

(** More fuel does not change a result. *)
Lemma simplifyPath_fuel_mono (eps : R) :
  forall (fuel fuel' : nat) (points simplified : list Point),
  (fuel <= fuel')%nat ->
  simplifyPath fuel points eps = Some simplified ->
  simplifyPath fuel' points eps = Some simplified.
Proof.
  induction fuel as [|fuel IH]; intros fuel' points simplified Hle Hrun.
  - destruct points as [|a [|b [|c rest]]]; try discriminate;
      rewrite simplifyPath_short by (simpl; lia);
      rewrite simplifyPath_short in Hrun by (simpl; lia); exact Hrun.
  - destruct (le_lt_dec (length points) 2) as [Hshort | Hlong].
    { rewrite simplifyPath_short in * by exact Hshort. exact Hrun. }
    destruct fuel' as [|fuel']; [lia|].
    destruct points as [|first tl]; [simpl in Hlong; lia|].
    rewrite (simplifyPath_long fuel _ eps first tl eq_refl) in Hrun by lia.
    rewrite (simplifyPath_long fuel' _ eps first tl eq_refl) by lia.
    cbv zeta in *.
    destruct (findMax (first :: tl) first _) as [maxDistance maxIndex].
    destruct (Rltb eps maxDistance); [|exact Hrun].
    destruct (simplifyPath fuel (firstn _ _) eps) as [l|] eqn:Hl;
      [|discriminate].
    destruct (simplifyPath fuel (skipn _ _) eps) as [r|] eqn:Hr;
      [|discriminate].
    rewrite (IH fuel' _ _ ltac:(lia) Hl), (IH fuel' _ _ ltac:(lia) Hr).
    exact Hrun.
Qed.

(** Three points in a line, and what a negative tolerance does to them: the
    farthest inner point is at distance 0 and index 0, the test
    [maxDistance > epsilon] passes, and the right half of the recursion is
    the whole list again. *)
Definition collinear3 : list Point := [mkPoint 0 0; mkPoint 1 0; mkPoint 2 0].

Lemma findMax_collinear3 :
  findMax collinear3 (mkPoint 0 0) (mkPoint 2 0) = (0, 0%nat).
Proof.
  unfold findMax, collinear3. cbn [length Nat.sub seq fold_left].
  unfold maxStep. cbn [nth fst].
  assert (Hd : perpendicularDistance (mkPoint 1 0) (mkPoint 0 0) (mkPoint 2 0) = 0).
  { unfold perpendicularDistance. cbn [x y].
    replace (Reqb (2 - 0) 0) with false by (symmetry; apply Reqb_false_iff; lra).
    cbn [andb].
    replace ((0 - 0) * 1 - (2 - 0) * 0 + 2 * 0 - 0 * 0) with 0 by ring.
    rewrite Rabs_R0. unfold Rdiv. apply Rmult_0_l. }
  rewrite Hd.
  replace (Rltb 0 0) with false by (symmetry; apply Rltb_false_iff; lra).
  reflexivity.
Qed.

Lemma simplifyPath_negative_epsilon_diverges (fuel : nat) :
  simplifyPath fuel collinear3 (- 1) = None.
Proof.
  induction fuel as [|fuel IH]; [reflexivity|].
  rewrite (simplifyPath_long fuel collinear3 (- 1) (mkPoint 0 0)
             [mkPoint 1 0; mkPoint 2 0] eq_refl) by (simpl; lia).
  cbv zeta. change (nth (length collinear3 - 1) collinear3 (mkPoint 0 0))
    with (mkPoint 2 0).
  rewrite findMax_collinear3.
  replace (Rltb (- 1) 0) with true by (symmetry; apply Rltb_true_iff; lra).
  change (skipn 0 collinear3) with collinear3. rewrite IH.
  destruct (simplifyPath fuel (firstn (0 + 1) collinear3) (- 1)); reflexivity.
Qed.

End SimplifyPath.

(** C5 (as amended).  For every tolerance that is not negative,
    [simplifyPath] returns, and every point of the input is within the
    tolerance of the line through two neighbouring points of the result,
    in the measure of [perpendicularDistance]: the distance to the whole
    line, which can be less than the distance to the segment between the
    two points (as for [backtrack3]).  The result keeps both ends of the
    input.  An input of at most two points is returned as it is, whatever
    the tolerance. *)
Theorem simplifyPath_within_epsilon (points : list Point) (eps : R) :
  (0 <= eps ->
     exists simplified,
       (forall fuel, (length points <= fuel)%nat ->
                     Drawing.simplifyPath fuel points eps = Some simplified)
       /\ deviationWithin eps points simplified
       /\ Covers eps points simplified
       /\ (forall p rest, points = p :: rest ->
                          exists rest', simplified = p :: rest')
       /\ (forall init p, points = init ++ [p] ->
                          exists init', simplified = init' ++ [p]))
  /\ ((length points <= 2)%nat ->
      forall fuel, Drawing.simplifyPath fuel points eps = Some points).
Proof.
  split.
  - intros Heps.
    destruct (simplifyPath_covers eps Heps (length points) points (le_n _))
      as (simplified & Hrun & Hcov & Hhd & Htl).
    exists simplified. split; [|split; [|split; [|split]]]; try assumption.
    + intros fuel Hfuel.
      apply (simplifyPath_fuel_mono eps (length points)); assumption.
    + apply Covers_deviation; assumption.
  - intros Hlen fuel. apply simplifyPath_short. exact Hlen.
Qed.

Lemma simplifyPath_within_epsilon_witness :
  0 <= 1
  /\ exists simplified,
       (forall fuel, (3 <= fuel)%nat ->
          Drawing.simplifyPath fuel [mkPoint 0 0; mkPoint 1 3; mkPoint 2 0] 1
          = Some simplified)
       /\ deviationWithin 1 [mkPoint 0 0; mkPoint 1 3; mkPoint 2 0] simplified.
Proof.
  split; [lra|].
  destruct (simplifyPath_within_epsilon
              [mkPoint 0 0; mkPoint 1 3; mkPoint 2 0] 1) as [Hrun _].
  destruct (Hrun ltac:(lra)) as (simplified & Hfuel & Hdev & _).
  exists simplified. split; [exact Hfuel | exact Hdev].
Defined.

(** C5 as stated fails for a negative tolerance.  On three points in a line
    and the tolerance [-1] no amount of fuel gives a result: the recursion
    never ends.  On two points the input is returned, and its own points are
    at distance 0 from it, which is more than [-1]. *)
Lemma simplifyPath_negative_epsilon_fails :
  (forall fuel, Drawing.simplifyPath fuel collinear3 (- 1) = None)
  /\ Drawing.simplifyPath 2 [mkPoint 0 0; mkPoint 1 0] (- 1)
     = Some [mkPoint 0 0; mkPoint 1 0]
  /\ ~ deviationWithin (- 1) [mkPoint 0 0; mkPoint 1 0]
                             [mkPoint 0 0; mkPoint 1 0].
Proof.
  split; [exact simplifyPath_negative_epsilon_diverges|].
  split; [reflexivity|].
  intros Hdev. destruct (Hdev (mkPoint 0 0) (or_introl eq_refl))
    as [Hone | (a & b & _ & Hle)]; [discriminate|].
  pose proof (perpendicularDistance_nonneg (mkPoint 0 0) a b). lra.
Qed.

(** A stroke that runs down a vertical line and back up again: 200 units
    down from (500,400), then up to (500,399). *)
Definition backtrack3 : list Point :=
  [mkPoint 500 400; mkPoint 500 200; mkPoint 500 399].

Lemma simplifyPath_backtrack (fuel : nat) :
  (1 <= fuel)%nat ->
  Drawing.simplifyPath fuel backtrack3 2
  = Some [mkPoint 500 400; mkPoint 500 399].
Proof.
  intros Hfuel. destruct fuel as [|fuel]; [lia|].
  assert (Hd : Drawing.perpendicularDistance (mkPoint 500 200) (mkPoint 500 400)
                 (mkPoint 500 399) = 0).
  { unfold Drawing.perpendicularDistance. cbv zeta. cbn [x y].
    replace (Reqb (399 - 400) 0) with false
      by (symmetry; apply Reqb_false_iff; lra).
    rewrite andb_false_r.
    replace ((399 - 400) * 500 - (500 - 500) * 200 + 500 * 400 - 399 * 500)
      with 0 by ring.
    rewrite Rabs_R0. unfold Rdiv. apply Rmult_0_l. }
  unfold backtrack3. cbn [Drawing.simplifyPath length Nat.sub nth].
  unfold Drawing.findMax. cbn [length Nat.sub seq fold_left].
  unfold Drawing.maxStep. cbn [nth fst]. rewrite Hd.
  replace (Rltb 0 0) with false by (symmetry; apply Rltb_false_iff; lra).
  replace (Rltb 2 0) with false by (symmetry; apply Rltb_false_iff; lra).
  reflexivity.
Qed.

(** C5 as stated fails in two ways.  For a negative tolerance no bound can
    hold and the recursion may never end (see above).  For a tolerance that
    is not negative the bound holds in the measure of
    [perpendicularDistance], the distance to the whole line through two
    points that are kept, and not for the distance to the simplified
    polyline: of the stroke [backtrack3] the point (500,200) is left out,
    since it is on the line through the two ends, and it is at least 199
    units from every point of the segment between them, with the tolerance
    2. *)
Lemma simplifyPath_deviation_fails :
  ((forall fuel, Drawing.simplifyPath fuel collinear3 (- 1) = None)
   /\ Drawing.simplifyPath 2 [mkPoint 0 0; mkPoint 1 0] (- 1)
      = Some [mkPoint 0 0; mkPoint 1 0]
   /\ ~ deviationWithin (- 1) [mkPoint 0 0; mkPoint 1 0]
                              [mkPoint 0 0; mkPoint 1 0])
  /\ (forall fuel, (1 <= fuel)%nat ->
        Drawing.simplifyPath fuel backtrack3 2
        = Some [mkPoint 500 400; mkPoint 500 399])
  /\ (forall t, 0 <= t <= 1 ->
        199 <= Snapping.distance (mkPoint 500 200)
                 (segmentPoint (mkPoint 500 400) (mkPoint 500 399) t)).
Proof.
  split; [exact simplifyPath_negative_epsilon_fails|].
  split; [exact simplifyPath_backtrack|].
  intros t Ht. unfold Snapping.distance, segmentPoint. cbv zeta. cbn [x y].
  replace ((500 + t * (500 - 500) - 500) * (500 + t * (500 - 500) - 500)
           + (400 + t * (399 - 400) - 200) * (400 + t * (399 - 400) - 200))
    with ((200 - t)²) by (unfold Rsqr; ring).
  rewrite sqrt_Rsqr by lra. lra.
Qed.

(** * The rest of the code *)

(** ** snapping.ts: the snapper over strokes *)

Section StrokeSnap.

Import Snapping StrokeSnapping.

(** The endpoints [findNearestEndpoint] looks at, in the order of the loop:
    the first and the last point of every stroke that is not the excluded one
    and has a point. *)
Definition isExcluded (excludeStroke : option StrokeObject)
  (stroke : StrokeObject) : bool :=
  match excludeStroke with
  | Some e => sameObject stroke e
  | None => false
  end.

Definition strokeEndpoints (existingStrokes : list StrokeObject)
  (excludeStroke : option StrokeObject) : list Point :=
  flat_map (fun stroke =>
              if isExcluded excludeStroke stroke then []
              else match getStrokeEndpoints stroke with
                   | Some (start, end_) => [start; end_]
                   | None => []
                   end)
           existingStrokes.

Lemma findStep_snapStep (point : Point) (excludeStroke : option StrokeObject)
  (nearest : option (Point * R)) (stroke : StrokeObject) :
  findStep point excludeStroke nearest stroke
  = fold_left (snapStep point) (strokeEndpoints [stroke] excludeStroke) nearest.
Proof.
  unfold findStep, strokeEndpoints, isExcluded. cbn [flat_map].
  rewrite app_nil_r.
  destruct (match excludeStroke with Some e => sameObject stroke e | None => false end);
    [reflexivity|].
  destruct (getStrokeEndpoints stroke) as [[start end_]|]; reflexivity.
Qed.

Lemma findNearestEndpoint_loop (point : Point)
  (excludeStroke : option StrokeObject) (existingStrokes : list StrokeObject) :
  forall nearest,
  fold_left (findStep point excludeStroke) existingStrokes nearest
  = fold_left (snapStep point) (strokeEndpoints existingStrokes excludeStroke)
              nearest.
Proof.
  induction existingStrokes as [|s rest IH]; intros nearest; [reflexivity|].
  cbn [fold_left]. rewrite IH, findStep_snapStep.
  assert (Hcons : strokeEndpoints (s :: rest) excludeStroke
                  = strokeEndpoints [s] excludeStroke
                    ++ strokeEndpoints rest excludeStroke)
    by (unfold strokeEndpoints; cbn [flat_map]; rewrite app_nil_r; reflexivity).
  rewrite Hcons, fold_left_app. reflexivity.
Qed.

Lemma nth_pred_last {A : Type} (l : list A) (d : A) :
  nth (length l - 1) l d = List.last l d.
Proof.
  induction l as [|a l IH]; [reflexivity|].
  destruct l as [|b l]; [reflexivity|].
  change (List.last (a :: b :: l) d) with (List.last (b :: l) d).
  rewrite <- IH. cbn [length Nat.sub nth]. rewrite Nat.sub_0_r. reflexivity.
Qed.

(** The endpoints looked at are the first and last points of the strokes that
    are not excluded. *)
Lemma strokeEndpoints_In (existingStrokes : list StrokeObject)
  (excludeStroke : option StrokeObject) (e : Point) :
  In e (strokeEndpoints existingStrokes excludeStroke)
  <-> exists stroke p rest,
        In stroke existingStrokes
        /\ isExcluded excludeStroke stroke = false
        /\ Symmetry.points (snd stroke) = p :: rest
        /\ (e = p \/ e = List.last (p :: rest) p).
Proof.
  unfold strokeEndpoints. rewrite in_flat_map. split.
  - intros (stroke & Hin & He).
    destruct (isExcluded excludeStroke stroke) eqn:Hex; [destruct He|].
    unfold getStrokeEndpoints in He.
    destruct (Symmetry.points (snd stroke)) as [|p rest] eqn:Hpts; [destruct He|].
    exists stroke, p, rest. repeat split; auto.
    destruct He as [<- | [<- | []]]; [left; reflexivity | right].
    apply nth_pred_last.
  - intros (stroke & p & rest & Hin & Hex & Hpts & He).
    exists stroke. split; [exact Hin|]. rewrite Hex.
    unfold getStrokeEndpoints. rewrite Hpts.
    destruct He as [-> | ->]; [left; reflexivity | right; left].
    apply nth_pred_last.
Qed.

End StrokeSnap.

(** X1.  [snapToNearestEndpoint] is [snapToNearestSnowflakeEndpoint] on the
    first and last points of the strokes that are not excluded and not empty:
    it returns such a point of least distance when one is closer than 20
    units, and the candidate itself otherwise.  The points between the ends
    of a stroke and the points of the excluded stroke play no part. *)
Theorem snapToNearestEndpoint_nearest (point : Point)
  (existingStrokes : list StrokeSnapping.StrokeObject)
  (excludeStroke : option StrokeSnapping.StrokeObject) :
  let ends := strokeEndpoints existingStrokes excludeStroke in
  let r := StrokeSnapping.snapToNearestEndpoint point existingStrokes excludeStroke in
  r = Snapping.snapToNearestSnowflakeEndpoint point ends
  /\ (forall e, In e ends
        <-> exists stroke p rest,
              In stroke existingStrokes
              /\ isExcluded excludeStroke stroke = false
              /\ Symmetry.points (snd stroke) = p :: rest
              /\ (e = p \/ e = List.last (p :: rest) p))
  /\ ((exists e, In e ends /\ Snapping.distance point e < 20) ->
        In r ends
        /\ Snapping.distance point r < 20
        /\ forall e, In e ends ->
             Snapping.distance point r <= Snapping.distance point e)
  /\ ((forall e, In e ends -> 20 <= Snapping.distance point e) -> r = point).
Proof.
  intros ends r. subst r.
  unfold StrokeSnapping.snapToNearestEndpoint,
    StrokeSnapping.findNearestEndpoint,
    Snapping.snapToNearestSnowflakeEndpoint.
  rewrite findNearestEndpoint_loop. fold ends.
  pose proof (snap_loop point ends None I) as H.
  destruct (fold_left (Snapping.snapStep point) ends None) as [[q d]|].
  - destruct H as (Hd & Hlt & Hfrom & _ & Hmin).
    apply Rltb_true_iff in Hlt as Hb. rewrite Hb.
    unfold Snapping.SNAP_THRESHOLD in *. subst d.
    split; [reflexivity|]. split; [apply strokeEndpoints_In|].
    destruct Hfrom as [[=] | Hin]. split.
    + intros _. split; [exact Hin|]. split; [exact Hlt|].
      intros e He.
      destruct (Rlt_le_dec (Snapping.distance point e) 20) as [Hn | Hf];
        [apply Hmin; assumption | lra].
    + intros Hfar. specialize (Hfar q Hin). lra.
  - destruct H as (_ & Hfar). unfold Snapping.SNAP_THRESHOLD in *.
    split; [reflexivity|]. split; [apply strokeEndpoints_In|]. split.
    + intros (e & He & Hlt). specialize (Hfar e He). lra.
    + reflexivity.
Qed.

(** A stroke from (550,450) over (560,440) to (600,480), with identity 1. *)
Definition sampleStrokeObject : StrokeSnapping.StrokeObject :=
  (1%nat,
   Symmetry.mkStroke [mkPoint 550 450; mkPoint 560 440; mkPoint 600 480]
     (0%nat, Symmetry.mkPath None None)).

(** The theorem at the candidate (551,451) and that stroke. *)
Lemma snapToNearestEndpoint_nearest_witness :
  In (StrokeSnapping.snapToNearestEndpoint (mkPoint 551 451)
        [sampleStrokeObject] None)
     [mkPoint 550 450; mkPoint 600 480].
Proof.
  apply (proj1 (proj2 (proj2 (snapToNearestEndpoint_nearest
                                (mkPoint 551 451) [sampleStrokeObject] None)))).
  exists (mkPoint 550 450). split; [left; reflexivity|].
  rewrite distance_551_451. exact sqrt_2_lt_20.
Defined.

(** X2.  [findNearestEndpoint] answers [null] exactly when no end of a
    stroke that counts is closer than 20 units, and otherwise one of these
    ends together with its distance, which is the least; [isNearEndpoint]
    answers [true] exactly when some end is closer than 20 units. *)
Theorem isNearEndpoint_iff (point : Point)
  (existingStrokes : list StrokeSnapping.StrokeObject)
  (excludeStroke : option StrokeSnapping.StrokeObject) :
  let ends := strokeEndpoints existingStrokes excludeStroke in
  (StrokeSnapping.isNearEndpoint point existingStrokes excludeStroke = true
   <-> exists e, In e ends /\ Snapping.distance point e < 20)
  /\ (StrokeSnapping.findNearestEndpoint point existingStrokes excludeStroke = None
      <-> forall e, In e ends -> 20 <= Snapping.distance point e)
  /\ (forall q d,
        StrokeSnapping.findNearestEndpoint point existingStrokes excludeStroke
        = Some (q, d) ->
        In q ends /\ d = Snapping.distance point q /\ d < 20
        /\ forall e, In e ends -> d <= Snapping.distance point e).
Proof.
  intros ends.
  unfold StrokeSnapping.isNearEndpoint, StrokeSnapping.findNearestEndpoint.
  rewrite findNearestEndpoint_loop. fold ends.
  pose proof (snap_loop point ends None I) as H.
  destruct (fold_left (Snapping.snapStep point) ends None) as [[q d]|].
  - destruct H as (Hd & Hlt & Hfrom & _ & Hmin).
    unfold Snapping.SNAP_THRESHOLD in *.
    destruct Hfrom as [[=] | Hin]. split; [|split].
    + split; [|reflexivity]. intros _. exists q. subst d. auto.
    + split; [discriminate|]. intros Hfar. specialize (Hfar q Hin). lra.
    + intros q' d' [= <- <-]. repeat split; auto.
      intros e He.
      destruct (Rlt_le_dec (Snapping.distance point e) 20) as [Hn | Hf];
        [apply Hmin; assumption | lra].
  - destruct H as (_ & Hfar). unfold Snapping.SNAP_THRESHOLD in *.
    split; [|split].
    + split; [discriminate|]. intros (e & He & Hlt).
      specialize (Hfar e He). lra.
    + split; [intros _; exact Hfar | reflexivity].
    + discriminate.
Qed.

(** The theorem at the same candidate and stroke. *)
Lemma isNearEndpoint_iff_witness :
  StrokeSnapping.isNearEndpoint (mkPoint 551 451) [sampleStrokeObject] None
  = true.
Proof.
  apply (proj2 (proj1 (isNearEndpoint_iff
                         (mkPoint 551 451) [sampleStrokeObject] None))).
  exists (mkPoint 550 450). split; [left; reflexivity|].
  rewrite distance_551_451. exact sqrt_2_lt_20.
Defined.

(** ** drawing.ts: the distance of a point to a line *)

Section PerpendicularDistance.

Import Drawing.

(** The cross product of [p - a] and [b - a], as the source writes it. *)
Definition lineNumerator (p a b : Point) : R :=
  (y b - y a) * x p - (x b - x a) * y p + x b * y a - y b * x a.

Definition lineLength2 (a b : Point) : R :=
  (x b - x a) * (x b - x a) + (y b - y a) * (y b - y a).

Lemma lineLength2_pos (a b : Point) :
  x b - x a <> 0 \/ y b - y a <> 0 -> 0 < lineLength2 a b.
Proof.
  unfold lineLength2.
  pose proof (square_nonneg (x b - x a)). pose proof (square_nonneg (y b - y a)).
  intros [Hne | Hne]; pose proof (square_pos _ Hne); lra.
Qed.

Lemma perpendicularDistance_line (p a b : Point) :
  x b - x a <> 0 \/ y b - y a <> 0 ->
  perpendicularDistance p a b
  = Rabs (lineNumerator p a b) / sqrt (lineLength2 a b).
Proof.
  intros Hne. unfold perpendicularDistance, lineNumerator, lineLength2.
  cbv zeta.
  destruct (Reqb (x b - x a) 0) eqn:E1; destruct (Reqb (y b - y a) 0) eqn:E2;
    cbn [andb]; try reflexivity.
  apply Reqb_true_iff in E1, E2. lra.
Qed.

Lemma perpendicularDistance_point (p a b : Point) :
  x b - x a = 0 -> y b - y a = 0 ->
  perpendicularDistance p a b = Snapping.distance a p.
Proof.
  intros Hx Hy. unfold perpendicularDistance, Snapping.distance. cbv zeta.
  replace (Reqb (x b - x a) 0) with true by (symmetry; apply Reqb_true_iff; exact Hx).
  replace (Reqb (y b - y a) 0) with true by (symmetry; apply Reqb_true_iff; exact Hy).
  reflexivity.
Qed.

(** The square of the distance from [p] to the point of the line at [t]. *)
Definition lineOffset2 (p a b : Point) (t : R) : R :=
  (x p - (x a + t * (x b - x a))) * (x p - (x a + t * (x b - x a)))
  + (y p - (y a + t * (y b - y a))) * (y p - (y a + t * (y b - y a))).

Lemma distance_segmentPoint (p a b : Point) (t : R) :
  Snapping.distance p (segmentPoint a b t) = sqrt (lineOffset2 p a b t).
Proof.
  unfold Snapping.distance, segmentPoint, lineOffset2. cbn [x y].
  f_equal. ring.
Qed.

Lemma lineOffset2_nonneg (p a b : Point) (t : R) : 0 <= lineOffset2 p a b t.
Proof. unfold lineOffset2. apply sum_squares_nonneg. Qed.

(** Lagrange's identity for the offset and the direction of the line. *)
Lemma lineNumerator_offset (p a b : Point) (t : R) :
  lineOffset2 p a b t * lineLength2 a b
  = (lineNumerator p a b)²
    + ((x p - (x a + t * (x b - x a))) * (x b - x a)
       + (y p - (y a + t * (y b - y a))) * (y b - y a))².
Proof. unfold lineOffset2, lineLength2, lineNumerator, Rsqr. ring. Qed.

Lemma perpendicularDistance_le (p a b : Point) (t : R) :
  x b - x a <> 0 \/ y b - y a <> 0 ->
  perpendicularDistance p a b <= Snapping.distance p (segmentPoint a b t).
Proof.
  intros Hne. pose proof (lineLength2_pos a b Hne) as Hpos.
  rewrite perpendicularDistance_line, distance_segmentPoint by exact Hne.
  assert (Hd : 0 < sqrt (lineLength2 a b)) by (apply sqrt_lt_R0; exact Hpos).
  apply Rmult_le_reg_r with (r := sqrt (lineLength2 a b)); [exact Hd|].
  unfold Rdiv. rewrite Rmult_assoc, Rinv_l, Rmult_1_r by lra.
  rewrite <- sqrt_mult by (try apply lineOffset2_nonneg; lra).
  rewrite <- sqrt_Rsqr_abs. apply sqrt_le_1_alt.
  rewrite lineNumerator_offset.
  pose proof (Rle_0_sqr ((x p - (x a + t * (x b - x a))) * (x b - x a)
                         + (y p - (y a + t * (y b - y a))) * (y b - y a))).
  lra.
Qed.

(** The parameter of the foot of the perpendicular from [p]. *)
Definition footParameter (p a b : Point) : R :=
  ((x p - x a) * (x b - x a) + (y p - y a) * (y b - y a)) / lineLength2 a b.

Lemma perpendicularDistance_foot (p a b : Point) :
  x b - x a <> 0 \/ y b - y a <> 0 ->
  perpendicularDistance p a b
  = Snapping.distance p (segmentPoint a b (footParameter p a b)).
Proof.
  intros Hne. pose proof (lineLength2_pos a b Hne) as Hpos.
  rewrite perpendicularDistance_line, distance_segmentPoint by exact Hne.
  assert (Hd : 0 < sqrt (lineLength2 a b)) by (apply sqrt_lt_R0; exact Hpos).
  apply Rmult_eq_reg_r with (r := sqrt (lineLength2 a b)); [|lra].
  unfold Rdiv. rewrite Rmult_assoc, Rinv_l, Rmult_1_r by lra.
  rewrite <- sqrt_mult by (try apply lineOffset2_nonneg; lra).
  rewrite <- sqrt_Rsqr_abs. f_equal.
  rewrite lineNumerator_offset.
  assert (Hzero : (x p - (x a + footParameter p a b * (x b - x a))) * (x b - x a)
                  + (y p - (y a + footParameter p a b * (y b - y a))) * (y b - y a)
                  = 0).
  { unfold footParameter. unfold lineLength2 in *. field. lra. }
  rewrite Hzero. unfold Rsqr. ring.
Qed.

Lemma perpendicularDistance_sym (p a b : Point) :
  perpendicularDistance p a b = perpendicularDistance p b a.
Proof.
  destruct (Req_dec_T (x b - x a) 0) as [Hx | Hx];
    [destruct (Req_dec_T (y b - y a) 0) as [Hy | Hy]|].
  - rewrite !perpendicularDistance_point by lra.
    unfold Snapping.distance. f_equal.
    replace (x a) with (x b) by lra. replace (y a) with (y b) by lra.
    reflexivity.
  - rewrite !perpendicularDistance_line by (right; lra).
    f_equal.
    + replace (lineNumerator p b a) with (- lineNumerator p a b)
        by (unfold lineNumerator; ring).
      symmetry. apply Rabs_Ropp.
    + f_equal. unfold lineLength2. ring.
  - rewrite !perpendicularDistance_line by (left; lra).
    f_equal.
    + replace (lineNumerator p b a) with (- lineNumerator p a b)
        by (unfold lineNumerator; ring).
      symmetry. apply Rabs_Ropp.
    + f_equal. unfold lineLength2. ring.
Qed.

End PerpendicularDistance.

(** X3.  For a line through two different points, [perpendicularDistance]
    is the least distance from the point to a point of the whole line, not
    of the segment: no point of the line is closer, and the foot of the
    perpendicular is at that distance.  For a line given by the same point
    twice it is the distance to that point.  The two points of the line can
    be swapped. *)
Theorem perpendicularDistance_least (p a b : Point) :
  (x b - x a <> 0 \/ y b - y a <> 0 ->
     (forall t, Drawing.perpendicularDistance p a b
                <= Snapping.distance p (segmentPoint a b t))
     /\ Drawing.perpendicularDistance p a b
        = Snapping.distance p (segmentPoint a b (footParameter p a b)))
  /\ (x b - x a = 0 -> y b - y a = 0 ->
      Drawing.perpendicularDistance p a b = Snapping.distance a p)
  /\ Drawing.perpendicularDistance p a b = Drawing.perpendicularDistance p b a.
Proof.
  split; [|split].
  - intros Hne. split.
    + intros t. apply perpendicularDistance_le. exact Hne.
    + apply perpendicularDistance_foot. exact Hne.
  - apply perpendicularDistance_point.
  - apply perpendicularDistance_sym.
Qed.

(** The theorem at the point (1,3) and the line through (0,0) and (2,0): the
    distance is at most the distance to the start of the line. *)
Lemma perpendicularDistance_least_witness :
  Drawing.perpendicularDistance (mkPoint 1 3) (mkPoint 0 0) (mkPoint 2 0)
  <= Snapping.distance (mkPoint 1 3) (segmentPoint (mkPoint 0 0) (mkPoint 2 0) 0).
Proof.
  apply (proj1 (proj1 (perpendicularDistance_least
                         (mkPoint 1 3) (mkPoint 0 0) (mkPoint 2 0))
                      ltac:(left; cbn [x y]; lra))).
Defined.

(** ** drawing.ts: the wedge in coordinates *)

Section Wedge.

Lemma atan_nonneg_iff (u : R) : 0 <= atan u <-> 0 <= u.
Proof.
  split.
  - intros H. destruct (Rle_lt_dec 0 u) as [Hu | Hu]; [exact Hu|].
    apply atan_increasing in Hu. rewrite atan_0 in Hu. lra.
  - intros [Hu | Hu].
    + apply atan_increasing in Hu. rewrite atan_0 in Hu. lra.
    + subst u. rewrite atan_0. lra.
Qed.

Lemma atan_le_PI6_iff (u : R) : atan u <= PI / 6 <-> sqrt 3 * u <= 1.
Proof.
  pose proof PI_RGT_0 as Hpi. pose proof Rlt_sqrt3_0 as H3.
  assert (Hk : atan (1 / sqrt 3) = PI / 6)
    by (rewrite <- tan_PI6; apply atan_tan; lra).
  assert (Hone : sqrt 3 * (1 / sqrt 3) = 1) by (field; lra).
  assert (Hu : sqrt 3 * u <= 1 <-> u <= 1 / sqrt 3).
  { split; intros H.
    - apply Rmult_le_reg_l with (r := sqrt 3); [lra|]. lra.
    - apply Rmult_le_compat_l with (r := sqrt 3) in H; lra. }
  rewrite Hu, <- Hk. split.
  - intros H. destruct (Rle_lt_dec u (1 / sqrt 3)) as [Hle | Hlt]; [exact Hle|].
    apply atan_increasing in Hlt. lra.
  - intros [H | H].
    + apply atan_increasing in H. lra.
    + subst u. lra.
Qed.

(** The angle test of [isPointInWedge] in coordinates: the point is above
    the center, not to its left, and not beyond the line at 30 degrees. *)
Lemma wedgeAngle_cartesian (p center : Point) :
  0 <= wedgeAngle p center <= 30
  <-> 0 <= x p - x center
      /\ sqrt 3 * (x p - x center) <= - (y p - y center)
      /\ y p - y center < 0.
Proof.
  pose proof PI_RGT_0 as Hpi. pose proof Rlt_sqrt3_0 as H3.
  unfold wedgeAngle. cbv zeta.
  set (Y := x p - x center). set (dy := y p - y center).
  pose proof (Math_atan2_range Y (- dy) NegZero) as Hr.
  pose proof (degrees_bounds _ Hr) as Hdeg.
  assert (HK : 0 < 180 / PI) by (apply Rdiv_lt_0_compat; lra).
  assert (HKP : PI / 6 * (180 / PI) = 30) by (field; lra).
  assert (Hang : 0 <= (if Rltb (Math_atan2 Y (- dy) NegZero * (180 / PI)) 0
                       then Math_atan2 Y (- dy) NegZero * (180 / PI) + 360
                       else Math_atan2 Y (- dy) NegZero * (180 / PI)) <= 30
                 <-> 0 <= Math_atan2 Y (- dy) NegZero <= PI / 6).
  { set (A := Math_atan2 Y (- dy) NegZero) in *.
    destruct (Rltb (A * (180 / PI)) 0) eqn:E;
      [apply Rltb_true_iff in E | apply Rltb_false_iff in E].
    - split; intros [H1 H2]; exfalso; [lra|].
      assert (0 <= A * (180 / PI)) by (apply Rmult_le_pos; lra). lra.
    - split; intros [H1 H2]; split.
      + destruct (Rle_lt_dec 0 A) as [Ha | Ha]; [exact Ha|]. exfalso. nra.
      + destruct (Rle_lt_dec A (PI / 6)) as [Ha | Ha]; [exact Ha|]. exfalso.
        assert (PI / 6 * (180 / PI) < A * (180 / PI))
          by (apply Rmult_lt_compat_r; lra).
        lra.
      + exact E.
      + rewrite <- HKP. apply Rmult_le_compat_r; lra. }
  rewrite Hang. clear Hang Hr Hdeg. unfold Math_atan2.
  destruct (Rltb 0 (- dy)) eqn:E1;
    [apply Rltb_true_iff in E1 | apply Rltb_false_iff in E1].
  - rewrite atan_nonneg_iff, atan_le_PI6_iff.
    set (u := Y / - dy). assert (Hu : Y = u * - dy) by (unfold u; field; lra).
    rewrite Hu. split.
    + intros [H1 H2]. split; [nra|]. split; [nra | lra].
    + intros (H1 & H2 & _). split.
      * destruct (Rle_lt_dec 0 u) as [Ha | Ha]; [exact Ha|]. exfalso. nra.
      * destruct (Rle_lt_dec (sqrt 3 * u) 1) as [Ha | Ha]; [exact Ha|].
        exfalso. nra.
  - destruct (Rltb (- dy) 0) eqn:E2;
      [apply Rltb_true_iff in E2 | apply Rltb_false_iff in E2].
    + pose proof (atan_bound (Y / - dy)) as Hb.
      destruct (Rleb 0 Y); split; intros H; exfalso; lra.
    + destruct (Rltb 0 Y); [split; intros H; exfalso; lra|].
      destruct (Rltb Y 0); split; intros H; exfalso; lra.
Qed.

Lemma sqrt_le_400 (s : R) : 0 <= s -> (sqrt s <= 400 <-> s <= 400 * 400).
Proof.
  intros Hs. split; intros H.
  - pose proof (sqrt_sqrt s Hs) as Hsq. pose proof (sqrt_pos s). nra.
  - replace 400 with (sqrt (400 * 400)) by (apply sqrt_square; lra).
    apply sqrt_le_1_alt. exact H.
Qed.

(** Both revisions of [isPointInWedge] in coordinates. *)
Lemma isPointInWedge_cartesian_both (p center : Point) :
  (Drawing.isPointInWedge p center = true
   <-> (0 <= x p - x center
        /\ sqrt 3 * (x p - x center) <= - (y p - y center)
        /\ y p - y center < 0)
       /\ (x p - x center) * (x p - x center)
          + (y p - y center) * (y p - y center) <= 400 * 400)
  /\ (DrawingV1.isPointInWedge p center = true
      <-> 0 <= x p - x center
          /\ sqrt 3 * (x p - x center) <= - (y p - y center)
          /\ y p - y center < 0).
Proof.
  rewrite <- wedgeAngle_cartesian.
  rewrite <- (sqrt_le_400 _ (sum_squares_nonneg _ _)).
  unfold Drawing.isPointInWedge, DrawingV1.isPointInWedge, wedgeAngle.
  cbv zeta. set (dist := sqrt _). set (a := Math_atan2 _ _ _ * _).
  split.
  - destruct (Rltb 400 dist) eqn:Hd.
    + apply Rltb_true_iff in Hd. split; [discriminate | lra].
    + apply Rltb_false_iff in Hd.
      rewrite andb_true_iff, !Rleb_true_iff. tauto.
  - rewrite andb_true_iff, !Rleb_true_iff. tauto.
Qed.

End Wedge.

(** X4.  [isPointInWedge] in coordinates relative to the center: the later
    revision answers [true] exactly for the points strictly above the
    center, not left of it, not beyond the line at 30 degrees
    ([sqrt 3 * dx <= - dy]) and within 400 units; the earlier revision
    leaves out the last condition.  The center itself is not in the wedge. *)
Theorem isPointInWedge_cartesian (p center : Point) :
  (Drawing.isPointInWedge p center = true
   <-> (0 <= x p - x center
        /\ sqrt 3 * (x p - x center) <= - (y p - y center)
        /\ y p - y center < 0)
       /\ (x p - x center) * (x p - x center)
          + (y p - y center) * (y p - y center) <= 400 * 400)
  /\ (DrawingV1.isPointInWedge p center = true
      <-> 0 <= x p - x center
          /\ sqrt 3 * (x p - x center) <= - (y p - y center)
          /\ y p - y center < 0)
  /\ Drawing.isPointInWedge center center = false
  /\ DrawingV1.isPointInWedge center center = false.
Proof.
  destruct (isPointInWedge_cartesian_both p center) as [H2 H1].
  split; [exact H2|]. split; [exact H1|].
  destruct (isPointInWedge_cartesian_both center center) as [C2 C1].
  split.
  - destruct (Drawing.isPointInWedge center center); [|reflexivity].
    destruct (proj1 C2 eq_refl) as [(_ & _ & H) _]. lra.
  - destruct (DrawingV1.isPointInWedge center center); [|reflexivity].
    destruct (proj1 C1 eq_refl) as (_ & _ & H). lra.
Qed.

(** The theorem at the point 100 units straight above the default center. *)
Lemma isPointInWedge_cartesian_witness :
  Drawing.isPointInWedge (mkPoint 500 400) defaultCenter = true.
Proof.
  apply (proj2 (proj1 (isPointInWedge_cartesian (mkPoint 500 400) defaultCenter))).
  unfold defaultCenter. cbn [x y]. pose proof Rlt_sqrt3_0.
  repeat split; lra.
Defined.

(** X5.  The wedge is convex, in both revisions: the segment between two
    points of the wedge lies in the wedge.  So a straight line whose ends
    pass [isPointInWedge] needs no clipping. *)
Theorem wedge_convex (p q center : Point) (t : R) :
  0 <= t <= 1 ->
  (Drawing.isPointInWedge p center = true ->
   Drawing.isPointInWedge q center = true ->
   Drawing.isPointInWedge (segmentPoint p q t) center = true)
  /\ (DrawingV1.isPointInWedge p center = true ->
      DrawingV1.isPointInWedge q center = true ->
      DrawingV1.isPointInWedge (segmentPoint p q t) center = true).
Proof.
  intros Ht. pose proof Rlt_sqrt3_0 as H3.
  destruct (isPointInWedge_cartesian_both p center) as [P2 P1].
  destruct (isPointInWedge_cartesian_both q center) as [Q2 Q1].
  destruct (isPointInWedge_cartesian_both (segmentPoint p q t) center) as [S2 S1].
  unfold segmentPoint in S1, S2. cbn [x y] in S1, S2.
  set (a := x p - x center) in *. set (b := y p - y center) in *.
  set (c := x q - x center) in *. set (d := y q - y center) in *.
  replace (x p + t * (x q - x p) - x center) with (a + t * (c - a)) in S1, S2
    by (unfold a, c; ring).
  replace (y p + t * (y q - y p) - y center) with (b + t * (d - b)) in S1, S2
    by (unfold b, d; ring).
  assert (Hcone : 0 <= a /\ sqrt 3 * a <= - b /\ b < 0 ->
                  0 <= c /\ sqrt 3 * c <= - d /\ d < 0 ->
                  0 <= a + t * (c - a)
                  /\ sqrt 3 * (a + t * (c - a)) <= - (b + t * (d - b))
                  /\ b + t * (d - b) < 0).
  { intros (A1 & A2 & A3) (C1 & C2 & C3).
    assert (0 <= (1 - t) * a) by (apply Rmult_le_pos; lra).
    assert (0 <= t * c) by (apply Rmult_le_pos; lra).
    assert (0 <= (1 - t) * (- b - sqrt 3 * a)) by (apply Rmult_le_pos; lra).
    assert (0 <= t * (- d - sqrt 3 * c)) by (apply Rmult_le_pos; lra).
    assert (0 <= (1 - t) * - b) by (apply Rmult_le_pos; lra).
    split; [lra|]. split; [lra|].
    destruct (Req_dec_T t 0) as [-> | Hne]; [lra|].
    assert (0 < t * - d) by (apply Rmult_lt_0_compat; lra). lra. }
  split.
  - intros Hp Hq. apply P2 in Hp. apply Q2 in Hq. apply S2.
    destruct Hp as [Hp Hpr]. destruct Hq as [Hq Hqr].
    split; [apply Hcone; assumption|].
    assert (Hid : 400 * 400
                  - ((a + t * (c - a)) * (a + t * (c - a))
                     + (b + t * (d - b)) * (b + t * (d - b)))
                  = (1 - t) * (400 * 400 - (a * a + b * b))
                    + t * (400 * 400 - (c * c + d * d))
                    + t * (1 - t) * ((a - c) * (a - c) + (b - d) * (b - d)))
      by ring.
    assert (0 <= (1 - t) * (400 * 400 - (a * a + b * b)))
      by (apply Rmult_le_pos; lra).
    assert (0 <= t * (400 * 400 - (c * c + d * d)))
      by (apply Rmult_le_pos; lra).
    assert (0 <= t * (1 - t) * ((a - c) * (a - c) + (b - d) * (b - d))).
    { apply Rmult_le_pos; [apply Rmult_le_pos; lra|].
      apply sum_squares_nonneg. }
    lra.
  - intros Hp Hq. apply P1 in Hp. apply Q1 in Hq. apply S1.
    apply Hcone; assumption.
Qed.

(** The theorem at the middle of the segment from (500,400) to (500,200). *)
Lemma wedge_convex_witness :
  Drawing.isPointInWedge
    (segmentPoint (mkPoint 500 (500 - 100)) (mkPoint 500 (500 - 300)) (1 / 2))
    defaultCenter = true.
Proof.
  apply (proj1 (wedge_convex (mkPoint 500 (500 - 100)) (mkPoint 500 (500 - 300))
                  defaultCenter (1 / 2) ltac:(lra)));
    apply isPointInWedge_above_center; lra.
Defined.

(** ** drawing.ts: what [simplifyPath] keeps *)

Section SimplifyShape.

Import Drawing.

(** The loop of [findMax] seen on the inner points themselves: [k] is the
    index of the next point. *)
Fixpoint scanMax (dist : Point -> R) (k : nat) (inner : list Point)
  (st : R * nat) : R * nat :=
  match inner with
  | [] => st
  | a :: rest =>
      scanMax dist (S k) rest (if Rltb (fst st) (dist a) then (dist a, k) else st)
  end.

Lemma findMax_scan_loop (first last : Point) (inner post : list Point) :
  forall (pre : list Point) (st : R * nat),
  fold_left (maxStep (pre ++ inner ++ post) first last)
            (seq (length pre) (length inner)) st
  = scanMax (fun a => perpendicularDistance a first last) (length pre) inner st.
Proof.
  induction inner as [|a inner IH]; intros pre st; [reflexivity|].
  cbn [length seq fold_left scanMax].
  assert (Hnth : nth (length pre) (pre ++ (a :: inner) ++ post) first = a)
    by (cbn [app]; apply nth_middle).
  unfold maxStep at 2. cbv zeta. rewrite Hnth.
  specialize (IH (pre ++ [a])). rewrite length_app in IH. cbn [length] in IH.
  replace (length pre + 1)%nat with (S (length pre)) in IH by lia.
  rewrite <- IH. rewrite <- !app_assoc. reflexivity.
Qed.

Lemma findMax_scan (first last : Point) (inner : list Point) :
  findMax (first :: inner ++ [last]) first last
  = scanMax (fun a => perpendicularDistance a first last) 1 inner (0, 0%nat).
Proof.
  unfold findMax.
  replace (length (first :: inner ++ [last]) - 2)%nat with (length inner)
    by (cbn [length]; rewrite length_app; simpl; lia).
  apply (findMax_scan_loop first last inner [last] [first]).
Qed.

Lemma scanMax_keep (dist : Point -> R) (inner : list Point) :
  forall (k : nat) (st : R * nat),
  Forall (fun a => dist a <= fst st) inner -> scanMax dist k inner st = st.
Proof.
  induction inner as [|a inner IH]; intros k st Hall; [reflexivity|].
  inversion Hall as [|? ? Ha Hrest]; subst. cbn [scanMax].
  replace (Rltb (fst st) (dist a)) with false
    by (symmetry; apply Rltb_false_iff; exact Ha).
  apply IH. exact Hrest.
Qed.

(** The loop stops at the first point that is farther than all before it and
    no nearer than all after it. *)
Lemma scanMax_found (dist : Point -> R) (m : Point) (A2 : list Point)
  (A1 : list Point) :
  forall (k : nat) (st : R * nat),
  fst st < dist m ->
  Forall (fun a => dist a < dist m) A1 ->
  Forall (fun a => dist a <= dist m) A2 ->
  scanMax dist k (A1 ++ m :: A2) st = (dist m, (k + length A1)%nat).
Proof.
  induction A1 as [|a A1 IH]; intros k st Hst H1 H2.
  - cbn [app scanMax length].
    replace (Rltb (fst st) (dist m)) with true
      by (symmetry; apply Rltb_true_iff; exact Hst).
    rewrite scanMax_keep by exact H2. f_equal. lia.
  - inversion H1 as [|? ? Ha Hrest]; subst.
    cbn [app scanMax length]. rewrite IH; [f_equal; lia | | exact Hrest | exact H2].
    destruct (Rltb (fst st) (dist a)); cbn [fst]; lra.
Qed.

(** What the loop returns: its start, when no point is farther than the
    start; or the first point farther than the start and all before it, and
    no nearer than all after it. *)
Lemma scanMax_decompose (dist : Point -> R) (inner : list Point) :
  forall (k : nat) (st : R * nat),
  (scanMax dist k inner st = st /\ Forall (fun a => dist a <= fst st) inner)
  \/ exists A1 m A2,
       inner = A1 ++ m :: A2
       /\ scanMax dist k inner st = (dist m, (k + length A1)%nat)
       /\ fst st < dist m
       /\ Forall (fun a => dist a < dist m) A1
       /\ Forall (fun a => dist a <= dist m) A2.
Proof.
  induction inner as [|a inner IH]; intros k st.
  - left. split; [reflexivity | constructor].
  - cbn [scanMax].
    destruct (Rltb (fst st) (dist a)) eqn:Hlt;
      [apply Rltb_true_iff in Hlt | apply Rltb_false_iff in Hlt].
    + destruct (IH (S k) (dist a, k))
        as [[Heq Hall] | (A1 & m & A2 & Hin & Heq & Hst & H1 & H2)].
      * right. exists [], a, inner. cbn [fst] in Hall.
        split; [reflexivity|]. split; [rewrite Heq; f_equal; simpl; lia|].
        split; [exact Hlt|]. split; [constructor | exact Hall].
      * right. exists (a :: A1), m, A2. cbn [fst] in Hst.
        split; [rewrite Hin; reflexivity|].
        split; [rewrite Heq; f_equal; simpl; lia|].
        split; [lra|]. split; [constructor; [lra | exact H1] | exact H2].
    + destruct (IH (S k) st)
        as [[Heq Hall] | (A1 & m & A2 & Hin & Heq & Hst & H1 & H2)].
      * left. split; [exact Heq | constructor; assumption].
      * right. exists (a :: A1), m, A2.
        split; [rewrite Hin; reflexivity|].
        split; [rewrite Heq; f_equal; simpl; lia|].
        split; [exact Hst|]. split; [constructor; [lra | exact H1] | exact H2].
Qed.

Lemma firstn_middle (A B : list Point) (m : Point) :
  firstn (S (length A)) (A ++ m :: B) = A ++ [m].
Proof.
  induction A as [|a A IH]; [reflexivity|].
  cbn [length app firstn]. rewrite <- IH. reflexivity.
Qed.

Lemma skipn_middle (A B : list Point) : skipn (length A) (A ++ B) = B.
Proof. induction A as [|a A IH]; [reflexivity | exact IH]. Qed.

(** [simplified] has the ends of [points] and, between them, some of the
    points between the ends of [points], in their order. *)
Definition keepsEnds (points simplified : list Point) : Prop :=
  ((length points <= 1)%nat /\ simplified = points)
  \/ exists first inner last inner',
       points = first :: inner ++ [last]
       /\ simplified = first :: inner' ++ [last]
       /\ inner' `sublist_of` inner.

Lemma keepsEnds_inner (first last : Point) (inner simplified : list Point) :
  keepsEnds (first :: inner ++ [last]) simplified ->
  exists inner', simplified = first :: inner' ++ [last]
                 /\ inner' `sublist_of` inner.
Proof.
  intros [[Hlen _] | (f & i & l & i' & Heq & Hs & Hsub)].
  - cbn [length] in Hlen. rewrite length_app in Hlen. simpl in Hlen. lia.
  - injection Heq as <- Heq. apply app_inj_tail in Heq as [<- <-].
    exists i'. split; assumption.
Qed.

Lemma keepsEnds_sublist (points simplified : list Point) :
  keepsEnds points simplified -> simplified `sublist_of` points.
Proof.
  intros [[_ ->] | (f & i & l & i' & -> & -> & Hsub)]; [reflexivity|].
  apply sublist_skip, sublist_app; [exact Hsub | reflexivity].
Qed.

(** With a tolerance that is not negative [simplifyPath] returns a selection
    of its input that keeps the ends, and returns that selection unchanged
    when it is given it again. *)
Lemma simplifyPath_shape (eps : R) :
  0 <= eps ->
  forall (fuel : nat) (points : list Point),
  (length points <= fuel)%nat ->
  exists simplified,
    simplifyPath fuel points eps = Some simplified
    /\ keepsEnds points simplified
    /\ forall fuel', (length simplified <= fuel')%nat ->
                     simplifyPath fuel' simplified eps = Some simplified.
Proof.
  intros Heps. induction fuel as [|fuel IH]; intros points Hfuel.
  { destruct points; [|simpl in Hfuel; lia]. exists [].
    split; [reflexivity|]. split; [left; split; [simpl; lia | reflexivity]|].
    intros fuel' _. apply simplifyPath_short. simpl. lia. }
  destruct points as [|first tl].
  { exists []. split; [reflexivity|].
    split; [left; split; [simpl; lia | reflexivity]|].
    intros fuel' _. apply simplifyPath_short. simpl. lia. }
  destruct tl as [|second tl'].
  { exists [first]. split; [reflexivity|].
    split; [left; split; [simpl; lia | reflexivity]|].
    intros fuel' _. apply simplifyPath_short. simpl. lia. }
  destruct (exists_last (l := second :: tl')) as (inner & last & Htl);
    [discriminate|].
  rewrite Htl in *. clear Htl second tl'.
  destruct inner as [|i0 inner0].
  { exists [first; last]. split; [reflexivity|]. split.
    - right. exists first, [], last, []. repeat split; reflexivity.
    - intros fuel' _. apply simplifyPath_short. simpl. lia. }
  set (inner := i0 :: inner0) in *.
  set (points := first :: inner ++ [last]) in *.
  assert (Hlen : length points = S (S (length inner)))
    by (unfold points; cbn [length]; rewrite length_app; simpl; lia).
  assert (Hlast : nth (length points - 1) points first = last).
  { rewrite Hlen. unfold points.
    replace (S (S (length inner)) - 1)%nat with (S (length inner)) by lia.
    cbn [nth]. apply nth_middle. }
  rewrite (simplifyPath_long fuel points eps first (inner ++ [last]) eq_refl)
    by (rewrite Hlen; unfold inner; simpl; lia).
  cbv zeta. rewrite Hlast. unfold points at 1. rewrite findMax_scan.
  set (dist := fun a => perpendicularDistance a first last).
  assert (Hends : exists s, s = [first; last]
            /\ keepsEnds points s
            /\ forall fuel', (length s <= fuel')%nat ->
                             simplifyPath fuel' s eps = Some s).
  { exists [first; last]. split; [reflexivity|]. split.
    - right. exists first, inner, last, []. repeat split.
      apply sublist_nil_l.
    - intros fuel' _. apply simplifyPath_short. simpl. lia. }
  destruct Hends as (ends & -> & Hke & Hidem).
  destruct (scanMax_decompose dist inner 1 (0, 0%nat))
    as [[Heq Hall] | (A1 & m & A2 & Hin & Heq & Hst & H1 & H2)];
    rewrite Heq.
  { replace (Rltb eps 0) with false by (symmetry; apply Rltb_false_iff; lra).
    exists [first; last]. auto. }
  destruct (Rltb eps (dist m)) eqn:Hcmp; [|exists [first; last]; auto].
  apply Rltb_true_iff in Hcmp. cbn [fst] in Hst.
  assert (Hleft : firstn (1 + length A1 + 1) points = first :: A1 ++ [m]).
  { unfold points. rewrite Hin.
    replace (1 + length A1 + 1)%nat with (S (S (length A1))) by lia.
    cbn [firstn]. f_equal. rewrite <- app_assoc. cbn [app].
    apply firstn_middle. }
  assert (Hright : skipn (1 + length A1) points = m :: A2 ++ [last]).
  { unfold points. rewrite Hin. cbn [Nat.add skipn].
    rewrite <- app_assoc. cbn [app]. apply skipn_middle. }
  assert (HlenIn : length inner = (length A1 + S (length A2))%nat)
    by (rewrite Hin, length_app; reflexivity).
  rewrite Hleft, Hright.
  destruct (IH (first :: A1 ++ [m])) as (L & HL & HkL & HiL).
  { cbn [length]. rewrite length_app. simpl. lia. }
  destruct (IH (m :: A2 ++ [last])) as (Rt & HR & HkR & HiR).
  { cbn [length]. rewrite length_app. simpl. lia. }
  rewrite HL, HR.
  destruct (keepsEnds_inner _ _ _ _ HkL) as (A1' & -> & Hsub1).
  destruct (keepsEnds_inner _ _ _ _ HkR) as (A2' & -> & Hsub2).
  change (first :: A1' ++ [m]) with ((first :: A1') ++ [m]).
  rewrite removelast_last. cbn [app].
  exists (first :: A1' ++ m :: A2' ++ [last]). split; [reflexivity|]. split.
  - right. exists first, inner, last, (A1' ++ m :: A2').
    split; [reflexivity|]. split; [rewrite <- app_assoc; reflexivity|].
    rewrite Hin. apply sublist_app; [exact Hsub1|].
    apply sublist_skip. exact Hsub2.
  - intros fuel' Hfuel'.
    assert (Hlen' : length (first :: A1' ++ m :: A2' ++ [last])
                    = S (S (S (length A1' + length A2'))))
      by (cbn [length]; rewrite !length_app; cbn [length]; rewrite length_app;
          simpl; lia).
    destruct fuel' as [|fuel']; [lia|].
    rewrite (simplifyPath_long fuel' _ eps first (A1' ++ m :: A2' ++ [last]) eq_refl)
      by lia.
    cbv zeta.
    assert (Hlast' : nth (length (first :: A1' ++ m :: A2' ++ [last]) - 1)
                         (first :: A1' ++ m :: A2' ++ [last]) first = last).
    { rewrite Hlen'.
      replace (S (S (S (length A1' + length A2'))) - 1)%nat
        with (S (length (A1' ++ m :: A2'))) by (rewrite length_app; simpl; lia).
      cbn [nth].
      replace (A1' ++ m :: A2' ++ [last]) with ((A1' ++ m :: A2') ++ [last])
        by (rewrite <- app_assoc; reflexivity).
      apply nth_middle. }
    rewrite Hlast'.
    replace (first :: A1' ++ m :: A2' ++ [last])
      with (first :: (A1' ++ m :: A2') ++ [last])
      by (rewrite <- app_assoc; reflexivity).
    rewrite findMax_scan. fold dist.
    rewrite (scanMax_found dist m A2' A1' 1 (0, 0%nat)).
    + replace (Rltb eps (dist m)) with true
        by (symmetry; apply Rltb_true_iff; exact Hcmp).
      assert (Hleft' : firstn (1 + length A1' + 1)
                              (first :: (A1' ++ m :: A2') ++ [last])
                       = first :: A1' ++ [m]).
      { replace (1 + length A1' + 1)%nat with (S (S (length A1'))) by lia.
        cbn [firstn]. f_equal. rewrite <- app_assoc. cbn [app].
        apply firstn_middle. }
      assert (Hright' : skipn (1 + length A1')
                              (first :: (A1' ++ m :: A2') ++ [last])
                        = m :: A2' ++ [last]).
      { cbn [Nat.add skipn]. rewrite <- app_assoc. cbn [app].
        apply skipn_middle. }
      rewrite Hleft', Hright'.
      rewrite HiL by (cbn [length]; rewrite length_app; simpl; lia).
      rewrite HiR by (cbn [length]; rewrite length_app; simpl; lia).
      change (first :: A1' ++ [m]) with ((first :: A1') ++ [m]).
      rewrite removelast_last. cbn [app]. rewrite <- app_assoc. reflexivity.
    + cbn [fst]. exact Hst.
    + apply Forall_forall. intros a Ha.
      rewrite Forall_forall in H1. apply H1.
      eapply elem_of_sublist; eassumption.
    + apply Forall_forall. intros a Ha.
      rewrite Forall_forall in H2. apply H2.
      eapply elem_of_sublist; eassumption.
Qed.

End SimplifyShape.

(** X6.  With a tolerance that is not negative, [simplifyPath] only leaves
    points out: the result is a subsequence of the input (the points it
    keeps, in their order, none added or moved), and an input of at least
    two points gives a result of at least two points. *)
Theorem simplifyPath_selects (points : list Point) (eps : R) :
  0 <= eps ->
  exists simplified,
    Drawing.simplifyPath (length points) points eps = Some simplified
    /\ simplified `sublist_of` points
    /\ (length simplified <= length points)%nat
    /\ ((2 <= length points)%nat -> (2 <= length simplified)%nat)
    /\ (forall p, In p simplified -> In p points).
Proof.
  intros Heps.
  destruct (simplifyPath_shape eps Heps (length points) points (le_n _))
    as (simplified & Hrun & Hke & _).
  exists simplified. split; [exact Hrun|].
  pose proof (keepsEnds_sublist _ _ Hke) as Hsub.
  split; [exact Hsub|]. split; [apply sublist_length; exact Hsub|]. split.
  - intros Hlen. destruct Hke as [[Hshort _] | (f & i & l & i' & _ & -> & _)];
      [lia|]. cbn [length]. rewrite length_app. simpl. lia.
  - intros p Hp. apply list_elem_of_In. apply list_elem_of_In in Hp.
    eapply elem_of_sublist; eassumption.
Qed.

(** The theorem at the points (0,0), (1,3), (2,0) and the tolerance 1. *)
Lemma simplifyPath_selects_witness :
  exists simplified,
    Drawing.simplifyPath 3 [mkPoint 0 0; mkPoint 1 3; mkPoint 2 0] 1
    = Some simplified
    /\ simplified `sublist_of` [mkPoint 0 0; mkPoint 1 3; mkPoint 2 0].
Proof.
  destruct (simplifyPath_selects [mkPoint 0 0; mkPoint 1 3; mkPoint 2 0] 1
              ltac:(lra)) as (simplified & Hrun & Hsub & _).
  exists simplified. split; [exact Hrun | exact Hsub].
Defined.

(** X7.  With a tolerance that is not negative, [simplifyPath] is
    idempotent: given its own result, it returns it unchanged. *)
Theorem simplifyPath_idempotent (points : list Point) (eps : R) (fuel : nat) :
  0 <= eps ->
  (length points <= fuel)%nat ->
  exists simplified,
    Drawing.simplifyPath fuel points eps = Some simplified
    /\ forall fuel', (length simplified <= fuel')%nat ->
         Drawing.simplifyPath fuel' simplified eps = Some simplified.
Proof.
  intros Heps Hfuel.
  destruct (simplifyPath_shape eps Heps fuel points Hfuel)
    as (simplified & Hrun & _ & Hidem).
  exists simplified. split; assumption.
Qed.

(** The theorem at the same points and tolerance. *)
Lemma simplifyPath_idempotent_witness :
  exists simplified,
    Drawing.simplifyPath 3 [mkPoint 0 0; mkPoint 1 3; mkPoint 2 0] 1
    = Some simplified
    /\ Drawing.simplifyPath (length simplified) simplified 1 = Some simplified.
Proof.
  destruct (simplifyPath_idempotent [mkPoint 0 0; mkPoint 1 3; mkPoint 2 0] 1 3
              ltac:(lra) ltac:(simpl; lia)) as (simplified & Hrun & Hidem).
  exists simplified. split; [exact Hrun | apply Hidem; lia].
Defined.

(** ** symmetry.ts: the children of the layer *)

Section Layer.

Import Symmetry.

(** The identities of a list of nodes. *)
Definition ids (l : list Node) : list nat := map fst l.

(** The loop that removes [paths] from the layer, as [updateStroke] and
    [removeStroke] run it. *)
Definition removeAll (paths layer : list Node) : list Node :=
  fold_left (fun layer path =>
               if isChild layer path then removeChild layer path else layer)
            paths layer.

(** The children whose identity is not among [paths]. *)
Definition keepOthers (paths layer : list Node) : list Node :=
  List.filter (fun c => negb (existsb (Nat.eqb (fst c)) (ids paths))) layer.

Lemma filter_all {A : Type} (f : A -> bool) (l : list A) :
  (forall a, In a l -> f a = true) -> List.filter f l = l.
Proof.
  induction l as [|a l IH]; intros H; [reflexivity|].
  cbn [List.filter]. rewrite (H a (or_introl eq_refl)).
  f_equal. apply IH. intros b Hb. apply H. right. exact Hb.
Qed.

Lemma filter_none {A : Type} (f : A -> bool) (l : list A) :
  (forall a, In a l -> f a = false) -> List.filter f l = [].
Proof.
  induction l as [|a l IH]; intros H; [reflexivity|].
  cbn [List.filter]. rewrite (H a (or_introl eq_refl)).
  apply IH. intros b Hb. apply H. right. exact Hb.
Qed.

Lemma filter_twice {A : Type} (f g : A -> bool) (l : list A) :
  List.filter f (List.filter g l) = List.filter (fun a => g a && f a) l.
Proof.
  induction l as [|a l IH]; [reflexivity|].
  cbn [List.filter]. destruct (g a); cbn [andb List.filter]; [|exact IH].
  destruct (f a); rewrite IH; reflexivity.
Qed.

Lemma existsb_ids (n : nat) (paths : list Node) :
  existsb (Nat.eqb n) (ids paths) = true <-> In n (ids paths).
Proof.
  rewrite existsb_exists. split.
  - intros (k & Hin & Heq). apply Nat.eqb_eq in Heq. subst k. exact Hin.
  - intros Hin. exists n. split; [exact Hin | apply Nat.eqb_refl].
Qed.

Lemma removeStep_eq (layer : list Node) (path : Node) :
  (if isChild layer path then removeChild layer path else layer)
  = removeChild layer path.
Proof.
  destruct (isChild layer path) eqn:Hc; [reflexivity|].
  unfold removeChild. symmetry. apply filter_all. intros c Hin.
  destruct (Nat.eqb (fst c) (fst path)) eqn:Heq; [|reflexivity].
  assert (Hex : isChild layer path = true)
    by (unfold isChild; apply existsb_exists; exists c; auto).
  congruence.
Qed.

(** The loop removes the children with the identities of [paths], and no
    others. *)
Lemma removeAll_keepOthers (paths : list Node) :
  forall layer, removeAll paths layer = keepOthers paths layer.
Proof.
  unfold removeAll, keepOthers.
  induction paths as [|p paths IH]; intros layer.
  - cbn [fold_left ids map existsb negb]. symmetry. apply filter_all. auto.
  - cbn [fold_left]. rewrite removeStep_eq, IH. unfold removeChild.
    rewrite filter_twice. apply filter_ext. intros c.
    cbn [ids map existsb]. fold (ids paths).
    destruct (Nat.eqb (fst c) (fst p)); reflexivity.
Qed.

Lemma keepOthers_In (paths layer : list Node) (c : Node) :
  In c (keepOthers paths layer) <-> In c layer /\ ~ In (fst c) (ids paths).
Proof.
  unfold keepOthers. rewrite filter_In, negb_true_iff.
  rewrite <- existsb_ids. destruct (existsb _ _); intuition congruence.
Qed.

Lemma keepOthers_app (paths l1 l2 : list Node) :
  keepOthers paths (l1 ++ l2) = keepOthers paths l1 ++ keepOthers paths l2.
Proof. unfold keepOthers. apply List.filter_app. Qed.

Lemma keepOthers_fresh (paths layer : list Node) :
  (forall c, In c layer -> ~ In (fst c) (ids paths)) ->
  keepOthers paths layer = layer.
Proof.
  intros H. apply filter_all. intros c Hc. apply negb_true_iff.
  destruct (existsb (Nat.eqb (fst c)) (ids paths)) eqn:He; [|reflexivity].
  apply existsb_ids in He. destruct (H c Hc He).
Qed.

Lemma keepOthers_self (paths : list Node) : keepOthers paths paths = [].
Proof.
  apply filter_none. intros c Hc. apply negb_false_iff.
  apply existsb_ids. apply in_map. exact Hc.
Qed.

Lemma filter_ids_NoDup (f : Node -> bool) (layer : list Node) :
  List.NoDup (ids layer) -> List.NoDup (ids (List.filter f layer)).
Proof.
  induction layer as [|a layer IH]; intros Hnd; [constructor|].
  cbn [ids map] in Hnd. apply List.NoDup_cons_iff in Hnd as [Hnotin Hnd].
  cbn [List.filter]. destruct (f a); [|apply IH; exact Hnd].
  cbn [ids map]. apply List.NoDup_cons; [|apply IH; exact Hnd].
  intros Hin. apply Hnotin. apply in_map_iff in Hin as (c & Heq & Hc).
  apply filter_In in Hc as [Hc _]. rewrite <- Heq. apply in_map. exact Hc.
Qed.

Lemma keepOthers_ids_NoDup (paths layer : list Node) :
  List.NoDup (ids layer) -> List.NoDup (ids (keepOthers paths layer)).
Proof. apply filter_ids_NoDup. Qed.

(** Removing paths that are all children, with one node per identity, makes
    the layer shorter by their number. *)
Lemma keepOthers_length (paths : list Node) :
  forall layer,
  List.NoDup (ids layer) -> List.NoDup (ids paths) ->
  (forall p, In p paths -> In (fst p) (ids layer)) ->
  (length (keepOthers paths layer) + length paths = length layer)%nat.
Proof.
  intros layer. rewrite <- removeAll_keepOthers. revert layer.
  unfold removeAll.
  induction paths as [|p paths IH]; intros layer Hl Hp Hin.
  - cbn [fold_left length]. lia.
  - cbn [fold_left]. rewrite removeStep_eq.
    cbn [ids map] in Hp. apply List.NoDup_cons_iff in Hp as [Hpn Hp].
    assert (Hone : S (length (removeChild layer p)) = length layer).
    { specialize (Hin p (or_introl eq_refl)). clear IH Hp Hpn.
      unfold removeChild.
      induction layer as [|a layer IHl]; [destruct Hin|].
      cbn [ids map] in Hl. apply List.NoDup_cons_iff in Hl as [Hna Hl].
      cbn [List.filter]. destruct (Nat.eqb (fst a) (fst p)) eqn:Heq.
      - apply Nat.eqb_eq in Heq. cbn [negb length]. f_equal.
        f_equal. apply filter_all. intros c Hc. apply negb_true_iff.
        apply Nat.eqb_neq. intros Hcp. apply Hna. rewrite Heq, <- Hcp.
        apply in_map. exact Hc.
      - cbn [negb length]. f_equal. apply IHl; [exact Hl|].
        destruct Hin as [Ha | Hin]; [|exact Hin].
        apply Nat.eqb_neq in Heq. cbn [fst] in Ha. congruence. }
    assert (Hrest : (length (fold_left
                       (fun layer0 path =>
                          if isChild layer0 path then removeChild layer0 path
                          else layer0) paths (removeChild layer p))
                     + length paths = length (removeChild layer p))%nat).
    { apply IH.
      - apply filter_ids_NoDup. exact Hl.
      - exact Hp.
      - intros q Hq. specialize (Hin q (or_intror Hq)).
        apply in_map_iff in Hin as (c & Heq & Hc).
        rewrite <- Heq. apply in_map. unfold removeChild.
        apply filter_In. split; [exact Hc|]. apply negb_true_iff.
        apply Nat.eqb_neq. intros Hcp. apply Hpn. rewrite <- Hcp, Heq.
        apply in_map. exact Hq. }
    cbn [length]. lia.
Qed.

End Layer.

Section LayerInvariant.

Import Symmetry.

(** The replicas of an entry are children of the layer, one node each. *)
Definition entryOk (m : SymmetryManager) (paths : list Node) : Prop :=
  (forall p, In p paths -> In p (snowflakeLayer m)) /\ List.NoDup (ids paths).

(** The state of the layer and of [strokePaths], but for the entry of the
    key [k], if one is given: the children have different identities, all
    below [nextNode]; the entries consist of children; different entries
    share no identity. *)
Definition wellFormedExcept (k : option nat) (m : SymmetryManager) : Prop :=
  List.NoDup (ids (snowflakeLayer m))
  /\ (forall c, In c (snowflakeLayer m) -> (fst c < nextNode m)%nat)
  /\ (forall k' paths, Some k' <> k -> strokePaths m !! k' = Some paths ->
                       entryOk m paths)
  /\ (forall k1 k2 paths1 paths2,
        k1 <> k2 -> Some k1 <> k -> Some k2 <> k ->
        strokePaths m !! k1 = Some paths1 ->
        strokePaths m !! k2 = Some paths2 ->
        forall n, In n (ids paths1) -> ~ In n (ids paths2)).

Definition wellFormed (m : SymmetryManager) : Prop := wellFormedExcept None m.

Lemma replicas_ids (stroke : Stroke) (n : nat) :
  ids (replicas stroke n)
  = map (fun i => (i + n)%nat) [0; 2; 3; 5; 6; 8; 9; 11; 12; 14; 15; 17]%nat.
Proof. reflexivity. Qed.

Lemma replicas_ids_range (stroke : Stroke) (n i : nat) :
  In i (ids (replicas stroke n)) -> (n <= i < 18 + n)%nat.
Proof.
  rewrite replicas_ids. intros Hin. apply in_map_iff in Hin as (j & <- & Hj).
  simpl in Hj. intuition lia.
Qed.

Lemma replicas_ids_NoDup (stroke : Stroke) (n : nat) :
  List.NoDup (ids (replicas stroke n)).
Proof.
  rewrite replicas_ids. apply Finite.Injective_map_NoDup.
  - intros a b. lia.
  - apply (proj2 (NoDup_count_occ' Nat.eq_dec _)).
    intros a Hin. simpl in Hin.
    repeat (destruct Hin as [<- | Hin]; [reflexivity|]). destruct Hin.
Qed.

Lemma wellFormed_except (k : nat) (m : SymmetryManager) :
  wellFormed m -> wellFormedExcept (Some k) m.
Proof.
  intros (H1 & H2 & H3 & H4).
  split; [exact H1|]. split; [exact H2|]. split.
  - intros k' paths _ Hlook. apply (H3 k' paths); [discriminate | assumption].
  - intros k1 k2 paths1 paths2 Hne _ _. apply H4; [exact Hne | discriminate..].
Qed.

Lemma new_wellFormed : wellFormed newManager.
Proof.
  unfold wellFormed, wellFormedExcept, newManager.
  cbn [snowflakeLayer strokePaths nextNode].
  split; [constructor|]. split; [intros c []|]. split.
  - intros k' paths _ H. rewrite lookup_empty in H. discriminate.
  - intros k1 k2 paths1 paths2 _ _ _ H. rewrite lookup_empty in H.
    discriminate.
Qed.

(** [addStroke] makes the entry of its stroke good again. *)
Lemma addStroke_wellFormed (stroke : Stroke) (m : SymmetryManager) :
  wellFormedExcept (Some (fst (pathElement stroke))) m ->
  wellFormed (addStroke stroke m).
Proof.
  intros (H1 & H2 & H3 & H4). rewrite addStroke_eq.
  set (k := fst (pathElement stroke)) in *.
  set (n := nextNode m) in *. set (new := replicas stroke n).
  assert (Hnew : forall i, In i (ids new) -> (n <= i < 18 + n)%nat)
    by (intros i; apply replicas_ids_range).
  assert (Hold : forall i, In i (ids (snowflakeLayer m)) -> (i < n)%nat).
  { intros i Hi. apply in_map_iff in Hi as (c & <- & Hc). apply H2. exact Hc. }
  unfold wellFormed, wellFormedExcept.
  cbn [snowflakeLayer strokePaths nextNode].
  split; [|split; [|split]].
  - unfold ids. rewrite map_app. apply List.NoDup_app.
    + exact H1.
    + apply replicas_ids_NoDup.
    + intros i Hi Hi'. specialize (Hold i Hi). specialize (Hnew i Hi'). lia.
  - intros c Hc. apply in_app_or in Hc as [Hc | Hc].
    + specialize (H2 c Hc). lia.
    + specialize (Hnew (fst c) (in_map fst _ _ Hc)). lia.
  - intros k' paths _ Hlook.
    apply lookup_insert_Some in Hlook as [[<- <-] | [Hne Hlook]].
    + split; [|apply replicas_ids_NoDup].
      intros p Hp. apply in_or_app. right. exact Hp.
    + destruct (H3 k' paths) as [Hin Hnd]; [congruence | exact Hlook |].
      split; [|exact Hnd]. intros p Hp. apply in_or_app. left. auto.
  - intros k1 k2 paths1 paths2 Hne _ _ Hl1 Hl2 i Hi1 Hi2.
    apply lookup_insert_Some in Hl1 as [[<- <-] | [Hne1 Hl1]];
      apply lookup_insert_Some in Hl2 as [[<- <-] | [Hne2 Hl2]].
    + congruence.
    + destruct (H3 k2 paths2) as [Hin _]; [congruence | exact Hl2 |].
      apply in_map_iff in Hi2 as (c & <- & Hc).
      specialize (H2 c (Hin c Hc)). specialize (Hnew (fst c) Hi1). lia.
    + destruct (H3 k1 paths1) as [Hin _]; [congruence | exact Hl1 |].
      apply in_map_iff in Hi1 as (c & <- & Hc).
      specialize (H2 c (Hin c Hc)). specialize (Hnew (fst c) Hi2). lia.
    + apply (H4 k1 k2 paths1 paths2 Hne ltac:(congruence) ltac:(congruence)
               Hl1 Hl2 i Hi1 Hi2).
Qed.

(** Removing the replicas of an entry spoils that entry only. *)
Lemma removePaths_wellFormed (k : nat) (paths : list Node)
  (m : SymmetryManager) :
  wellFormed m -> strokePaths m !! k = Some paths ->
  wellFormedExcept (Some k) (removePaths paths m).
Proof.
  intros (H1 & H2 & H3 & H4) Hk. unfold removePaths, wellFormedExcept.
  cbn [snowflakeLayer strokePaths nextNode].
  fold (removeAll paths (snowflakeLayer m)). rewrite removeAll_keepOthers.
  split; [|split; [|split]].
  - apply keepOthers_ids_NoDup. exact H1.
  - intros c Hc. apply keepOthers_In in Hc as [Hc _]. apply H2. exact Hc.
  - intros k' paths' Hne Hlook.
    destruct (H3 k' paths' ltac:(discriminate) Hlook) as [Hin Hnd].
    split; [|exact Hnd]. intros p Hp. apply keepOthers_In.
    split; [apply Hin; exact Hp|].
    apply (H4 k' k paths' paths ltac:(congruence) ltac:(discriminate)
             ltac:(discriminate) Hlook Hk).
    apply in_map. exact Hp.
  - intros k1 k2 paths1 paths2 Hne _ _. apply H4; [exact Hne | discriminate..].
Qed.

Lemma delete_wellFormed (k : nat) (m : SymmetryManager) :
  wellFormedExcept (Some k) m ->
  wellFormed (mkManager (snowflakeLayer m) (delete k (strokePaths m))
                        (nextNode m)).
Proof.
  intros (H1 & H2 & H3 & H4). unfold wellFormed, wellFormedExcept.
  cbn [snowflakeLayer strokePaths nextNode].
  split; [exact H1|]. split; [exact H2|]. split.
  - intros k' paths _ Hlook. apply lookup_delete_Some in Hlook as [Hne Hlook].
    apply (H3 k' paths); [congruence | exact Hlook].
  - intros k1 k2 paths1 paths2 Hne _ _ Hl1 Hl2.
    apply lookup_delete_Some in Hl1 as [Hne1 Hl1].
    apply lookup_delete_Some in Hl2 as [Hne2 Hl2].
    apply (H4 k1 k2 paths1 paths2); congruence.
Qed.

Lemma addStroke_keeps (s : Stroke) (m : SymmetryManager) :
  (wellFormed m -> wellFormed (addStroke s m))
  /\ (twelvePerStroke m -> twelvePerStroke (addStroke s m)).
Proof.
  split; intros H.
  - apply addStroke_wellFormed, wellFormed_except, H.
  - unfold twelvePerStroke. rewrite addStroke_eq. cbn [strokePaths].
    apply map_Forall_insert_2; [apply replicas_length | exact H].
Qed.

Lemma updateStroke_keeps (s : Stroke) (m : SymmetryManager) :
  (wellFormed m -> wellFormed (updateStroke s m))
  /\ (twelvePerStroke m -> twelvePerStroke (updateStroke s m)).
Proof.
  split; intros H.
  - unfold updateStroke.
    destruct (strokePaths m !! fst (pathElement s)) as [paths|] eqn:Hk.
    + apply addStroke_wellFormed.
      apply removePaths_wellFormed; assumption.
    + apply addStroke_wellFormed, wellFormed_except, H.
  - unfold twelvePerStroke. rewrite updateStroke_strokePaths.
    apply map_Forall_insert_2; [apply replicas_length | exact H].
Qed.

Lemma removeStroke_keeps (s : Stroke) (m : SymmetryManager) :
  (wellFormed m -> wellFormed (removeStroke s m))
  /\ (twelvePerStroke m -> twelvePerStroke (removeStroke s m)).
Proof.
  split; intros H.
  - unfold removeStroke.
    destruct (strokePaths m !! fst (pathElement s)) as [paths|] eqn:Hk;
      [|exact H].
    apply (delete_wellFormed (fst (pathElement s)) (removePaths paths m)).
    apply removePaths_wellFormed; assumption.
  - unfold twelvePerStroke. rewrite removeStroke_strokePaths.
    apply map_Forall_delete. exact H.
Qed.

Lemma clearAll_keeps (m : SymmetryManager) :
  (wellFormed m -> wellFormed (clearAll m))
  /\ (twelvePerStroke m -> twelvePerStroke (clearAll m)).
Proof.
  split; intros H.
  - unfold clearAll, wellFormed, wellFormedExcept.
    cbn [snowflakeLayer strokePaths nextNode].
    split; [constructor|]. split; [intros c []|]. split.
    + intros k' paths _ H'. rewrite lookup_empty in H'. discriminate.
    + intros k1 k2 paths1 paths2 _ _ _ H'. rewrite lookup_empty in H'.
      discriminate.
  - apply map_Forall_empty.
Qed.

(** Every call keeps the state well formed. *)
Lemma call_wellFormed (m : SymmetryManager) (c : Call) :
  wellFormed m -> wellFormed (call m c).
Proof.
  intros Hm. destruct c as [s | s | s |]; cbn [call].
  - apply addStroke_keeps, Hm.
  - apply updateStroke_keeps, Hm.
  - apply removeStroke_keeps, Hm.
  - apply clearAll_keeps, Hm.
Qed.

Lemma run_wellFormed (calls : list Call) : wellFormed (run calls).
Proof.
  unfold run. apply (calls_invariant wellFormed (fun _ => True)).
  - intros m c _. apply call_wellFormed.
  - apply Forall_forall. intros; exact I.
  - exact new_wellFormed.
Qed.

End LayerInvariant.

Section LayerContents.

Import Symmetry.

Lemma updateStroke_layer (stroke : Stroke) (old : list Node)
  (m : SymmetryManager) :
  strokePaths m !! fst (pathElement stroke) = Some old ->
  snowflakeLayer (updateStroke stroke m)
  = keepOthers old (snowflakeLayer m) ++ replicas stroke (nextNode m).
Proof.
  intros Hold. unfold updateStroke. rewrite Hold, addStroke_eq.
  cbn [snowflakeLayer removePaths nextNode].
  fold (removeAll old (snowflakeLayer m)).
  rewrite removeAll_keepOthers. reflexivity.
Qed.

Lemma updateStroke_unregistered_eq (stroke : Stroke) (m : SymmetryManager) :
  strokePaths m !! fst (pathElement stroke) = None ->
  updateStroke stroke m = addStroke stroke m.
Proof. intros Hnone. unfold updateStroke. rewrite Hnone. reflexivity. Qed.

Lemma removeStroke_layer (stroke : Stroke) (old : list Node)
  (m : SymmetryManager) :
  strokePaths m !! fst (pathElement stroke) = Some old ->
  snowflakeLayer (removeStroke stroke m) = keepOthers old (snowflakeLayer m).
Proof.
  intros Hold. unfold removeStroke. rewrite Hold.
  cbn [snowflakeLayer removePaths].
  fold (removeAll old (snowflakeLayer m)).
  apply removeAll_keepOthers.
Qed.

Lemma removeStroke_unregistered_eq (stroke : Stroke) (m : SymmetryManager) :
  strokePaths m !! fst (pathElement stroke) = None ->
  removeStroke stroke m = m.
Proof. intros Hnone. unfold removeStroke. rewrite Hnone. reflexivity. Qed.

(** Calls in which [addStroke] is given strokes that are not registered
    only, as the drawing callbacks give them. *)
Fixpoint disciplined (m : SymmetryManager) (calls : list Call) : Prop :=
  match calls with
  | [] => True
  | c :: rest =>
      match c with
      | AddStroke s => strokePaths m !! fst (pathElement s) = None
      | _ => True
      end
      /\ disciplined (call m c) rest
  end.

(** The layer holds the registered replicas and nothing else. *)
Definition layerIsRegistered (m : SymmetryManager) : Prop :=
  wellFormed m
  /\ twelvePerStroke m
  /\ length (snowflakeLayer m) = (12 * size (strokePaths m))%nat
  /\ forall c, In c (snowflakeLayer m) ->
       exists k paths, strokePaths m !! k = Some paths /\ In c paths.

Lemma addStroke_layerIsRegistered (stroke : Stroke) (m : SymmetryManager) :
  strokePaths m !! fst (pathElement stroke) = None ->
  layerIsRegistered m -> layerIsRegistered (addStroke stroke m).
Proof.
  intros Hnone (Hwf & H12 & Hlen & Hreg).
  split; [apply addStroke_keeps; exact Hwf|].
  split; [apply addStroke_keeps; exact H12|].
  rewrite addStroke_eq. cbn [snowflakeLayer strokePaths]. split.
  - rewrite length_app, replicas_length, map_size_insert_None by exact Hnone.
    lia.
  - intros c Hc. apply in_app_or in Hc as [Hc | Hc].
    + destruct (Hreg c Hc) as (k & paths & Hk & Hin).
      exists k, paths. split; [|exact Hin].
      rewrite lookup_insert_ne by congruence. exact Hk.
    + exists (fst (pathElement stroke)), (replicas stroke (nextNode m)).
      split; [apply lookup_insert_eq | exact Hc].
Qed.

Lemma size_registered (k : nat) (old : list Node) (sp : gmap nat (list Node)) :
  sp !! k = Some old -> size sp = S (size (delete k sp)).
Proof.
  intros Hk. rewrite <- (insert_delete_id sp k old Hk) at 1.
  apply map_size_insert_None. apply lookup_delete_eq.
Qed.

Lemma updateStroke_layerIsRegistered (s : Stroke) (m : SymmetryManager) :
  layerIsRegistered m -> layerIsRegistered (updateStroke s m).
Proof.
  intros Hm.
  destruct (strokePaths m !! fst (pathElement s)) as [old|] eqn:Hold;
    [|rewrite updateStroke_unregistered_eq by exact Hold;
      apply addStroke_layerIsRegistered; assumption].
  destruct Hm as (Hwf & H12 & Hlen & Hreg).
  split; [apply updateStroke_keeps; exact Hwf|].
  split; [apply updateStroke_keeps; exact H12|].
  rewrite updateStroke_layer with (old := old) by exact Hold.
  rewrite updateStroke_strokePaths.
  destruct Hwf as (W1 & W2 & W3 & W4).
  destruct (W3 _ _ ltac:(discriminate) Hold) as [Hin Hnd].
  split.
  - rewrite length_app, replicas_length,
      map_size_insert_Some by (rewrite Hold; eauto).
    pose proof (keepOthers_length old (snowflakeLayer m) W1 Hnd
                  (fun p Hp => in_map fst _ _ (Hin p Hp))) as Hl.
    rewrite (H12 _ _ Hold) in Hl. lia.
  - intros c Hcin. apply in_app_or in Hcin as [Hcin | Hcin].
    + apply keepOthers_In in Hcin as [Hcin Hnot].
      destruct (Hreg c Hcin) as (k & paths & Hk & Hp).
      exists k, paths. split; [|exact Hp].
      rewrite lookup_insert_ne; [exact Hk|].
      intros <-. rewrite Hold in Hk. injection Hk as <-.
      apply Hnot. apply in_map. exact Hp.
    + exists (fst (pathElement s)), (replicas s (nextNode m)).
      split; [apply lookup_insert_eq | exact Hcin].
Qed.

Lemma removeStroke_layerIsRegistered (s : Stroke) (m : SymmetryManager) :
  layerIsRegistered m -> layerIsRegistered (removeStroke s m).
Proof.
  intros Hm.
  destruct (strokePaths m !! fst (pathElement s)) as [old|] eqn:Hold;
    [|rewrite removeStroke_unregistered_eq by exact Hold; exact Hm].
  destruct Hm as (Hwf & H12 & Hlen & Hreg).
  split; [apply removeStroke_keeps; exact Hwf|].
  split; [apply removeStroke_keeps; exact H12|].
  rewrite removeStroke_layer with (old := old) by exact Hold.
  rewrite removeStroke_strokePaths.
  destruct Hwf as (W1 & W2 & W3 & W4).
  destruct (W3 _ _ ltac:(discriminate) Hold) as [Hin Hnd].
  split.
  - pose proof (keepOthers_length old (snowflakeLayer m) W1 Hnd
                  (fun p Hp => in_map fst _ _ (Hin p Hp))) as Hl.
    rewrite (H12 _ _ Hold) in Hl.
    rewrite (size_registered _ _ _ Hold) in Hlen. lia.
  - intros c Hcin. apply keepOthers_In in Hcin as [Hcin Hnot].
    destruct (Hreg c Hcin) as (k & paths & Hk & Hp).
    exists k, paths. split; [|exact Hp].
    apply lookup_delete_Some. split; [|exact Hk].
    intros <-. rewrite Hold in Hk. injection Hk as <-.
    apply Hnot. apply in_map. exact Hp.
Qed.

Lemma clearAll_layerIsRegistered (m : SymmetryManager) :
  layerIsRegistered m -> layerIsRegistered (clearAll m).
Proof.
  intros Hm.
  split; [apply clearAll_keeps; apply Hm|].
  split; [apply clearAll_keeps; apply Hm|].
  cbn [clearAll snowflakeLayer strokePaths]. split.
  - rewrite map_size_empty. reflexivity.
  - intros c [].
Qed.

Lemma call_layerIsRegistered (m : SymmetryManager) (c : Call) :
  match c with
  | AddStroke s => strokePaths m !! fst (pathElement s) = None
  | _ => True
  end ->
  layerIsRegistered m -> layerIsRegistered (call m c).
Proof.
  intros Hc Hm. destruct c as [s | s | s |]; cbn [call].
  - apply addStroke_layerIsRegistered; assumption.
  - apply updateStroke_layerIsRegistered; assumption.
  - apply removeStroke_layerIsRegistered; assumption.
  - apply clearAll_layerIsRegistered; assumption.
Qed.

Lemma calls_layerIsRegistered (calls : list Call) :
  forall m, layerIsRegistered m -> disciplined m calls ->
            layerIsRegistered (fold_left call calls m).
Proof.
  induction calls as [|c calls IH]; intros m Hm Hd; [exact Hm|].
  destruct Hd as [Hc Hd]. cbn [fold_left]. apply IH; [|exact Hd].
  apply call_layerIsRegistered; assumption.
Qed.

Lemma new_layerIsRegistered : layerIsRegistered newManager.
Proof.
  split; [exact new_wellFormed|]. split; [apply map_Forall_empty|].
  cbn [newManager snowflakeLayer strokePaths]. split.
  - rewrite map_size_empty. reflexivity.
  - intros c [].
Qed.

(** A child of the layer that no entry of [strokePaths] knows. *)
Definition orphan (m : SymmetryManager) (c : Node) : Prop :=
  In c (snowflakeLayer m)
  /\ forall k paths, strokePaths m !! k = Some paths -> ~ In (fst c) (ids paths).

Definition notClearAll (c : Call) : Prop :=
  match c with ClearAll => False | _ => True end.

(** [addStroke] of a registered stroke makes orphans of its replicas. *)
Lemma addStroke_orphans (stroke : Stroke) (old : list Node)
  (m : SymmetryManager) :
  wellFormed m -> strokePaths m !! fst (pathElement stroke) = Some old ->
  forall c, In c old -> orphan (addStroke stroke m) c.
Proof.
  intros (W1 & W2 & W3 & W4) Hold c Hc.
  destruct (W3 _ _ ltac:(discriminate) Hold) as [Hin _].
  rewrite addStroke_eq. unfold orphan. cbn [snowflakeLayer strokePaths].
  split; [apply in_or_app; left; apply Hin; exact Hc|].
  intros k paths Hk Hid.
  apply lookup_insert_Some in Hk as [[<- <-] | [Hne Hk]].
  - specialize (W2 c (Hin c Hc)). apply replicas_ids_range in Hid. lia.
  - apply (W4 _ _ _ _ Hne ltac:(discriminate) ltac:(discriminate) Hold Hk
              (fst c)); [apply in_map; exact Hc | exact Hid].
Qed.

(** No call but [clearAll] takes an orphan out of the layer, or registers
    it. *)
Lemma call_orphan (m : SymmetryManager) (c' : Call) (c : Node) :
  wellFormed m -> notClearAll c' -> orphan m c -> orphan (call m c') c.
Proof.
  intros Hwf Hnc [Hin Hnot].
  assert (Hlt : (fst c < nextNode m)%nat) by (apply Hwf; exact Hin).
  assert (Hadd : forall s m0,
            In c (snowflakeLayer m0) -> nextNode m0 = nextNode m ->
            (forall k paths, strokePaths m0 !! k = Some paths ->
                             k <> fst (pathElement s) ->
                             ~ In (fst c) (ids paths)) ->
            orphan (addStroke s m0) c).
  { intros s m0 Hin0 Hn Hother. rewrite addStroke_eq. unfold orphan.
    cbn [snowflakeLayer strokePaths].
    split; [apply in_or_app; left; exact Hin0|].
    intros k paths Hk Hid.
    apply lookup_insert_Some in Hk as [[<- <-] | [Hne Hk]].
    - apply replicas_ids_range in Hid. lia.
    - apply (Hother k paths Hk ltac:(congruence) Hid). }
  destruct c' as [s | s | s |]; cbn [call]; [| | |destruct Hnc].
  - apply Hadd; [exact Hin | reflexivity |].
    intros k paths Hk _. apply (Hnot k paths Hk).
  - unfold updateStroke.
    destruct (strokePaths m !! fst (pathElement s)) as [old|] eqn:Hold.
    + apply Hadd; [| reflexivity |].
      * cbn [removePaths snowflakeLayer].
        fold (removeAll old (snowflakeLayer m)).
        rewrite removeAll_keepOthers. apply keepOthers_In.
        split; [exact Hin | apply (Hnot _ _ Hold)].
      * intros k paths Hk _. apply (Hnot k paths Hk).
    + apply Hadd; [exact Hin | reflexivity |].
      intros k paths Hk _. apply (Hnot k paths Hk).
  - destruct (strokePaths m !! fst (pathElement s)) as [old|] eqn:Hold;
      [|rewrite removeStroke_unregistered_eq by exact Hold; split; assumption].
    split.
    + rewrite removeStroke_layer with (old := old) by exact Hold.
      apply keepOthers_In. split; [exact Hin | apply (Hnot _ _ Hold)].
    + rewrite removeStroke_strokePaths. intros k paths Hk.
      apply lookup_delete_Some in Hk as [_ Hk]. apply (Hnot k paths Hk).
Qed.

Lemma calls_orphan (later : list Call) (c : Node) :
  forall m, wellFormed m -> Forall notClearAll later -> orphan m c ->
            orphan (fold_left call later m) c.
Proof.
  induction later as [|c' later IH]; intros m Hwf Hnc Ho; [exact Ho|].
  inversion Hnc as [|? ? Hc' Hrest]; subst. cbn [fold_left].
  apply IH; [apply call_wellFormed; exact Hwf | exact Hrest |].
  apply call_orphan; assumption.
Qed.

End LayerContents.

Lemma run_twelvePerStroke (calls : list Symmetry.Call) :
  twelvePerStroke (Symmetry.run calls).
Proof.
  unfold Symmetry.run.
  apply (calls_invariant twelvePerStroke (fun _ => True)).
  - intros m c _. apply call_twelvePerStroke.
  - apply Forall_forall. intros; exact I.
  - apply map_Forall_empty.
Qed.

(** The replicas [addStroke] makes are new: no child of a well-formed layer
    has one of their identities. *)
Lemma replicas_fresh (stroke : Symmetry.Stroke) (m : Symmetry.SymmetryManager) :
  wellFormed m ->
  forall c, In c (Symmetry.snowflakeLayer m) ->
            ~ In (fst c) (ids (replicas stroke (Symmetry.nextNode m))).
Proof.
  intros (_ & H2 & _) c Hc Hin. specialize (H2 c Hc).
  apply replicas_ids_range in Hin. lia.
Qed.

(** X8.  In every state the calls lead to, [addStroke] of a stroke that is
    not registered followed by [removeStroke] of it is a round trip: the
    children of the layer and [strokePaths] are as before. *)
Theorem removeStroke_addStroke (calls : list Symmetry.Call)
  (stroke : Symmetry.Stroke) :
  let m := Symmetry.run calls in
  Symmetry.strokePaths m !! fst (Symmetry.pathElement stroke) = None ->
  Symmetry.snowflakeLayer (Symmetry.removeStroke stroke (Symmetry.addStroke stroke m))
  = Symmetry.snowflakeLayer m
  /\ Symmetry.strokePaths (Symmetry.removeStroke stroke (Symmetry.addStroke stroke m))
     = Symmetry.strokePaths m.
Proof.
  intros m Hnone. pose proof (run_wellFormed calls) as Hwf. fold m in Hwf.
  assert (Hreg : Symmetry.strokePaths (Symmetry.addStroke stroke m)
                   !! fst (Symmetry.pathElement stroke)
                 = Some (replicas stroke (Symmetry.nextNode m)))
    by (rewrite addStroke_eq; cbn [Symmetry.strokePaths];
        apply lookup_insert_eq).
  split.
  - rewrite (removeStroke_layer _ _ _ Hreg), addStroke_eq.
    cbn [Symmetry.snowflakeLayer].
    rewrite keepOthers_app, keepOthers_self, app_nil_r.
    apply keepOthers_fresh. apply replicas_fresh. exact Hwf.
  - rewrite removeStroke_strokePaths, addStroke_eq.
    cbn [Symmetry.strokePaths]. apply delete_insert_id. exact Hnone.
Qed.

(** The theorem at the scenario's stroke and a new manager. *)
Lemma removeStroke_addStroke_witness :
  Symmetry.snowflakeLayer
    (Symmetry.removeStroke lineStroke
       (Symmetry.addStroke lineStroke (Symmetry.run [])))
  = Symmetry.snowflakeLayer (Symmetry.run []).
Proof.
  destruct (removeStroke_addStroke [] lineStroke) as [H _];
    [apply lookup_empty | exact H].
Defined.

(** X9.  In every state the calls lead to, [updateStroke] of a registered
    stroke replaces its replicas wholesale: the twelve old ones leave the
    layer, every other child stays in its place, twelve new ones are
    appended and registered, the layer keeps its number of children, and the
    entries of the other strokes stay as they are, their replicas still in
    the layer. *)
Theorem updateStroke_registered (calls : list Symmetry.Call)
  (stroke : Symmetry.Stroke) (old : list Symmetry.Node) :
  let m := Symmetry.run calls in
  let m' := Symmetry.updateStroke stroke m in
  let new := replicas stroke (Symmetry.nextNode m) in
  Symmetry.strokePaths m !! fst (Symmetry.pathElement stroke) = Some old ->
  Symmetry.snowflakeLayer m'
  = List.filter (fun c => negb (existsb (Nat.eqb (fst c)) (ids old)))
                (Symmetry.snowflakeLayer m)
    ++ new
  /\ (forall p, In p old -> ~ In p (Symmetry.snowflakeLayer m'))
  /\ length (Symmetry.snowflakeLayer m') = length (Symmetry.snowflakeLayer m)
  /\ Symmetry.strokePaths m' !! fst (Symmetry.pathElement stroke) = Some new
  /\ (forall k paths,
        k <> fst (Symmetry.pathElement stroke) ->
        Symmetry.strokePaths m !! k = Some paths ->
        Symmetry.strokePaths m' !! k = Some paths
        /\ forall p, In p paths -> In p (Symmetry.snowflakeLayer m')).
Proof.
  intros m m' new Hold.
  pose proof (run_wellFormed calls) as Hwf. fold m in Hwf.
  pose proof (run_twelvePerStroke calls) as H12. fold m in H12.
  pose proof (proj1 (updateStroke_keeps stroke m) Hwf) as Hwf'.
  fold m' in Hwf'.
  assert (Hlayer : Symmetry.snowflakeLayer m'
                   = keepOthers old (Symmetry.snowflakeLayer m) ++ new)
    by (apply updateStroke_layer; exact Hold).
  assert (Hmap : Symmetry.strokePaths m'
                 = <[fst (Symmetry.pathElement stroke) := new]>
                     (Symmetry.strokePaths m))
    by apply updateStroke_strokePaths.
  destruct Hwf as (W1 & W2 & W3 & W4).
  destruct (W3 _ _ ltac:(discriminate) Hold) as [Hin Hnd].
  split; [exact Hlayer|]. split; [|split; [|split]].
  - intros p Hp Hp'. rewrite Hlayer in Hp'.
    apply in_app_or in Hp' as [Hp' | Hp'].
    + apply keepOthers_In in Hp' as [_ Hp']. apply Hp'. apply in_map. exact Hp.
    + specialize (W2 p (Hin p Hp)).
      pose proof (replicas_ids_range stroke _ _ (in_map fst _ _ Hp')). lia.
  - rewrite Hlayer, length_app.
    pose proof (keepOthers_length old (Symmetry.snowflakeLayer m) W1 Hnd
                  (fun p Hp => in_map fst _ _ (Hin p Hp))) as Hlen.
    rewrite (H12 _ _ Hold) in Hlen. unfold new. rewrite replicas_length. lia.
  - rewrite Hmap. apply lookup_insert_eq.
  - intros k paths Hne Hk.
    assert (Hk' : Symmetry.strokePaths m' !! k = Some paths)
      by (rewrite Hmap, lookup_insert_ne by congruence; exact Hk).
    split; [exact Hk'|].
    destruct Hwf' as (_ & _ & W3' & _).
    apply (W3' k paths ltac:(discriminate) Hk').
Qed.

(** The theorem at the scenario's stroke, added and then updated. *)
Lemma updateStroke_registered_witness :
  length (Symmetry.snowflakeLayer
            (Symmetry.updateStroke lineStroke
               (Symmetry.run [Symmetry.AddStroke lineStroke])))
  = length (Symmetry.snowflakeLayer
              (Symmetry.run [Symmetry.AddStroke lineStroke])).
Proof.
  destruct (updateStroke_registered [Symmetry.AddStroke lineStroke] lineStroke
              (replicas lineStroke 0)) as (_ & _ & H & _); [|exact H].
  unfold Symmetry.run. cbn [fold_left Symmetry.call]. rewrite addStroke_eq.
  cbn [Symmetry.strokePaths]. apply lookup_insert_eq.
Defined.

(** X10.  When [addStroke] is only given strokes that are not registered,
    the layer holds exactly the registered replicas: its children are the
    members of the entries of [strokePaths], one node each, and they number
    twelve times the registered strokes; so does the list
    [generateBakedPaths] returns. *)
Theorem disciplined_layer (calls : list Symmetry.Call) :
  disciplined Symmetry.newManager calls ->
  let m := Symmetry.run calls in
  length (Symmetry.generateBakedPaths m)
  = (12 * size (Symmetry.strokePaths m))%nat
  /\ length (Symmetry.getAllPaths m) = replicaCount m
  /\ (forall c, In c (Symmetry.getAllPaths m)
                <-> exists k paths,
                      Symmetry.strokePaths m !! k = Some paths /\ In c paths)
  /\ List.NoDup (ids (Symmetry.getAllPaths m)).
Proof.
  intros Hd m.
  destruct (calls_layerIsRegistered calls _ new_layerIsRegistered Hd)
    as (Hwf & H12 & Hlen & Hreg).
  fold (Symmetry.run calls) in Hwf, H12, Hlen, Hreg. fold m in Hwf, H12, Hlen, Hreg.
  unfold Symmetry.generateBakedPaths, Symmetry.getAllPaths.
  rewrite length_map. split; [exact Hlen|].
  split; [rewrite twelvePerStroke_count by exact H12; exact Hlen|].
  destruct Hwf as (W1 & W2 & W3 & W4). split; [|exact W1].
  intros c. split; [apply Hreg|].
  intros (k & paths & Hk & Hin).
  apply (W3 k paths ltac:(discriminate) Hk). exact Hin.
Qed.

(** The theorem at the scenario's stroke, added and then updated. *)
Lemma disciplined_layer_witness :
  length (Symmetry.generateBakedPaths
            (Symmetry.run [Symmetry.AddStroke lineStroke;
                           Symmetry.UpdateStroke lineStroke]))
  = (12 * size (Symmetry.strokePaths
                  (Symmetry.run [Symmetry.AddStroke lineStroke;
                                 Symmetry.UpdateStroke lineStroke])))%nat.
Proof.
  destruct (disciplined_layer [Symmetry.AddStroke lineStroke;
                               Symmetry.UpdateStroke lineStroke]) as [H _];
    [|exact H].
  cbn [disciplined]. split; [apply lookup_empty|]. split; [exact I | exact I].
Defined.

(** X11.  [addStroke] of a stroke that is registered does not replace its
    replicas: the old ones stay in the layer, [strokePaths] forgets them,
    and whatever calls follow, short of [clearAll], they stay children of
    the layer that no entry holds, so [removeStroke] of the stroke does not
    remove them. *)
Theorem addStroke_registered_orphans (calls later : list Symmetry.Call)
  (stroke : Symmetry.Stroke) (old : list Symmetry.Node) :
  let m := Symmetry.run calls in
  let m' := fold_left Symmetry.call later (Symmetry.addStroke stroke m) in
  Symmetry.strokePaths m !! fst (Symmetry.pathElement stroke) = Some old ->
  Forall notClearAll later ->
  length old = 12%nat
  /\ forall c, In c old ->
       In c (Symmetry.snowflakeLayer m')
       /\ forall k paths, Symmetry.strokePaths m' !! k = Some paths ->
                          ~ In c paths.
Proof.
  intros m m' Hold Hlater.
  pose proof (run_wellFormed calls) as Hwf. fold m in Hwf.
  split; [apply (run_twelvePerStroke calls _ _ Hold)|].
  intros c Hc.
  destruct (calls_orphan later c (Symmetry.addStroke stroke m)) as [Hin Hnot].
  - apply addStroke_keeps. exact Hwf.
  - exact Hlater.
  - apply (addStroke_orphans stroke old); assumption.
  - split; [exact Hin|]. intros k paths Hk Hp.
    apply (Hnot k paths Hk). apply in_map. exact Hp.
Qed.


(** The theorem at the scenario's stroke, added twice and then removed. *)
Lemma addStroke_registered_orphans_witness :
  Forall (fun c =>
            In c (Symmetry.snowflakeLayer
                    (fold_left Symmetry.call [Symmetry.RemoveStroke lineStroke]
                       (Symmetry.addStroke lineStroke
                          (Symmetry.run [Symmetry.AddStroke lineStroke])))))
         (replicas lineStroke 0).
Proof.
  apply List.Forall_forall. intros c Hc.
  destruct (addStroke_registered_orphans [Symmetry.AddStroke lineStroke]
              [Symmetry.RemoveStroke lineStroke] lineStroke
              (replicas lineStroke 0)) as [_ H].
  - unfold Symmetry.run. cbn [fold_left Symmetry.call]. rewrite addStroke_eq.
    cbn [Symmetry.strokePaths]. apply lookup_insert_eq.
  - repeat constructor.
  - exact (proj1 (H c Hc)).
Defined.

(** ** symmetry.ts: what the baker does to the replicas *)

Section BakerImages.

Import Symmetry.

(** The transform matches [tm] move every point as [f] does. *)
Definition computes (tm : TransformMatches) (f : R * R -> R * R) : Prop :=
  forall x0 y0 : R,
    transformPair tm x0 y0 = (Some (fst (f (x0, y0))), Some (snd (f (x0, y0)))).

(** The image of a point under the transform of a replica: the mirror
    [x -> 1000 - x] first, if any, then the rotation by [angle] degrees about
    (500,500). *)
Definition replicaImage (mirror : bool) (angle : Z) (p : R * R) : R * R :=
  let x1 := if mirror then 1000 - fst p else fst p in
  let theta := IZR angle * (PI / 180) in
  (500 + (x1 - 500) * cos theta - (snd p - 500) * sin theta,
   500 + (x1 - 500) * sin theta + (snd p - 500) * cos theta).

(** The transform attribute of a replica. *)
Definition replicaTransform (mirror : bool) (angle : Z) : str :=
  rotatedTransform (if mirror then Some mirrorTransform else None) angle.

Ltac eval_matchTransform :=
  match goal with
  | |- context [matchTransform ?t] =>
      let v := eval vm_compute in (matchTransform t) in
      replace (matchTransform t) with v by (vm_compute; reflexivity)
  end.

Lemma replica_computes (mirror : bool) (angle : Z) :
  In angle ROTATION_ANGLES ->
  computes (matchTransform (replicaTransform mirror angle))
           (replicaImage mirror angle).
Proof.
  intros Hin x0 y0. unfold ROTATION_ANGLES in Hin.
  repeat (destruct Hin as [<- | Hin]); [..|destruct Hin];
    destruct mirror; eval_matchTransform;
    unfold transformPair; cbn [rotateMatch scaleMatch translateMatch];
    eval_parseFloat; unfold replicaImage; cbn [fst snd];
    f_equal; f_equal; ring.
Qed.

Lemma replicaTransforms_In (t : str) :
  In t replicaTransforms
  <-> exists mirror angle,
        In angle ROTATION_ANGLES /\ t = replicaTransform mirror angle.
Proof.
  unfold replicaTransforms. rewrite in_flat_map. split.
  - intros (angle & Hin & [<- | [<- | []]]).
    + exists false, angle. split; [exact Hin | reflexivity].
    + exists true, angle. split; [exact Hin | reflexivity].
  - intros (mirror & angle & Hin & ->). exists angle. split; [exact Hin|].
    destruct mirror; [right; left | left]; reflexivity.
Qed.

Lemma replicaImage_radius (mirror : bool) (angle : Z) (p : R * R) :
  (fst (replicaImage mirror angle p) - 500) * (fst (replicaImage mirror angle p) - 500)
  + (snd (replicaImage mirror angle p) - 500) * (snd (replicaImage mirror angle p) - 500)
  = (fst p - 500) * (fst p - 500) + (snd p - 500) * (snd p - 500).
Proof.
  unfold replicaImage. cbv zeta. cbn [fst snd].
  set (theta := IZR angle * (PI / 180)).
  pose proof (sin2_cos2 theta) as H. unfold Rsqr in H.
  set (c := cos theta) in *. set (s := sin theta) in *.
  destruct mirror.
  - replace ((500 + (1000 - fst p - 500) * c - (snd p - 500) * s - 500)
             * (500 + (1000 - fst p - 500) * c - (snd p - 500) * s - 500)
             + (500 + (1000 - fst p - 500) * s + (snd p - 500) * c - 500)
               * (500 + (1000 - fst p - 500) * s + (snd p - 500) * c - 500))
      with (((fst p - 500) * (fst p - 500) + (snd p - 500) * (snd p - 500))
            * (s * s + c * c)) by ring.
    rewrite H. ring.
  - replace ((500 + (fst p - 500) * c - (snd p - 500) * s - 500)
             * (500 + (fst p - 500) * c - (snd p - 500) * s - 500)
             + (500 + (fst p - 500) * s + (snd p - 500) * c - 500)
               * (500 + (fst p - 500) * s + (snd p - 500) * c - 500))
      with (((fst p - 500) * (fst p - 500) + (snd p - 500) * (snd p - 500))
            * (s * s + c * c)) by ring.
    rewrite H. ring.
Qed.

End BakerImages.

(** X12.  For each of the twelve transforms [addStroke] gives its replicas,
    the baker moves a point, before rounding, to its image under the mirror
    [x -> 1000 - x] (for the mirrored replicas) followed by the rotation about
    (500,500): the twelve images of a point lie on one circle about the
    center, and the transform of the first replica leaves the point where it
    is. *)
Theorem replica_images_on_circle (t : str) (x0 y0 : R) :
  In t replicaTransforms ->
  (exists mirror angle,
     In angle Symmetry.ROTATION_ANGLES
     /\ t = replicaTransform mirror angle
     /\ Symmetry.transformPair (Symmetry.matchTransform t) x0 y0
        = (Some (fst (replicaImage mirror angle (x0, y0))),
           Some (snd (replicaImage mirror angle (x0, y0)))))
  /\ (exists x1 y1,
        Symmetry.transformPair (Symmetry.matchTransform t) x0 y0
        = (Some x1, Some y1)
        /\ (x1 - 500) * (x1 - 500) + (y1 - 500) * (y1 - 500)
           = (x0 - 500) * (x0 - 500) + (y0 - 500) * (y0 - 500))
  /\ replicaImage false 0 (x0, y0) = (x0, y0).
Proof.
  intros Hin. apply replicaTransforms_In in Hin as (mirror & angle & Hin & ->).
  pose proof (replica_computes mirror angle Hin x0 y0) as Hc.
  split; [|split].
  - exists mirror, angle. auto.
  - eexists _, _. split; [exact Hc|].
    apply (replicaImage_radius mirror angle (x0, y0)).
  - unfold replicaImage. cbv zeta. cbn [fst snd].
    rewrite Rmult_0_l, cos_0, sin_0. f_equal; ring.
Qed.

(** The theorem at the transform of the replica rotated by 60 degrees. *)
Lemma replica_images_on_circle_witness :
  exists x1 y1,
    Symmetry.transformPair
      (Symmetry.matchTransform (lit "rotate(60 500 500)")) 550 450
    = (Some x1, Some y1)
    /\ (x1 - 500) * (x1 - 500) + (y1 - 500) * (y1 - 500)
       = (550 - 500) * (550 - 500) + (450 - 500) * (450 - 500).
Proof.
  destruct (replica_images_on_circle (lit "rotate(60 500 500)") 550 450)
    as (_ & H & _); [|exact H].
  vm_compute. auto.
Defined.

Section BakerPaths.

Import Symmetry.

(** The commands with every point moved by [f], as the baker writes their
    letters. *)
Definition mapped (f : R * R -> R * R) (vs : list (ascii * list (R * R)))
  : list (ascii * list (R * R)) :=
  map (fun v : ascii * list (R * R) => (toUpperCase (fst v), map f (snd v))) vs.

Lemma pairsText_computes (tm : TransformMatches) (f : R * R -> R * R) :
  computes tm f ->
  forall (pts : list (R * R)) (first : bool),
  pairsText tm first pts = runText (bakedItems first (map f pts)) [].
Proof.
  intros Hc. induction pts as [|[x0 y0] pts IH]; intros first; [reflexivity|].
  cbn [pairsText map bakedItems runText fst snd].
  unfold pairText. cbn [fst snd]. rewrite Hc, IH.
  rewrite !toFixed_numeral, <- !app_assoc. reflexivity.
Qed.

Lemma bakeCommands_computes (tm : TransformMatches) (f : R * R -> R * R)
  (vs : list (ascii * list (R * R))) :
  computes tm f ->
  bakeCommands tm vs
  = concat (map (fun c : ascii * list Item =>
                   fst c :: runText (snd c) [] ++ lit " ")
                (bakedCmds (mapped f vs))).
Proof.
  intros Hc. unfold bakeCommands, bakedCmds, mapped. rewrite !map_map. f_equal.
  apply map_ext. intros [l pts]. cbn [fst snd].
  rewrite (pairsText_computes tm f Hc). reflexivity.
Qed.

Lemma mapped_ok (f : R * R -> R * R) (vs : list (ascii * list (R * R))) :
  Forall commandOk vs -> Forall commandOk (mapped f vs).
Proof.
  induction 1 as [|[l pts] vs [Hl Hne] _ IH]; [constructor|].
  constructor; [|exact IH]. split; cbn [fst snd] in *.
  - apply letter_upper. exact Hl.
  - destruct pts; [contradiction | discriminate].
Qed.

(** One bake, under a transform that moves points as [f] does, of commands
    that carry the points [vs]: the text of the same commands with the points
    moved and rounded, in the notation of the baker. *)
Lemma bake_step (tm : TransformMatches) (f : R * R -> R * R) (t : str)
  (cmds : list (ascii * list Item)) (vs : list (ascii * list (R * R))) :
  computes tm f -> matchTransform t = tm ->
  carries cmds vs ->
  transformPathData (pathText (spaced cmds)) t
  = pathText (spaced (bakedCmds (mapped f vs)))
  /\ carries (bakedCmds (mapped f vs)) (rounded (mapped f vs)).
Proof.
  intros Hf Ht Hc.
  assert (Hok : Forall commandOk (mapped f vs))
    by (apply mapped_ok; eapply carries_values_ok; exact Hc).
  pose proof (carries_baked _ Hok) as Hcarry.
  split; [|exact Hcarry].
  rewrite transformPathData_segments by (eapply spaced_wf; exact Hc).
  rewrite Ht, (emitSegment_carries _ _ _ Hc).
  rewrite (bakeCommands_computes tm f vs Hf). apply trim_spaced.
  eapply carries_ok. exact Hcarry.
Qed.

(** The letters the baker finds in the text of commands. *)
Lemma spaced_letters (cmds : list (ascii * list Item))
  (vs : list (ascii * list (R * R))) :
  carries cmds vs ->
  map fst (commandMatches (pathText (spaced cmds))) = map fst vs.
Proof.
  intros Hc. unfold commandMatches.
  rewrite execLoop_segments by (try (eapply spaced_wf; exact Hc); lia).
  induction Hc as [|[l items] [l' pts] cmds vs (Hl & _) _ IH]; [reflexivity|].
  cbn [fst snd] in *. cbn [spaced flat_map segmentMatches app map fst].
  rewrite IH, Hl. reflexivity.
Qed.

(** Rounding to two decimals twice is rounding once. *)
Lemma fixedNumeral_idempotent (v : R) :
  numeralValue (fixedNumeral (numeralValue (fixedNumeral v 2)) 2)
  = numeralValue (fixedNumeral v 2).
Proof.
  set (z := fst (numeralDecimal (fixedNumeral v 2))).
  assert (Hv : numeralValue (fixedNumeral v 2) = IZR z / 10 ^ 2) by reflexivity.
  rewrite Hv. unfold numeralValue at 1, numeralDecimal, fixedNumeral, decimalValue.
  cbn [negative magnitude decimals fst snd].
  rewrite nearestScaled_decimal, Rltb_decimal_0.
  f_equal. f_equal.
  destruct (Z.ltb_spec z 0); rewrite N2Z.inj_abs_N; lia.
Qed.

Lemma roundPoint_idempotent (p : R * R) : roundPoint (roundPoint p) = roundPoint p.
Proof.
  unfold roundPoint. cbn [fst snd]. rewrite !fixedNumeral_idempotent.
  reflexivity.
Qed.

Lemma roundPoint_close (p : R * R) :
  Rabs (fst (roundPoint p) - fst p) <= / 200
  /\ Rabs (snd (roundPoint p) - snd p) <= / 200.
Proof.
  unfold roundPoint. cbn [fst snd]. split; apply fixedNumeral_error.
Qed.

(** Baking the path data of a geometry under a transform that moves points
    as [f] does. *)
Lemma bake_geometry (tm : TransformMatches) (f : R * R -> R * R) (t : str)
  (g : Geometry) :
  computes tm f -> matchTransform t = tm -> wfGeometry g ->
  let d := transformPathData (sourceText g) t in
  pathCoordinates d
  = map (fun c : ascii * list (Numeral * Numeral) =>
           flattenPoints (map (fun p => roundPoint (f (pointValue p))) (snd c))) g
  /\ map fst (commandMatches d)
     = map (fun c : ascii * list (Numeral * Numeral) => toUpperCase (fst c)) g
  /\ d = pathText (spaced (bakedCmds (mapped f (sourceValues g))))
  /\ carries (bakedCmds (mapped f (sourceValues g)))
             (rounded (mapped f (sourceValues g))).
Proof.
  intros Hf Ht Hg d.
  pose proof (carries_source g Hg) as H0.
  destruct (bake_step tm f t _ _ Hf Ht H0) as [E1 H1].
  assert (Hd : d = pathText (spaced (bakedCmds (mapped f (sourceValues g)))))
    by exact E1.
  split; [|split; [|split]]; [| |exact Hd|exact H1].
  - rewrite Hd, (pathCoordinates_spaced _ _ H1).
    unfold rounded, mapped, sourceValues. rewrite !map_map. cbn [snd].
    apply map_ext. intros c. rewrite !map_map. reflexivity.
  - rewrite Hd, (spaced_letters _ _ H1).
    unfold rounded, mapped, sourceValues. rewrite !map_map. reflexivity.
Qed.

End BakerPaths.

(** X13.  A replica of a path whose data are move, line, quadratic and cubic
    commands with decimal coordinates bakes, under each of the twelve
    transforms of [addStroke], to a path without transform that has the same
    commands in the same order, in upper case, and for every point its image
    under the mirror and the rotation of the replica, rounded to two
    decimals, so within 0.005 of the image. *)
Theorem replica_baked (g : Geometry) (mirror : bool) (angle : Z) :
  wfGeometry g -> g <> [] -> In angle Symmetry.ROTATION_ANGLES ->
  let replica := Symmetry.mkPath (Some (sourceText g))
                                 (Some (replicaTransform mirror angle)) in
  (exists d,
     Symmetry.bakeTransform replica = Symmetry.mkPath (Some d) None
     /\ pathCoordinates d
        = map (fun c : ascii * list (Numeral * Numeral) =>
                 flattenPoints
                   (map (fun p => roundPoint (replicaImage mirror angle (pointValue p)))
                        (snd c))) g
     /\ map fst (Symmetry.commandMatches d)
        = map (fun c : ascii * list (Numeral * Numeral) => toUpperCase (fst c)) g)
  /\ (forall p : R * R,
        Rabs (fst (roundPoint p) - fst p) <= / 200
        /\ Rabs (snd (roundPoint p) - snd p) <= / 200).
Proof.
  intros Hg Hne Hin replica. split; [|apply roundPoint_close].
  exists (Symmetry.transformPathData (sourceText g) (replicaTransform mirror angle)).
  destruct (bake_geometry _ _ (replicaTransform mirror angle) g
              (replica_computes mirror angle Hin) eq_refl Hg)
    as (Hcoords & Hletters & _).
  split; [|split; [exact Hcoords | exact Hletters]].
  unfold replica, Symmetry.bakeTransform.
  cbn [Symmetry.attr_transform Symmetry.attr_d].
  assert (Ht : exists c t, replicaTransform mirror angle = c :: t)
    by (destruct mirror; eexists _, _; reflexivity).
  destruct Ht as (c & t & Ht).
  assert (Hd : exists c' d', sourceText g = c' :: d').
  { destruct g as [|[l pts] g']; [contradiction|]. eexists _, _. reflexivity. }
  destruct Hd as (c' & d' & Hd).
  rewrite Ht, Hd. reflexivity.
Qed.

(** The theorem at the path data [M 550 450 L 600 480] and the mirrored
    replica rotated by 120 degrees. *)
Lemma replica_baked_witness :
  exists d,
    Symmetry.bakeTransform
      (Symmetry.mkPath (Some (sourceText lineGeometry))
                       (Some (replicaTransform true 120)))
    = Symmetry.mkPath (Some d) None
    /\ map fst (Symmetry.commandMatches d) = ["M"%char; "L"%char].
Proof.
  destruct (replica_baked lineGeometry true 120) as [(d & Hb & _ & Hl) _].
  - repeat constructor; discriminate.
  - discriminate.
  - right. right. left. reflexivity.
  - exists d. split; [exact Hb | exact Hl].
Defined.

Lemma noMatches_computes : computes noMatches (fun p => p).
Proof. intros x0 y0. reflexivity. Qed.

(** X14.  A transform in which the baker finds no [rotate], [scale] or
    [translate] of the forms it reads is ignored without notice: the
    coordinates are only rounded to two decimals.  Baking the result again
    under such a transform changes no coordinate. *)
Theorem unread_transform_ignored (g : Geometry) (t : str) :
  wfGeometry g ->
  Symmetry.matchTransform t = noMatches ->
  let d := Symmetry.transformPathData (sourceText g) t in
  pathCoordinates d
  = map (fun c : ascii * list (Numeral * Numeral) =>
           flattenPoints (map (fun p => roundPoint (pointValue p)) (snd c))) g
  /\ pathCoordinates (Symmetry.transformPathData d t) = pathCoordinates d.
Proof.
  intros Hg Ht d.
  destruct (bake_geometry noMatches (fun p => p) t g noMatches_computes Ht Hg)
    as (Hcoords & _ & Hd & H1).
  fold d in Hcoords, Hd. split; [exact Hcoords|].
  destruct (bake_step noMatches (fun p => p) t _ _ noMatches_computes Ht H1)
    as [E2 H2].
  rewrite Hd at 1. rewrite E2, (pathCoordinates_spaced _ _ H2).
  rewrite Hd, (pathCoordinates_spaced _ _ H1).
  unfold rounded, mapped. rewrite !map_map. cbn [snd].
  apply map_ext. intros c. rewrite !map_map. f_equal.
  apply map_ext. intros p. apply roundPoint_idempotent.
Qed.

(** The theorem at the path data [M 550 450 L 600 480] and a matrix
    transform. *)
Lemma unread_transform_ignored_witness :
  pathCoordinates
    (Symmetry.transformPathData
       (Symmetry.transformPathData (sourceText lineGeometry)
                                   (lit "matrix(1 0 0 1 5 5)"))
       (lit "matrix(1 0 0 1 5 5)"))
  = pathCoordinates
      (Symmetry.transformPathData (sourceText lineGeometry)
                                  (lit "matrix(1 0 0 1 5 5)")).
Proof.
  destruct (unread_transform_ignored lineGeometry (lit "matrix(1 0 0 1 5 5)"))
    as [_ H]; [| |exact H].
  - repeat constructor; discriminate.
  - vm_compute. reflexivity.
Defined.

(** ** drawing.ts and ui.ts: the strokes and their replicas *)

Section AppInvariant.

Import Symmetry App.

Variable getAllBakedEndpoints : SymmetryManager -> list Point.
Variable show : R -> str.

(** The identity of the path element of a stroke. *)
Definition strokeId (s : Stroke) : nat := fst (pathElement s).

(** What holds of the two managers and of [currentPathElement] after every
    event: the snowflake layer holds the registered replicas only; the
    registered paths were made by the drawing manager; a path in progress is
    not finished, has a point, and is named by [currentPathElement] when it is
    registered; the finished strokes are registered, each with a path of its
    own. *)
Definition coreInv (sm : SymmetryManager) (cpe : option nat)
  (stroke : list Point) (path : option Node) (finished : list Stroke)
  (next : nat) : Prop :=
  layerIsRegistered sm
  /\ (forall k, is_Some (strokePaths sm !! k) -> (k < next)%nat)
  /\ (forall p, path = Some p ->
        (fst p < next)%nat
        /\ (is_Some (strokePaths sm !! fst p) -> cpe = Some (fst p))
        /\ stroke <> []
        /\ forall s, In s finished -> strokeId s <> fst p)
  /\ (forall s, In s finished ->
        (strokeId s < next)%nat /\ is_Some (strokePaths sm !! strokeId s))
  /\ List.NoDup (map strokeId finished).

Definition appInv (app : App) : Prop :=
  coreInv (symmetry app) (currentPathElement app)
          (currentStroke (drawing app)) (currentPath (drawing app))
          (strokes (drawing app)) (nextPath (drawing app)).

Lemma newApp_inv : appInv newApp.
Proof.
  unfold appInv, coreInv, newApp, newDrawing.
  cbn [drawing symmetry currentPath currentStroke strokes nextPath
       currentPathElement].
  split; [exact new_layerIsRegistered|]. split.
  - intros k [v Hk]. cbn [newManager strokePaths] in Hk.
    rewrite lookup_empty in Hk. discriminate.
  - split; [discriminate|]. split; [intros s []|constructor].
Qed.

Lemma strokeUpdated_spec (sm : SymmetryManager) (cpe : option nat)
  (stroke : Stroke) :
  layerIsRegistered sm ->
  (is_Some (strokePaths sm !! strokeId stroke) -> cpe = Some (strokeId stroke)) ->
  layerIsRegistered (fst (strokeUpdated sm cpe stroke))
  /\ snd (strokeUpdated sm cpe stroke) = Some (strokeId stroke)
  /\ strokePaths (fst (strokeUpdated sm cpe stroke))
     = <[strokeId stroke := replicas stroke (nextNode sm)]> (strokePaths sm).
Proof.
  intros Hreg Hcpe. unfold strokeUpdated. fold (strokeId stroke).
  destruct cpe as [k|].
  - destruct (Nat.eqb k (strokeId stroke)) eqn:Hk; cbn [fst snd].
    + apply Nat.eqb_eq in Hk. subst k.
      split; [apply updateStroke_layerIsRegistered; exact Hreg|].
      split; [reflexivity | apply updateStroke_strokePaths].
    + apply Nat.eqb_neq in Hk.
      assert (Hnone : strokePaths sm !! strokeId stroke = None).
      { destruct (strokePaths sm !! strokeId stroke) eqn:E; [|reflexivity].
        specialize (Hcpe ltac:(eauto)). congruence. }
      split; [apply addStroke_layerIsRegistered; assumption|].
      split; [reflexivity|]. rewrite addStroke_eq. reflexivity.
  - cbn [fst snd].
    assert (Hnone : strokePaths sm !! strokeId stroke = None).
    { destruct (strokePaths sm !! strokeId stroke) eqn:E; [|reflexivity].
      specialize (Hcpe ltac:(eauto)). discriminate. }
    split; [apply addStroke_layerIsRegistered; assumption|].
    split; [reflexivity|]. rewrite addStroke_eq. reflexivity.
Qed.

Lemma strokeCompleted_spec (sm : SymmetryManager) (cpe : option nat)
  (stroke : Stroke) :
  layerIsRegistered sm ->
  (is_Some (strokePaths sm !! strokeId stroke) -> cpe = Some (strokeId stroke)) ->
  layerIsRegistered (fst (strokeCompleted sm cpe stroke))
  /\ snd (strokeCompleted sm cpe stroke) = None
  /\ strokePaths (fst (strokeCompleted sm cpe stroke))
     = <[strokeId stroke := replicas stroke (nextNode sm)]> (strokePaths sm).
Proof.
  intros Hreg Hcpe. unfold strokeCompleted. cbn [fst snd].
  destruct cpe as [k|].
  - split; [apply updateStroke_layerIsRegistered; exact Hreg|].
    split; [reflexivity | apply updateStroke_strokePaths].
  - assert (Hnone : strokePaths sm !! strokeId stroke = None).
    { destruct (strokePaths sm !! strokeId stroke) eqn:E; [|reflexivity].
      specialize (Hcpe ltac:(eauto)). discriminate. }
    split; [apply addStroke_layerIsRegistered; assumption|].
    split; [reflexivity|]. rewrite addStroke_eq. reflexivity.
Qed.

Lemma core_start (sm : SymmetryManager) (cpe : option nat)
  (stroke : list Point) (path : option Node) (finished : list Stroke)
  (next : nat) (point : Point) (attrs : PathElement) :
  coreInv sm cpe stroke path finished next ->
  coreInv sm cpe [point] (Some (next, attrs)) finished (S next).
Proof.
  intros (H1 & H2 & _ & H4 & H5).
  split; [exact H1|]. split; [intros k Hk; specialize (H2 k Hk); lia|].
  split; [|split; [|exact H5]].
  - intros p [= <-]. cbn [fst]. split; [lia|]. split.
    + intros Hk. specialize (H2 next Hk). lia.
    + split; [discriminate|]. intros s Hs Heq.
      destruct (H4 s Hs) as [Hlt _]. lia.
  - intros s Hs. destruct (H4 s Hs) as [Hlt Hreg]. split; [lia | exact Hreg].
Qed.

Lemma core_reset (sm : SymmetryManager) (cpe : option nat)
  (stroke : list Point) (path : option Node) (finished : list Stroke)
  (next : nat) :
  coreInv sm cpe stroke path finished next ->
  coreInv sm cpe [] None finished next.
Proof.
  intros (H1 & H2 & _ & H4 & H5).
  split; [exact H1|]. split; [exact H2|]. split; [discriminate|].
  split; assumption.
Qed.

Lemma core_update (sm : SymmetryManager) (cpe : option nat)
  (stroke points : list Point) (path : Node) (pathData : str)
  (finished : list Stroke) (next : nat) :
  coreInv sm cpe stroke (Some path) finished next ->
  points <> [] ->
  coreInv (fst (strokeUpdated sm cpe (mkStroke points (withData path pathData))))
          (snd (strokeUpdated sm cpe (mkStroke points (withData path pathData))))
          points (Some (withData path pathData)) finished next.
Proof.
  intros (H1 & H2 & H3 & H4 & H5) Hne.
  destruct (H3 path eq_refl) as (Hlt & Hcpe & _ & Hfin).
  destruct (strokeUpdated_spec sm cpe (mkStroke points (withData path pathData))
              H1 Hcpe) as (Hreg & Hc & Hsp).
  set (r := strokeUpdated sm cpe (mkStroke points (withData path pathData))) in *.
  change (strokeId (mkStroke points (withData path pathData))) with (fst path)
    in Hc, Hsp.
  split; [exact Hreg|]. split; [|split; [|split; [|exact H5]]].
  - intros k Hk. rewrite Hsp in Hk.
    apply lookup_insert_is_Some' in Hk as [<- | Hk]; [exact Hlt | auto].
  - intros p [= <-]. cbn [withData fst].
    split; [exact Hlt|]. split; [intros _; exact Hc|].
    split; [exact Hne | exact Hfin].
  - intros s Hs. destruct (H4 s Hs) as [Hl Hr]. split; [exact Hl|].
    rewrite Hsp. apply lookup_insert_is_Some'. right. exact Hr.
Qed.

Lemma core_complete (sm : SymmetryManager) (cpe : option nat)
  (stroke points : list Point) (path : Node) (pathData : str)
  (finished : list Stroke) (next : nat) :
  coreInv sm cpe stroke (Some path) finished next ->
  coreInv (fst (strokeCompleted sm cpe (mkStroke points (withData path pathData))))
          (snd (strokeCompleted sm cpe (mkStroke points (withData path pathData))))
          [] None (finished ++ [mkStroke points (withData path pathData)]) next.
Proof.
  intros (H1 & H2 & H3 & H4 & H5).
  destruct (H3 path eq_refl) as (Hlt & Hcpe & _ & Hfin).
  destruct (strokeCompleted_spec sm cpe (mkStroke points (withData path pathData))
              H1 Hcpe) as (Hreg & Hc & Hsp).
  set (r := strokeCompleted sm cpe (mkStroke points (withData path pathData))) in *.
  change (strokeId (mkStroke points (withData path pathData))) with (fst path)
    in Hsp.
  split; [exact Hreg|]. split; [|split; [discriminate|split]].
  - intros k Hk. rewrite Hsp in Hk.
    apply lookup_insert_is_Some' in Hk as [<- | Hk]; [exact Hlt | auto].
  - intros s Hs. apply in_app_or in Hs as [Hs | [<- | []]].
    + destruct (H4 s Hs) as [Hl Hr]. split; [exact Hl|].
      rewrite Hsp. apply lookup_insert_is_Some'. right. exact Hr.
    + change (strokeId (mkStroke points (withData path pathData)))
        with (fst path).
      split; [exact Hlt|]. rewrite Hsp. apply lookup_insert_is_Some'.
      left. reflexivity.
  - rewrite map_app. apply List.NoDup_app; [exact H5 | |].
    + constructor; [intros [] | constructor].
    + intros k Hk [<- | []]. apply in_map_iff in Hk as (s & Heq & Hs).
      apply (Hfin s Hs). exact Heq.
Qed.

Lemma core_undo (sm : SymmetryManager) (cpe : option nat)
  (stroke : list Point) (path : option Node) (finished : list Stroke)
  (lastStroke : Stroke) (next : nat) :
  coreInv sm cpe stroke path (finished ++ [lastStroke]) next ->
  coreInv (removeStroke lastStroke sm) cpe stroke path finished next.
Proof.
  intros (H1 & H2 & H3 & H4 & H5).
  rewrite map_app in H5. cbn [map] in H5.
  apply NoDup_remove in H5 as [H5 Hnot]. rewrite app_nil_r in H5, Hnot.
  split; [apply removeStroke_layerIsRegistered; exact H1|].
  rewrite removeStroke_strokePaths. fold (strokeId lastStroke).
  split; [|split; [|split; [|exact H5]]].
  - intros k Hk. apply lookup_delete_is_Some in Hk as [_ Hk]. auto.
  - intros p Hp. destruct (H3 p Hp) as (Hlt & Hcpe & Hne & Hfin).
    split; [exact Hlt|]. split.
    + intros Hk. apply lookup_delete_is_Some in Hk as [_ Hk]. auto.
    + split; [exact Hne|]. intros s Hs. apply Hfin. apply in_or_app. auto.
  - intros s Hs. destruct (H4 s (in_or_app _ _ _ (or_introl Hs))) as [Hl Hr].
    split; [exact Hl|]. apply lookup_delete_is_Some. split; [|exact Hr].
    intros Heq. apply Hnot. rewrite Heq. apply in_map. exact Hs.
Qed.

Lemma core_clear (sm : SymmetryManager) (cpe : option nat)
  (stroke : list Point) (path : option Node) (finished : list Stroke)
  (next : nat) :
  coreInv sm cpe stroke path finished next ->
  coreInv (clearAll sm) cpe stroke path [] next.
Proof.
  intros (H1 & H2 & H3 & H4 & H5).
  split; [apply clearAll_layerIsRegistered; exact H1|].
  cbn [clearAll strokePaths]. split; [|split; [|split; [|constructor]]].
  - intros k [v Hk]. rewrite lookup_empty in Hk. discriminate.
  - intros p Hp. destruct (H3 p Hp) as (Hlt & _ & Hne & _).
    split; [exact Hlt|]. split.
    + intros [v Hk]. rewrite lookup_empty in Hk. discriminate.
    + split; [exact Hne | intros s []].
  - intros s [].
Qed.

(** [simplifyPath] with the tolerance 2 returns, and not the empty list for
    points. *)
Lemma simplified_spec (points : list Point) :
  Drawing.simplifyPath (length points) points 2 = Some (simplified points)
  /\ (points <> [] -> simplified points <> []).
Proof.
  unfold simplified.
  destruct (simplifyPath_shape 2 ltac:(lra) (length points) points (le_n _))
    as (s & Hrun & Hke & _).
  rewrite Hrun. split; [reflexivity|]. intros Hne.
  destruct Hke as [[_ ->] | (f & i & l & i' & _ & -> & _)];
    [exact Hne | discriminate].
Qed.

Ltac app_fields :=
  cbn [drawing symmetry currentPathElement wedgeLayer currentStroke currentPath
       strokes isDrawing mode nextPath startPath fst snd].

Lemma handlePointerDown_inv (app : App) (button : Z) (point : Point) :
  appInv app ->
  appInv (handlePointerDown getAllBakedEndpoints show app button point).
Proof.
  intros H. unfold handlePointerDown.
  destruct (button =? 1)%Z; [exact H|].
  destruct (Drawing.isPointInWedge point defaultCenter); unfold appInv;
    app_fields; [|exact H].
  eapply core_start. exact H.
Qed.

Lemma handlePointerMove_inv (app : App) (point : Point) :
  appInv app ->
  appInv (fst (handlePointerMove getAllBakedEndpoints show app point)).
Proof.
  intros H. unfold handlePointerMove. cbv zeta.
  destruct (isDrawing (drawing app)); cbn [negb]; [|exact H].
  assert (Hfree : forall (flag : bool) (md : DrawMode),
    appInv (fst (if negb (Drawing.isPointInWedge point defaultCenter)
                 then (app, false)
                 else
                   match currentPath (drawing app) with
                   | None =>
                       (mkApp (startPath show (drawing app)
                                 (snapped getAllBakedEndpoints (symmetry app) point))
                              (symmetry app) (currentPathElement app), false)
                   | Some path =>
                       let '(sm, cpe) :=
                         strokeUpdated (symmetry app) (currentPathElement app)
                           (mkStroke (currentStroke (drawing app) ++ [point])
                              (withData path
                                 (PathData.pointsToPathData show
                                    (currentStroke (drawing app) ++ [point])))) in
                       (mkApp
                          (mkDrawing
                             (setData (wedgeLayer (drawing app))
                                (withData path
                                   (PathData.pointsToPathData show
                                      (currentStroke (drawing app) ++ [point])))
                                (PathData.pointsToPathData show
                                   (currentStroke (drawing app) ++ [point])))
                             (currentStroke (drawing app) ++ [point])
                             (Some (withData path
                                      (PathData.pointsToPathData show
                                         (currentStroke (drawing app) ++ [point]))))
                             (strokes (drawing app)) flag md
                             (nextPath (drawing app)))
                          sm cpe, false)
                   end))).
  { intros flag md.
    destruct (Drawing.isPointInWedge point defaultCenter); cbn [negb];
      [|exact H].
    destruct (currentPath (drawing app)) as [path|] eqn:Hpath.
    - pose proof (core_update _ _ _ (currentStroke (drawing app) ++ [point]) path
                    (PathData.pointsToPathData show
                       (currentStroke (drawing app) ++ [point]))
                    _ _ ltac:(unfold appInv in H; rewrite Hpath in H; exact H)
                    ltac:(intros Hnil; apply app_eq_nil in Hnil as [_ Hnil];
                          discriminate)) as Hu.
      destruct (strokeUpdated _ _ _) as [sm cpe]. exact Hu.
    - unfold appInv. app_fields. eapply core_start. exact H. }
  revert Hfree.
  destruct (mode (drawing app));
    destruct (currentPath (drawing app)) as [path|] eqn:Hpath;
    intros Hfree;
    try first [exact (Hfree true freehand) | exact (Hfree true line)].
  destruct (currentStroke (drawing app)); exact H.
Qed.

Lemma handlePointerUp_inv (app : App) (point : Point) :
  appInv app ->
  appInv (fst (handlePointerUp getAllBakedEndpoints show app point)).
Proof.
  intros H. unfold handlePointerUp. cbv zeta.
  destruct (isDrawing (drawing app)); cbn [negb]; [|exact H].
  destruct (currentPath (drawing app)) as [path|] eqn:Hpath;
    [|unfold appInv; app_fields; eapply core_reset; exact H].
  destruct (currentStroke (drawing app)) as [|startPoint rest] eqn:Hstroke;
    [unfold appInv; app_fields; eapply core_reset; exact H|].
  assert (Hcore : coreInv (symmetry app) (currentPathElement app)
                          (startPoint :: rest) (Some path)
                          (strokes (drawing app)) (nextPath (drawing app)))
    by (unfold appInv in H; rewrite Hpath, Hstroke in H; exact H).
  assert (Hfinish : forall points pathData,
    appInv (fst (let '(sm, cpe) :=
                   strokeCompleted (symmetry app) (currentPathElement app)
                     (mkStroke points (withData path pathData)) in
                 (mkApp
                    (mkDrawing
                       (setData (wedgeLayer (drawing app))
                                (withData path pathData) pathData)
                       [] None
                       (strokes (drawing app)
                        ++ [mkStroke points (withData path pathData)])
                       false (mode (drawing app)) (nextPath (drawing app)))
                    sm cpe, false)))).
  { intros points pathData.
    pose proof (core_complete _ _ _ points path pathData _ _ Hcore) as Hc.
    destruct (strokeCompleted _ _ _) as [sm cpe]. exact Hc. }
  destruct (mode (drawing app)); [|apply Hfinish].
  destruct (simplified_spec (startPoint :: rest)) as [_ Hne].
  destruct (simplified (startPoint :: rest)) as [|first srest];
    [destruct (Hne ltac:(discriminate) eq_refl)|].
  apply Hfinish.
Qed.

Lemma handleUndo_inv (app : App) :
  appInv app -> appInv (fst (handleUndo app)).
Proof.
  intros H. unfold handleUndo. cbv zeta.
  destruct (strokes (drawing app)) as [|first rest] eqn:Hstrokes; [exact H|].
  rewrite nth_pred_last.
  assert (Hsplit : first :: rest
                   = removelast (first :: rest)
                     ++ [List.last (first :: rest) first])
    by (apply app_removelast_last; discriminate).
  assert (Hcore : coreInv (removeStroke (List.last (first :: rest) first)
                                        (symmetry app))
                          (currentPathElement app)
                          (currentStroke (drawing app))
                          (currentPath (drawing app))
                          (removelast (first :: rest))
                          (nextPath (drawing app))).
  { apply core_undo. rewrite <- Hsplit, <- Hstrokes. exact H. }
  destruct (isChild _ _); exact Hcore.
Qed.

Lemma handleClear_inv (app : App) (confirmed : bool) :
  appInv app -> appInv (handleClear app confirmed).
Proof.
  intros H. unfold handleClear. cbv zeta.
  destruct (strokes (drawing app)) eqn:Hstrokes; [exact H|].
  destruct confirmed; [|exact H].
  unfold appInv. app_fields. eapply core_clear. exact H.
Qed.

Lemma step_inv (app : App) (e : Event) :
  appInv app -> appInv (fst (step getAllBakedEndpoints show app e)).
Proof.
  intros H. destruct e; cbn [step fst].
  - apply handlePointerDown_inv. exact H.
  - apply handlePointerMove_inv. exact H.
  - apply handlePointerUp_inv. exact H.
  - exact H.
  - apply handleUndo_inv. exact H.
  - apply handleClear_inv. exact H.
Qed.

Lemma run_from_inv (events : list Event) :
  forall app, appInv app ->
  appInv (fold_left (fun a e => fst (step getAllBakedEndpoints show a e))
                    events app).
Proof.
  induction events as [|e events IH]; intros app H; [exact H|].
  cbn [fold_left]. apply IH. apply step_inv. exact H.
Qed.

Lemma run_inv (events : list Event) :
  appInv (run getAllBakedEndpoints show events).
Proof. apply run_from_inv. exact newApp_inv. Qed.

End AppInvariant.

(** X15.  After every sequence of pointer, mode, undo and clear events, each
    finished stroke of the drawing manager has a path element of its own
    under which twelve replicas are registered, all of them children of the
    snowflake layer; and the callbacks never add a stroke that is registered,
    so the snowflake layer holds twelve children for each registered path and
    [generateBakedPaths] gives as many. *)
Theorem strokes_have_replicas
  (getAllBakedEndpoints : Symmetry.SymmetryManager -> list Point)
  (show : R -> str) (events : list App.Event) :
  let app := App.run getAllBakedEndpoints show events in
  let sm := App.symmetry app in
  (forall s, In s (App.strokes (App.drawing app)) ->
     exists paths,
       Symmetry.strokePaths sm !! strokeId s = Some paths
       /\ length paths = 12%nat
       /\ forall p, In p paths -> In p (Symmetry.snowflakeLayer sm))
  /\ List.NoDup (map strokeId (App.strokes (App.drawing app)))
  /\ length (Symmetry.snowflakeLayer sm)
     = (12 * size (Symmetry.strokePaths sm))%nat
  /\ length (Symmetry.generateBakedPaths sm)
     = (12 * size (Symmetry.strokePaths sm))%nat.
Proof.
  intros app sm.
  destruct (run_inv getAllBakedEndpoints show events)
    as ((Hwf & H12 & Hlen & _) & _ & _ & H4 & H5).
  fold app in Hwf, H12, Hlen, H4, H5. fold sm in Hwf, H12, Hlen, H4.
  split; [|split; [exact H5|split; [exact Hlen|]]].
  - intros s Hs. destruct (H4 s Hs) as [_ [paths Hk]].
    exists paths. split; [exact Hk|]. split; [apply (H12 _ _ Hk)|].
    destruct Hwf as (_ & _ & W3 & _).
    apply (W3 _ _ ltac:(discriminate) Hk).
  - unfold Symmetry.generateBakedPaths, Symmetry.getAllPaths.
    rewrite length_map. exact Hlen.
Qed.

Section AppSafety.

Import Symmetry App.

Variable getAllBakedEndpoints : SymmetryManager -> list Point.
Variable show : R -> str.

(** The paths of the finished strokes and the path in progress are children
    of the wedge layer. *)
Definition pathsAreChildren (dm : DrawingManager) : Prop :=
  (forall s, In s (strokes dm) -> In (strokeId s) (ids (wedgeLayer dm)))
  /\ (forall p, currentPath dm = Some p -> In (fst p) (ids (wedgeLayer dm))).

(** An event other than a confirmed [Clear] while a path is in progress. *)
Definition calmEvent (app : App) (e : Event) : Prop :=
  match e with
  | Clear true => currentPath (drawing app) = None
  | _ => True
  end.

Fixpoint calm (app : App) (events : list Event) : Prop :=
  match events with
  | [] => True
  | e :: rest =>
      calmEvent app e
      /\ calm (fst (step getAllBakedEndpoints show app e)) rest
  end.

(** No handler throws. *)
Fixpoint quiet (app : App) (events : list Event) : Prop :=
  match events with
  | [] => True
  | e :: rest =>
      snd (step getAllBakedEndpoints show app e) = false
      /\ quiet (fst (step getAllBakedEndpoints show app e)) rest
  end.

Lemma setData_ids (layer : list Node) (path : Node) (pathData : str) :
  ids (setData layer path pathData) = ids layer.
Proof.
  unfold ids, setData. rewrite map_map. apply map_ext_in. intros c _.
  destruct (Nat.eqb (fst c) (fst path)) eqn:Heq; [|reflexivity].
  apply Nat.eqb_eq in Heq. cbn [withData fst]. congruence.
Qed.

Lemma removeChild_ids (layer : list Node) (path : Node) (k : nat) :
  In k (ids layer) -> k <> fst path -> In k (ids (removeChild layer path)).
Proof.
  intros Hin Hne. apply in_map_iff in Hin as (c & <- & Hc).
  apply in_map. unfold removeChild. apply filter_In. split; [exact Hc|].
  apply negb_true_iff, Nat.eqb_neq. exact Hne.
Qed.

Lemma isChild_ids (layer : list Node) (path : Node) :
  In (fst path) (ids layer) -> isChild layer path = true.
Proof.
  intros Hin. apply in_map_iff in Hin as (c & Heq & Hc).
  unfold isChild. apply existsb_exists. exists c. split; [exact Hc|].
  apply Nat.eqb_eq. exact Heq.
Qed.

Lemma startPath_children (dm : DrawingManager) (point : Point) :
  pathsAreChildren dm -> pathsAreChildren (startPath show dm point).
Proof.
  intros [Hs Hp]. unfold pathsAreChildren, startPath.
  cbn [strokes wedgeLayer currentPath]. unfold ids. rewrite map_app. split.
  - intros s Hin. apply in_or_app. left. apply Hs. exact Hin.
  - intros p [= <-]. apply in_or_app. right. left. reflexivity.
Qed.

(** A calm event keeps the paths children of the wedge layer, and its
    handler does not throw. *)
Lemma step_children (app : App) (e : Event) :
  appInv app -> pathsAreChildren (drawing app) -> calmEvent app e ->
  pathsAreChildren (drawing (fst (step getAllBakedEndpoints show app e)))
  /\ snd (step getAllBakedEndpoints show app e) = false.
Proof.
  intros Hinv Hch Hcalm. destruct e as [button point | point | point | m | | c];
    cbn [step fst snd].
  - split; [|reflexivity]. unfold handlePointerDown.
    destruct (button =? 1)%Z; [exact Hch|].
    destruct (Drawing.isPointInWedge point defaultCenter); cbn [drawing].
    + apply startPath_children. exact Hch.
    + exact Hch.
  - unfold handlePointerMove. cbv zeta.
    destruct (isDrawing (drawing app)); cbn [negb]; [|split; [exact Hch | reflexivity]].
    destruct Hinv as (_ & _ & H3 & _).
    destruct (currentPath (drawing app)) as [path|] eqn:Hpath.
    + destruct (H3 path eq_refl) as (_ & _ & Hne & _).
      destruct (currentStroke (drawing app)) as [|q0 rest] eqn:Hstroke;
        [contradiction|].
      destruct (mode (drawing app)); [|split; [exact Hch | reflexivity]].
      destruct (Drawing.isPointInWedge point defaultCenter); cbn [negb];
        [|split; [exact Hch | reflexivity]].
      destruct (strokeUpdated _ _ _) as [sm cpe]. cbn [fst snd drawing].
      split; [|reflexivity]. destruct Hch as [Hs Hp].
      unfold pathsAreChildren. cbn [strokes wedgeLayer currentPath].
      rewrite setData_ids. split; [exact Hs|].
      intros p [= <-]. cbn [withData fst]. apply Hp. exact Hpath.
    + assert (Hfree :
        pathsAreChildren
          (drawing (fst (if negb (Drawing.isPointInWedge point defaultCenter)
                         then (app, false)
                         else (mkApp (startPath show (drawing app)
                                        (snapped getAllBakedEndpoints
                                                 (symmetry app) point))
                                     (symmetry app) (currentPathElement app),
                               false))))
        /\ snd (if negb (Drawing.isPointInWedge point defaultCenter)
                then (app, false)
                else (mkApp (startPath show (drawing app)
                               (snapped getAllBakedEndpoints (symmetry app) point))
                            (symmetry app) (currentPathElement app), false))
           = false).
      { destruct (Drawing.isPointInWedge point defaultCenter); cbn [negb fst snd drawing];
          (split; [|reflexivity]); [apply startPath_children|]; exact Hch. }
      destruct (mode (drawing app)); exact Hfree.
  - unfold handlePointerUp. cbv zeta.
    destruct (isDrawing (drawing app)); cbn [negb]; [|split; [exact Hch | reflexivity]].
    destruct Hch as [Hs Hp].
    destruct (currentPath (drawing app)) as [path|] eqn:Hpath;
      [|split; [|reflexivity]; split; [exact Hs | discriminate]].
    destruct (currentStroke (drawing app)) as [|startPoint rest] eqn:Hstroke;
      [split; [|reflexivity]; split; [exact Hs | discriminate]|].
    assert (Hfinish : forall points pathData,
      pathsAreChildren
        (drawing (fst (let '(sm, cpe) :=
                   strokeCompleted (symmetry app) (currentPathElement app)
                     (mkStroke points (withData path pathData)) in
                 (mkApp
                    (mkDrawing
                       (setData (wedgeLayer (drawing app))
                                (withData path pathData) pathData)
                       [] None
                       (strokes (drawing app)
                        ++ [mkStroke points (withData path pathData)])
                       false (mode (drawing app)) (nextPath (drawing app)))
                    sm cpe, false))))
      /\ snd (let '(sm, cpe) :=
                strokeCompleted (symmetry app) (currentPathElement app)
                  (mkStroke points (withData path pathData)) in
              (mkApp
                 (mkDrawing
                    (setData (wedgeLayer (drawing app))
                             (withData path pathData) pathData)
                    [] None
                    (strokes (drawing app)
                     ++ [mkStroke points (withData path pathData)])
                    false (mode (drawing app)) (nextPath (drawing app)))
                 sm cpe, false)) = false).
    { intros points pathData.
      destruct (strokeCompleted _ _ _) as [sm cpe]. cbn [fst snd drawing].
      split; [|reflexivity]. unfold pathsAreChildren.
      cbn [strokes wedgeLayer currentPath]. rewrite setData_ids.
      split; [|discriminate].
      intros s Hin. apply in_app_or in Hin as [Hin | [<- | []]];
        [apply Hs; exact Hin|].
      change (strokeId (mkStroke points (withData path pathData)))
        with (fst path).
      apply Hp. reflexivity. }
    destruct (mode (drawing app)); [|apply Hfinish].
    destruct (simplified_spec (startPoint :: rest)) as [_ Hne].
    destruct (simplified (startPoint :: rest)) as [|first srest];
      [destruct (Hne ltac:(discriminate) eq_refl)|].
    apply Hfinish.
  - split; [exact Hch | reflexivity].
  - unfold handleUndo. cbv zeta.
    destruct (strokes (drawing app)) as [|first rest] eqn:Hstrokes;
      [split; [exact Hch | reflexivity]|].
    rewrite nth_pred_last.
    assert (Hsplit : first :: rest
                     = removelast (first :: rest)
                       ++ [List.last (first :: rest) first])
      by (apply app_removelast_last; discriminate).
    set (lastStroke := List.last (first :: rest) first) in *.
    destruct Hch as [Hs Hp]. rewrite Hstrokes in Hs.
    assert (Hlast : In lastStroke (first :: rest))
      by (rewrite Hsplit; apply in_or_app; right; left; reflexivity).
    rewrite (isChild_ids (wedgeLayer (drawing app)) (pathElement lastStroke)
               (Hs lastStroke Hlast)).
    cbn [fst snd drawing].
    split; [|reflexivity].
    destruct Hinv as (_ & _ & H3 & _ & H5). rewrite Hstrokes in H3, H5.
    rewrite Hsplit, map_app in H5. cbn [map] in H5.
    apply NoDup_remove in H5 as [_ Hnot]. rewrite app_nil_r in Hnot.
    unfold pathsAreChildren. cbn [strokes wedgeLayer currentPath]. split.
    + intros s Hin. apply removeChild_ids.
      * apply Hs. rewrite Hsplit. apply in_or_app. left. exact Hin.
      * intros Heq. apply Hnot.
        change (strokeId lastStroke) with (fst (pathElement lastStroke)).
        rewrite <- Heq. apply in_map. exact Hin.
    + intros p Hpath. apply removeChild_ids; [apply Hp; exact Hpath|].
      destruct (H3 p Hpath) as (_ & _ & _ & Hfin).
      intros Heq. apply (Hfin lastStroke Hlast). symmetry. exact Heq.
  - split; [|reflexivity]. unfold handleClear. cbv zeta.
    destruct (strokes (drawing app)) eqn:Hstrokes; [exact Hch|].
    destruct c; [|exact Hch].
    cbn [calmEvent] in Hcalm. unfold pathsAreChildren.
    cbn [drawing strokes wedgeLayer currentPath]. rewrite Hcalm.
    split; [intros s0 [] | discriminate].
Qed.

Lemma calm_quiet (events : list Event) :
  forall app, appInv app -> pathsAreChildren (drawing app) ->
              calm app events -> quiet app events.
Proof.
  induction events as [|e events IH]; intros app Hinv Hch Hcalm; [exact I|].
  destruct Hcalm as [He Hcalm]. cbn [quiet].
  destruct (step_children app e Hinv Hch He) as [Hch' Hq].
  split; [exact Hq|]. apply IH; [|exact Hch' | exact Hcalm].
  apply step_inv. exact Hinv.
Qed.

End AppSafety.

Section AppTrace.

Import Symmetry App.

Variable getAllBakedEndpoints : SymmetryManager -> list Point.
Variable show : R -> str.

Lemma down_fields (app : App) (point : Point) :
  Drawing.isPointInWedge point defaultCenter = true ->
  exists path q,
    drawing (handlePointerDown getAllBakedEndpoints show app 0 point)
    = mkDrawing (wedgeLayer (drawing app) ++ [path]) [q] (Some path)
                (strokes (drawing app)) true (mode (drawing app))
                (S (nextPath (drawing app))).
Proof.
  intros Hin. unfold handlePointerDown. cbn [Z.eqb]. rewrite Hin.
  eexists _, _. reflexivity.
Qed.

Lemma up_fields (app : App) (point q : Point) (path : Node)
  (layer : list Node) (finished : list Stroke) (next : nat) :
  drawing app = mkDrawing layer [q] (Some path) finished true freehand next ->
  exists stroke layer',
    handlePointerUp getAllBakedEndpoints show app point
    = (mkApp (mkDrawing layer' [] None (finished ++ [stroke]) false freehand next)
             (fst (strokeCompleted (symmetry app) (currentPathElement app) stroke))
             (snd (strokeCompleted (symmetry app) (currentPathElement app) stroke)),
       false)
    /\ (layer = [] -> layer' = []).
Proof.
  intros Hdm. unfold handlePointerUp. cbv zeta. rewrite Hdm.
  cbn [isDrawing negb currentPath currentStroke mode wedgeLayer strokes nextPath].
  unfold simplified. cbn [length Drawing.simplifyPath Nat.sub nth removelast List.app].
  match goal with
  | |- context [strokeCompleted _ _ ?stroke] => exists stroke
  end.
  eexists. split.
  - destruct (strokeCompleted _ _ _) as [sm cpe]. reflexivity.
  - intros ->. reflexivity.
Qed.

Lemma clear_fields (app : App) (s : Stroke) (rest : list Stroke) :
  strokes (drawing app) = s :: rest ->
  drawing (handleClear app true)
  = mkDrawing [] (currentStroke (drawing app)) (currentPath (drawing app)) []
              (isDrawing (drawing app)) (mode (drawing app))
              (nextPath (drawing app)).
Proof. intros Hs. unfold handleClear. cbv zeta. rewrite Hs. reflexivity. Qed.

Lemma undo_throws (app : App) (s : Stroke) (rest : list Stroke) :
  wedgeLayer (drawing app) = [] -> strokes (drawing app) = s :: rest ->
  snd (handleUndo app) = true.
Proof.
  intros Hl Hs. unfold handleUndo. cbv zeta. rewrite Hs, Hl. reflexivity.
Qed.

(** A stroke, a second stroke begun, a confirmed clear, the second stroke
    finished, an undo. *)
Definition clearedInProgress : list Event :=
  [ PointerDown 0 (mkPoint 500 (500 - 100));
    PointerUp (mkPoint 500 (500 - 100));
    PointerDown 0 (mkPoint 500 (500 - 100));
    Clear true;
    PointerUp (mkPoint 500 (500 - 100));
    Undo ].

Lemma clearedInProgress_throws :
  ~ quiet getAllBakedEndpoints show newApp clearedInProgress.
Proof.
  assert (Hin : Drawing.isPointInWedge (mkPoint 500 (500 - 100)) defaultCenter
                = true) by (apply isPointInWedge_above_center; lra).
  unfold clearedInProgress. cbn [quiet step fst snd].
  intros (_ & _ & _ & _ & _ & Hundo & _). revert Hundo.
  set (a1 := handlePointerDown getAllBakedEndpoints show newApp 0
               (mkPoint 500 (500 - 100))).
  destruct (down_fields newApp _ Hin) as (path1 & q1 & H1). fold a1 in H1.
  cbn [newApp drawing newDrawing wedgeLayer strokes mode nextPath List.app] in H1.
  destruct (up_fields a1 (mkPoint 500 (500 - 100)) _ _ _ _ _ H1)
    as (stroke1 & layer1 & H2 & _).
  rewrite H2. cbn [fst].
  set (a2 := mkApp _ _ _).
  set (a3 := handlePointerDown getAllBakedEndpoints show a2 0
               (mkPoint 500 (500 - 100))).
  destruct (down_fields a2 _ Hin) as (path3 & q3 & H3). fold a3 in H3.
  cbn [a2 drawing wedgeLayer strokes mode nextPath List.app] in H3.
  pose proof (clear_fields a3 stroke1 [] ltac:(rewrite H3; reflexivity)) as H4.
  rewrite H3 in H4.
  cbn [currentStroke currentPath isDrawing mode nextPath] in H4.
  set (a4 := handleClear a3 true) in *.
  destruct (up_fields a4 (mkPoint 500 (500 - 100)) _ _ _ _ _ H4)
    as (stroke5 & layer5 & H5 & Hl5).
  rewrite H5. cbn [fst]. rewrite (Hl5 eq_refl).
  rewrite (undo_throws _ stroke5 []) by reflexivity.
  discriminate.
Qed.

End AppTrace.

(** X16.  As long as no clear is confirmed while a path is in progress, no
    handler of the pointer, mode, undo and clear events throws: line mode
    always finds the first point of the stroke, freehand mode the last of
    the simplified points, and undo a child of the wedge layer.  The
    condition is needed: after a stroke, a confirmed clear while a second
    path is in progress empties the wedge layer, and when that path is
    finished the next undo gives [removeChild] a path that is not a child,
    which throws. *)
Theorem handlers_throw_only_after_clear
  (getAllBakedEndpoints : Symmetry.SymmetryManager -> list Point)
  (show : R -> str) :
  (forall events,
     calm getAllBakedEndpoints show App.newApp events ->
     quiet getAllBakedEndpoints show App.newApp events)
  /\ ~ quiet getAllBakedEndpoints show App.newApp clearedInProgress.
Proof.
  split; [|apply clearedInProgress_throws].
  intros events. apply calm_quiet; [apply newApp_inv|].
  split; [intros s [] | discriminate].
Qed.

(** The theorem at a mode change followed by an undo with nothing to undo. *)
Lemma handlers_throw_only_after_clear_witness :
  quiet (fun _ => []) (fun _ => []) App.newApp [App.SetMode App.line; App.Undo].
Proof.
  apply (proj1 (handlers_throw_only_after_clear (fun _ => []) (fun _ => []))).
  cbn [calm calmEvent]. auto.
Defined.

(** ** drawing.ts: [clipLineToWedge] on two lines *)

Lemma thirty_degrees :
  sin (30 * PI / 180) = 1 / 2 /\ cos (30 * PI / 180) = sqrt 3 / 2.
Proof.
  replace (30 * PI / 180) with (PI / 6) by field.
  split; [apply sin_PI6 | apply cos_PI6].
Qed.

(** The square root of 3 to six decimals. *)
Lemma sqrt3_bounds : 173205 / 100000 < sqrt 3 < 1732051 / 1000000.
Proof.
  pose proof Rlt_sqrt3_0 as H3. pose proof (sqrt_sqrt 3 ltac:(lra)) as Hsq.
  split; nra.
Qed.

(** The theorem at the line from (510,400) straight down to (510,600), which
    leaves the wedge through the 30 degree ray. *)
Lemma clipLineToWedge_closest_candidate_witness :
  exists t p,
    Drawing.clipLineToWedge (mkPoint 510 400) (mkPoint 510 600) defaultCenter = p
    /\ 0 < t < 1
    /\ p = segmentPoint (mkPoint 510 400) (mkPoint 510 600) t
    /\ (onCircle p defaultCenter \/ onZeroRay p defaultCenter
        \/ exists s, 0 < s /\ onThirtyRay p defaultCenter s).
Proof.
  pose proof sqrt3_bounds as H3.
  destruct thirty_degrees as [Hsin Hcos].
  destruct (clipLineToWedge_closest_candidate
              (mkPoint 510 400) (mkPoint 510 600) defaultCenter)
    as (_ & Hclip & _).
  destruct Hclip as [_ Hsome].
  - destruct (Drawing.isPointInWedge (mkPoint 510 600) defaultCenter) eqn:E;
      [|reflexivity].
    apply (proj1 (isPointInWedge_cartesian_both _ _)) in E.
    unfold defaultCenter in E. cbn [x y] in E. lra.
  - destruct Hsome as (t & p & _ & Hp & Ht & Hseg & Hon & _).
    + exists (Some ((100 - 10 * sqrt 3) / 200,
                    segmentPoint (mkPoint 510 400) (mkPoint 510 600)
                                 ((100 - 10 * sqrt 3) / 200))).
      split; [|discriminate]. right. right. left.
      apply (thirtyLineCandidate_complete _ _ _ _ 20).
      * unfold thirtyDet. cbn [x y]. rewrite Hsin, Hcos.
        replace ((510 - 510) * - (sqrt 3 / 2) - (600 - 400) * (1 / 2))
          with (- (100)) by field.
        rewrite Rabs_Ropp, Rabs_pos_eq; lra.
      * lra.
      * lra.
      * unfold onThirtyRay, segmentPoint, defaultCenter. cbn [x y].
        rewrite Hsin, Hcos. split; lra.
    + exists t, p. split; [exact Hp|]. split; [exact Ht|].
      split; [exact Hseg | exact Hon].
Defined.

(** C4 as stated fails: not every crossing of the three boundaries is
    looked at.  The vertical line from (550,413.39745), in the wedge, to
    (550,413.3975), outside of it, crosses the 30 degree ray 100 units from
    the center.  The 0 degree block is skipped since the line is vertical,
    the 30 degree block since the determinant is 0.000025, and the line
    does not reach the circle: [end_] is returned as it is, outside the
    wedge. *)
Lemma clipLineToWedge_misses_crossing :
  let start := mkPoint 550 (41339745 / 100000) in
  let end_ := mkPoint 550 (4133975 / 10000) in
  Drawing.isPointInWedge start defaultCenter = true
  /\ Drawing.isPointInWedge end_ defaultCenter = false
  /\ (exists t, 0 < t < 1
               /\ onThirtyRay (segmentPoint start end_ t) defaultCenter 100)
  /\ Drawing.clipLineToWedge start end_ defaultCenter = end_.
Proof.
  intros start end_.
  pose proof sqrt3_bounds as H3.
  destruct thirty_degrees as [Hsin Hcos].
  assert (Hin : Drawing.isPointInWedge start defaultCenter = true).
  { apply (proj1 (isPointInWedge_cartesian_both _ _)).
    unfold start, defaultCenter. cbn [x y]. repeat split; lra. }
  assert (Hout : Drawing.isPointInWedge end_ defaultCenter = false).
  { destruct (Drawing.isPointInWedge end_ defaultCenter) eqn:E; [|reflexivity].
    apply (proj1 (isPointInWedge_cartesian_both _ _)) in E.
    unfold end_, defaultCenter in E. cbn [x y] in E. lra. }
  split; [exact Hin|]. split; [exact Hout|]. split.
  - exists ((8660255 / 100000 - 50 * sqrt 3) * 20000). split; [lra|].
    unfold onThirtyRay, segmentPoint, start, end_, defaultCenter. cbn [x y].
    rewrite Hsin, Hcos. split; lra.
  - rewrite (clipLineToWedge_closest _ _ _ Hout). unfold closest, candidates.
    assert (Hcircle : circleCandidate start end_ defaultCenter = None).
    { destruct (circleCandidate start end_ defaultCenter) as [[t p]|] eqn:E;
        [|reflexivity]. exfalso.
      apply circleCandidate_sound in E as (Ht & -> & Hon).
      apply onCircle_quadratic in Hon.
      unfold qa, qb, qc, start, end_, defaultCenter in Hon. cbn [x y] in Hon.
      assert (Htt : 0 < t * t < 1) by nra.
      lra. }
    assert (Hzero : zeroLineCandidate start end_ defaultCenter = None).
    { unfold zeroLineCandidate, start, end_. cbv zeta. cbn [x y].
      replace (Reqb (550 - 550) 0) with true
        by (symmetry; apply Reqb_true_iff; ring).
      reflexivity. }
    assert (Hthirty : thirtyLineCandidate start end_ defaultCenter = None).
    { unfold thirtyLineCandidate, start, end_. cbv zeta. cbn [x y].
      rewrite Hsin, Hcos.
      replace ((550 - 550) * - (sqrt 3 / 2)
               - (4133975 / 10000 - 41339745 / 100000) * (1 / 2))
        with (- (1 / 40000)) by field.
      rewrite Rabs_Ropp, Rabs_pos_eq by lra.
      replace (Rltb (1 / 10000) (1 / 40000)) with false
        by (symmetry; apply Rltb_false_iff; lra).
      reflexivity. }
    rewrite Hcircle, Hzero, Hthirty. reflexivity.
Qed.

(** ** drawing.ts: where [clipLineToWedge] ends *)

Section ClipInside.

Import Drawing.

Lemma linear_root (g0 dg T : R) :
  0 < g0 -> 0 < T -> g0 + T * dg <= 0 ->
  exists t, 0 < t <= T /\ g0 + t * dg = 0 /\ dg < 0
            /\ (g0 + T * dg < 0 -> t < T).
Proof.
  intros Hg HT Hneg.
  assert (Hdg : dg < 0) by nra.
  exists (g0 / - dg).
  assert (Heq : g0 / - dg * - dg = g0) by (field; lra).
  assert (Hpos : 0 < g0 / - dg) by (apply Rdiv_lt_0_compat; lra).
  split; [split; [exact Hpos | nra]|]. split; [nra|]. split; [exact Hdg | nra].
Qed.

Lemma linear_before_root (g0 dg t t' : R) :
  dg < 0 -> g0 + t * dg = 0 ->
  (t' <= t -> 0 <= g0 + t' * dg) /\ (t' < t -> 0 < g0 + t' * dg).
Proof. intros Hdg Hroot. split; intros H; nra. Qed.

Variables start end_ center : Point.

Hypothesis start_right : 0 < x start - x center.
Hypothesis start_below_thirty :
  sqrt 3 * (x start - x center) < - (y start - y center).
Hypothesis start_within :
  (x start - x center) * (x start - x center)
  + (y start - y center) * (y start - y center) < 400 * 400.
Hypothesis end_outside : isPointInWedge end_ center = false.
Hypothesis not_parallel : 1 / 10000 < Rabs (thirtyDet start end_).

Lemma start_inside : isPointInWedge start center = true.
Proof.
  apply (proj1 (isPointInWedge_cartesian_both start center)).
  pose proof Rlt_sqrt3_0. repeat split; nra.
Qed.

(** The parameter at which [clipLineToWedge] stops: that of the first
    candidate, which is on a boundary, or 1 when there is none. *)
Lemma clip_first :
  exists T, 0 < T <= 1
    /\ clipLineToWedge start end_ center = segmentPoint start end_ T
    /\ (forall t' p', In (Some (t', p')) (candidates start end_ center) ->
                      T <= t')
    /\ ((T = 1 /\ segmentPoint start end_ 1 = end_)
        \/ onCircle (segmentPoint start end_ T) center
        \/ onZeroRay (segmentPoint start end_ T) center
        \/ exists s, 0 < s /\ onThirtyRay (segmentPoint start end_ T) center s).
Proof using All.
  rewrite (clipLineToWedge_closest _ _ _ end_outside). unfold closest.
  pose proof (closest_loop (candidates start end_ center) (end_, None)) as H.
  destruct (snd (fold_left takeCloser (candidates start end_ center)
                           (end_, None))) as [t|] eqn:Hr.
  - destruct H as (Hfrom & _ & Hmin).
    destruct Hfrom as [Heq | Hin]; [rewrite Heq in Hr; discriminate|].
    exists t.
    set (p := fst (fold_left takeCloser (candidates start end_ center)
                             (end_, None))) in *.
    assert (Hs : 0 < t < 1 /\ p = segmentPoint start end_ t
                 /\ (onCircle p center \/ onZeroRay p center
                     \/ exists s, 0 < s /\ onThirtyRay p center s)).
    { destruct Hin as [Hc | [Hc | [Hc | []]]].
      - destruct (circleCandidate_sound _ _ _ _ _ Hc) as (Ht & Hp & Hon). tauto.
      - destruct (zeroLineCandidate_sound _ _ _ _ _ Hc) as (Ht & Hp & Hon).
        tauto.
      - destruct (thirtyLineCandidate_sound _ _ _ _ _ Hc) as (Ht & Hp & Hon).
        tauto. }
    destruct Hs as (Ht & Hp & Hon). rewrite Hp in Hon.
    split; [lra|]. split; [exact Hp|]. split; [exact Hmin|]. right. exact Hon.
  - destruct H as (_ & Hfst & Hall).
    assert (Hend : segmentPoint start end_ 1 = end_).
    { unfold segmentPoint. destruct end_ as [ex ey]. cbn [x y]. f_equal; ring. }
    exists 1. split; [lra|]. split; [|split].
    + rewrite Hfst. cbn [fst]. symmetry. exact Hend.
    + intros t' p' Hin. specialize (Hall _ Hin). discriminate.
    + left. split; [reflexivity | exact Hend].
Qed.

Variable T : R.
Hypothesis T_range : 0 < T <= 1.
Hypothesis T_first :
  forall t' p', In (Some (t', p')) (candidates start end_ center) -> T <= t'.

(** A crossing of the 0 degree ray before [T] would be a candidate. *)
Lemma no_zero_crossing (t : R) :
  0 < t < T -> x start + t * (x end_ - x start) = x center ->
  y start + t * (y end_ - y start) <= y center -> False.
Proof.
  intros Ht Hx Hy.
  assert (Hne : x end_ <> x start) by (intros Heq; rewrite Heq in Hx; nra).
  assert (Hin : In (Some (t, segmentPoint start end_ t))
                   (candidates start end_ center)).
  { right. left. apply zeroLineCandidate_complete; [exact Hne | lra|].
    split; cbn [segmentPoint x y]; assumption. }
  specialize (T_first _ _ Hin). lra.
Qed.

(** So would a crossing of the 30 degree ray beyond the center. *)
Lemma no_thirty_crossing (t : R) :
  0 < t < T -> 0 < x start + t * (x end_ - x start) - x center ->
  sqrt 3 * (x start + t * (x end_ - x start) - x center)
  = - (y start + t * (y end_ - y start) - y center) -> False.
Proof.
  intros Ht Hu Hon. destruct thirty_degrees as [Hsin Hcos].
  assert (Hin : In (Some (t, segmentPoint start end_ t))
                   (candidates start end_ center)).
  { right. right. left.
    apply (thirtyLineCandidate_complete _ _ _ t
             (2 * (x start + t * (x end_ - x start) - x center)));
      [exact not_parallel | lra | lra|].
    unfold onThirtyRay, segmentPoint. cbn [x y]. rewrite Hsin, Hcos.
    split; lra. }
  specialize (T_first _ _ Hin). lra.
Qed.

Lemma first_right : 0 <= x start + T * (x end_ - x start) - x center.
Proof using All.
  destruct (Rle_lt_dec 0 (x start + T * (x end_ - x start) - x center))
    as [Hok | Hneg]; [exact Hok|]. exfalso.
  destruct (linear_root (x start - x center) (x end_ - x start) T
              start_right ltac:(lra) ltac:(lra))
    as (t1 & Ht1 & Hroot1 & Hdu & Hlt1).
  assert (Ht1' : t1 < T) by (apply Hlt1; lra).
  destruct (Rle_lt_dec (y start + t1 * (y end_ - y start)) (y center))
    as [Hw | Hw].
  - apply (no_zero_crossing t1); [lra | lra | exact Hw].
  - pose proof Rlt_sqrt3_0 as H3.
    destruct (linear_root
                (- (y start - y center) - sqrt 3 * (x start - x center))
                (- (y end_ - y start) - sqrt 3 * (x end_ - x start)) t1
                ltac:(lra) ltac:(lra) ltac:(nra))
      as (t2 & Ht2 & Hroot2 & Hdg & Hlt2).
    assert (Ht2' : t2 < t1) by (apply Hlt2; nra).
    destruct (linear_before_root _ _ t1 t2 Hdu Hroot1) as [_ Hu2].
    specialize (Hu2 Ht2').
    apply (no_thirty_crossing t2); [lra | lra | lra].
Qed.

Lemma first_below_thirty :
  sqrt 3 * (x start + T * (x end_ - x start) - x center)
  <= - (y start + T * (y end_ - y start) - y center).
Proof using All.
  match goal with |- ?a <= ?b => destruct (Rle_lt_dec a b) as [Hok | Hneg] end;
    [exact Hok|]. exfalso.
  pose proof Rlt_sqrt3_0 as H3.
  destruct (linear_root
              (- (y start - y center) - sqrt 3 * (x start - x center))
              (- (y end_ - y start) - sqrt 3 * (x end_ - x start)) T
              ltac:(lra) ltac:(lra) ltac:(lra))
    as (t2 & Ht2 & Hroot2 & Hdg & Hlt2).
  assert (Ht2' : t2 < T) by (apply Hlt2; lra).
  destruct (Rle_lt_dec (x start - x center + t2 * (x end_ - x start)) 0)
    as [Hu | Hu].
  - destruct (linear_root _ _ t2 start_right ltac:(lra) Hu)
      as (t1 & Ht1 & Hroot1 & Hdu & _).
    destruct (linear_before_root _ _ t2 t1 Hdg Hroot2) as [Hw1 _].
    specialize (Hw1 ltac:(lra)).
    apply (no_zero_crossing t1); [lra | lra | nra].
  - apply (no_thirty_crossing t2); [lra | lra | lra].
Qed.

Lemma first_within :
  qa start end_ * T * T + qb start end_ center * T + qc start center <= 0.
Proof using All.
  set (a := qa start end_). set (b := qb start end_ center).
  set (c := qc start center).
  destruct (Rle_lt_dec (a * T * T + b * T + c) 0) as [Hok | Hpos];
    [exact Hok|]. exfalso.
  assert (Hc : c < 0) by (unfold c, qc; nra).
  assert (Ha0 : 0 <= a) by (unfold a, qa; apply sum_squares_nonneg).
  assert (Ha : 0 < a).
  { destruct Ha0 as [Ha0 | Ha0]; [exact Ha0|]. exfalso.
    assert (Hd : x end_ - x start = 0 /\ y end_ - y start = 0).
    { unfold a, qa in Ha0.
      pose proof (square_nonneg (x end_ - x start)).
      pose proof (square_nonneg (y end_ - y start)).
      split; nra. }
    destruct Hd as [Hdx Hdy].
    assert (Hb : b = 0) by (unfold b, qb; rewrite Hdx, Hdy; ring).
    rewrite <- Ha0, Hb in Hpos. lra. }
  set (disc := b * b - 4 * a * c).
  assert (Hd : b * b < disc) by (unfold disc; nra).
  assert (Hd0 : 0 <= disc) by nra.
  set (s := sqrt disc).
  assert (Hs : s * s = disc) by (apply sqrt_sqrt; exact Hd0).
  assert (Hs0 : 0 <= s) by apply sqrt_pos.
  assert (Hsb : 0 < s - b /\ 0 < s + b) by (split; nra).
  set (t3 := (- b + s) / (2 * a)).
  assert (Et : 2 * a * t3 + b = s) by (unfold t3; field; lra).
  assert (Hroot : a * t3 * t3 + b * t3 + c = 0).
  { assert (H4 : 4 * a * (a * t3 * t3 + b * t3 + c) = 0).
    { replace (4 * a * (a * t3 * t3 + b * t3 + c))
        with ((2 * a * t3 + b) * (2 * a * t3 + b) - disc)
        by (unfold disc; ring).
      rewrite Et, Hs. ring. }
    apply Rmult_integral in H4 as [H4 | H4]; [lra | exact H4]. }
  assert (Ht3 : 0 < t3) by (apply Rdiv_lt_0_compat; lra).
  assert (HT : s < 2 * a * T + b).
  { destruct (Rle_lt_dec (2 * a * T + b) s) as [Hle | Hlt]; [|exact Hlt].
    exfalso.
    assert (Hlow : - s < 2 * a * T + b) by nra.
    assert (Hsq : (2 * a * T + b) * (2 * a * T + b) <= s * s) by nra.
    assert (Hid : (2 * a * T + b) * (2 * a * T + b) - disc
                  = 4 * a * (a * T * T + b * T + c)) by (unfold disc; ring).
    assert (0 < 4 * a * (a * T * T + b * T + c))
      by (apply Rmult_lt_0_compat; lra).
    lra. }
  assert (Hlt : t3 < T) by nra.
  assert (Hin : In (Some (t3, segmentPoint start end_ t3))
                   (candidates start end_ center)).
  { left. apply circleCandidate_complete;
      [exact start_inside | exact end_outside | lra|].
    apply onCircle_quadratic. exact Hroot. }
  specialize (T_first _ _ Hin). lra.
Qed.

Lemma scaled_pos (k q : R) : 0 < k -> 0 < k * q -> 0 < q.
Proof. intros Hk Hq. nra. Qed.

Lemma scaled_neg (k q : R) : 0 < k -> k * q < 0 -> q < 0.
Proof. intros Hk Hq. nra. Qed.

Lemma scaled_nonpos (k q : R) : 0 < k -> k * q <= 0 -> q <= 0.
Proof. intros Hk Hq. nra. Qed.

Lemma start_within_qc : qc start center < 0.
Proof using start_within. unfold qc. lra. Qed.

Lemma qa_nonneg : 0 <= qa start end_.
Proof. unfold qa. apply sum_squares_nonneg. Qed.

(** Up to [T] the line is in the wedge. *)
Lemma before_inside (t : R) :
  0 <= t < T -> isPointInWedge (segmentPoint start end_ t) center = true.
Proof using All.
  intros Ht. pose proof first_right as HA. pose proof first_below_thirty as HB.
  pose proof first_within as HC. pose proof start_within_qc as Hc.
  pose proof qa_nonneg as Ha. pose proof Rlt_sqrt3_0 as H3.
  apply (proj1 (isPointInWedge_cartesian_both _ center)).
  rewrite segment_distance. unfold segmentPoint. cbn [x y].
  set (u0 := x start - x center) in *.
  set (w0 := - (y start - y center)) in *.
  assert (Hu : 0 < x start + t * (x end_ - x start) - x center).
  { apply (scaled_pos T); [lra|].
    replace (T * (x start + t * (x end_ - x start) - x center))
      with ((T - t) * u0 + t * (x start + T * (x end_ - x start) - x center))
      by (unfold u0; ring).
    assert (0 < (T - t) * u0) by (apply Rmult_lt_0_compat; lra).
    assert (0 <= t * (x start + T * (x end_ - x start) - x center))
      by (apply Rmult_le_pos; lra).
    lra. }
  assert (Hw : 0 < - (y start + t * (y end_ - y start) - y center)
                   - sqrt 3 * (x start + t * (x end_ - x start) - x center)).
  { apply (scaled_pos T); [lra|].
    replace (T * (- (y start + t * (y end_ - y start) - y center)
                  - sqrt 3 * (x start + t * (x end_ - x start) - x center)))
      with ((T - t) * (w0 - sqrt 3 * u0)
            + t * (- (y start + T * (y end_ - y start) - y center)
                   - sqrt 3 * (x start + T * (x end_ - x start) - x center)))
      by (unfold u0, w0; ring).
    assert (0 < (T - t) * (w0 - sqrt 3 * u0))
      by (apply Rmult_lt_0_compat; lra).
    assert (0 <= t * (- (y start + T * (y end_ - y start) - y center)
                      - sqrt 3 * (x start + T * (x end_ - x start) - x center)))
      by (apply Rmult_le_pos; lra).
    lra. }
  assert (Hs : 0 < sqrt 3 * (x start + t * (x end_ - x start) - x center))
    by (apply Rmult_lt_0_compat; lra).
  assert (Hq : qa start end_ * t * t + qb start end_ center * t
               + qc start center <= 0).
  { apply (scaled_nonpos T); [lra|].
    replace (T * (qa start end_ * t * t + qb start end_ center * t
                  + qc start center))
      with ((T - t) * qc start center
            + t * (qa start end_ * T * T + qb start end_ center * T
                   + qc start center)
            - qa start end_ * (t * (T * (T - t)))) by ring.
    assert (0 <= qa start end_ * (t * (T * (T - t)))).
    { apply Rmult_le_pos; [exact Ha|]. apply Rmult_le_pos; [lra|].
      apply Rmult_le_pos; lra. }
    assert ((T - t) * qc start center <= 0) by nra.
    assert (t * (qa start end_ * T * T + qb start end_ center * T
                 + qc start center) <= 0) by nra.
    lra. }
  repeat split; lra.
Qed.

(** Beyond [T], when the point at [T] is on a boundary, it is not. *)
Lemma after_outside (t : R) :
  T < t ->
  onCircle (segmentPoint start end_ T) center
  \/ onZeroRay (segmentPoint start end_ T) center
  \/ (exists s, onThirtyRay (segmentPoint start end_ T) center s) ->
  isPointInWedge (segmentPoint start end_ t) center = false.
Proof using All.
  intros Ht Hon. pose proof start_within_qc as Hc.
  pose proof qa_nonneg as Ha. pose proof Rlt_sqrt3_0 as H3.
  destruct (isPointInWedge (segmentPoint start end_ t) center) eqn:E;
    [|reflexivity]. exfalso.
  apply (proj1 (isPointInWedge_cartesian_both _ center)) in E.
  rewrite segment_distance in E. unfold segmentPoint in E. cbn [x y] in E.
  destruct E as [(EA & EB & _) EC].
  destruct Hon as [Hon | [[Hx _] | (s & Hx & Hy)]].
  - apply onCircle_quadratic in Hon.
    assert (Hq : 0 < qa start end_ * t * t + qb start end_ center * t
                     + qc start center).
    { apply (scaled_pos T); [lra|].
      replace (T * (qa start end_ * t * t + qb start end_ center * t
                    + qc start center))
        with ((t - T) * (qa start end_ * (t * T) - qc start center)
              + t * (qa start end_ * T * T + qb start end_ center * T
                     + qc start center)) by ring.
      rewrite Hon, Rmult_0_r, Rplus_0_r.
      apply Rmult_lt_0_compat; [lra|].
      assert (0 <= qa start end_ * (t * T)).
      { apply Rmult_le_pos; [exact Ha|]. apply Rmult_le_pos; lra. }
      lra. }
    lra.
  - unfold segmentPoint in Hx. cbn [x y] in Hx.
    assert (Hu : x start + t * (x end_ - x start) - x center < 0).
    { apply (scaled_neg T); [lra|].
      replace (T * (x start + t * (x end_ - x start) - x center))
        with (- ((t - T) * (x start - x center))
              + t * (x start + T * (x end_ - x start) - x center)) by ring.
      rewrite Hx.
      assert (0 < (t - T) * (x start - x center))
        by (apply Rmult_lt_0_compat; lra).
      replace (x center - x center) with 0 by ring. lra. }
    lra.
  - unfold onThirtyRay, segmentPoint in Hx, Hy. cbn [x y] in Hx, Hy.
    destruct thirty_degrees as [Hsin Hcos]. rewrite Hsin in Hx.
    rewrite Hcos in Hy.
    assert (Hw : - (y start + t * (y end_ - y start) - y center)
                 - sqrt 3 * (x start + t * (x end_ - x start) - x center) < 0).
    { apply (scaled_neg T); [lra|].
      replace (T * (- (y start + t * (y end_ - y start) - y center)
                    - sqrt 3 * (x start + t * (x end_ - x start) - x center)))
        with (- ((t - T) * (- (y start - y center)
                            - sqrt 3 * (x start - x center)))
              + t * (- (y start + T * (y end_ - y start) - y center)
                     - sqrt 3 * (x start + T * (x end_ - x start) - x center)))
        by ring.
      rewrite Hx, Hy.
      assert (0 < (t - T) * (- (y start - y center)
                             - sqrt 3 * (x start - x center)))
        by (apply Rmult_lt_0_compat; lra).
      replace (- (y center - s * (sqrt 3 / 2) - y center)
               - sqrt 3 * (x center + s * (1 / 2) - x center)) with 0 by field.
      lra. }
    lra.
Qed.

(** With no candidate the line ends in the center. *)
Lemma end_is_center :
  T = 1 -> segmentPoint start end_ 1 = end_ ->
  onZeroRay (segmentPoint start end_ T) center.
Proof using All.
  intros HT1 Hend. pose proof first_right as HA.
  pose proof first_below_thirty as HB. pose proof first_within as HC.
  pose proof Rlt_sqrt3_0 as H3. rewrite HT1 in HA, HB, HC |- *.
  assert (HC' : qa start end_ * 1 * 1 + qb start end_ center * 1
                + qc start center + 400 * 400 <= 400 * 400) by lra.
  rewrite <- segment_distance in HC'.
  destruct (Rle_lt_dec 0 (y start + 1 * (y end_ - y start) - y center))
    as [Hy | Hy].
  - unfold onZeroRay, segmentPoint. cbn [x y]. split; nra.
  - exfalso.
    assert (Hin : isPointInWedge (segmentPoint start end_ 1) center = true).
    { apply (proj1 (isPointInWedge_cartesian_both _ center)).
      unfold segmentPoint in *. cbn [x y] in *. repeat split; lra. }
    rewrite Hend, end_outside in Hin. discriminate.
Qed.

End ClipInside.

(** X17.  A straight line that starts strictly inside the wedge and ends
    outside of it is cut where it leaves the wedge, provided its
    determinant with the 30 degree ray is above the 0.0001 the source asks
    for: [clipLineToWedge] returns the point of the line at a parameter [T]
    in (0,1] such that every point of the line before [T] passes
    [isPointInWedge], no point beyond [T] does, and the point at [T] is on
    the circle, on the 0 degree ray or on the 30 degree ray.  What
    [isPointInWedge] answers for the point at [T] itself is not part of the
    statement: the point is on the boundary, where the rounding of the
    computed coordinates decides. *)
Theorem clipLineToWedge_first_exit (start end_ center : Point) :
  0 < x start - x center ->
  sqrt 3 * (x start - x center) < - (y start - y center) ->
  (x start - x center) * (x start - x center)
  + (y start - y center) * (y start - y center) < 400 * 400 ->
  Drawing.isPointInWedge end_ center = false ->
  1 / 10000 < Rabs (thirtyDet start end_) ->
  exists T, 0 < T <= 1
    /\ Drawing.clipLineToWedge start end_ center = segmentPoint start end_ T
    /\ (forall t, 0 <= t < T ->
          Drawing.isPointInWedge (segmentPoint start end_ t) center = true)
    /\ (forall t, T < t ->
          Drawing.isPointInWedge (segmentPoint start end_ t) center = false)
    /\ (onCircle (segmentPoint start end_ T) center
        \/ onZeroRay (segmentPoint start end_ T) center
        \/ exists s, 0 < s /\ onThirtyRay (segmentPoint start end_ T) center s).
Proof.
  intros Hu Hw Hr Hout Hdet.
  destruct (clip_first start end_ center Hu Hw Hr Hout Hdet)
    as (T & HT & Hclip & Hfirst & Hstop).
  assert (Hon : onCircle (segmentPoint start end_ T) center
                \/ onZeroRay (segmentPoint start end_ T) center
                \/ exists s, 0 < s
                             /\ onThirtyRay (segmentPoint start end_ T) center s).
  { destruct Hstop as [[H1 Hend] | Hon]; [|exact Hon].
    right. left.
    apply (end_is_center start end_ center Hu Hw Hr Hout Hdet T HT Hfirst H1 Hend). }
  exists T. split; [exact HT|]. split; [exact Hclip|].
  split; [|split; [|exact Hon]].
  - intros t Ht.
    apply (before_inside start end_ center Hu Hw Hr Hout Hdet T HT Hfirst t Ht).
  - intros t Ht.
    apply (after_outside start end_ center Hu Hw Hr Hout Hdet T HT Hfirst t Ht).
    destruct Hon as [H | [H | (s & _ & H)]]; [tauto | tauto |].
    right. right. exists s. exact H.
Qed.

(** The theorem at the line from (510,400) straight down to (510,600). *)
Lemma clipLineToWedge_first_exit_witness :
  exists T, 0 < T <= 1
    /\ Drawing.clipLineToWedge (mkPoint 510 400) (mkPoint 510 600) defaultCenter
       = segmentPoint (mkPoint 510 400) (mkPoint 510 600) T
    /\ (forall t, 0 <= t < T ->
          Drawing.isPointInWedge
            (segmentPoint (mkPoint 510 400) (mkPoint 510 600) t) defaultCenter
          = true)
    /\ (forall t, T < t ->
          Drawing.isPointInWedge
            (segmentPoint (mkPoint 510 400) (mkPoint 510 600) t) defaultCenter
          = false)
    /\ (onCircle (segmentPoint (mkPoint 510 400) (mkPoint 510 600) T)
                 defaultCenter
        \/ onZeroRay (segmentPoint (mkPoint 510 400) (mkPoint 510 600) T)
                     defaultCenter
        \/ exists s, 0 < s
              /\ onThirtyRay (segmentPoint (mkPoint 510 400) (mkPoint 510 600) T)
                             defaultCenter s).
Proof.
  pose proof sqrt3_bounds as H3.
  apply (clipLineToWedge_first_exit (mkPoint 510 400) (mkPoint 510 600)
           defaultCenter); unfold defaultCenter; cbn [x y]; try lra.
  - destruct (Drawing.isPointInWedge (mkPoint 510 600) (mkPoint 500 500)) eqn:E;
      [|reflexivity].
    apply (proj1 (isPointInWedge_cartesian_both _ _)) in E.
    cbn [x y] in E. lra.
  - unfold thirtyDet. cbn [x y]. destruct thirty_degrees as [-> ->].
    replace ((510 - 510) * - (sqrt 3 / 2) - (600 - 400) * (1 / 2)) with (- 100)
      by field.
    unfold Rabs. destruct (Rcase_abs (- 100)); lra.
Defined.

Section ClipFromEdge.

Import Drawing.

Variable center : Point.
Variables h k : R.

Hypothesis h_range : 0 < h <= 400.
Hypothesis k_pos : 0 < k.

(** A line from the 0 degree edge straight down through the center. *)
Definition edgeStart : Point := mkPoint (x center) (y center - h).
Definition belowCenter : Point := mkPoint (x center) (y center + k).

Lemma edgeStart_inside : isPointInWedge edgeStart center = true.
Proof using h_range.
  apply (proj1 (isPointInWedge_cartesian_both edgeStart center)).
  unfold edgeStart. cbn [x y]. pose proof Rlt_sqrt3_0. repeat split; nra.
Qed.

Lemma below_outside (d : R) :
  0 <= d -> isPointInWedge (mkPoint (x center) (y center + d)) center = false.
Proof.
  intros Hd.
  destruct (isPointInWedge (mkPoint (x center) (y center + d)) center) eqn:E;
    [|reflexivity].
  apply (proj1 (isPointInWedge_cartesian_both _ _)) in E.
  cbn [x y] in E. lra.
Qed.

Lemma edge_zeroLine : zeroLineCandidate edgeStart belowCenter center = None.
Proof.
  unfold zeroLineCandidate, edgeStart, belowCenter. cbv zeta. cbn [x y].
  replace (Reqb (x center - x center) 0) with true
    by (symmetry; apply Reqb_true_iff; ring).
  reflexivity.
Qed.

Lemma edge_thirtyLine : thirtyLineCandidate edgeStart belowCenter center = None.
Proof.
  destruct (thirtyLineCandidate edgeStart belowCenter center) as [[t p]|] eqn:E;
    [|reflexivity]. exfalso.
  apply thirtyLineCandidate_sound in E as (Ht & -> & s & Hs & Hx & Hy).
  unfold segmentPoint, edgeStart, belowCenter in Hx, Hy. cbn [x y] in Hx, Hy.
  destruct thirty_degrees as [Hsin Hcos]. rewrite Hsin in Hx. lra.
Qed.

Lemma edge_circle_near :
  k <= 400 -> circleCandidate edgeStart belowCenter center = None.
Proof using h_range k_pos.
  intros Hk.
  destruct (circleCandidate edgeStart belowCenter center) as [[t p]|] eqn:E;
    [|reflexivity]. exfalso.
  apply circleCandidate_sound in E as (Ht & -> & Hon).
  apply onCircle_quadratic in Hon. unfold qa, qb, qc, edgeStart, belowCenter in Hon.
  cbn [x y] in Hon.
  set (z := t * (h + k) - h).
  assert (Hz : z * z = 400 * 400) by (unfold z; nra).
  assert (Hlow : - 400 < z) by (unfold z; nra).
  assert (Hhigh : z < 400) by (unfold z; nra).
  nra.
Qed.

Lemma edge_circle_far :
  400 < k ->
  circleCandidate edgeStart belowCenter center
  = Some ((h + 400) / (h + k), mkPoint (x center) (y center + 400)).
Proof using h_range k_pos.
  intros Hk. set (t := (h + 400) / (h + k)).
  assert (Et : t * (h + k) = h + 400) by (unfold t; field; lra).
  assert (Ht : 0 < t < 1).
  { split; [apply Rdiv_lt_0_compat; lra|]. nra. }
  replace (mkPoint (x center) (y center + 400))
    with (segmentPoint edgeStart belowCenter t).
  2:{ unfold segmentPoint, edgeStart, belowCenter. cbn [x y]. f_equal; nra. }
  apply circleCandidate_complete;
    [exact edgeStart_inside | apply below_outside; lra | exact Ht|].
  apply onCircle_quadratic. unfold qa, qb, qc, edgeStart, belowCenter.
  cbn [x y]. nra.
Qed.

Lemma edge_clip :
  clipLineToWedge edgeStart belowCenter center
  = mkPoint (x center) (y center + Rmin k 400).
Proof using h_range k_pos.
  rewrite clipLineToWedge_closest by (apply below_outside; lra).
  unfold closest, candidates. rewrite edge_zeroLine, edge_thirtyLine.
  destruct (Rle_lt_dec k 400) as [Hk | Hk].
  - rewrite (edge_circle_near Hk), Rmin_left by exact Hk. reflexivity.
  - rewrite (edge_circle_far Hk), Rmin_right by lra. reflexivity.
Qed.

End ClipFromEdge.

(** X18.  For a start in the wedge that is not strictly inside,
    [clipLineToWedge] can end outside the wedge.  A line from the 0 degree
    edge straight down through the center is not cut at the center: below
    the center it ends where the pointer is, up to 400 units below, and on
    the circle beyond; neither passes [isPointInWedge]. *)
Theorem clipLineToWedge_from_edge (center : Point) (h k : R) :
  0 < h <= 400 -> 0 < k ->
  Drawing.isPointInWedge (edgeStart center h) center = true
  /\ Drawing.clipLineToWedge (edgeStart center h) (belowCenter center k) center
     = mkPoint (x center) (y center + Rmin k 400)
  /\ Drawing.isPointInWedge
       (Drawing.clipLineToWedge (edgeStart center h) (belowCenter center k)
          center) center = false.
Proof.
  intros Hh Hk. split; [apply edgeStart_inside; exact Hh|].
  rewrite (edge_clip center h k Hh Hk). split; [reflexivity|].
  apply below_outside. apply Rmin_glb; lra.
Qed.

(** The theorem at the line from (500,400) to (500,600). *)
Lemma clipLineToWedge_from_edge_witness :
  Drawing.clipLineToWedge (edgeStart defaultCenter 100)
    (belowCenter defaultCenter 100) defaultCenter
  = mkPoint 500 (500 + Rmin 100 400).
Proof.
  destruct (clipLineToWedge_from_edge defaultCenter 100 100) as (_ & H & _);
    [lra | lra | exact H].
Defined.

(** ** drawing.ts and symmetry.ts: the path data of a stroke, baked *)

Section StrokePipeline.

Import Symmetry PathData.

(** The numbers are written as plain decimals: [num r] is the numeral
    [`${r}`] writes. *)
Variable show : R -> str.
Variable num : R -> Numeral.

Hypothesis show_num : forall r, show r = numeralText (num r).

Definition numPoint (p : R * R) : Numeral * Numeral := (num (fst p), num (snd p)).

(** The point a written point is read back as. *)
Definition written (p : R * R) : R * R := pointValue (numPoint p).

(** The three points of the [C] command the loop of [pointsToPathData]
    writes at [i]. *)
Definition curvePoints (points : list Point) (i : nat) : list (R * R) :=
  let d := mkPoint 0 0 in
  let p0 := if (0 <? i)%nat then nth (i - 1) points d else nth i points d in
  let p1 := nth i points d in
  let p2 := nth (i + 1) points d in
  let p3 := if (i <? length points - 2)%nat
            then nth (i + 2) points d else nth (i + 1) points d in
  [ (x p1 + (x p2 - x p0) / 6, y p1 + (y p2 - y p0) / 6);
    (x p2 - (x p3 - x p1) / 6, y p2 - (y p3 - y p1) / 6);
    (x p2, y p2) ].

(** The commands [pointsToPathData] writes, with their points. *)
Definition strokeCommands (points : list Point) : list (ascii * list (R * R)) :=
  match points with
  | [] => []
  | [p] => [("M"%char, [(x p, y p)]); ("L"%char, [(x p + 1 / 10, y p)])]
  | [p0; p1] => [("M"%char, [(x p0, y p0)]); ("L"%char, [(x p1, y p1)])]
  | p0 :: _ =>
      ("M"%char, [(x p0, y p0)])
      :: map (fun i => ("C"%char, curvePoints points i))
             (seq 0 (length points - 1))
  end.

Definition strokeGeometry (points : list Point) : Geometry :=
  map (fun c : ascii * list (R * R) => (fst c, map numPoint (snd c)))
      (strokeCommands points).

Lemma spaced_sep (cmds : list (ascii * list Item)) :
  forall c : ascii * list Item,
  pathText (spaced (c :: cmds))
  = fst c :: runText (snd c) []
    ++ concat (map (fun c' : ascii * list Item =>
                      lit " " ++ fst c' :: runText (snd c') []) cmds).
Proof.
  induction cmds as [|c' cmds IH]; intros [l items].
  - unfold pathText. cbn [spaced map concat segmentText fst snd].
    rewrite !app_nil_r. reflexivity.
  - specialize (IH c'). unfold pathText in *.
    cbn [spaced map concat segmentText fst snd] in *.
    destruct c' as [l' items']. cbn [fst snd] in *.
    rewrite IH. rewrite <- (app_nil_l (lit " ")) at 1. rewrite runText_app.
    cbn [app]. rewrite <- !app_assoc. reflexivity.
Qed.

Lemma curve_fold (points : list Point) (l : list nat) :
  forall acc : str,
  fold_left (curveStep show points) l acc
  = acc ++ concat (map (fun i =>
                          lit " " ++ "C"%char
                          :: runText (sourceItems
                                        (map numPoint (curvePoints points i))) [])
                       l).
Proof.
  induction l as [|i l IH]; intros acc.
  - cbn [fold_left map concat]. rewrite app_nil_r. reflexivity.
  - cbn [fold_left map concat]. rewrite IH. unfold curveStep, curvePoints.
    cbv zeta. rewrite !show_num.
    cbn [map numPoint fst snd sourceItems flat_map app runText].
    unfold lit. cbn [list_ascii_of_string app].
    repeat (rewrite <- !app_assoc; cbn [app]). rewrite ?app_nil_r.
    reflexivity.
Qed.

(** The text of [pointsToPathData] is the geometry of its commands in the
    notation of drawing.ts. *)
Lemma pointsToPathData_text (points : list Point) :
  pointsToPathData show points = sourceText (strokeGeometry points).
Proof.
  unfold sourceText, strokeGeometry. rewrite map_map. cbn [fst snd].
  destruct points as [|p0 [|p1 [|p2 rest]]].
  - reflexivity.
  - cbn [strokeCommands map]. rewrite spaced_sep.
    cbn [pointsToPathData fst snd map concat numPoint sourceItems flat_map app
         runText].
    rewrite !show_num. unfold lit. cbn [list_ascii_of_string app].
    repeat (rewrite <- !app_assoc; cbn [app]). rewrite ?app_nil_r.
    reflexivity.
  - cbn [strokeCommands map]. rewrite spaced_sep.
    cbn [pointsToPathData fst snd map concat numPoint sourceItems flat_map app
         runText].
    rewrite !show_num. unfold lit. cbn [list_ascii_of_string app].
    repeat (rewrite <- !app_assoc; cbn [app]). rewrite ?app_nil_r.
    reflexivity.
  - set (points := p0 :: p1 :: p2 :: rest).
    change (pointsToPathData show points)
      with (fold_left (curveStep show points) (seq 0 (length points - 1))
                      (lit "M " ++ show (x p0) ++ lit " " ++ show (y p0))).
    rewrite curve_fold.
    change (strokeCommands points)
      with (("M"%char, [(x p0, y p0)])
            :: map (fun i => ("C"%char, curvePoints points i))
                   (seq 0 (length points - 1))).
    cbn [map]. rewrite spaced_sep, !map_map.
    cbn [fst snd map numPoint sourceItems flat_map app runText].
    rewrite !show_num. unfold lit. cbn [list_ascii_of_string app].
    repeat (rewrite <- !app_assoc; cbn [app]). rewrite ?app_nil_r.
    reflexivity.
Qed.

Lemma strokeCommands_ok (points : list Point) :
  Forall (fun c : ascii * list (R * R) =>
            commandOk c /\ toUpperCase (fst c) = fst c)
         (strokeCommands points).
Proof.
  destruct points as [|p0 [|p1 [|p2 rest]]].
  - constructor.
  - repeat constructor; discriminate.
  - repeat constructor; discriminate.
  - set (points := p0 :: p1 :: p2 :: rest).
    change (strokeCommands points)
      with (("M"%char, [(x p0, y p0)])
            :: map (fun i => ("C"%char, curvePoints points i))
                   (seq 0 (length points - 1))).
    constructor; [repeat constructor; discriminate|].
    apply List.Forall_forall. intros c Hc.
    apply in_map_iff in Hc as (i & <- & _).
    repeat constructor; discriminate.
Qed.

Lemma strokeGeometry_wf (points : list Point) : wfGeometry (strokeGeometry points).
Proof.
  unfold wfGeometry, strokeGeometry. apply Forall_map.
  eapply List.Forall_impl; [|apply strokeCommands_ok].
  intros [l pts] [[Hl Hne] _]. cbn [fst snd] in *. split; [exact Hl|].
  destruct pts; [contradiction | discriminate].
Qed.

End StrokePipeline.

(** X19.  When numbers are written as plain decimals, the baker reads the
    path data [pointsToPathData] writes command by command: for a stroke of
    one or two points a move and a line, for a longer one a move to its
    first point and one cubic curve to each further point.  Under each of
    the twelve transforms of [addStroke] the baked path has these commands,
    and for each of their points the image of the written point under the
    mirror and the rotation of the replica, rounded to two decimals. *)
Theorem stroke_replica_baked (show : R -> str) (num : R -> Numeral)
  (points : list Point) (mirror : bool) (angle : Z) :
  (forall r, show r = numeralText (num r)) ->
  points <> [] -> In angle Symmetry.ROTATION_ANGLES ->
  exists d,
    Symmetry.bakeTransform
      (Symmetry.mkPath (Some (PathData.pointsToPathData show points))
                       (Some (replicaTransform mirror angle)))
    = Symmetry.mkPath (Some d) None
    /\ pathCoordinates d
       = map (fun c : ascii * list (R * R) =>
                flattenPoints
                  (map (fun p => roundPoint (replicaImage mirror angle (written num p)))
                       (snd c)))
             (strokeCommands points)
    /\ map fst (Symmetry.commandMatches d) = map fst (strokeCommands points).
Proof.
  intros Hshow Hne Hin.
  rewrite (pointsToPathData_text show num Hshow).
  exists (Symmetry.transformPathData (sourceText (strokeGeometry num points))
            (replicaTransform mirror angle)).
  destruct (bake_geometry _ _ (replicaTransform mirror angle)
              (strokeGeometry num points)
              (replica_computes mirror angle Hin) eq_refl
              (strokeGeometry_wf num points))
    as (Hcoords & Hletters & _).
  split; [|split].
  - unfold Symmetry.bakeTransform.
    cbn [Symmetry.attr_transform Symmetry.attr_d].
    assert (Ht : exists c t, replicaTransform mirror angle = c :: t)
      by (destruct mirror; eexists _, _; reflexivity).
    destruct Ht as (c & t & Ht).
    assert (Hd : exists c' d', sourceText (strokeGeometry num points) = c' :: d').
    { destruct points as [|p0 [|p1 [|p2 rest]]]; [contradiction| | |];
        eexists _, _; reflexivity. }
    destruct Hd as (c' & d' & Hd).
    rewrite Ht, Hd. reflexivity.
  - rewrite Hcoords. unfold strokeGeometry. rewrite map_map. cbn [snd].
    apply map_ext. intros c. rewrite map_map. reflexivity.
  - rewrite Hletters. unfold strokeGeometry. rewrite map_map. cbn [fst].
    apply map_ext_Forall.
    eapply List.Forall_impl; [|apply strokeCommands_ok].
    intros c [_ Hup]. exact Hup.
Qed.

(** The theorem at a stroke of the one point (510,400), with numbers written
    to two decimals, and the replica rotated by 60 degrees. *)
Lemma stroke_replica_baked_witness :
  exists d,
    Symmetry.bakeTransform
      (Symmetry.mkPath
         (Some (PathData.pointsToPathData
                  (fun r => numeralText (fixedNumeral r 2)) [mkPoint 510 400]))
         (Some (replicaTransform false 60)))
    = Symmetry.mkPath (Some d) None
    /\ map fst (Symmetry.commandMatches d) = ["M"%char; "L"%char].
Proof.
  destruct (stroke_replica_baked (fun r => numeralText (fixedNumeral r 2))
              (fun r => fixedNumeral r 2) [mkPoint 510 400] false 60)
    as (d & Hb & _ & Hl).
  - intros r. reflexivity.
  - discriminate.
  - right. left. reflexivity.
  - exists d. split; [exact Hb | exact Hl].
Defined.

(** ** ui.ts and drawing.ts: what the replicas of a finished stroke show *)

Section AppReplicas.

Import Symmetry App.

Variable getAllBakedEndpoints : SymmetryManager -> list Point.
Variable show : R -> str.

(** The path data of line mode. *)
Definition lineData (a b : Point) : str :=
  lit "M " ++ show (x a) ++ lit " " ++ show (y a)
  ++ lit " L " ++ show (x b) ++ lit " " ++ show (y b).

(** The path data of a stroke are those of its points: the curve through
    all of them, or the straight line from the first to the last. *)
Definition strokeData (pathData : str) (points : list Point) : Prop :=
  pathData = PathData.pointsToPathData show points
  \/ exists first rest last_,
       points = first :: rest ++ [last_] /\ pathData = lineData first last_.

(** The path element of a stroke has no transform and shows the points of
    the stroke. *)
Definition shows (s : Stroke) : Prop :=
  exists pathData,
    snd (pathElement s) = mkPath (Some pathData) None
    /\ strokeData pathData (points s).

(** The entry of a stroke in [strokePaths] is the twelve replicas
    [addStroke] made of its path element as it is now. *)
Definition replicated (sm : SymmetryManager) (s : Stroke) : Prop :=
  exists n, strokePaths sm !! strokeId s = Some (replicas s n).

Definition drawn (sm : SymmetryManager) (path : option Node)
  (finished : list Stroke) : Prop :=
  (forall p, path = Some p -> attr_transform (snd p) = None)
  /\ forall s, In s finished -> shows s /\ replicated sm s.

Definition drawnInv (app : App) : Prop :=
  drawn (symmetry app) (currentPath (drawing app)) (strokes (drawing app)).

Lemma drawn_start (sm : SymmetryManager) (path : option Node)
  (finished : list Stroke) (n : nat) (pathData : option str) :
  drawn sm path finished -> drawn sm (Some (n, mkPath pathData None)) finished.
Proof. intros [_ H]. split; [intros p [= <-]; reflexivity | exact H]. Qed.

Lemma drawn_reset (sm : SymmetryManager) (path : option Node)
  (finished : list Stroke) :
  drawn sm path finished -> drawn sm None finished.
Proof. intros [_ H]. split; [discriminate | exact H]. Qed.

Lemma drawn_update (sm : SymmetryManager) (cpe : option nat)
  (stroke points : list Point) (path : Node) (pathData : str)
  (finished : list Stroke) (next : nat) :
  coreInv sm cpe stroke (Some path) finished next ->
  drawn sm (Some path) finished ->
  drawn (fst (strokeUpdated sm cpe (mkStroke points (withData path pathData))))
        (Some (withData path pathData)) finished.
Proof.
  intros (H1 & _ & H3 & _) [Hpath Hfin].
  destruct (H3 path eq_refl) as (_ & Hcpe & _ & Hne).
  destruct (strokeUpdated_spec sm cpe (mkStroke points (withData path pathData))
              H1 Hcpe) as (_ & _ & Hsp).
  change (strokeId (mkStroke points (withData path pathData))) with (fst path)
    in Hsp.
  split.
  - intros p [= <-]. cbn [withData snd attr_transform]. apply Hpath. reflexivity.
  - intros s Hs. destruct (Hfin s Hs) as [Hshow [n Hn]]. split; [exact Hshow|].
    exists n. rewrite Hsp, lookup_insert_ne; [exact Hn|].
    intros Heq. apply (Hne s Hs). symmetry. exact Heq.
Qed.

Lemma drawn_complete (sm : SymmetryManager) (cpe : option nat)
  (stroke points : list Point) (path : Node) (pathData : str)
  (finished : list Stroke) (next : nat) :
  coreInv sm cpe stroke (Some path) finished next ->
  drawn sm (Some path) finished ->
  strokeData pathData points ->
  drawn (fst (strokeCompleted sm cpe (mkStroke points (withData path pathData))))
        None (finished ++ [mkStroke points (withData path pathData)]).
Proof.
  intros (H1 & _ & H3 & _) [Hpath Hfin] Hdata.
  destruct (H3 path eq_refl) as (_ & Hcpe & _ & Hne).
  destruct (strokeCompleted_spec sm cpe (mkStroke points (withData path pathData))
              H1 Hcpe) as (_ & _ & Hsp).
  change (strokeId (mkStroke points (withData path pathData))) with (fst path)
    in Hsp.
  split; [discriminate|].
  intros s Hs. apply in_app_or in Hs as [Hs | [<- | []]].
  - destruct (Hfin s Hs) as [Hshow [n Hn]]. split; [exact Hshow|].
    exists n. rewrite Hsp, lookup_insert_ne; [exact Hn|].
    intros Heq. apply (Hne s Hs). symmetry. exact Heq.
  - split.
    + exists pathData. cbn [pathElement Symmetry.points withData snd].
      rewrite (Hpath path eq_refl). split; [reflexivity | exact Hdata].
    + exists (nextNode sm). rewrite Hsp.
      change (strokeId (mkStroke points (withData path pathData)))
        with (fst path).
      apply lookup_insert_eq.
Qed.

Lemma drawn_undo (sm : SymmetryManager) (cpe : option nat)
  (stroke : list Point) (path : option Node) (finished : list Stroke)
  (lastStroke : Stroke) (next : nat) :
  coreInv sm cpe stroke path (finished ++ [lastStroke]) next ->
  drawn sm path (finished ++ [lastStroke]) ->
  drawn (removeStroke lastStroke sm) path finished.
Proof.
  intros (_ & _ & _ & _ & H5) [Hpath Hfin].
  rewrite map_app in H5. cbn [map] in H5.
  apply NoDup_remove in H5 as [_ Hnot]. rewrite app_nil_r in Hnot.
  split; [exact Hpath|].
  intros s Hs.
  destruct (Hfin s (in_or_app _ _ _ (or_introl Hs))) as [Hshow [n Hn]].
  split; [exact Hshow|]. exists n.
  rewrite removeStroke_strokePaths. fold (strokeId lastStroke).
  rewrite lookup_delete_ne; [exact Hn|].
  intros Heq. apply Hnot. rewrite Heq. apply in_map. exact Hs.
Qed.

Lemma drawn_clear (sm : SymmetryManager) (path : option Node)
  (finished : list Stroke) :
  drawn sm path finished -> drawn (clearAll sm) path [].
Proof. intros [Hpath _]. split; [exact Hpath | intros s []]. Qed.

Ltac drawn_fields :=
  cbn [drawing symmetry currentPathElement wedgeLayer currentStroke currentPath
       strokes isDrawing mode nextPath startPath fst snd].

Lemma handlePointerDown_drawn (app : App) (button : Z) (point : Point) :
  drawnInv app ->
  drawnInv (handlePointerDown getAllBakedEndpoints show app button point).
Proof.
  intros H. unfold handlePointerDown.
  destruct (button =? 1)%Z; [exact H|].
  destruct (Drawing.isPointInWedge point defaultCenter); unfold drawnInv;
    drawn_fields; [|exact H].
  eapply drawn_start. exact H.
Qed.

Lemma handlePointerMove_drawn (app : App) (point : Point) :
  appInv app -> drawnInv app ->
  drawnInv (fst (handlePointerMove getAllBakedEndpoints show app point)).
Proof.
  intros Hinv H. unfold handlePointerMove. cbv zeta.
  destruct (isDrawing (drawing app)); cbn [negb]; [|exact H].
  assert (Hfree : forall (flag : bool) (md : DrawMode),
    drawnInv (fst (if negb (Drawing.isPointInWedge point defaultCenter)
                 then (app, false)
                 else
                   match currentPath (drawing app) with
                   | None =>
                       (mkApp (startPath show (drawing app)
                                 (snapped getAllBakedEndpoints (symmetry app) point))
                              (symmetry app) (currentPathElement app), false)
                   | Some path =>
                       let '(sm, cpe) :=
                         strokeUpdated (symmetry app) (currentPathElement app)
                           (mkStroke (currentStroke (drawing app) ++ [point])
                              (withData path
                                 (PathData.pointsToPathData show
                                    (currentStroke (drawing app) ++ [point])))) in
                       (mkApp
                          (mkDrawing
                             (setData (wedgeLayer (drawing app))
                                (withData path
                                   (PathData.pointsToPathData show
                                      (currentStroke (drawing app) ++ [point])))
                                (PathData.pointsToPathData show
                                   (currentStroke (drawing app) ++ [point])))
                             (currentStroke (drawing app) ++ [point])
                             (Some (withData path
                                      (PathData.pointsToPathData show
                                         (currentStroke (drawing app) ++ [point]))))
                             (strokes (drawing app)) flag md
                             (nextPath (drawing app)))
                          sm cpe, false)
                   end))).
  { intros flag md.
    destruct (Drawing.isPointInWedge point defaultCenter); cbn [negb];
      [|exact H].
    destruct (currentPath (drawing app)) as [path|] eqn:Hpath.
    - pose proof (drawn_update _ _ _ (currentStroke (drawing app) ++ [point]) path
                    (PathData.pointsToPathData show
                       (currentStroke (drawing app) ++ [point]))
                    _ _
                    ltac:(unfold appInv in Hinv; rewrite Hpath in Hinv; exact Hinv)
                    ltac:(unfold drawnInv in H; rewrite Hpath in H; exact H))
        as Hu.
      destruct (strokeUpdated _ _ _) as [sm cpe]. exact Hu.
    - unfold drawnInv. drawn_fields. eapply drawn_start.
      unfold drawnInv in H. rewrite Hpath in H. exact H. }
  revert Hfree.
  destruct (mode (drawing app));
    destruct (currentPath (drawing app)) as [path|] eqn:Hpath;
    intros Hfree;
    try first [exact (Hfree true freehand) | exact (Hfree true line)].
  destruct (currentStroke (drawing app)); exact H.
Qed.

Lemma handlePointerUp_drawn (app : App) (point : Point) :
  appInv app -> drawnInv app ->
  drawnInv (fst (handlePointerUp getAllBakedEndpoints show app point)).
Proof.
  intros Hinv H. unfold handlePointerUp. cbv zeta.
  destruct (isDrawing (drawing app)); cbn [negb]; [|exact H].
  destruct (currentPath (drawing app)) as [path|] eqn:Hpath;
    [|unfold drawnInv; drawn_fields; eapply drawn_reset; exact H].
  destruct (currentStroke (drawing app)) as [|startPoint rest] eqn:Hstroke;
    [unfold drawnInv; drawn_fields; eapply drawn_reset; exact H|].
  assert (Hcore : coreInv (symmetry app) (currentPathElement app)
                          (startPoint :: rest) (Some path)
                          (strokes (drawing app)) (nextPath (drawing app)))
    by (unfold appInv in Hinv; rewrite Hpath, Hstroke in Hinv; exact Hinv).
  assert (Hdrawn : drawn (symmetry app) (Some path) (strokes (drawing app)))
    by (unfold drawnInv in H; rewrite Hpath in H; exact H).
  assert (Hfinish : forall points pathData,
    strokeData pathData points ->
    drawnInv (fst (let '(sm, cpe) :=
                   strokeCompleted (symmetry app) (currentPathElement app)
                     (mkStroke points (withData path pathData)) in
                 (mkApp
                    (mkDrawing
                       (setData (wedgeLayer (drawing app))
                                (withData path pathData) pathData)
                       [] None
                       (strokes (drawing app)
                        ++ [mkStroke points (withData path pathData)])
                       false (mode (drawing app)) (nextPath (drawing app)))
                    sm cpe, false)))).
  { intros points pathData Hdata.
    pose proof (drawn_complete _ _ _ points path pathData _ _ Hcore Hdrawn Hdata)
      as Hc.
    destruct (strokeCompleted _ _ _) as [sm cpe]. exact Hc. }
  destruct (mode (drawing app)).
  - destruct (simplified (startPoint :: rest)) as [|first srest].
    + unfold drawnInv. drawn_fields. exact Hdrawn.
    + apply Hfinish. left. reflexivity.
  - apply Hfinish. right. eexists startPoint, rest, _. split; reflexivity.
Qed.

Lemma handleUndo_drawn (app : App) :
  appInv app -> drawnInv app -> drawnInv (fst (handleUndo app)).
Proof.
  intros Hinv H. unfold handleUndo. cbv zeta.
  destruct (strokes (drawing app)) as [|first rest] eqn:Hstrokes; [exact H|].
  rewrite nth_pred_last.
  assert (Hsplit : first :: rest
                   = removelast (first :: rest)
                     ++ [List.last (first :: rest) first])
    by (apply app_removelast_last; discriminate).
  assert (Hdrawn : drawn (removeStroke (List.last (first :: rest) first)
                                       (symmetry app))
                         (currentPath (drawing app))
                         (removelast (first :: rest))).
  { eapply drawn_undo.
    - rewrite <- Hsplit, <- Hstrokes. exact Hinv.
    - rewrite <- Hsplit, <- Hstrokes. exact H. }
  destruct (isChild _ _); exact Hdrawn.
Qed.

Lemma handleClear_drawn (app : App) (confirmed : bool) :
  drawnInv app -> drawnInv (handleClear app confirmed).
Proof.
  intros H. unfold handleClear. cbv zeta.
  destruct (strokes (drawing app)) eqn:Hstrokes; [exact H|].
  destruct confirmed; [|exact H].
  unfold drawnInv. drawn_fields. eapply drawn_clear. exact H.
Qed.

Lemma step_drawn (app : App) (e : Event) :
  appInv app -> drawnInv app ->
  drawnInv (fst (step getAllBakedEndpoints show app e)).
Proof.
  intros Hinv H. destruct e; cbn [step fst].
  - apply handlePointerDown_drawn. exact H.
  - apply handlePointerMove_drawn; assumption.
  - apply handlePointerUp_drawn; assumption.
  - exact H.
  - apply handleUndo_drawn; assumption.
  - apply handleClear_drawn. exact H.
Qed.

Lemma run_from_drawn (events : list Event) :
  forall app, appInv app -> drawnInv app ->
  drawnInv (fold_left (fun a e => fst (step getAllBakedEndpoints show a e))
                      events app).
Proof.
  induction events as [|e events IH]; intros app Hinv H; [exact H|].
  cbn [fold_left]. apply IH; [apply step_inv | apply step_drawn]; assumption.
Qed.

Lemma run_drawn (events : list Event) :
  drawnInv (run getAllBakedEndpoints show events).
Proof.
  apply run_from_drawn; [apply newApp_inv|].
  split; [discriminate | intros s []].
Qed.

(** The attributes of the twelve replicas of a path element without a
    transform. *)
Lemma replicas_attributes (s : Stroke) (pathData : str) (n : nat) :
  snd (pathElement s) = mkPath (Some pathData) None ->
  map snd (replicas s n)
  = map (fun t => mkPath (Some pathData) (Some t)) replicaTransforms.
Proof.
  intros Hs. unfold replicas, replicaTransforms, ROTATION_ANGLES.
  cbn [replicasFrom replicaPair map app flat_map snd]. rewrite Hs. reflexivity.
Qed.

End AppReplicas.

(** X20.  After every sequence of pointer, mode, undo and clear events, the
    path element of each finished stroke has no transform and its data are
    those of the points of the stroke: what [pointsToPathData] writes for
    them, or in line mode the straight line from the first to the last.
    The twelve replicas registered for the stroke carry these data, one
    under each of the twelve transforms, in the order of [addStroke]. *)
Theorem finished_strokes_replicated
  (getAllBakedEndpoints : Symmetry.SymmetryManager -> list Point)
  (show : R -> str) (events : list App.Event) :
  let app := App.run getAllBakedEndpoints show events in
  Forall (fun s =>
            exists pathData paths,
              snd (Symmetry.pathElement s) = Symmetry.mkPath (Some pathData) None
              /\ strokeData show pathData (Symmetry.points s)
              /\ Symmetry.strokePaths (App.symmetry app) !! strokeId s = Some paths
              /\ map snd paths
                 = map (fun t => Symmetry.mkPath (Some pathData) (Some t))
                       replicaTransforms)
         (App.strokes (App.drawing app)).
Proof.
  intros app. apply List.Forall_forall. intros s Hs.
  destruct (run_drawn getAllBakedEndpoints show events) as [_ Hfin].
  destruct (Hfin s Hs) as [(pathData & Hpath & Hdata) [n Hn]].
  exists pathData, (replicas s n).
  split; [exact Hpath|]. split; [exact Hdata|]. split; [exact Hn|].
  apply replicas_attributes. exact Hpath.
Qed.

(** ** snapping.ts: snapping what was snapped *)

Section SnapTwice.

Import Snapping.

Lemma distance_zero (p q : Point) : distance p q = 0 -> q = p.
Proof.
  unfold distance. cbv zeta. intros H.
  apply sqrt_eq_0 in H; [|apply sum_squares_nonneg].
  pose proof (square_nonneg (x q - x p)) as Hx.
  pose proof (square_nonneg (y q - y p)) as Hy.
  assert (Hx0 : (x q - x p) * (x q - x p) = 0) by lra.
  assert (Hy0 : (y q - y p) * (y q - y p) = 0) by lra.
  apply Rmult_integral in Hx0. apply Rmult_integral in Hy0.
  destruct p, q. cbn [x y] in *. f_equal; lra.
Qed.

Lemma distance_self (p : Point) : distance p p = 0.
Proof.
  unfold distance. cbv zeta.
  replace ((x p - x p) * (x p - x p) + (y p - y p) * (y p - y p)) with 0 by ring.
  apply sqrt_0.
Qed.

(** An endpoint snaps to itself. *)
Lemma snap_endpoint (q : Point) (allEndpoints : list Point) :
  In q allEndpoints -> snapToNearestSnowflakeEndpoint q allEndpoints = q.
Proof.
  intros Hin. unfold snapToNearestSnowflakeEndpoint.
  pose proof (snap_loop q allEndpoints None I) as H.
  pose proof (distance_self q) as Hself.
  destruct (fold_left (snapStep q) allEndpoints None) as [[q' d]|].
  - destruct H as (Hd & _ & _ & _ & Hmin).
    specialize (Hmin q Hin ltac:(unfold SNAP_THRESHOLD; lra)).
    apply distance_zero.
    assert (0 <= distance q q') by (unfold distance; apply sqrt_pos).
    lra.
  - reflexivity.
Qed.

End SnapTwice.

(** X21.  Snapping is idempotent: [snapToNearestSnowflakeEndpoint] gives a
    point that it leaves where it is, whatever the endpoints.  The handlers,
    which take the snapped point when its coordinates differ from those of
    the point and the point otherwise, take the snapped point in both
    cases. *)
Theorem snapToNearestSnowflakeEndpoint_idempotent (point : Point)
  (allEndpoints : list Point) :
  Snapping.snapToNearestSnowflakeEndpoint
    (Snapping.snapToNearestSnowflakeEndpoint point allEndpoints) allEndpoints
  = Snapping.snapToNearestSnowflakeEndpoint point allEndpoints
  /\ forall (getAllBakedEndpoints : Symmetry.SymmetryManager -> list Point)
            (sm : Symmetry.SymmetryManager),
       App.snapped getAllBakedEndpoints sm point
       = App.snap getAllBakedEndpoints sm point.
Proof.
  split.
  - pose proof (snap_loop point allEndpoints None I) as H.
    unfold Snapping.snapToNearestSnowflakeEndpoint at 2 3.
    destruct (fold_left (Snapping.snapStep point) allEndpoints None)
      as [[q d]|] eqn:Hfold.
    + destruct H as (_ & _ & [[=] | Hin] & _).
      apply snap_endpoint. exact Hin.
    + unfold Snapping.snapToNearestSnowflakeEndpoint. rewrite Hfold.
      reflexivity.
  - intros getAllBakedEndpoints sm. unfold App.snapped, App.differs. cbv zeta.
    set (r := App.snap getAllBakedEndpoints sm point).
    destruct (Reqb (x r) (x point)) eqn:Hx; [|reflexivity].
    destruct (Reqb (y r) (y point)) eqn:Hy; [|reflexivity].
    apply Reqb_true_iff in Hx, Hy. cbn [negb orb].
    destruct r, point. cbn [x y] in *. subst. reflexivity.
Qed.

(** ** drawing.ts, earlier revision: the path data of a stroke, baked *)

Section StrokePipelineV1.

Import Symmetry PathData.

Variable show : R -> str.
Variable num : R -> Numeral.

Hypothesis show_num : forall r, show r = numeralText (num r).

(** The two points of the [Q] command the loop of the earlier
    [pointsToPathData] writes at [i]: the point [i] as control point, and
    the middle between it and the next point. *)
Definition quadPoints (points : list Point) (i : nat) : list (R * R) :=
  let d := mkPoint 0 0 in
  let p1 := nth i points d in
  let p2 := nth (i + 1) points d in
  [ (x p1, y p1); ((x p1 + x p2) / 2, (y p1 + y p2) / 2) ].

(** The commands the earlier [pointsToPathData] writes, with their points. *)
Definition strokeCommandsV1 (points : list Point) : list (ascii * list (R * R)) :=
  match points with
  | [] => []
  | [p] => [("M"%char, [(x p, y p)]); ("L"%char, [(x p + 1 / 10, y p)])]
  | [p0; p1] => [("M"%char, [(x p0, y p0)]); ("L"%char, [(x p1, y p1)])]
  | p0 :: p1 :: _ =>
      let lastPoint := nth (length points - 1) points (mkPoint 0 0) in
      ("M"%char, [(x p0, y p0)])
      :: ("L"%char, [(x p1, y p1)])
      :: map (fun i => ("Q"%char, quadPoints points i))
             (seq 1 (length points - 2))
      ++ [("L"%char, [(x lastPoint, y lastPoint)])]
  end.

Definition strokeGeometryV1 (points : list Point) : Geometry :=
  map (fun c : ascii * list (R * R) => (fst c, map (numPoint num) (snd c)))
      (strokeCommandsV1 points).

Lemma quad_fold (points : list Point) (l : list nat) :
  forall acc : str,
  fold_left (quadStep show points) l acc
  = acc ++ concat (map (fun i =>
                          lit " " ++ "Q"%char
                          :: runText (sourceItems
                                        (map (numPoint num) (quadPoints points i)))
                                     [])
                       l).
Proof.
  induction l as [|i l IH]; intros acc.
  - cbn [fold_left map concat]. rewrite app_nil_r. reflexivity.
  - cbn [fold_left map concat]. rewrite IH. unfold quadStep, quadPoints.
    cbv zeta. rewrite !show_num.
    cbn [map numPoint fst snd sourceItems flat_map app runText].
    unfold lit. cbn [list_ascii_of_string app].
    repeat (rewrite <- !app_assoc; cbn [app]). rewrite ?app_nil_r.
    reflexivity.
Qed.

Lemma pointsToPathDataV1_text (points : list Point) :
  pointsToPathDataV1 show points = sourceText (strokeGeometryV1 points).
Proof.
  unfold sourceText, strokeGeometryV1. rewrite map_map. cbn [fst snd].
  destruct points as [|p0 [|p1 [|p2 rest]]].
  - reflexivity.
  - cbn [strokeCommandsV1 map]. rewrite spaced_sep.
    cbn [pointsToPathDataV1 fst snd map concat numPoint sourceItems flat_map app
         runText].
    rewrite !show_num. unfold lit. cbn [list_ascii_of_string app].
    repeat (rewrite <- !app_assoc; cbn [app]). rewrite ?app_nil_r.
    reflexivity.
  - cbn [strokeCommandsV1 map]. rewrite spaced_sep.
    cbn [pointsToPathDataV1 fst snd map concat numPoint sourceItems flat_map app
         runText].
    rewrite !show_num. unfold lit. cbn [list_ascii_of_string app].
    repeat (rewrite <- !app_assoc; cbn [app]). rewrite ?app_nil_r.
    reflexivity.
  - set (points := p0 :: p1 :: p2 :: rest).
    set (lastPoint := nth (length points - 1) points (mkPoint 0 0)).
    change (pointsToPathDataV1 show points)
      with (fold_left (quadStep show points) (seq 1 (length points - 2))
                      ((lit "M " ++ show (x p0) ++ lit " " ++ show (y p0))
                       ++ lit " L " ++ show (x p1) ++ lit " " ++ show (y p1))
            ++ lit " L " ++ show (x lastPoint) ++ lit " " ++ show (y lastPoint)).
    rewrite quad_fold.
    change (strokeCommandsV1 points)
      with (("M"%char, [(x p0, y p0)])
            :: ("L"%char, [(x p1, y p1)])
            :: map (fun i => ("Q"%char, quadPoints points i))
                   (seq 1 (length points - 2))
            ++ [("L"%char, [(x lastPoint, y lastPoint)])]).
    cbn [map]. rewrite spaced_sep. cbn [map concat].
    rewrite map_app, !map_map, map_app, concat_app, map_map.
    cbn [fst snd map concat numPoint sourceItems flat_map app runText].
    rewrite !show_num. unfold lit. cbn [list_ascii_of_string app].
    repeat (rewrite <- !app_assoc; cbn [app]). rewrite ?app_nil_r.
    reflexivity.
Qed.

Lemma strokeCommandsV1_ok (points : list Point) :
  Forall (fun c : ascii * list (R * R) =>
            commandOk c /\ toUpperCase (fst c) = fst c)
         (strokeCommandsV1 points).
Proof.
  destruct points as [|p0 [|p1 [|p2 rest]]].
  - constructor.
  - repeat constructor; discriminate.
  - repeat constructor; discriminate.
  - set (points := p0 :: p1 :: p2 :: rest).
    set (lastPoint := nth (length points - 1) points (mkPoint 0 0)).
    change (strokeCommandsV1 points)
      with (("M"%char, [(x p0, y p0)])
            :: ("L"%char, [(x p1, y p1)])
            :: map (fun i => ("Q"%char, quadPoints points i))
                   (seq 1 (length points - 2))
            ++ [("L"%char, [(x lastPoint, y lastPoint)])]).
    constructor; [repeat constructor; discriminate|].
    constructor; [repeat constructor; discriminate|].
    apply Forall_app. split.
    + apply List.Forall_forall. intros c Hc.
      apply in_map_iff in Hc as (i & <- & _).
      repeat constructor; discriminate.
    + repeat constructor; discriminate.
Qed.

Lemma strokeGeometryV1_wf (points : list Point) :
  wfGeometry (strokeGeometryV1 points).
Proof.
  unfold wfGeometry, strokeGeometryV1. apply Forall_map.
  eapply List.Forall_impl; [|apply strokeCommandsV1_ok].
  intros [l pts] [[Hl Hne] _]. cbn [fst snd] in *. split; [exact Hl|].
  destruct pts; [contradiction | discriminate].
Qed.

End StrokePipelineV1.

(** X22.  The same for the earlier revision of [pointsToPathData]: for a
    stroke of more than two points it writes a move to the first point, a
    line to the second, for every inner point a quadratic curve with that
    point as control point to the middle between it and the next, and a line
    to the last point.  When numbers are written as plain decimals the
    baker reads all of these, and under each of the twelve transforms of
    [addStroke] the baked path has these commands with, for each point, the
    rounded image of the written point. *)
Theorem stroke_replica_baked_v1 (show : R -> str) (num : R -> Numeral)
  (points : list Point) (mirror : bool) (angle : Z) :
  (forall r, show r = numeralText (num r)) ->
  points <> [] -> In angle Symmetry.ROTATION_ANGLES ->
  exists d,
    Symmetry.bakeTransform
      (Symmetry.mkPath (Some (PathData.pointsToPathDataV1 show points))
                       (Some (replicaTransform mirror angle)))
    = Symmetry.mkPath (Some d) None
    /\ pathCoordinates d
       = map (fun c : ascii * list (R * R) =>
                flattenPoints
                  (map (fun p => roundPoint (replicaImage mirror angle (written num p)))
                       (snd c)))
             (strokeCommandsV1 points)
    /\ map fst (Symmetry.commandMatches d) = map fst (strokeCommandsV1 points).
Proof.
  intros Hshow Hne Hin.
  rewrite (pointsToPathDataV1_text show num Hshow).
  exists (Symmetry.transformPathData (sourceText (strokeGeometryV1 num points))
            (replicaTransform mirror angle)).
  destruct (bake_geometry _ _ (replicaTransform mirror angle)
              (strokeGeometryV1 num points)
              (replica_computes mirror angle Hin) eq_refl
              (strokeGeometryV1_wf num points))
    as (Hcoords & Hletters & _).
  split; [|split].
  - unfold Symmetry.bakeTransform.
    cbn [Symmetry.attr_transform Symmetry.attr_d].
    assert (Ht : exists c t, replicaTransform mirror angle = c :: t)
      by (destruct mirror; eexists _, _; reflexivity).
    destruct Ht as (c & t & Ht).
    assert (Hd : exists c' d',
               sourceText (strokeGeometryV1 num points) = c' :: d').
    { destruct points as [|p0 [|p1 [|p2 rest]]]; [contradiction| | |];
        eexists _, _; reflexivity. }
    destruct Hd as (c' & d' & Hd).
    rewrite Ht, Hd. reflexivity.
  - rewrite Hcoords. unfold strokeGeometryV1. rewrite map_map. cbn [snd].
    apply map_ext. intros c. rewrite map_map. reflexivity.
  - rewrite Hletters. unfold strokeGeometryV1. rewrite map_map. cbn [fst].
    apply map_ext_Forall.
    eapply List.Forall_impl; [|apply strokeCommandsV1_ok].
    intros c [_ Hup]. exact Hup.
Qed.

(** The theorem at the stroke from (510,400) over (520,380) to (530,370),
    with numbers written to two decimals, and the mirrored replica. *)
Lemma stroke_replica_baked_v1_witness :
  exists d,
    Symmetry.bakeTransform
      (Symmetry.mkPath
         (Some (PathData.pointsToPathDataV1
                  (fun r => numeralText (fixedNumeral r 2))
                  [mkPoint 510 400; mkPoint 520 380; mkPoint 530 370]))
         (Some (replicaTransform true 0)))
    = Symmetry.mkPath (Some d) None
    /\ map fst (Symmetry.commandMatches d)
       = ["M"%char; "L"%char; "Q"%char; "L"%char].
Proof.
  destruct (stroke_replica_baked_v1 (fun r => numeralText (fixedNumeral r 2))
              (fun r => fixedNumeral r 2)
              [mkPoint 510 400; mkPoint 520 380; mkPoint 530 370] true 0)
    as (d & Hb & _ & Hl).
  - intros r. reflexivity.
  - discriminate.
  - left. reflexivity.
  - exists d. split; [exact Hb | exact Hl].
Defined.
